(** * The resumable table migrator of migration_script

    A shallow embedding of [data_migrator.py] and [progress_tracker.py]:
    the per-value type converter [convert_data_for_insert], the checkpoint
    store [ProgressTracker] and the chunked transfer loop
    [migrate_table_data], together with the properties the specification
    states about them.

    Conventions of the embedding.
    - A Python [str] is a Rocq [string]; each character stands for the code
      point of the same number, so the strings covered are those over
      U+0000..U+00FF.  [lower], [upper] and [strip] follow Python on that
      range.
    - A Python [int] is a [Z].
    - A Python [float] is carried by the text that [repr] prints for it
      (the shortest decimal that reads back as the same double); reading a
      float from text or from an integer and truncating it to an integer
      are the arithmetic of the interpreter and stay operations of the
      class [FloatOps].
    - An exception is a value of [exn]; a computation that can raise
      returns a [result].
    - Calls to the logger have no effect on any value and are left out. *)

From Stdlib Require Import ZArith NArith Ascii String List Bool Lia.
From stdpp Require Import base tactics option list gmap strings sorting.

Local Open Scope Z_scope.

(** ** Exceptions and results *)

Inductive exn : Type :=
| ValueError
| JSONDecodeError        (* a subclass of ValueError *)
| TypeError
| OverflowError
| KeyError
| RecursionError
| DatabaseError          (* psycopg2.Error and its subclasses *)
| UnsupportedCodePoint.  (* a \u escape above U+00FF: outside the strings modelled *)

Inductive result (A : Type) : Type :=
| Ok (a : A)
| Raise (e : exn).
Arguments Ok {A} a.
Arguments Raise {A} e.

Global Instance result_ret : MRet result := fun A a => Ok a.

Global Instance result_bind : MBind result := fun A B k r =>
  match r with
  | Ok a => k a
  | Raise e => Raise e
  end.

Global Instance result_fmap : FMap result := fun A B f r =>
  match r with
  | Ok a => Ok (f a)
  | Raise e => Raise e
  end.

(** [except (ValueError, TypeError)]: JSONDecodeError derives from ValueError. *)
Definition is_ValueError_or_TypeError (e : exn) : bool :=
  match e with
  | ValueError | JSONDecodeError | TypeError => true
  | _ => false
  end.

Definition is_JSONDecodeError (e : exn) : bool :=
  match e with
  | JSONDecodeError => true
  | _ => false
  end.

(** ** Strings *)

Module Str.

Definition code (c : ascii) : N := N_of_ascii c.

(** The double quote, U+0022. *)
Definition dquote : ascii := "034"%char.

(** A text written with single quotes in the place of its double quotes. *)
Definition dq : string → string :=
  fix go (s : string) : string :=
    match s with
    | EmptyString => EmptyString
    | String c s' => String (if Ascii.eqb c "'"%char then dquote else c) (go s')
    end.

Definition in_range (lo hi : N) (c : ascii) : bool :=
  ((lo <=? code c) && (code c <=? hi))%N.

(** [str.isspace] on U+0000..U+00FF. *)
Definition isspace (c : ascii) : bool :=
  in_range 9 13 c || in_range 28 32 c || (code c =? 133)%N || (code c =? 160)%N.

Definition isdigit (c : ascii) : bool := in_range 48 57 c.

Definition digit_value (c : ascii) : Z := Z.of_N (code c) - 48.

Definition lower_char (c : ascii) : ascii :=
  if in_range 65 90 c || (in_range 192 222 c && negb (code c =? 215)%N)
  then ascii_of_N (code c + 32) else c.

(** The three lower-case letters of the range whose upper case is not a
    single character of the range (U+00B5, U+00DF, U+00FF) are kept: their
    upper-case forms contain none of the letters of "ARRAY", the only text
    looked for in an upper-cased string. *)
Definition upper_char (c : ascii) : ascii :=
  if in_range 97 122 c || (in_range 224 254 c && negb (code c =? 247)%N)
  then ascii_of_N (code c - 32) else c.

Fixpoint map (f : ascii → ascii) (s : string) : string :=
  match s with
  | EmptyString => EmptyString
  | String c s' => String (f c) (map f s')
  end.

Definition lower : string → string := map lower_char.
Definition upper : string → string := map upper_char.

Fixpoint rev_app (s acc : string) : string :=
  match s with
  | EmptyString => acc
  | String c s' => rev_app s' (String c acc)
  end.
Definition rev (s : string) : string := rev_app s EmptyString.

Fixpoint lstrip_by (p : ascii → bool) (s : string) : string :=
  match s with
  | EmptyString => EmptyString
  | String c s' => if p c then lstrip_by p s' else s
  end.

Definition strip_by (p : ascii → bool) (s : string) : string :=
  rev (lstrip_by p (rev (lstrip_by p s))).

(** [s.strip()] *)
Definition strip : string → string := strip_by isspace.

Fixpoint mem (c : ascii) (chars : string) : bool :=
  match chars with
  | EmptyString => false
  | String d r => if Ascii.eqb c d then true else mem c r
  end.

(** [s.strip(chars)] *)
Definition strip_chars (chars : string) : string → string :=
  strip_by (fun c => mem c chars).

(** [s.startswith(p)] *)
Fixpoint startswith (p s : string) : bool :=
  match p, s with
  | EmptyString, _ => true
  | String a p', String b s' => Ascii.eqb a b && startswith p' s'
  | String _ _, EmptyString => false
  end.

(** [s.endswith(p)] *)
Definition endswith (p s : string) : bool := startswith (rev p) (rev s).

(** [p in s] *)
Fixpoint contains (p s : string) : bool :=
  startswith p s ||
  match s with
  | EmptyString => false
  | String _ s' => contains p s'
  end.

Fixpoint replace_go (old new : string) (skip : nat) (s : string) : string :=
  match s with
  | EmptyString => EmptyString
  | String c s' =>
      match skip with
      | S k => replace_go old new k s'
      | O =>
          if startswith old s
          then new +:+ replace_go old new (String.length old - 1) s'
          else String c (replace_go old new O s')
      end
  end.

(** [s.replace(old, new)] for a non-empty [old]. *)
Definition replace (old new s : string) : string := replace_go old new O s.

Fixpoint split_go (sep : ascii) (cur : string) (s : string) : list string :=
  match s with
  | EmptyString => [rev cur]
  | String c s' =>
      if Ascii.eqb c sep then rev cur :: split_go sep EmptyString s'
      else split_go sep (String c cur) s'
  end.

(** [s.split(sep)] for a separator of one character. *)
Definition split (sep : ascii) (s : string) : list string :=
  split_go sep EmptyString s.

(** [sep.join(l)] *)
Fixpoint join (sep : string) (l : list string) : string :=
  match l with
  | [] => EmptyString
  | [x] => x
  | x :: l' => x +:+ sep +:+ join sep l'
  end.

Definition tail (s : string) : string :=
  match s with
  | EmptyString => EmptyString
  | String _ s' => s'
  end.

(** [s[1:-1]] *)
Definition slice_1_m1 (s : string) : string := rev (tail (rev (tail s))).

Definition is_empty (s : string) : bool :=
  match s with
  | EmptyString => true
  | _ => false
  end.

Definition digit_char (n : N) : ascii := ascii_of_N (48 + n mod 10).

Fixpoint of_N_go (fuel : nat) (n : N) (acc : string) : string :=
  match fuel with
  | O => acc
  | S fuel' =>
      let acc' := String (digit_char n) acc in
      if (n / 10 =? 0)%N then acc' else of_N_go fuel' (n / 10)%N acc'
  end.

Definition of_N (n : N) : string := of_N_go (S (N.size_nat n)) n EmptyString.

(** [str(z)] for an integer. *)
Definition of_Z (z : Z) : string :=
  match z with
  | Z0 => "0"
  | Zpos p => of_N (Npos p)
  | Zneg p => "-" +:+ of_N (Npos p)
  end.

Definition hex_char (n : N) : ascii :=
  if (n <? 10)%N then ascii_of_N (48 + n) else ascii_of_N (87 + n).

(** Two lower-case hexadecimal digits of a character code. *)
Definition hex2 (c : ascii) : string :=
  String (hex_char (code c / 16)) (String (hex_char (code c mod 16)) EmptyString).

End Str.


(** ** Python values *)

#[local] Set Warnings "-register-all".

(** The values a cell, a decoded JSON document or a converted cell can be.
    [POther] stands for an object of any other class (Decimal, datetime,
    memoryview, ...), known by the texts [str] and [repr] give for it. *)
Inductive pyval : Type :=
| PNone
| PBool (b : bool)
| PInt (z : Z)
| PFloat (repr : string)
| PStr (s : string)
| PList (l : list pyval)
| PTuple (l : list pyval)
| PDict (d : list (string * pyval))
| POther (text repr : string).

Module Py.

(** The characters [repr] of a string writes as they are: the printable
    ones, U+0020..U+007E and U+00A1..U+00FF without U+00AD. *)
Definition isprintable (c : ascii) : bool :=
  Str.in_range 32 126 c || (Str.in_range 161 255 c && negb (Str.code c =? 173)%N).

Definition repr_char (quote c : ascii) : string :=
  if Ascii.eqb c quote || Ascii.eqb c "\"%char then String "\"%char (String c EmptyString)
  else if (Str.code c =? 9)%N then "\t"
  else if (Str.code c =? 10)%N then "\n"
  else if (Str.code c =? 13)%N then "\r"
  else if isprintable c then String c EmptyString
  else "\x" +:+ Str.hex2 c.

Fixpoint repr_chars (quote : ascii) (s : string) : string :=
  match s with
  | EmptyString => EmptyString
  | String c s' => repr_char quote c +:+ repr_chars quote s'
  end.

(** [repr(s)] for a string: single quotes, unless the string has a single
    quote and no double quote. *)
Definition repr_str (s : string) : string :=
  let quote : ascii :=
    if Str.mem "'"%char s && negb (Str.mem Str.dquote s) then Str.dquote else "'"%char in
  String quote (repr_chars quote s) +:+ String quote EmptyString.

(** [repr(v)] *)
Fixpoint repr (v : pyval) : string :=
  match v with
  | PNone => "None"
  | PBool true => "True"
  | PBool false => "False"
  | PInt z => Str.of_Z z
  | PFloat r => r
  | PStr s => repr_str s
  | PList l => "[" +:+ Str.join ", " (List.map repr l) +:+ "]"
  | PTuple l =>
      match l with
      | [x] => "(" +:+ repr x +:+ ",)"
      | _ => "(" +:+ Str.join ", " (List.map repr l) +:+ ")"
      end
  | PDict d =>
      "{" +:+ Str.join ", "
               (List.map (fun kv => repr_str (fst kv) +:+ ": " +:+ repr (snd kv)) d)
          +:+ "}"
  | POther _ r => r
  end.

(** [str(v)] *)
Definition str (v : pyval) : string :=
  match v with
  | PStr s => s
  | POther t _ => t
  | _ => repr v
  end.

Fixpoint digits_go (s : string) (acc : Z) (after_digit : bool) : option Z :=
  match s with
  | EmptyString => if after_digit then Some acc else None
  | String c s' =>
      if Str.isdigit c then digits_go s' (10 * acc + Str.digit_value c) true
      else if Ascii.eqb c "_"%char && after_digit then digits_go s' acc false
      else None
  end.

(** The white space [int] accepts around a number: that of [strip]
    without U+001C..U+001F. *)
Definition int_space (c : ascii) : bool :=
  Str.in_range 9 13 c || Ascii.eqb c " "%char
  || (Str.code c =? 133)%N || (Str.code c =? 160)%N.

(** [int(s)] for a string, in base ten: surrounding white space, an
    optional sign, then digits, single underscores allowed between digits.
    [None] is ValueError.  (The interpreter's cap on the number of digits
    is not modelled.) *)
Definition int_of_str (s : string) : option Z :=
  match Str.strip_by int_space s with
  | String "-" ds => Z.opp <$> digits_go ds 0 false
  | String "+" ds => digits_go ds 0 false
  | ds => digits_go ds 0 false
  end.

(** The arithmetic of floats that the interpreter supplies: [float(s)] for
    a string ([None] is ValueError), [float(z)] for an integer ([None] is
    OverflowError) and [int(x)] for a float (ValueError for a NaN,
    OverflowError for an infinity).  Floats are given by their [repr]. *)
Class FloatOps : Type := {
  float_of_str : string → option string;
  float_of_int : Z → option string;
  int_of_float : string → result Z;
}.

Section with_floats.
Context `{FloatOps}.

(** [int(v)]; for an object of another class, the case of one that has
    no conversion to an integer. *)
Definition int (v : pyval) : result Z :=
  match v with
  | PInt z => Ok z
  | PBool b => Ok (if b then 1 else 0)
  | PFloat r => int_of_float r
  | PStr s => match int_of_str s with Some z => Ok z | None => Raise ValueError end
  | _ => Raise TypeError
  end.

(** [float(v)] *)
Definition float (v : pyval) : result string :=
  match v with
  | PInt z => match float_of_int z with Some r => Ok r | None => Raise OverflowError end
  | PBool b =>
      match float_of_int (if b then 1 else 0) with
      | Some r => Ok r
      | None => Raise OverflowError
      end
  | PFloat r => Ok r
  | PStr s => match float_of_str s with Some r => Ok r | None => Raise ValueError end
  | _ => Raise TypeError
  end.
End with_floats.

End Py.

(** ** The json module: [json.loads] and [json.dumps] with default options *)

Module Json.

Definition is_ws (c : ascii) : bool :=
  Ascii.eqb c " "%char || (Str.code c =? 9)%N || (Str.code c =? 10)%N || (Str.code c =? 13)%N.

Definition skip_ws : string → string := Str.lstrip_by is_ws.

Fixpoint span (p : ascii → bool) (s : string) : string * string :=
  match s with
  | EmptyString => (EmptyString, EmptyString)
  | String c s' =>
      if p c then let '(a, b) := span p s' in (String c a, b)
      else (EmptyString, s)
  end.

Fixpoint drop (n : nat) (s : string) : string :=
  match n, s with
  | S k, String _ s' => drop k s'
  | _, _ => s
  end.

Definition hex_value (c : ascii) : option N :=
  if Str.isdigit c then Some (Str.code c - 48)%N
  else if Str.in_range 97 102 c then Some (Str.code c - 87)%N
  else if Str.in_range 65 70 c then Some (Str.code c - 55)%N
  else None.

Definition simple_escape (c : ascii) : option ascii :=
  if Ascii.eqb c Str.dquote then Some Str.dquote
  else if Ascii.eqb c "\"%char then Some "\"%char
  else if Ascii.eqb c "/"%char then Some "/"%char
  else if Ascii.eqb c "b"%char then Some (ascii_of_N 8)
  else if Ascii.eqb c "f"%char then Some (ascii_of_N 12)
  else if Ascii.eqb c "n"%char then Some (ascii_of_N 10)
  else if Ascii.eqb c "r"%char then Some (ascii_of_N 13)
  else if Ascii.eqb c "t"%char then Some (ascii_of_N 9)
  else None.

(** The text of a string literal after its opening quote, up to the closing
    one; control characters are refused (strict mode). *)
Fixpoint scanstring (s : string) (acc : string) : result (string * string) :=
  match s with
  | EmptyString => Raise JSONDecodeError
  | String c s1 =>
      if Ascii.eqb c Str.dquote then Ok (Str.rev acc, s1)
      else if Ascii.eqb c "\"%char then
        match s1 with
        | EmptyString => Raise JSONDecodeError
        | String e s2 =>
            if Ascii.eqb e "u"%char then
              match s2 with
              | String h1 (String h2 (String h3 (String h4 s6))) =>
                  match hex_value h1, hex_value h2, hex_value h3, hex_value h4 with
                  | Some a, Some b, Some c', Some d =>
                      let n := (((a * 16 + b) * 16 + c') * 16 + d)%N in
                      if (n <? 256)%N then scanstring s6 (String (ascii_of_N n) acc)
                      else Raise UnsupportedCodePoint
                  | _, _, _, _ => Raise JSONDecodeError
                  end
              | _ => Raise JSONDecodeError
              end
            else
              match simple_escape e with
              | Some ch => scanstring s2 (String ch acc)
              | None => Raise JSONDecodeError
              end
        end
      else if (Str.code c <? 32)%N then Raise JSONDecodeError
      else scanstring s1 (String c acc)
  end.

(** The longest number literal at the head of the text: an optional minus
    sign, then a zero or a digit sequence that does not start with zero;
    then, when a digit follows it, a point and digits; then, when digits
    follow it, an e or E with an optional sign, and digits.  Gives the
    integer part, the fraction and exponent parts (empty when absent) and
    the rest of the text. *)
Definition match_number (s : string) : option (string * string * string) :=
  let '(sign, s1) :=
    match s with
    | String "-" r => ("-", r)
    | _ => (EmptyString, s)
    end in
  let int_part :=
    match s1 with
    | String c s2 =>
        if Ascii.eqb c "0"%char then Some (String c EmptyString, s2)
        else if Str.in_range 49 57 c then
          let '(ds, r) := span Str.isdigit s2 in Some (String c ds, r)
        else None
    | EmptyString => None
    end in
  match int_part with
  | None => None
  | Some (ip, r) =>
      let '(frac, r1) :=
        match r with
        | String "." t =>
            let '(ds, t') := span Str.isdigit t in
            if Str.is_empty ds then (EmptyString, r) else ("." +:+ ds, t')
        | _ => (EmptyString, r)
        end in
      let '(exp, r2) :=
        match r1 with
        | String e t =>
            if Ascii.eqb e "e"%char || Ascii.eqb e "E"%char then
              let '(sg, u) :=
                match t with
                | String "+" t' => ("+", t')
                | String "-" t' => ("-", t')
                | _ => (EmptyString, t)
                end in
              let '(ds, u') := span Str.isdigit u in
              if Str.is_empty ds then (EmptyString, r1)
              else (String e sg +:+ ds, u')
            else (EmptyString, r1)
        | EmptyString => (EmptyString, r1)
        end in
      Some (sign +:+ ip, frac +:+ exp, r2)
  end.

(** [dict(pairs)]: a repeated key keeps its first place and takes the last value. *)
Fixpoint dict_set (d : list (string * pyval)) (k : string) (v : pyval)
  : list (string * pyval) :=
  match d with
  | [] => [(k, v)]
  | (k', v') :: d' => if String.eqb k k' then (k, v) :: d' else (k', v') :: dict_set d' k v
  end.

Section with_floats.
Context `{Py.FloatOps}.

Definition number_value (int_part rest_part : string) : result pyval :=
  if Str.is_empty rest_part then
    match Py.int_of_str int_part with
    | Some z => Ok (PInt z)
    | None => Raise ValueError
    end
  else
    match Py.float_of_str (int_part +:+ rest_part) with
    | Some r => Ok (PFloat r)
    | None => Raise ValueError
    end.

(** The scanner, on a text whose leading white space is already skipped.
    Every call on a shorter text takes one unit of [fuel]. *)
Fixpoint parse_value (fuel : nat) (s : string) {struct fuel}
  : result (pyval * string) :=
  match fuel with
  | O => Raise RecursionError
  | S fuel' =>
      match s with
      | EmptyString => Raise JSONDecodeError
      | String c s' =>
          if Ascii.eqb c Str.dquote then
            '(str, r) ← scanstring s' EmptyString; Ok (PStr str, r)
          else if Ascii.eqb c "{"%char then
            let s1 := skip_ws s' in
            match s1 with
            | String "}" r => Ok (PDict [], r)
            | String "034" _ => parse_members fuel' s1 []
            | _ => Raise JSONDecodeError
            end
          else if Ascii.eqb c "["%char then
            let s1 := skip_ws s' in
            match s1 with
            | String "]" r => Ok (PList [], r)
            | _ => parse_elements fuel' s1 []
            end
          else if Str.startswith "null" s then Ok (PNone, drop 4 s)
          else if Str.startswith "true" s then Ok (PBool true, drop 4 s)
          else if Str.startswith "false" s then Ok (PBool false, drop 5 s)
          else
            match match_number s with
            | Some (ip, rp, r) => v ← number_value ip rp; Ok (v, r)
            | None =>
                if Str.startswith "NaN" s then Ok (PFloat "nan", drop 3 s)
                else if Str.startswith "Infinity" s then Ok (PFloat "inf", drop 8 s)
                else if Str.startswith "-Infinity" s then Ok (PFloat "-inf", drop 9 s)
                else Raise JSONDecodeError
            end
      end
  end
with parse_elements (fuel : nat) (s : string) (acc : list pyval) {struct fuel}
  : result (pyval * string) :=
  match fuel with
  | O => Raise RecursionError
  | S fuel' =>
      '(v, r) ← parse_value fuel' s;
      match skip_ws r with
      | String "]" r' => Ok (PList (List.rev (v :: acc)), r')
      | String "," r' => parse_elements fuel' (skip_ws r') (v :: acc)
      | _ => Raise JSONDecodeError
      end
  end
with parse_members (fuel : nat) (s : string) (acc : list (string * pyval))
       {struct fuel} : result (pyval * string) :=
  match fuel with
  | O => Raise RecursionError
  | S fuel' =>
      match s with
      | String "034" s1 =>
          '(k, r) ← scanstring s1 EmptyString;
          match skip_ws r with
          | String ":" r1 =>
              '(v, r2) ← parse_value fuel' (skip_ws r1);
              match skip_ws r2 with
              | String "}" r3 => Ok (PDict (dict_set acc k v), r3)
              | String "," r3 => parse_members fuel' (skip_ws r3) (dict_set acc k v)
              | _ => Raise JSONDecodeError
              end
          | _ => Raise JSONDecodeError
          end
      | _ => Raise JSONDecodeError
      end
  end.

(** [json.loads(s)]: one value, white space allowed around it.  The fuel
    covers every text (no call chain is longer than twice the text);
    the interpreter's own recursion limit is not modelled. *)
Definition loads (s : string) : result pyval :=
  '(v, r) ← parse_value (2 * String.length s + 2) (skip_ws s);
  if Str.is_empty (skip_ws r) then Ok v else Raise JSONDecodeError.

End with_floats.

Definition escape_char (c : ascii) : string :=
  if Ascii.eqb c Str.dquote then String "\"%char (String Str.dquote EmptyString)
  else if Ascii.eqb c "\"%char then "\\"
  else if (Str.code c =? 8)%N then "\b"
  else if (Str.code c =? 12)%N then "\f"
  else if (Str.code c =? 10)%N then "\n"
  else if (Str.code c =? 13)%N then "\r"
  else if (Str.code c =? 9)%N then "\t"
  else if Str.in_range 32 126 c then String c EmptyString
  else "\u00" +:+ Str.hex2 c.

Fixpoint escape_chars (s : string) : string :=
  match s with
  | EmptyString => EmptyString
  | String c s' => escape_char c +:+ escape_chars s'
  end.

(** A string as JSON text ([ensure_ascii=True]). *)
Definition encode_str (s : string) : string :=
  String Str.dquote (escape_chars s +:+ String Str.dquote EmptyString).

Definition encode_float (r : string) : string :=
  if String.eqb r "nan" then "NaN"
  else if String.eqb r "inf" then "Infinity"
  else if String.eqb r "-inf" then "-Infinity"
  else r.

(** [json.dumps(v)] with default options; TypeError for an object the
    encoder does not know. *)
Fixpoint dumps (v : pyval) : result string :=
  match v with
  | PNone => Ok "null"
  | PBool true => Ok "true"
  | PBool false => Ok "false"
  | PInt z => Ok (Str.of_Z z)
  | PFloat r => Ok (encode_float r)
  | PStr s => Ok (encode_str s)
  | PList l | PTuple l =>
      items ← (fix go (l : list pyval) : result (list string) :=
                 match l with
                 | [] => Ok []
                 | x :: l' => t ← dumps x; ts ← go l'; Ok (t :: ts)
                 end) l;
      Ok ("[" +:+ Str.join ", " items +:+ "]")
  | PDict d =>
      items ← (fix go (d : list (string * pyval)) : result (list string) :=
                 match d with
                 | [] => Ok []
                 | kv :: d' =>
                     t ← dumps (snd kv); ts ← go d';
                     Ok ((encode_str (fst kv) +:+ ": " +:+ t) :: ts)
                 end) d;
      Ok ("{" +:+ Str.join ", " items +:+ "}")
  | POther _ _ => Raise TypeError
  end.

Fixpoint spaces (n : nat) : string :=
  match n with
  | O => EmptyString
  | S k => String " " (spaces k)
  end.

Definition newline_indent (n : nat) : string := String (ascii_of_N 10) (spaces n).

(** [json.dumps(v, indent=step)] at nesting depth [level]. *)
Fixpoint dumps_indent (step level : nat) (v : pyval) : result string :=
  let inner := newline_indent (step * S level) in
  let outer := newline_indent (step * level) in
  match v with
  | PList [] | PTuple [] => Ok "[]"
  | PDict [] => Ok "{}"
  | PList l | PTuple l =>
      items ← (fix go (l : list pyval) : result (list string) :=
                 match l with
                 | [] => Ok []
                 | x :: l' => t ← dumps_indent step (S level) x; ts ← go l'; Ok (t :: ts)
                 end) l;
      Ok ("[" +:+ inner +:+ Str.join ("," +:+ inner) items +:+ outer +:+ "]")
  | PDict d =>
      items ← (fix go (d : list (string * pyval)) : result (list string) :=
                 match d with
                 | [] => Ok []
                 | kv :: d' =>
                     t ← dumps_indent step (S level) (snd kv); ts ← go d';
                     Ok ((encode_str (fst kv) +:+ ": " +:+ t) :: ts)
                 end) d;
      Ok ("{" +:+ inner +:+ Str.join ("," +:+ inner) items +:+ outer +:+ "}")
  | _ => dumps v
  end.

End Json.

(** ** data_migrator.py: [DataMigrator.convert_data_for_insert] *)

Section converter.
Context `{Py.FloatOps}.

Definition str_in (s : string) (l : list string) : bool :=
  existsb (String.eqb s) l.

Definition integer_types : list string :=
  ["bigint"; "int8"; "integer"; "int"; "int4"; "smallint"; "int2"].
Definition float_types : list string :=
  ["real"; "float4"; "double precision"; "float8"; "numeric"; "decimal"].
Definition boolean_types : list string := ["boolean"; "bool"].
Definition true_words : list string := ["true"; "t"; "1"; "yes"; "on"].

(** [column_type.endswith('[]') or 'ARRAY' in column_type.upper()] *)
Definition is_array_type (column_type : string) : bool :=
  Str.endswith "[]" column_type || Str.contains "ARRAY" (Str.upper column_type).

(** [column_type.replace('[]', '').strip().lower()] *)
Definition base_type_of (column_type : string) : string :=
  Str.lower (Str.strip (Str.replace "[]" EmptyString column_type)).

(** [item.strip(chars)] for the two quote characters. *)
Definition strip_quotes : string → string := Str.strip_chars (String Str.dquote "'").

(** The [try] block of the loop over a curly-brace literal (lines 61-70):
    the value appended for one non-empty, trimmed [item]. *)
Definition coerce_brace_item (base_type item : string) : result pyval :=
  if str_in base_type integer_types then z ← Py.int (PStr item); Ok (PInt z)
  else if str_in base_type float_types then r ← Py.float (PStr item); Ok (PFloat r)
  else if str_in base_type boolean_types then
    Ok (PBool (str_in (Str.lower item) true_words))
  else Ok (PStr (strip_quotes item)).

(** The [try] with its [except (ValueError, TypeError)] (lines 61-73). *)
Definition convert_brace_item (base_type item : string) : result pyval :=
  match coerce_brace_item base_type item with
  | Ok v => Ok v
  | Raise e =>
      if is_ValueError_or_TypeError e then Ok (PStr (strip_quotes item))
      else Raise e
  end.

(** The loop over [inner.split(',')] (lines 54-73): each piece is
    trimmed, an empty piece is skipped. *)
Fixpoint convert_brace_items (column_type : string) (items : list string)
  : result (list pyval) :=
  match items with
  | [] => Ok []
  | item :: rest =>
      let item := Str.strip item in
      if Str.is_empty item then convert_brace_items column_type rest
      else
        v ← convert_brace_item (base_type_of column_type) item;
        vs ← convert_brace_items column_type rest;
        Ok (v :: vs)
  end.

(** The [try] block over one element of a decoded JSON array (lines
    85-91). *)
Definition coerce_json_item (base_type : string) (item : pyval) : result pyval :=
  if str_in base_type integer_types then z ← Py.int item; Ok (PInt z)
  else if str_in base_type float_types then r ← Py.float item; Ok (PFloat r)
  else Ok item.

(** With its [except (ValueError, TypeError)] (lines 85-93). *)
Definition convert_json_item (base_type : string) (item : pyval) : result pyval :=
  match coerce_json_item base_type item with
  | Ok v => Ok v
  | Raise e => if is_ValueError_or_TypeError e then Ok item else Raise e
  end.

Fixpoint convert_json_items (base_type : string) (items : list pyval)
  : result (list pyval) :=
  match items with
  | [] => Ok []
  | item :: rest =>
      v ← convert_json_item base_type item;
      vs ← convert_json_items base_type rest;
      Ok (v :: vs)
  end.

(** The branch for JSON and JSONB columns (lines 32-41). *)
Definition convert_json (value : pyval) : result pyval :=
  match value with
  | PDict _ | PList _ => PStr <$> Json.dumps value
  | PStr s =>
      match Json.loads s with
      | Ok _ => Ok value
      | Raise e =>
          if is_JSONDecodeError e then PStr <$> Json.dumps value else Raise e
      end
  | _ => PStr <$> Json.dumps value
  end.

(** The branch for array columns (lines 44-102). *)
Definition convert_array (value : pyval) (column_type : string) : result pyval :=
  match value with
  | PList l | PTuple l => Ok (PList l)
  | PStr s =>
      if Str.startswith "{" s && Str.endswith "}" s then
        let inner := Str.strip (Str.slice_1_m1 s) in
        if Str.is_empty inner then Ok (PList [])
        else PList <$> convert_brace_items column_type (Str.split "," inner)
      else if Str.startswith "[" s && Str.endswith "]" s then
        match Json.loads s with
        | Ok (PList items) =>
            PList <$> convert_json_items (base_type_of column_type) items
        | Ok parsed_array => Ok parsed_array
        | Raise e =>
            if is_JSONDecodeError e then Ok (PList [value]) else Raise e
        end
      else Ok (PList [value])
  | _ => Ok (PList [value])
  end.

(** [convert_data_for_insert(value, column_type)]; a [column_type] of
    [None] is an absent one. *)
Definition convert_data_for_insert (value : pyval) (column_type : option string)
  : result pyval :=
  match value with
  | PNone => Ok PNone
  | _ =>
      let column_type := default "text" column_type in
      if str_in (Str.lower column_type) ["json"; "jsonb"] then convert_json value
      else if is_array_type column_type then convert_array value column_type
      else if Str.contains "vector" (Str.lower column_type) then
        match value with
        | PList l | PTuple l =>
            Ok (PStr ("[" +:+ Str.join "," (List.map Py.str l) +:+ "]"))
        | _ => Ok value
        end
      else
        match value with
        | PDict _ | PList _ => PStr <$> Json.dumps value
        | _ => Ok value
        end
  end.

End converter.

(** ** progress_tracker.py *)

(** The dataclass [MigrationProgress], with the types it declares. *)
Record MigrationProgress : Type := {
  table_name : string;
  total_rows : Z;
  migrated_rows : Z;
  last_primary_key : option string;
  completed : bool;
}.

Global Instance MigrationProgress_eq_dec : EqDecision MigrationProgress.
Proof. solve_decision. Defined.

(** What is found at the path of the progress file. *)
Inductive file_state : Type :=
| FileMissing                  (* [os.path.exists] is false *)
| FileUnreadable               (* [open] or the read raises *)
| FileContent (text : string).

Section progress_tracker.
Context `{Py.FloatOps}.

(** The state of a [ProgressTracker]: the dictionary [progress_data] and
    the file at [progress_file]. *)
Record ProgressTracker : Type := {
  progress_data : gmap string MigrationProgress;
  progress_file : file_state;
}.

Definition field_names : list string :=
  ["table_name"; "total_rows"; "migrated_rows"; "last_primary_key"; "completed"].

Definition dict_get (d : list (string * pyval)) (k : string) : option pyval :=
  snd <$> List.find (fun kv => String.eqb (fst kv) k) d.

(** The call of the constructor [MigrationProgress] with one decoded entry
    as its keyword arguments.  TypeError when
    the entry is no mapping, names a field the class does not have or
    lacks one of the three fields without a default.  The constructor
    checks no types: an entry whose values are of other types than the
    declared ones is kept by Python as it is; the typed record cannot hold
    it and the result is then [Ok None]. *)
Definition make_progress (entry : pyval) : result (option MigrationProgress) :=
  match entry with
  | PDict d =>
      if forallb (fun kv => str_in (fst kv) field_names) d then
        match dict_get d "table_name", dict_get d "total_rows",
              dict_get d "migrated_rows" with
        | Some tn, Some tr, Some mr =>
            Ok (match tn, tr, mr,
                      default PNone (dict_get d "last_primary_key"),
                      default (PBool false) (dict_get d "completed") with
                | PStr n, PInt t, PInt m, PNone, PBool c =>
                    Some {| table_name := n; total_rows := t; migrated_rows := m;
                            last_primary_key := None; completed := c |}
                | PStr n, PInt t, PInt m, PStr k, PBool c =>
                    Some {| table_name := n; total_rows := t; migrated_rows := m;
                            last_primary_key := Some k; completed := c |}
                | _, _, _, _, _ => None
                end)
        | _, _, _ => Raise TypeError
        end
      else Raise TypeError
  | _ => Raise TypeError
  end.

Fixpoint make_entries (entries : list (string * pyval))
  : result (list (string * option MigrationProgress)) :=
  match entries with
  | [] => Ok []
  | (table, entry) :: rest =>
      p ← make_progress entry; ps ← make_entries rest; Ok ((table, p) :: ps)
  end.

(** The dictionary the comprehension builds: a later entry replaces an
    earlier one of the same table. *)
Definition entries_map (l : list (string * option MigrationProgress))
  : option (gmap string MigrationProgress) :=
  foldl (fun acc tp => m ← acc; p ← snd tp; Some (<[fst tp := p]> m)) (Some ∅) l.

(** The [try] block of [_load_progress]: [json.load] and the dictionary
    comprehension over [data.items()].  A document that is no dictionary has
    no [items] (AttributeError, caught like every other exception).
    [Ok None] marks a file outside the model: one with values the typed
    record cannot hold, or with an escaped character above U+00FF. *)
Definition read_progress (text : string)
  : result (option (gmap string MigrationProgress)) :=
  match Json.loads text with
  | Raise UnsupportedCodePoint => Ok None
  | Raise e => Raise e
  | Ok (PDict entries) => l ← make_entries entries; Ok (entries_map l)
  | Ok _ => Raise TypeError
  end.

(** [_load_progress]: every exception of the [try] block gives the empty
    dictionary. *)
Definition _load_progress (f : file_state)
  : option (gmap string MigrationProgress) :=
  match f with
  | FileMissing => Some ∅
  | FileUnreadable => Some ∅
  | FileContent text =>
      match read_progress text with
      | Ok m => m
      | Raise _ => Some ∅
      end
  end.

(** [ProgressTracker.__init__] *)
Definition ProgressTracker_init (f : file_state) : option ProgressTracker :=
  m ← _load_progress f; Some {| progress_data := m; progress_file := f |}.

(** An object of the class as the constructor builds it from a decoded
    entry, whatever the types of the values: the fields hold what the file
    gives, and the two fields with a default hold it when the entry lacks
    them. *)
Record loaded_progress : Type := {
  loaded_table_name : pyval;
  loaded_total_rows : pyval;
  loaded_migrated_rows : pyval;
  loaded_last_primary_key : pyval;
  loaded_completed : pyval;
}.

(** The call of the constructor with one decoded entry as its keyword
    arguments, whatever the entry is. *)
Definition construct_progress (entry : pyval) : result loaded_progress :=
  match entry with
  | PDict d =>
      if forallb (fun kv => str_in (fst kv) field_names) d then
        match dict_get d "table_name", dict_get d "total_rows",
              dict_get d "migrated_rows" with
        | Some tn, Some tr, Some mr =>
            Ok {| loaded_table_name := tn; loaded_total_rows := tr;
                  loaded_migrated_rows := mr;
                  loaded_last_primary_key :=
                    default PNone (dict_get d "last_primary_key");
                  loaded_completed := default (PBool false) (dict_get d "completed") |}
        | _, _, _ => Raise TypeError
        end
      else Raise TypeError
  | _ => Raise TypeError
  end.

Fixpoint construct_entries (entries : list (string * pyval))
  : result (list (string * loaded_progress)) :=
  match entries with
  | [] => Ok []
  | (table, entry) :: rest =>
      o ← construct_progress entry; os ← construct_entries rest; Ok ((table, o) :: os)
  end.

(** [_load_progress] with the objects as they are built: the dictionary it
    returns for any file, [None] only for a text with an escaped character
    above U+00FF. *)
Definition load_objects (f : file_state) : option (gmap string loaded_progress) :=
  match f with
  | FileMissing => Some ∅
  | FileUnreadable => Some ∅
  | FileContent text =>
      match Json.loads text with
      | Raise UnsupportedCodePoint => None
      | Raise _ => Some ∅
      | Ok (PDict entries) =>
          match construct_entries entries with
          | Ok l => Some (foldl (fun acc tp => <[fst tp := snd tp]> acc) ∅ l)
          | Raise _ => Some ∅
          end
      | Ok _ => Some ∅
      end
  end.

(** The object with the declared types, when its values have them. *)
Definition typed_progress (o : loaded_progress) : option MigrationProgress :=
  match loaded_table_name o, loaded_total_rows o, loaded_migrated_rows o,
        loaded_last_primary_key o, loaded_completed o with
  | PStr n, PInt t, PInt m, PNone, PBool c =>
      Some {| table_name := n; total_rows := t; migrated_rows := m;
              last_primary_key := None; completed := c |}
  | PStr n, PInt t, PInt m, PStr k, PBool c =>
      Some {| table_name := n; total_rows := t; migrated_rows := m;
              last_primary_key := Some k; completed := c |}
  | _, _, _, _, _ => None
  end.

(** A checkpoint as an object of the class. *)
Definition progress_object (p : MigrationProgress) : loaded_progress :=
  {| loaded_table_name := PStr (table_name p);
     loaded_total_rows := PInt (total_rows p);
     loaded_migrated_rows := PInt (migrated_rows p);
     loaded_last_primary_key :=
       match last_primary_key p with Some k => PStr k | None => PNone end;
     loaded_completed := PBool (completed p) |}.

(** The constructor accepts the entry: it is a dictionary whose keys are
    fields of the class, the three without a default among them. *)
Definition constructible (entry : pyval) : bool :=
  match entry with
  | PDict d =>
      forallb (fun kv => str_in (fst kv) field_names) d
      && bool_decide (is_Some (dict_get d "table_name"))
      && bool_decide (is_Some (dict_get d "total_rows"))
      && bool_decide (is_Some (dict_get d "migrated_rows"))
  | _ => false
  end.

Definition progress_document (p : MigrationProgress) : pyval :=
  PDict [("table_name", PStr (table_name p));
         ("total_rows", PInt (total_rows p));
         ("migrated_rows", PInt (migrated_rows p));
         ("last_primary_key",
           match last_primary_key p with Some k => PStr k | None => PNone end);
         ("completed", PBool (completed p))].

(** The dictionary [data] that [save_progress] builds.  (The entries are
    listed in the order of the map, not in the order of insertion.) *)
Definition data_document (m : gmap string MigrationProgress) : pyval :=
  PDict ((fun tp => (fst tp, progress_document (snd tp))) <$> map_to_list m).

(** [save_progress]: the whole dictionary is written by
    [json.dump(data, f, indent=2)].  The write is taken to succeed; when it
    does not, the method logs the error and returns. *)
Definition save_progress (t : ProgressTracker) : ProgressTracker :=
  match Json.dumps_indent 2 0 (data_document (progress_data t)) with
  | Ok text => {| progress_data := progress_data t; progress_file := FileContent text |}
  | Raise _ => t
  end.

(** [get_progress] *)
Definition get_progress (t : ProgressTracker) (table : string)
  : option MigrationProgress :=
  progress_data t !! table.

(** [update_progress] *)
Definition update_progress (t : ProgressTracker) (table : string)
    (progress : MigrationProgress) : ProgressTracker :=
  save_progress {| progress_data := <[table := progress]> (progress_data t);
                   progress_file := progress_file t |}.

End progress_tracker.

(** ** The two databases *)

(** A row as the source cursor returns it (a DictRow): column to value. *)
Definition row : Type := list (string * pyval).

(** [row[col]] *)
Definition row_get (r : row) (col : string) : result pyval :=
  match dict_get r col with
  | Some v => Ok v
  | None => Raise KeyError
  end.

(** A row as it is sent to the target: the converted values, in the order
    of the columns. *)
Definition tuple : Type := list pyval.

(** What the databases do with values, which the program relies on and
    does not define: the order of the values of the primary-key column
    ([ORDER BY], [>]), the value a cell stands for in that order, the value a
    text parameter is read as when it is compared with that column ([None]:
    the text is refused), and whether two rows of the target violate one of
    its uniqueness constraints together. *)
Class Database : Type := {
  key : Type;
  key_le : relation key;
  key_le_dec :: RelDecision key_le;
  key_le_total_order :: TotalOrder key_le;
  sql_key : pyval → key;
  sql_cast : string → option key;
  conflict : tuple → tuple → bool;
}.

(** A [SELECT] the loop sends to the source, with its parameters. *)
Inductive query : Type :=
| SelectAfter (pk : string) (last : string) (limit : Z)
    (* WHERE pk > last ORDER BY pk LIMIT limit *)
| SelectOffset (order_by : option string) (limit offset : Z).
    (* [ORDER BY pk] LIMIT limit OFFSET offset *)

Section database.
Context `{Database}.

Definition row_key (pk : string) (r : row) : key :=
  sql_key (default PNone (dict_get r pk)).

Definition row_le (pk : string) : relation row :=
  fun r1 r2 => key_le (row_key pk r1) (row_key pk r2).

Global Instance row_le_dec pk : RelDecision (row_le pk).
Proof. intros r1 r2. unfold row_le. apply _. Defined.

(** [ORDER BY pk] *)
Definition order_by_key (pk : string) (rows : list row) : list row :=
  merge_sort (row_le pk) rows.

(** [pk > k] *)
Definition key_after (pk : string) (k : key) (r : row) : bool :=
  bool_decide (strict key_le k (row_key pk r)).

(** The rows a query returns on a table; a negative [LIMIT] or [OFFSET]
    and a parameter the column type refuses are errors of the database. *)
Definition run_query (rows : list row) (q : query) : result (list row) :=
  match q with
  | SelectAfter pk last limit =>
      if limit <? 0 then Raise DatabaseError
      else
        match sql_cast last with
        | None => Raise DatabaseError
        | Some k =>
            Ok (take (Z.to_nat limit)
                  (List.filter (key_after pk k) (order_by_key pk rows)))
        end
  | SelectOffset ord limit offset =>
      if (limit <? 0) || (offset <? 0) then Raise DatabaseError
      else
        let ordered :=
          match ord with
          | Some pk => order_by_key pk rows
          | None => rows
          end in
        Ok (take (Z.to_nat limit) (drop (Z.to_nat offset) ordered))
  end.

(** The target table: the rows committed and those of the open
    transaction. *)
Record target_db : Type := {
  committed : list tuple;
  pending : list tuple;
}.

(** [INSERT ... ON CONFLICT DO NOTHING] of one row. *)
Definition insert_tuple (db : target_db) (t : tuple) : target_db :=
  if existsb (conflict t) (committed db ++ pending db) then db
  else {| committed := committed db; pending := pending db ++ [t] |}.

(** [execute_batch]: one [INSERT] per row, in order.  (The [page_size]
    only groups the statements sent together.) *)
Definition execute_batch (db : target_db) (tuples : list tuple) : target_db :=
  foldl insert_tuple db tuples.

(** [target_conn.commit()] *)
Definition commit (db : target_db) : target_db :=
  {| committed := committed db ++ pending db; pending := [] |}.

(** [target_conn.rollback()] *)
Definition rollback (db : target_db) : target_db :=
  {| committed := committed db; pending := [] |}.

End database.

(** ** data_migrator.py: [DataMigrator.migrate_table_data] *)

(** One call: the attributes of [self] it reads, its arguments, and what the
    source holds during the call (the rows of the table and the answer of
    [get_column_types], the empty dictionary when that fails). *)
Record call : Type := {
  chunk_size : Z;
  arg_table_name : string;
  arg_columns : list string;
  arg_primary_key : option string;
  arg_total_rows : Z;
  arg_identity_columns : list string;
  source_rows : list row;
  source_column_types : gmap string string;
}.

(** What can go wrong from outside in one pass through the loop: the step of
    the [try] block at which a database raises, if any (the query on the
    source, the opening of the cursor on the target, the batch, and then
    after how many of its rows, or the commit), and whether the [rollback]
    of the handler raises too. *)
Inductive fault : Type :=
| NoFault
| FetchFault
| CursorFault
| InsertFault (done : nat)
| CommitFault.

Record conditions : Type := {
  fault_at : fault;
  rollback_raises : bool;
}.

(** What the call does to the outside, in order. *)
Inductive event : Type :=
| Fetch (q : query) (page : list row)
| FetchError (q : query)
| ExecuteBatch (overriding_system_value : bool) (tuples : list tuple)
| Commit
| Rollback
| Sleep (milliseconds : Z)
| Save (p : MigrationProgress).

Section migrate.
Context `{Py.FloatOps} `{Database}.

(** The state of a call: the object [progress] and whether the tracker's
    dictionary holds that same object, the tracker, the target, and the
    events so far. *)
Record state : Type := {
  progress : MigrationProgress;
  shared : bool;
  tracker : ProgressTracker;
  target : target_db;
  events : list event;
}.

Definition log (e : event) (st : state) : state :=
  {| progress := progress st; shared := shared st; tracker := tracker st;
     target := target st; events := events st ++ [e] |}.

Definition with_target (db : target_db) (st : state) : state :=
  {| progress := progress st; shared := shared st; tracker := tracker st;
     target := db; events := events st |}.

(** An assignment to an attribute of [progress]: the tracker's dictionary
    sees it when it holds the same object. *)
Definition mutate (c : call) (p : MigrationProgress) (st : state) : state :=
  {| progress := p; shared := shared st;
     tracker :=
       if shared st then
         {| progress_data := <[arg_table_name c := p]> (progress_data (tracker st));
            progress_file := progress_file (tracker st) |}
       else tracker st;
     target := target st; events := events st |}.

(** [self.progress_tracker.update_progress(table_name, progress)] *)
Definition do_update_progress (c : call) (st : state) : state :=
  log (Save (progress st))
    {| progress := progress st; shared := true;
       tracker := update_progress (tracker st) (arg_table_name c) (progress st);
       target := target st; events := events st |}.

(** The truth value of an optional string: false for [None] and for the
    empty string. *)
Definition truthy (o : option string) : bool :=
  match o with
  | Some s => negb (Str.is_empty s)
  | None => false
  end.

(** Lines 144-160: the query of the next page and its parameters. *)
Definition next_query (c : call) (p : MigrationProgress) : query :=
  match last_primary_key p, arg_primary_key c with
  | Some last, Some pk =>
      if truthy (Some last) && truthy (Some pk)
      then SelectAfter pk last (chunk_size c)
      else SelectOffset (if truthy (Some pk) then Some pk else None)
             (chunk_size c) (migrated_rows p)
  | _, pk =>
      SelectOffset (if truthy pk then pk else None) (chunk_size c) (migrated_rows p)
  end.

(** Lines 135-137: the types used for the conversion. *)
Definition column_types (c : call) : gmap string string :=
  if decide (source_column_types c = ∅)
  then list_to_map ((fun col => (col, "text")) <$> arg_columns c)
  else source_column_types c.

(** Lines 192-198: one cell, with the [try] around its conversion. *)
Definition convert_cell (c : call) (r : row) (col : string) : result pyval :=
  let col_type := default "text" (column_types c !! col) in
  match (v ← row_get r col; convert_data_for_insert v (Some col_type)) with
  | Ok converted_value => Ok converted_value
  | Raise _ => row_get r col
  end.

Fixpoint convert_cells (c : call) (r : row) (cols : list string) : result tuple :=
  match cols with
  | [] => Ok []
  | col :: cols' =>
      v ← convert_cell c r col; vs ← convert_cells c r cols'; Ok (v :: vs)
  end.

(** Lines 188-199: [converted_rows]. *)
Fixpoint convert_rows (c : call) (rows : list row) : result (list tuple) :=
  match rows with
  | [] => Ok []
  | r :: rows' =>
      t ← convert_cells c r (arg_columns c); ts ← convert_rows c rows'; Ok (t :: ts)
  end.

(** Lines 175-179: whether the insert carries [OVERRIDING SYSTEM VALUE]. *)
Definition override_clause (c : call) : bool :=
  negb (bool_decide (arg_identity_columns c = []))
  && existsb (fun col => str_in col (arg_identity_columns c)) (arg_columns c).

(** How the [try] block of one pass ends. *)
Inductive flow : Type :=
| Next (st : state)               (* the end of the block: the loop goes on *)
| Break (st : state)              (* a [break] *)
| Raised (e : exn) (st : state).  (* an exception, for the handler *)

(** Lines 209-226, after the commit: the checkpoint moves and is saved. *)
Definition advance (c : call) (rows : list row) (st : state) : flow :=
  let p := progress st in
  let st1 :=
    mutate c {| table_name := table_name p; total_rows := total_rows p;
                migrated_rows := migrated_rows p + Z.of_nat (length rows);
                last_primary_key := last_primary_key p;
                completed := completed p |} st in
  let moved :=
    match arg_primary_key c, last rows with
    | Some pk, Some r =>
        if truthy (Some pk) then
          match row_get r pk with
          | Ok v =>
              let p1 := progress st1 in
              Ok (mutate c {| table_name := table_name p1;
                              total_rows := total_rows p1;
                              migrated_rows := migrated_rows p1;
                              last_primary_key := Some (Py.str v);
                              completed := completed p1 |} st1)
          | Raise e => Raise e
          end
        else Ok st1
    | _, _ => Ok st1
    end in
  match moved with
  | Raise e => Raised e st1
  | Ok st2 =>
      let st3 := log (Sleep 100) (do_update_progress c st2) in
      if arg_total_rows c <=? migrated_rows (progress st3) then Break st3
      else if (Z.of_nat (length rows) <? chunk_size c)
              && (arg_total_rows c <=? migrated_rows (progress st3))
      then Break st3
      else Next st3
  end.

(** Lines 144-226: the [try] block of one pass. *)
Definition try_block (c : call) (f : fault) (st : state) : flow :=
  let q := next_query c (progress st) in
  match (match f with
         | FetchFault => Raise DatabaseError
         | _ => run_query (source_rows c) q
         end) with
  | Raise e => Raised e (log (FetchError q) st)
  | Ok rows =>
      let st := log (Fetch q rows) st in
      match rows with
      | [] => Break st
      | _ :: _ =>
          match f, convert_rows c rows with
          | CursorFault, _ => Raised DatabaseError st
          | _, Raise e => Raised e st
          | _, Ok converted_rows =>
              let st := log (ExecuteBatch (override_clause c) converted_rows) st in
              match f with
              | InsertFault done =>
                  Raised DatabaseError
                    (with_target (execute_batch (target st) (take done converted_rows)) st)
              | CommitFault =>
                  Raised DatabaseError
                    (with_target (execute_batch (target st) converted_rows) st)
              | _ =>
                  let st := with_target (execute_batch (target st) converted_rows) st in
                  advance c rows (log Commit (with_target (commit (target st)) st))
              end
          end
      end
  end.

(** How one pass through the loop ends. *)
Inductive pass : Type :=
| Continue (st : state)
| Exit (st : state)
| Abort (e : exn) (st : state).   (* an exception leaves the function *)

(** The body of the [while]: the [try] block and, lines 228-232, its
    handler. *)
Definition loop_body (c : call) (w : conditions) (st : state) : pass :=
  match try_block c (fault_at w) st with
  | Next st' => Continue st'
  | Break st' => Exit st'
  | Raised _ st' =>
      let st1 := log Rollback st' in
      if rollback_raises w then Abort DatabaseError st1
      else Continue (log (Sleep 5000) (with_target (rollback (target st1)) st1))
  end.

(** How a call stands: returned, left by an exception, or still in the
    loop after the passes allowed. *)
Inductive outcome : Type :=
| Returned (st : state)
| Failed (e : exn) (st : state)
| Running (st : state).

Definition final_state (o : outcome) : state :=
  match o with
  | Returned st | Failed _ st | Running st => st
  end.

(** Lines 234-235. *)
Definition finish (c : call) (st : state) : state :=
  let p := progress st in
  do_update_progress c
    (mutate c {| table_name := table_name p; total_rows := total_rows p;
                 migrated_rows := migrated_rows p;
                 last_primary_key := last_primary_key p;
                 completed := true |} st).

(** The [while] loop, for at most [fuel] passes; pass number [i] meets the
    conditions [env i]. *)
Fixpoint while_loop (c : call) (env : nat → conditions) (fuel i : nat) (st : state)
  : outcome :=
  if migrated_rows (progress st) <? arg_total_rows c then
    match fuel with
    | O => Running st
    | S fuel' =>
        match loop_body c (env i) st with
        | Continue st' => while_loop c env fuel' (S i) st'
        | Exit st' => Returned (finish c st')
        | Abort e st' => Failed e st'
        end
    end
  else Returned (finish c st).

(** Lines 122-126: the checkpoint the call starts from. *)
Definition initial_state (c : call) (t : ProgressTracker) (db : target_db) : state :=
  match get_progress t (arg_table_name c) with
  | Some p =>
      {| progress := p; shared := true; tracker := t; target := db; events := [] |}
  | None =>
      {| progress := {| table_name := arg_table_name c;
                        total_rows := arg_total_rows c; migrated_rows := 0;
                        last_primary_key := None; completed := false |};
         shared := false; tracker := t; target := db; events := [] |}
  end.

(** [migrate_table_data] *)
Definition migrate_table_data (c : call) (env : nat → conditions) (fuel : nat)
    (t : ProgressTracker) (db : target_db) : outcome :=
  let st := initial_state c t db in
  if completed (progress st) then Returned st
  else while_loop c env fuel 0 st.

End migrate.

(** ** An interpreter and databases to run the examples on *)

(** Integer keys: the column is ordered as the integers are, a cell that
    holds an integer stands for it, a text parameter is read as a decimal
    integer, and two rows of the target collide when their first cells hold
    the same key. *)
Definition integer_of_cell (v : pyval) : Z :=
  match v with
  | PInt z => z
  | _ => 0
  end.

Definition same_first_key (t u : tuple) : bool :=
  match t, u with
  | a :: _, b :: _ => bool_decide (integer_of_cell a = integer_of_cell b)
  | _, _ => false
  end.

Definition Z_le_total_order : TotalOrder Z.le :=
  {| total_order_partial := Z.le_po;
     total_order_trichotomy := fun x y =>
       match Z.lt_trichotomy x y with
       | or_introl Hlt => or_introl (conj (Z.lt_le_incl _ _ Hlt) (Zlt_not_le _ _ Hlt))
       | or_intror (or_introl Heq) => or_intror (or_introl Heq)
       | or_intror (or_intror Hgt) =>
           or_intror (or_intror (conj (Z.lt_le_incl _ _ Hgt) (Zlt_not_le _ _ Hgt)))
       end |}.

Definition integer_keys : Database :=
  {| key := Z; key_le := Z.le; key_le_dec := Z.le_dec;
     key_le_total_order := Z_le_total_order;
     sql_key := integer_of_cell; sql_cast := Py.int_of_str;
     conflict := same_first_key |}.

(** An interpreter for data without floats: every conversion to or from a
    float is refused. *)
Definition no_floats : Py.FloatOps :=
  {| Py.float_of_str := fun _ => None;
     Py.float_of_int := fun _ => None;
     Py.int_of_float := fun _ => Raise ValueError |}.

(** A table of [n] rows with the columns [id] and [note], the keys 1 to [n]
    stored in descending order. *)
Definition numbered_row (i : nat) : row :=
  [("id", PInt (Z.of_nat i)); ("note", PStr ("row " +:+ Str.of_Z (Z.of_nat i)))].

Definition numbered_rows (n : nat) : list row :=
  numbered_row <$> List.rev (seq 1 n).

Definition orders_call (chunk total : Z) (n : nat) : call :=
  {| chunk_size := chunk; arg_table_name := "orders";
     arg_columns := ["id"; "note"]; arg_primary_key := Some "id";
     arg_total_rows := total; arg_identity_columns := [];
     source_rows := numbered_rows n;
     source_column_types := {["id" := "integer"; "note" := "text"]} |}.

Definition fair_weather : nat → conditions :=
  fun _ => {| fault_at := NoFault; rollback_raises := false |}.

(** A target that refuses every batch after its first row. *)
Definition stuck_target : nat → conditions :=
  fun _ => {| fault_at := InsertFault 1; rollback_raises := false |}.

(** A target whose commit fails on every pass, and whose connection the
    third time also refuses the rollback. *)
Definition failing_target : nat → conditions :=
  fun i => {| fault_at := CommitFault; rollback_raises := (2 <=? i)%nat |}.

(** A tracker whose checkpoint for orders has caught up with a total of 7
    rows without being marked completed. *)
Definition caught_up_checkpoint : MigrationProgress :=
  {| table_name := "orders"; total_rows := 7; migrated_rows := 7;
     last_primary_key := Some "7"; completed := false |}.

Definition caught_up : ProgressTracker :=
  {| progress_data := {["orders" := caught_up_checkpoint]};
     progress_file := FileMissing |}.

Definition no_progress : ProgressTracker :=
  {| progress_data := ∅; progress_file := FileMissing |}.

Definition empty_target `{Database} : target_db := {| committed := []; pending := [] |}.

(** A target whose commit fails on every second pass. *)
Definition unsteady_target : nat → conditions :=
  fun i => {| fault_at := if Nat.even i then CommitFault else NoFault;
              rollback_raises := false |}.

(** A table with a JSON column that holds, in its second row, an object the
    JSON encoder does not know. *)
Definition ledger_rows : list row :=
  [[("id", PInt 1); ("doc", PStr (Str.dq "{'a':1}"))];
   [("id", PInt 2); ("doc", POther "1.5" "Decimal('1.5')")]].

Definition ledger_call : call :=
  {| chunk_size := 1000; arg_table_name := "ledger";
     arg_columns := ["id"; "doc"]; arg_primary_key := Some "id";
     arg_total_rows := 2; arg_identity_columns := [];
     source_rows := ledger_rows;
     source_column_types := {["id" := "integer"; "doc" := "json"]} |}.

(** ** Notions used in the statements *)

(** What is read off the events of a call: the pauses, the queries sent,
    the checkpoints saved, the number of rollbacks. *)
Definition sleeps (evs : list event) : list Z :=
  evs ≫= fun e => match e with Sleep ms => [ms] | _ => [] end.

Definition queries (evs : list event) : list query :=
  evs ≫= fun e => match e with Fetch q _ | FetchError q => [q] | _ => [] end.

Definition pages (evs : list event) : list (list row) :=
  evs ≫= fun e => match e with Fetch _ page => [page] | _ => [] end.

Definition saves (evs : list event) : list MigrationProgress :=
  evs ≫= fun e => match e with Save p => [p] | _ => [] end.

Definition batches (evs : list event) : list (list tuple) :=
  evs ≫= fun e => match e with ExecuteBatch _ ts => [ts] | _ => [] end.

Definition commits (evs : list event) : nat :=
  length (List.filter (fun e => match e with Commit => true | _ => false end) evs).

Definition rollbacks (evs : list event) : nat :=
  length (List.filter (fun e => match e with Rollback => true | _ => false end) evs).

(** The pages transferred: those whose batch was committed.  A page is kept
    from its fetch to the commit or rollback that ends its pass. *)
Definition transfer_step (acc : list (list row) * option (list row)) (e : event)
  : list (list row) * option (list row) :=
  match e with
  | Fetch _ page => (fst acc, Some page)
  | Commit => (fst acc ++ option_list (snd acc), None)
  | Rollback => (fst acc, None)
  | _ => acc
  end.

Definition transferred (evs : list event) : list (list row) :=
  fst (foldl transfer_step ([], None) evs).

(** The checkpoints saved after a chunk: those not yet marked completed. *)
Definition chunk_saves (evs : list event) : list MigrationProgress :=
  List.filter (fun p => negb (completed p)) (saves evs).

(** An event without its data: the size of a page or batch, the count and
    the flag of a checkpoint saved. *)
Inductive mark : Type :=
| Fetched (n : nat)
| FetchFailed
| Batch (n : nat)
| Committed
| RolledBack
| Slept (milliseconds : Z)
| Saved (migrated : Z) (done : bool).

Definition mark_of (e : event) : mark :=
  match e with
  | Fetch _ page => Fetched (length page)
  | FetchError _ => FetchFailed
  | ExecuteBatch _ ts => Batch (length ts)
  | Commit => Committed
  | Rollback => RolledBack
  | Sleep ms => Slept ms
  | Save p => Saved (migrated_rows p) (completed p)
  end.

Definition with_completed (p : MigrationProgress) : MigrationProgress :=
  {| table_name := table_name p; total_rows := total_rows p;
     migrated_rows := migrated_rows p; last_primary_key := last_primary_key p;
     completed := true |}.

Section notions.
Context `{Py.FloatOps} `{Database}.

(** The column the call pages on: its primary key, when that is given and
    not empty. *)
Definition paging_key (c : call) : option string :=
  if truthy (arg_primary_key c) then arg_primary_key c else None.

(** The rows of the source in the order the queries of the call see them. *)
Definition listing (c : call) : list row :=
  match paging_key c with
  | Some pk => order_by_key pk (source_rows c)
  | None => source_rows c
  end.

(** The source table is one the call can page through: every row has the
    columns asked for; when the call pages on a key, every row has a value
    for it, no two rows have the same key, and the text [str] prints for a
    key is read back by the database as that key. *)
Record sound_source (c : call) : Prop := {
  rows_complete :
    Forall (fun r => Forall (fun col => is_Some (dict_get r col)) (arg_columns c))
      (source_rows c);
  keys_present : ∀ pk, paging_key c = Some pk →
    Forall (fun r => is_Some (dict_get r pk)) (source_rows c);
  keys_distinct : ∀ pk, paging_key c = Some pk →
    NoDup (row_key pk <$> source_rows c);
  keys_read_back : ∀ pk, paging_key c = Some pk →
    Forall (fun r => ∀ v, dict_get r pk = Some v → sql_cast (Py.str v) = Some (sql_key v))
      (source_rows c);
}.

Global Instance key_eq_dec : EqDecision key := @po_eq_dec key key_le _ _.

(** [sound_source] as a test. *)
Definition sound_sourceb (c : call) : bool :=
  forallb (fun r => forallb (fun col => bool_decide (is_Some (dict_get r col)))
                      (arg_columns c))
    (source_rows c)
  && match paging_key c with
     | None => true
     | Some pk =>
         forallb (fun r =>
                    match dict_get r pk with
                    | Some v => bool_decide (sql_cast (Py.str v) = Some (sql_key v))
                    | None => false
                    end) (source_rows c)
         && bool_decide (NoDup (row_key pk <$> source_rows c))
     end.

(** A checkpoint agrees with the source: its count lies within the table
    and, when it records a key, the rows after that key are the rows after
    the first [migrated_rows] ones. *)
Definition in_step (c : call) (p : MigrationProgress) : Prop :=
  0 ≤ migrated_rows p
  ∧ (Z.to_nat (migrated_rows p) ≤ length (listing c))%nat
  ∧ ∀ pk last, paging_key c = Some pk → last_primary_key p = Some last →
      truthy (Some last) = true →
      ∃ k, sql_cast last = Some k
           ∧ List.filter (key_after pk k) (listing c)
             = drop (Z.to_nat (migrated_rows p)) (listing c).

(** The [try] block of a pass fails before the checkpoint moves: the query
    raises, or the page is not empty and the conversion of a row, the
    opening of the cursor, the batch or the commit raises. *)
Definition chunk_fails (c : call) (f : fault) (p : MigrationProgress) : Prop :=
  let fetched := run_query (source_rows c) (next_query c p) in
  match f with
  | FetchFault => True
  | NoFault =>
      (∃ e, fetched = Raise e)
      ∨ ∃ r rows e, fetched = Ok (r :: rows) ∧ convert_rows c (r :: rows) = Raise e
  | CursorFault | InsertFault _ | CommitFault =>
      (∃ e, fetched = Raise e) ∨ ∃ r rows, fetched = Ok (r :: rows)
  end.

(** The value a cell is sent as: the converted one, or the one of the source
    when the conversion raises. *)
Definition sent_value (c : call) (col : string) (v : pyval) : pyval :=
  match convert_data_for_insert v (Some (default "text" (column_types c !! col))) with
  | Ok converted => converted
  | Raise _ => v
  end.

(** The checkpoint after a page was transferred: the count grows by the
    size of the page and, when the call pages on a key, the key recorded is
    the text of the key of the last row. *)
Definition moved (c : call) (rows : list row) (p : MigrationProgress)
  : MigrationProgress :=
  {| table_name := table_name p; total_rows := total_rows p;
     migrated_rows := migrated_rows p + Z.of_nat (length rows);
     last_primary_key :=
       match paging_key c, last rows with
       | Some pk, Some r => Some (Py.str (default PNone (dict_get r pk)))
       | _, _ => last_primary_key p
       end;
     completed := completed p |}.

(** The page a checkpoint in step with the source is followed by. *)
Definition next_page (c : call) (p : MigrationProgress) : list row :=
  take (Z.to_nat (chunk_size c)) (drop (Z.to_nat (migrated_rows p)) (listing c)).

(** A checkpoint saved after the transfer of a page records the key of the
    last row of the page. *)
Definition saved_after (c : call) (page : list row) (p : MigrationProgress) : Prop :=
  ∀ pk r, paging_key c = Some pk → last page = Some r →
    last_primary_key p = Some (Py.str (default PNone (dict_get r pk))).

(** The pages fetched follow a sequence of pages: of two of them that are
    not empty, the one fetched first comes no later in the sequence than the
    other. *)
Definition in_fetch_order (fetched sequence : list (list row)) : Prop :=
  ∀ (i j : nat) P Q, (i ≤ j)%nat → fetched !! i = Some P → fetched !! j = Some Q →
    P = [] ∨ Q = []
    ∨ ∃ a b : nat, (a ≤ b)%nat ∧ sequence !! a = Some P ∧ sequence !! b = Some Q.

(** The state of a call between two passes follows the listing of the
    source: the checkpoint is in step and not completed; the pages
    transferred so far are, in order and without a gap, the rows of the
    listing from the place [m0] the call started at up to the count of the
    checkpoint; each checkpoint saved so far was saved after one of them, in
    the same order, and is in step; the pages fetched so far follow the
    sequence of the pages transferred and of the page that comes next. *)
Record on_track (c : call) (m0 : nat) (st : state) : Prop := {
  track_in_step : in_step c (progress st);
  track_open : completed (progress st) = false;
  track_from : (m0 ≤ Z.to_nat (migrated_rows (progress st)))%nat;
  track_pages :
    concat (transferred (events st))
    = take (Z.to_nat (migrated_rows (progress st)) - m0) (drop m0 (listing c));
  track_pages_nonempty : Forall (fun page => page ≠ []) (transferred (events st));
  track_chunk_saves :
    Forall2 (saved_after c) (transferred (events st)) (chunk_saves (events st));
  track_saves : Forall (in_step c) (saves (events st));
  track_fetched :
    in_fetch_order (pages (events st))
      (transferred (events st) ++ [next_page c (progress st)]);
}.

(** The dictionary of the tracker holds, for the table of the call, the
    object [progress] when it shares it, and nothing before the first save
    of a call that found no checkpoint. *)
Definition entry_kept (c : call) (st : state) : Prop :=
  get_progress (tracker st) (arg_table_name c)
  = if shared st then Some (progress st) else None.

(** The checkpoints of a state: the object [progress], those saved so far
    and the one in the dictionary of the tracker. *)
Definition checkpoints (c : call) (st : state) : list MigrationProgress :=
  progress st :: saves (events st)
  ++ option_list (get_progress (tracker st) (arg_table_name c)).

(** A row as it is sent to the target. *)
Definition sent_row (c : call) (r : row) : tuple :=
  (fun col => sent_value c col (default PNone (dict_get r col))) <$> arg_columns c.

(** The state after a page was fetched, converted to [tuples], sent and
    committed, before the checkpoint moves. *)
Definition after_commit (c : call) (rows : list row) (tuples : list tuple) (st : state)
  : state :=
  let st1 := log (ExecuteBatch (override_clause c) tuples)
               (log (Fetch (next_query c (progress st)) rows) st) in
  log Commit (with_target (commit (execute_batch (target st1) tuples)) st1).

End notions.

(** ** Notions for whole runs *)

(** Conditions under which the commit fails in the first [k] passes and
    nothing fails afterwards. *)
Definition faults_then_fair (k : nat) : nat → conditions :=
  fun i => {| fault_at := if (i <? k)%nat then CommitFault else NoFault;
              rollback_raises := false |}.

Section run_notions.
Context `{Py.FloatOps} `{Database}.

(** The target after the pages [pages] were sent and committed one by one. *)
Definition served (c : call) (db : target_db) (pages : list (list row)) : target_db :=
  foldl (fun d page => commit (execute_batch d (sent_row c <$> page))) db pages.

(** No row of the list is refused by [ON CONFLICT DO NOTHING] because of a
    row before it. *)
Fixpoint conflict_freeb (l : list tuple) : bool :=
  match l with
  | [] => true
  | u :: l' => forallb (fun t => negb (conflict t u)) l' && conflict_freeb l'
  end.

End run_notions.

(** ** Notions on strings *)

(** Every character of the string satisfies [p]. *)
Fixpoint all_chars (p : ascii → bool) (s : string) : bool :=
  match s with
  | EmptyString => true
  | String c s' => p c && all_chars p s'
  end.

(** A character of a decimal numeral: a digit or the minus sign. *)
Definition numeral_char (c : ascii) : bool := Str.isdigit c || Ascii.eqb c "-"%char.

(** ** Notions on JSON texts *)

(** What follows a value inside an indented object: a comma or a new
    line. *)
Definition follows (r : string) : Prop :=
  ∃ r', r = String ","%char r' ∨ r = String "010"%char r'.

(** The text does not begin with JSON white space (and is not empty). *)
Definition starts_value (s : string) : bool :=
  match s with
  | String c _ => negb (Json.is_ws c)
  | EmptyString => false
  end.

(** A member of an object as the encoder writes it: the key, a colon and a
    space, the text of the value. *)
Definition member_text (k t : string) : string := Json.encode_str k +:+ ": " +:+ t.

Section json_notions.
Context `{Py.FloatOps}.

(** The text [t] reads as the value [v] wherever it stands as the value of
    a member, with [G] units of fuel or more. *)
Definition reads_as (G : nat) (t : string) (v : pyval) : Prop :=
  starts_value t = true
  ∧ ∀ (g : nat) (r : string), (G ≤ g)%nat → follows r →
      Json.parse_value g (t +:+ r) = Ok (v, r).

End json_notions.

(** The members of the object written for one checkpoint: key, text of the
    value, value. *)
Definition progress_members (p : MigrationProgress) : list (string * string * pyval) :=
  [("table_name", Json.encode_str (table_name p), PStr (table_name p));
   ("total_rows", Str.of_Z (total_rows p), PInt (total_rows p));
   ("migrated_rows", Str.of_Z (migrated_rows p), PInt (migrated_rows p));
   ("last_primary_key",
     match last_primary_key p with Some k => Json.encode_str k | None => "null" end,
     match last_primary_key p with Some k => PStr k | None => PNone end);
   ("completed", if completed p then "true" else "false", PBool (completed p))].

(** An object with the members [members], written with the indentation
    [n_in] for its members and [n_out] for its closing brace. *)
Definition object_text (n_in n_out : nat) (members : list (string * string * pyval))
  : string :=
  "{" +:+ Json.newline_indent n_in
  +:+ Str.join ("," +:+ Json.newline_indent n_in)
        ((fun m => member_text m.1.1 m.1.2) <$> members)
  +:+ Json.newline_indent n_out +:+ "}".

(** The text written for one checkpoint inside the progress file, and the
    members of the file. *)
Definition progress_text (p : MigrationProgress) : string :=
  object_text 4 2 (progress_members p).

Definition file_members (m : gmap string MigrationProgress)
  : list (string * string * pyval) :=
  (fun tp => (tp.1, progress_text tp.2, progress_document tp.2)) <$> map_to_list m.

Section file_notions.
Context `{Py.FloatOps}.

(** The tracker is the one a new [ProgressTracker] on its file would be:
    its dictionary holds what the file holds. *)
Definition on_file (t : ProgressTracker) : Prop :=
  ProgressTracker_init (progress_file t) = Some t.

End file_notions.

(** ** Notions for paging on a key that is not unique *)

Section keyset_notions.
Context `{Py.FloatOps} `{Database}.

(** The checkpoint records the key [k]: a text that is not empty and that
    the database reads as [k]. *)
Definition records_key (p : MigrationProgress) (k : key) : Prop :=
  ∃ txt, last_primary_key p = Some txt ∧ truthy (Some txt) = true
         ∧ sql_cast txt = Some k.

(** The keys of the table print as texts that are not empty and that the
    database reads back.  (Two rows may have the same key.) *)
Definition keys_print (c : call) (pk : string) : Prop :=
  Forall (fun r => ∀ v, dict_get r pk = Some v →
            truthy (Some (Py.str v)) = true ∧ sql_cast (Py.str v) = Some (sql_key v))
    (source_rows c).

(** No page fetched after a checkpoint was saved holds a row whose key is
    not after the key that checkpoint records. *)
Definition never_back (pk : string) (evs : list event) : Prop :=
  ∀ evs1 evs2 p k, evs = evs1 ++ Save p :: evs2 → records_key p k →
    ∀ page r, page ∈ pages evs2 → r ∈ page → strict key_le k (row_key pk r).

(** What the loop keeps, after the events [pre]: no page fetched went back
    behind a checkpoint saved before it, and the checkpoint records a key
    that is not before any key saved. *)
Definition keeps_ahead (pk : string) (pre : list event) (st : state) : Prop :=
  never_back pk (pre ++ events st)
  ∧ ∀ p k, p ∈ saves (pre ++ events st) → records_key p k →
      ∃ k', records_key (progress st) k' ∧ key_le k k'.

End keyset_notions.

(** The lines of orders: the primary key is the pair of the order and the
    item, and the call pages on its first column, the order. *)
Definition order_line (item order : Z) : row :=
  [("item", PInt item); ("order_id", PInt order)].

Definition lines_call : call :=
  {| chunk_size := 3; arg_table_name := "order_lines";
     arg_columns := ["item"; "order_id"]; arg_primary_key := Some "order_id";
     arg_total_rows := 5; arg_identity_columns := [];
     source_rows := [order_line 1 1; order_line 2 1; order_line 3 2;
                     order_line 4 2; order_line 5 3];
     source_column_types := {["item" := "integer"; "order_id" := "integer"]} |}.

(** ** database_config.py *)

(** The dataclass [DatabaseConfig].  The constructor checks no types: a
    field read with [config_dict.get] is [None] when the file does not
    assign it. *)
Record DatabaseConfig : Type := {
  host : option string;
  port : Z;
  user : option string;
  password : option string;
  database : option string;
  schema : string;
}.

(** How [load_config_from_file] ends when it raises: with the
    FileNotFoundError of its first handler, or with one of the plain
    exceptions of the other two. *)
Inductive config_error : Type :=
| FileNotFoundError
| PlainException.

Inductive loaded : Type :=
| Loaded (config : DatabaseConfig)
| LoadError (e : config_error).

Definition newline : ascii := "010"%char.
Definition carriage_return : ascii := "013"%char.

(** The lines a file opened in text mode is iterated by: each ends where a
    line feed, a carriage return or the pair of them stands, which is read
    as one line feed; the last one may lack it. *)
Fixpoint lines_go (cur : string) (s : string) : list string :=
  match s with
  | EmptyString => if Str.is_empty cur then [] else [Str.rev cur]
  | String ch s' =>
      if Ascii.eqb ch newline then Str.rev (String newline cur) :: lines_go EmptyString s'
      else if Ascii.eqb ch carriage_return then
        match s' with
        | String ch' s'' =>
            if Ascii.eqb ch' newline
            then Str.rev (String newline cur) :: lines_go EmptyString s''
            else Str.rev (String newline cur) :: lines_go EmptyString s'
        | EmptyString => Str.rev (String newline cur) :: lines_go EmptyString s'
        end
      else lines_go (String ch cur) s'
  end.

Definition file_lines (text : string) : list string := lines_go EmptyString text.

(** [s.split(sep, 1)] for a separator of one character. *)
Fixpoint split_once_go (sep : ascii) (cur : string) (s : string) : list string :=
  match s with
  | EmptyString => [Str.rev cur]
  | String ch s' =>
      if Ascii.eqb ch sep then [Str.rev cur; s']
      else split_once_go sep (String ch cur) s'
  end.

Definition split_once (sep : ascii) (s : string) : list string :=
  split_once_go sep EmptyString s.

(** Lines 20-30: the body of the loop over the lines.  The assignment of
    the two names raises ValueError when the list has not two items. *)
Definition parse_config_line (config_dict : gmap string string) (line : string)
  : result (gmap string string) :=
  let line := Str.strip line in
  if Str.is_empty line || Str.startswith ";" line || Str.startswith "#" line
  then Ok config_dict
  else if Str.contains "=" line then
    match split_once "="%char line with
    | [key; value] =>
        Ok (<[Str.strip key :=
               Str.strip_chars (String Str.dquote EmptyString) (Str.strip value)]>
              config_dict)
    | _ => Raise ValueError
    end
  else Ok config_dict.

Fixpoint parse_config_lines (config_dict : gmap string string) (lines : list string)
  : result (gmap string string) :=
  match lines with
  | [] => Ok config_dict
  | line :: rest =>
      d ← parse_config_line config_dict line; parse_config_lines d rest
  end.

(** Lines 37-47: the configuration taken from the dictionary.  Only the
    port can fail, when it is assigned a text that [int] refuses. *)
Definition make_config (config_dict : gmap string string) : loaded :=
  match (match config_dict !! "DatabaseConfig_port" with
         | Some text => Py.int_of_str text
         | None => Some 5432
         end) with
  | Some n =>
      Loaded {| host := config_dict !! "DatabaseConfig_host";
                port := n;
                user := config_dict !! "DatabaseConfig_user";
                password := config_dict !! "DatabaseConfig_password";
                database := config_dict !! "DatabaseConfig_database";
                schema := default "public" (config_dict !! "DatabaseConfig_schema") |}
  | None => LoadError PlainException
  end.

(** [load_config_from_file], on what is found at the path. *)
Definition load_config_from_file (f : file_state) : loaded :=
  match f with
  | FileMissing => LoadError FileNotFoundError
  | FileUnreadable => LoadError PlainException
  | FileContent text =>
      match parse_config_lines ∅ (file_lines text) with
      | Ok config_dict => make_config config_dict
      | Raise _ => LoadError PlainException
      end
  end.

(** ** Notions on configuration files *)

(** A character that is white space and ends no line. *)
Definition blank (ch : ascii) : bool :=
  Str.isspace ch && negb (Ascii.eqb ch newline) && negb (Ascii.eqb ch carriage_return).

Definition no_break (ch : ascii) : bool :=
  negb (Ascii.eqb ch newline) && negb (Ascii.eqb ch carriage_return).

Definition is_dquote (ch : ascii) : bool := Str.mem ch (String Str.dquote EmptyString).

(** [s.rstrip()], by characters. *)
Definition rstrip_by (p : ascii → bool) (s : string) : string :=
  Str.rev (Str.lstrip_by p (Str.rev s)).

(** The text ends with a character that is not stripped. *)
Definition ends_solid (p : ascii → bool) (s : string) : Prop :=
  ∃ c s', Str.rev s = String c s' ∧ p c = false.

(** The text does not begin with a line feed. *)
Definition no_feed_first (s : string) : Prop :=
  match s with
  | String ch _ => Ascii.eqb ch newline = false
  | EmptyString => True
  end.

(** A name that can stand left of the sign: not empty, without white space
    at its ends, without the sign and without a line break, and not
    beginning as a comment does. *)
Definition key_name (k : string) : bool :=
  negb (Str.is_empty k)
  && String.eqb (Str.strip k) k
  && all_chars (fun ch => negb (Ascii.eqb ch "="%char) && no_break ch) k
  && negb (Str.startswith ";" k) && negb (Str.startswith "#" k).

(** A value that can be written: without a line break and without double
    quotes at its ends; when it is written without quotes, also without
    white space at its ends. *)
Definition value_text (quoted : bool) (v : string) : bool :=
  all_chars no_break v
  && String.eqb (Str.strip_chars (String Str.dquote EmptyString) v) v
  && (quoted || String.eqb (Str.strip v) v).

(** A line of a configuration file: one that assigns nothing (blank, a
    comment, or without the sign), or an assignment with its layout. *)
Inductive config_line : Type :=
| Remark (text : string)
| Assign (indent key before_sign after_sign : string) (quoted : bool)
    (value trailing : string).

Definition quote_mark (quoted : bool) : string :=
  if quoted then String Str.dquote EmptyString else EmptyString.

Definition line_text (l : config_line) : string :=
  match l with
  | Remark text => text
  | Assign indent key before_sign after_sign quoted value trailing =>
      indent +:+ key +:+ before_sign +:+ "=" +:+ after_sign
      +:+ quote_mark quoted +:+ value +:+ quote_mark quoted +:+ trailing
  end.

Definition well_formed (l : config_line) : bool :=
  match l with
  | Remark text =>
      all_chars no_break text
      && (let line := Str.strip text in
          Str.is_empty line || Str.startswith ";" line || Str.startswith "#" line
          || negb (Str.contains "=" line))
  | Assign indent key before_sign after_sign quoted value trailing =>
      all_chars blank indent && key_name key && all_chars blank before_sign
      && all_chars blank after_sign && value_text quoted value
      && all_chars blank trailing
  end.

(** The text of a file with these lines, each ended by [ending]. *)
Definition file_text (ending : string) (doc : list config_line) : string :=
  foldr (fun l rest => line_text l +:+ ending +:+ rest) EmptyString doc.

(** What the lines assign, in their order. *)
Definition assignments (doc : list config_line) : list (string * string) :=
  doc ≫= fun l => match l with
                  | Remark _ => []
                  | Assign _ key _ _ _ value _ => [(key, value)]
                  end.

(** The value the last assignment to [k] gives it. *)
Definition assigned (doc : list config_line) (k : string) : option string :=
  snd <$> last (List.filter (fun kv => String.eqb kv.1 k) (assignments doc)).

Definition line_ending (ending : string) : bool :=
  String.eqb ending (String newline EmptyString)
  || String.eqb ending (String carriage_return EmptyString)
  || String.eqb ending (String carriage_return (String newline EmptyString)).

(** A file as it may be written for a staging database. *)
Definition staging_file : list config_line :=
  [Remark "# staging";
   Assign "" "DatabaseConfig_host" "" "" true "db.example.org" "";
   Assign "  " "DatabaseConfig_port" " " " " false "6432" " ";
   Remark "";
   Remark "[section]";
   Assign "" "DatabaseConfig_password" "" "" true " a=b c" "";
   Assign "" "DatabaseConfig_port" "" " " false "5433" ""].

(** ** database_connection.py: [DatabaseConnection.get_connection] *)

(** What one attempt meets, from [psycopg2.connect] to the registration of
    the adapters: a connection, a [psycopg2.Error], or another
    exception. *)
Inductive attempt : Type :=
| Connects (handle : nat)
| Refuses
| Breaks (e : exn).

(** What the method does to the outside, in order. *)
Inductive connection_event : Type :=
| Connect (attempt : nat)
| Warning (attempt_number : nat)
| SleepSeconds (seconds : Z).

(** How the method ends: with a connection and its [autocommit], with an
    exception, or at the end of its loop, where it returns [None]. *)
Inductive connection_outcome : Type :=
| Connection (handle : nat) (autocommit : bool)
| ConnectionRaises (e : exn)
| ConnectionNone.

Definition max_retries : nat := 3.
Definition retry_delay : Z := 5.

(** The loop over [range(max_retries)]; attempt number [i] meets
    [env i]. *)
Fixpoint connection_loop (env : nat → attempt) (autocommit : bool) (attempts : list nat)
  : connection_outcome * list connection_event :=
  match attempts with
  | [] => (ConnectionNone, [])
  | i :: rest =>
      match env i with
      | Connects handle => (Connection handle autocommit, [Connect i])
      | Breaks e => (ConnectionRaises e, [Connect i])
      | Refuses =>
          if (i <? max_retries - 1)%nat then
            let '(outcome, evs) := connection_loop env autocommit rest in
            (outcome, [Connect i; Warning (i + 1); SleepSeconds retry_delay] ++ evs)
          else (ConnectionRaises DatabaseError, [Connect i; Warning (i + 1)])
      end
  end.

Definition get_connection (env : nat → attempt) (autocommit : bool)
  : connection_outcome * list connection_event :=
  connection_loop env autocommit (seq 0 max_retries).

Definition connects (evs : list connection_event) : list nat :=
  evs ≫= fun e => match e with Connect i => [i] | _ => [] end.

Definition slept (evs : list connection_event) : list Z :=
  evs ≫= fun e => match e with SleepSeconds s => [s] | _ => [] end.

(** ** database_connection.py: [DatabaseConnection.get_column_types] *)

(** The method on the answer of its query: the rows (a column and its
    type, [None] for NULL), or an exception. *)
Definition get_column_types (answer : result (list (string * option string)))
  : gmap string string :=
  match answer with
  | Ok rows =>
      foldl (fun result row => <[row.1 := default "text" row.2]> result) ∅ rows
  | Raise _ => ∅
  end.

(** The type the query lists last for a column. *)
Definition listed_type (rows : list (string * option string)) (col : string)
  : option (option string) :=
  snd <$> last (List.filter (fun row => String.eqb row.1 col) rows).

(** ** schema_manager.py: the ownership of sequences *)

(** Of the dictionary [get_sequences_for_schema] makes for a sequence, the
    two entries [set_sequence_ownership] reads. *)
Record sequence : Type := {
  seq_name : string;
  owner_table_column : option string;
}.

(** Lines 44-61: the owner found by the query on the columns, when it
    returns a row and does not raise. *)
Definition owner_text (owner_result : option (string * string)) : option string :=
  (fun tc => tc.1 +:+ "." +:+ tc.2) <$> owner_result.

Definition sequence_of (name : string) (owner_result : option (string * string))
  : sequence :=
  {| seq_name := name; owner_table_column := owner_text owner_result |}.

(** The statements of a connection: those committed and those of its open
    transaction. *)
Record statements : Type := {
  applied : list string;
  open_transaction : list string;
}.

Definition quoted_name (s : string) : string :=
  String Str.dquote (s +:+ String Str.dquote EmptyString).

Fixpoint blanks (n : nat) : string :=
  match n with
  | O => EmptyString
  | S n' => String " "%char (blanks n')
  end.

(** Lines 240-243: the statement, with the line breaks and the indentation
    of the literal. *)
Definition alter_cmd (target_schema name table_name column_name : string) : string :=
  String newline (blanks 28) +:+ "ALTER SEQUENCE " +:+ quoted_name target_schema
  +:+ "." +:+ quoted_name name +:+ " "
  +:+ String newline (blanks 28) +:+ "OWNED BY " +:+ quoted_name target_schema
  +:+ "." +:+ quoted_name table_name +:+ "." +:+ quoted_name column_name
  +:+ String newline (blanks 24).

(** Lines 234-251: the loop over the sequences; [execute] raises for the
    sequence at position [i] when [fault i] holds.  (The rollback is taken
    to succeed.) *)
Fixpoint ownership_loop (target_schema : string) (fault : nat → bool) (i : nat)
    (sequences : list sequence) (db : statements) : statements :=
  match sequences with
  | [] => db
  | seq :: rest =>
      let db' :=
        if truthy (owner_table_column seq) then
          match Str.split "."%char (default EmptyString (owner_table_column seq)) with
          | [table_name; column_name] =>
              if fault i then {| applied := applied db; open_transaction := [] |}
              else {| applied := applied db;
                      open_transaction :=
                        open_transaction db
                        ++ [alter_cmd target_schema (seq_name seq) table_name column_name] |}
          | _ => {| applied := applied db; open_transaction := [] |}
          end
        else db in
      ownership_loop target_schema fault (S i) rest db'
  end.

(** [set_sequence_ownership], on the sequences found in the source; the
    commit at its end is taken to succeed. *)
Definition set_sequence_ownership (target_schema : string) (fault : nat → bool)
    (sequences : list sequence) (db : statements) : statements :=
  let db' := ownership_loop target_schema fault 0 sequences db in
  {| applied := applied db' ++ open_transaction db'; open_transaction := [] |}.

(** ** Notions on sequences *)

Fixpoint count_char (sep : ascii) (s : string) : nat :=
  match s with
  | EmptyString => O
  | String ch s' => (if Ascii.eqb ch sep then 1 else 0) + count_char sep s'
  end.

(** The owner is one the loop can name: neither the table nor the column
    holds a dot. *)
Definition plain_owner (tc : string * string) : bool :=
  all_chars (fun ch => negb (Ascii.eqb ch "."%char)) tc.1
  && all_chars (fun ch => negb (Ascii.eqb ch "."%char)) tc.2.

(** The statements for the sequences found with these owners, from
    position [i] on, when none fails. *)
Fixpoint ownership_statements (target_schema : string)
    (found : list (string * option (string * string))) : list string :=
  match found with
  | [] => []
  | (name, Some (t, c)) :: rest =>
      alter_cmd target_schema name t c :: ownership_statements target_schema rest
  | (_, None) :: rest => ownership_statements target_schema rest
  end.

(** The sequence found at position [i] goes through: it has no owner, or a
    plain one and no fault. *)
Definition goes_through (fault : nat → bool) (i : nat)
    (found : string * option (string * string)) : bool :=
  match found.2 with
  | None => true
  | Some tc => plain_owner tc && negb (fault i)
  end.

(** It fails: it has an owner that is not plain, or a fault. *)
Definition fails (fault : nat → bool) (i : nat)
    (found : string * option (string * string)) : bool :=
  match found.2 with
  | None => false
  | Some tc => negb (plain_owner tc) || fault i
  end.

(** The sequences [get_sequences_for_schema] returns for what it found. *)
Definition sequences_found (found : list (string * option (string * string)))
  : list sequence :=
  (fun item => sequence_of item.1 item.2) <$> found.

(** ** schema_manager.py: [SchemaManager.create_table_if_not_exists] *)

(** A row of the query on the columns of the source table. *)
Record column_info : Type := {
  col_name : string;
  data_type_val : string;
  max_length : option Z;
  nullable : string;
  col_default : option string;
  num_precision : option Z;
  num_scale : option Z;
  udt_name_val : option string;
  array_type_val : option string;
}.

(** The truth value of an optional integer: false for [None] and for 0. *)
Definition truthy_int (o : option Z) : bool :=
  match o with
  | Some z => negb (z =? 0)
  | None => false
  end.

(** What a formatted string shows for an optional text. *)
Definition show_text (o : option string) : string := default "None" o.

(** Lines 314-328: the type of the column. *)
Definition col_type_str (ci : column_info) : option string :=
  if String.eqb (data_type_val ci) "ARRAY" then
    if truthy (array_type_val ci) then array_type_val ci
    else if truthy (udt_name_val ci) then udt_name_val ci
    else Some "TEXT[]"
  else if String.eqb (data_type_val ci) "USER-DEFINED" then udt_name_val ci
  else Some (data_type_val ci).

(** Lines 350-354: the default of a column fed by a sequence, moved to the
    schema of the target. *)
Definition adjusted_default (source_schema target_schema default_text : string)
  : string :=
  Str.replace ("'" +:+ source_schema +:+ ".") ("'" +:+ target_schema +:+ ".")
    default_text.

(** Lines 330-361: the definition of one column. *)
Definition column_def (source_schema target_schema : string) (ci : column_info)
  : string :=
  let plain := quoted_name (col_name ci) +:+ " " +:+ show_text (col_type_str ci) in
  let col_def :=
    if negb (String.eqb (data_type_val ci) "ARRAY") then
      if str_in (data_type_val ci) ["character varying"; "varchar"; "char"]
         && truthy_int (max_length ci)
      then plain +:+ "(" +:+ Str.of_Z (default 0 (max_length ci)) +:+ ")"
      else if str_in (data_type_val ci) ["numeric"; "decimal"]
              && truthy_int (num_precision ci)
      then
        if truthy_int (num_scale ci)
        then plain +:+ "(" +:+ Str.of_Z (default 0 (num_precision ci)) +:+ ","
             +:+ Str.of_Z (default 0 (num_scale ci)) +:+ ")"
        else plain +:+ "(" +:+ Str.of_Z (default 0 (num_precision ci)) +:+ ")"
      else plain
    else plain in
  let col_def :=
    if String.eqb (nullable ci) "NO" then col_def +:+ " NOT NULL" else col_def in
  if truthy (col_default ci) then
    let default_text := default EmptyString (col_default ci) in
    if Str.contains "nextval(" default_text
    then col_def +:+ " DEFAULT "
         +:+ adjusted_default source_schema target_schema default_text
    else col_def +:+ " DEFAULT " +:+ default_text
  else col_def.

(** [s[:-1]] *)
Definition all_but_last (s : string) : string := Str.rev (Str.tail (Str.rev s)).

(** Lines 378-384: the statement. *)
Definition table_definition (target_schema table_name : string)
    (column_defs pk_columns : list string) : string :=
  let table_def :=
    "CREATE TABLE " +:+ quoted_name target_schema +:+ "." +:+ quoted_name table_name
    +:+ " (" +:+ Str.join ", " column_defs +:+ ")" in
  match pk_columns with
  | [] => table_def
  | _ :: _ =>
      let pk_column_list := Str.join ", " (quoted_name <$> pk_columns) in
      let pk_constraint := ", PRIMARY KEY (" +:+ pk_column_list +:+ ")" in
      all_but_last table_def +:+ pk_constraint +:+ ")"
  end.

(** How the method ends: it has created the table, has found it in the
    target, or raises (the plain exception for a table without columns or
    for a [psycopg2.Error] of the source, or the error of the target). *)
Inductive creation : Type :=
| Created (db : statements)
| AlreadyThere (db : statements)
| CreationRaises.

(** The method, on the answers of the source to its two queries, on whether
    the target has the table, and on whether the target accepts the
    statement. *)
Definition create_table_if_not_exists (source_schema target_schema table_name : string)
    (columns_info : result (list column_info)) (pk_answer : result (list string))
    (table_exists refused : bool) (db : statements) : creation :=
  match columns_info with
  | Raise _ => CreationRaises
  | Ok [] => CreationRaises
  | Ok (ci :: cis) =>
      let column_defs := column_def source_schema target_schema <$> ci :: cis in
      match pk_answer with
      | Raise _ => CreationRaises
      | Ok pk_columns =>
          let table_def :=
            table_definition target_schema table_name column_defs pk_columns in
          if table_exists then AlreadyThere db
          else if refused then CreationRaises
          else Created {| applied := applied db ++ open_transaction db ++ [table_def];
                          open_transaction := [] |}
      end
  end.

(** * Properties *)

(** ** The converter *)

Section converter_facts.
Context `{Py.FloatOps}.

Lemma lower_char_inv (c d : ascii) :
  Str.lower_char c = d → c = d ∨ c = ascii_of_N (Str.code d - 32).
Proof.
  intros <-. destruct c as [[] [] [] [] [] [] [] []]; vm_compute; auto.
Qed.

Lemma str_in_true (s : string) (l : list string) :
  str_in s l = true → s ∈ l.
Proof.
  unfold str_in. rewrite existsb_exists. intros (x & Hx & Heq).
  apply String.eqb_eq in Heq as ->. by apply list_elem_of_In.
Qed.

(** A declared type that reads as json or jsonb has no boolean base type. *)
Lemma json_type_not_boolean (column_type : string) :
  str_in (Str.lower column_type) ["json"; "jsonb"] = true →
  str_in (base_type_of column_type) boolean_types = false.
Proof.
  intros Hin%str_in_true.
  assert (Str.lower column_type = "json" ∨ Str.lower column_type = "jsonb") as Hcases.
  { apply elem_of_cons in Hin as [-> | Hin]; [by left|].
    apply elem_of_cons in Hin as [-> | Hin]; [by right|]. by apply elem_of_nil in Hin. }
  destruct Hcases as [Hl | Hl].
  - destruct column_type as [|c1 [|c2 [|c3 [|c4 [|c5 rest]]]]]; try discriminate Hl.
    cbn in Hl. injection Hl as H1 H2 H3 H4.
    apply lower_char_inv in H1, H2, H3, H4.
    destruct H1 as [-> | ->], H2 as [-> | ->], H3 as [-> | ->], H4 as [-> | ->];
      vm_compute; reflexivity.
  - destruct column_type as [|c1 [|c2 [|c3 [|c4 [|c5 [|c6 rest]]]]]]; try discriminate Hl.
    cbn in Hl. injection Hl as H1 H2 H3 H4 H5.
    apply lower_char_inv in H1, H2, H3, H4, H5.
    destruct H1 as [-> | ->], H2 as [-> | ->], H3 as [-> | ->], H4 as [-> | ->],
             H5 as [-> | ->]; vm_compute; reflexivity.
Qed.

(** For a boolean base type the [try] block of an element takes the boolean
    branch, which raises nothing. *)
Lemma coerce_brace_item_boolean (base_type item : string) :
  str_in base_type boolean_types = true →
  convert_brace_item base_type item
  = Ok (PBool (str_in (Str.lower item) true_words)).
Proof.
  intros Hb%str_in_true.
  apply elem_of_cons in Hb as [-> | Hb]; [reflexivity|].
  apply elem_of_cons in Hb as [-> | Hb]; [reflexivity|]. by apply elem_of_nil in Hb.
Qed.

Lemma convert_brace_items_boolean (column_type : string) (items : list string) :
  str_in (base_type_of column_type) boolean_types = true →
  convert_brace_items column_type items
  = Ok ((fun item => PBool (str_in (Str.lower item) true_words))
          <$> List.filter (fun item => negb (Str.is_empty item)) (Str.strip <$> items)).
Proof.
  intros Hb. induction items as [|item rest IH]; [reflexivity|].
  cbn [convert_brace_items fmap list_fmap List.filter].
  destruct (Str.is_empty (Str.strip item)); cbn [negb]; [exact IH|].
  rewrite coerce_brace_item_boolean by exact Hb. rewrite IH. reflexivity.
Qed.

(** A text that JSON decoding accepts is returned as it is for a JSON
    column. *)
Lemma convert_valid_json_text (s : string) (column_type : string) (v : pyval) :
  str_in (Str.lower column_type) ["json"; "jsonb"] = true →
  Json.loads s = Ok v →
  convert_data_for_insert (PStr s) (Some column_type) = Ok (PStr s).
Proof.
  intros Hty Hv. unfold convert_data_for_insert. cbn [default from_option id].
  rewrite Hty. unfold convert_json. by rewrite Hv.
Qed.

(** A sequence given for a vector column that is no array column is written
    between brackets, its elements printed by [str] and joined by commas. *)
Lemma convert_vector_sequence (l : list pyval) (column_type : string) :
  str_in (Str.lower column_type) ["json"; "jsonb"] = false →
  is_array_type column_type = false →
  Str.contains "vector" (Str.lower column_type) = true →
  convert_data_for_insert (PList l) (Some column_type)
  = Ok (PStr ("[" +:+ Str.join "," (List.map Py.str l) +:+ "]")).
Proof.
  intros Hj Ha Hv. unfold convert_data_for_insert. cbn [default from_option id].
  by rewrite Hj, Ha, Hv.
Qed.


(** C10: for an array column whose base type is boolean or bool, a
    curly-brace literal converts, without raising, to the list that has one
    boolean for each non-empty trimmed element: True exactly when the
    lower-cased element is one of true, t, 1, yes, on, and False otherwise.
    No element is handed on as a string. *)
Theorem boolean_array_elements (column_type text : string) :
  is_array_type column_type = true →
  str_in (base_type_of column_type) boolean_types = true →
  Str.startswith "{" text = true →
  Str.endswith "}" text = true →
  convert_data_for_insert (PStr text) (Some column_type)
  = Ok (PList ((fun item => PBool (str_in (Str.lower item) true_words))
                 <$> List.filter (fun item => negb (Str.is_empty item))
                       (Str.strip <$> Str.split "," (Str.strip (Str.slice_1_m1 text))))).
Proof.
  intros Harr Hbool Hopen Hclose.
  unfold convert_data_for_insert. cbn [default from_option id].
  destruct (str_in (Str.lower column_type) ["json"; "jsonb"]) eqn:Hjson.
  { apply json_type_not_boolean in Hjson. congruence. }
  rewrite Harr. unfold convert_array. rewrite Hopen, Hclose. cbn [andb].
  destruct (Str.strip (Str.slice_1_m1 text)) as [|c inner] eqn:Hinner.
  - reflexivity.
  - cbn [Str.is_empty]. rewrite convert_brace_items_boolean by exact Hbool.
    reflexivity.
Qed.

End converter_facts.

(** C10 at the declared type boolean[] and the text {t, FALSE, Yes, x}. *)
Lemma boolean_array_elements_witness :
  is_array_type "boolean[]" = true
  ∧ str_in (base_type_of "boolean[]") boolean_types = true
  ∧ Str.startswith "{" "{t, FALSE, Yes, x}" = true
  ∧ Str.endswith "}" "{t, FALSE, Yes, x}" = true
  ∧ @convert_data_for_insert no_floats (PStr "{t, FALSE, Yes, x}") (Some "boolean[]")
    = Ok (PList [PBool true; PBool false; PBool true; PBool false]).
Proof.
  refine (conj eq_refl (conj eq_refl (conj eq_refl (conj eq_refl _)))).
  exact (@boolean_array_elements no_floats "boolean[]" "{t, FALSE, Yes, x}"
           eq_refl eq_refl eq_refl eq_refl).
Defined.

(** ** The checkpoint store *)

Section tracker_facts.
Context `{Py.FloatOps}.

Lemma save_progress_data (t : ProgressTracker) :
  progress_data (save_progress t) = progress_data t.
Proof.
  unfold save_progress. by destruct (Json.dumps_indent _ _ _).
Qed.

Lemma update_progress_data (t : ProgressTracker) (table : string) (p : MigrationProgress) :
  progress_data (update_progress t table p) = <[table := p]> (progress_data t).
Proof. unfold update_progress. by rewrite save_progress_data. Qed.

Lemma get_update_progress (t : ProgressTracker) (table : string) (p : MigrationProgress) :
  get_progress (update_progress t table p) table = Some p.
Proof.
  unfold get_progress. rewrite update_progress_data. apply lookup_insert_eq.
Qed.

Lemma make_progress_typed (entry : pyval) :
  make_progress entry
  = match construct_progress entry with
    | Ok o => Ok (typed_progress o)
    | Raise e => Raise e
    end.
Proof.
  destruct entry as [| | | | |l|l|d|]; try reflexivity.
  unfold make_progress, construct_progress.
  destruct (forallb _ d); [|done].
  by destruct (dict_get d "table_name"), (dict_get d "total_rows"),
       (dict_get d "migrated_rows").
Qed.

Lemma typed_progress_object (o : loaded_progress) (p : MigrationProgress) :
  typed_progress o = Some p → o = progress_object p.
Proof.
  destruct o as [tn tr mr lk cp]. unfold typed_progress, progress_object. cbn.
  destruct tn, tr, mr, lk, cp; try done; by intros [= <-].
Qed.

Lemma construct_constructible (entry : pyval) :
  constructible entry = false → construct_progress entry = Raise TypeError.
Proof.
  destruct entry as [| | | | |l|l|d|]; try reflexivity.
  unfold constructible, construct_progress.
  destruct (forallb _ d); [|done]. cbn [andb].
  destruct (dict_get d "table_name"), (dict_get d "total_rows"),
    (dict_get d "migrated_rows"); try reflexivity.
  rewrite !bool_decide_eq_true_2 by eauto. done.
Qed.

(** One entry the constructor refuses makes the whole comprehension
    raise, whatever the other entries are. *)
Lemma construct_entries_refused (entries : list (string * pyval))
    (table : string) (entry : pyval) :
  (table, entry) ∈ entries → constructible entry = false →
  ∃ e, construct_entries entries = Raise e
       ∧ make_entries entries = Raise e.
Proof.
  intros Hin Hbad. induction entries as [|[table' entry'] entries IH].
  - by apply elem_of_nil in Hin.
  - cbn [construct_entries make_entries]. rewrite make_progress_typed.
    destruct (construct_progress entry') as [o|e] eqn:Ho; [|by exists e].
    apply elem_of_cons in Hin as [[= -> ->] | Hin].
    { rewrite (construct_constructible _ Hbad) in Ho. done. }
    destruct (IH Hin) as (e & -> & ->). by exists e.
Qed.

Lemma construct_entries_typed (es : list (string * pyval)) :
  match make_entries es with
  | Ok l =>
      ∃ l', construct_entries es = Ok l'
        ∧ Forall2 (fun x y => x.1 = y.1 ∧ x.2 = typed_progress y.2) l l'
  | Raise e => construct_entries es = Raise e
  end.
Proof.
  induction es as [|[k en] es IH]; [by exists []|].
  cbn [make_entries construct_entries]. rewrite make_progress_typed.
  destruct (construct_progress en) as [o|e]; [|done]. cbn.
  destruct (make_entries es) as [ps|e]; cbn.
  - destruct IH as (l' & -> & Hall). cbn.
    exists ((k, o) :: l'). split; [done|]. by constructor.
  - by rewrite IH.
Qed.

Lemma entries_map_objects (l : list (string * option MigrationProgress))
    (l' : list (string * loaded_progress)) :
  Forall2 (fun x y => x.1 = y.1 ∧ x.2 = typed_progress y.2) l l' →
  ∀ (acc m : gmap string MigrationProgress),
  foldl (fun acc tp => m ← acc; p ← snd tp; Some (<[fst tp := p]> m)) (Some acc) l
  = Some m →
  foldl (fun acc tp => <[fst tp := snd tp]> acc) (progress_object <$> acc) l'
  = progress_object <$> m.
Proof.
  induction 1 as [|[k op] [k' o] l l' [Hk Ho] _ IH]; intros acc m Hm.
  - cbn in *. by injection Hm as <-.
  - cbn in Hk, Ho. subst k'. cbn [foldl fst snd] in Hm |- *.
    destruct op as [p|].
    + cbn [mbind option_bind] in Hm. rewrite <- (IH (<[k := p]> acc) m Hm).
      symmetry in Ho. apply typed_progress_object in Ho as ->.
      by rewrite fmap_insert.
    + exfalso. cbn [mbind option_bind] in Hm. clear -Hm.
      induction l as [|x l IHl]; [done|]. by apply IHl.
Qed.

(** The checkpoints [_load_progress] gives are the objects the constructor
    has built. *)
Lemma load_objects_typed (f : file_state) (m : gmap string MigrationProgress) :
  _load_progress f = Some m → load_objects f = Some (progress_object <$> m).
Proof.
  destruct f as [| |text]; cbn [_load_progress load_objects];
    try (intros [= <-]; by rewrite fmap_empty).
  unfold read_progress. destruct (Json.loads text) as [v|e].
  2:{ destruct e; try done; intros [= <-]; by rewrite fmap_empty. }
  destruct v as [| | | | |l|l|entries|];
    try (intros [= <-]; by rewrite fmap_empty).
  pose proof (construct_entries_typed entries) as Hentries.
  destruct (make_entries entries) as [l|e]; cbn [mbind].
  - destruct Hentries as (l' & -> & Hall). cbn. unfold entries_map. intros Hm.
    f_equal. rewrite <- (entries_map_objects l l' Hall ∅ m Hm).
    by rewrite fmap_empty.
  - rewrite Hentries. cbn. intros [= <-]. by rewrite fmap_empty.
Qed.

(** C9, as amended: when the progress file is absent, cannot be read, holds
    a text that is no JSON document, a document that is no object, or an
    object with an entry that the constructor of the class refuses (no
    object, a field the class does not have, or one of the three fields
    without a default missing), [_load_progress] gives the empty
    dictionary, the tracker is built without an exception, and
    [get_progress] finds no checkpoint for any table. *)
Theorem unusable_progress_file_loads_empty (f : file_state) :
  (f = FileMissing ∨ f = FileUnreadable
   ∨ ∃ text, f = FileContent text
       ∧ ((∃ e, Json.loads text = Raise e ∧ e ≠ UnsupportedCodePoint)
          ∨ (∃ v, Json.loads text = Ok v ∧ ∀ d, v ≠ PDict d)
          ∨ (∃ entries table entry,
               Json.loads text = Ok (PDict entries)
               ∧ (table, entry) ∈ entries ∧ constructible entry = false))) →
  load_objects f = Some ∅
  ∧ _load_progress f = Some ∅
  ∧ ∃ t, ProgressTracker_init f = Some t
         ∧ progress_data t = ∅
         ∧ ∀ table, get_progress t table = None.
Proof.
  intros Hf.
  assert (load_objects f = Some ∅ ∧ _load_progress f = Some ∅) as [Hobj Hload].
  { destruct Hf as [-> | [-> | (text & -> & Hf)]]; try done.
    cbn [load_objects _load_progress]. unfold read_progress.
    destruct Hf as [(e & -> & He) | [(v & -> & Hv) | (es & table & entry & -> & Hin & Hbad)]].
    - by destruct e.
    - destruct v; try done. by destruct (Hv d).
    - destruct (construct_entries_refused es table entry Hin Hbad) as (e & -> & ->).
      done. }
  split; [exact Hobj|]. split; [exact Hload|].
  unfold ProgressTracker_init. rewrite Hload. cbn.
  eexists; split; [reflexivity|]. split; [reflexivity|].
  intros table. unfold get_progress. cbn. apply lookup_empty.
Qed.

(** Texts on which the [try] block raises: a file cut off in the middle, a
    document that is a list, an entry that is a number, an entry without its
    counts, an entry with a field the class does not have. *)
Example corrupted_files :
  Forall (fun text => ∃ e, read_progress text = Raise e)
    [ EmptyString;
      Str.dq "{'orders': {'table_name': 'orders', 'total_ro";
      "[]";
      Str.dq "{'orders': 5}";
      Str.dq "{'orders': {'table_name': 'orders'}}";
      Str.dq "{'orders': {'table_name': 'orders', 'total_rows': 3, 'migrated_rows': 0, 'rows': 1}}" ].
Proof. repeat constructor; eexists; vm_compute; reflexivity. Qed.

End tracker_facts.

(** C9 at a progress file in which the entry of one table has lost its
    counts: the checkpoints of the other tables are dropped with it. *)
Lemma unusable_progress_file_loads_empty_witness :
  let text :=
    Str.dq "{'users': {'table_name': 'users', 'total_rows': 3, 'migrated_rows': 3}, 'orders': {'table_name': 'orders'}}" in
  let f := FileContent text in
  (f = FileMissing ∨ f = FileUnreadable
   ∨ ∃ text, f = FileContent text
       ∧ ((∃ e, @Json.loads no_floats text = Raise e ∧ e ≠ UnsupportedCodePoint)
          ∨ (∃ v, @Json.loads no_floats text = Ok v ∧ ∀ d, v ≠ PDict d)
          ∨ (∃ entries table entry,
               @Json.loads no_floats text = Ok (PDict entries)
               ∧ (table, entry) ∈ entries ∧ constructible entry = false)))
  ∧ @load_objects no_floats f = Some ∅
  ∧ @_load_progress no_floats f = Some ∅
  ∧ ∃ t, @ProgressTracker_init no_floats f = Some t
         ∧ progress_data t = ∅
         ∧ ∀ table, get_progress t table = None.
Proof.
  intros text f.
  assert (f = FileMissing ∨ f = FileUnreadable
          ∨ ∃ text, f = FileContent text
              ∧ ((∃ e, @Json.loads no_floats text = Raise e ∧ e ≠ UnsupportedCodePoint)
                 ∨ (∃ v, @Json.loads no_floats text = Ok v ∧ ∀ d, v ≠ PDict d)
                 ∨ (∃ entries table entry,
                      @Json.loads no_floats text = Ok (PDict entries)
                      ∧ (table, entry) ∈ entries ∧ constructible entry = false))) as Hf.
  { right; right. exists text. split; [reflexivity|]. right; right.
    eexists _, "orders", (PDict [("table_name", PStr "orders")]).
    split; [vm_compute; reflexivity|]. split; [|reflexivity].
    apply list_elem_of_further, list_elem_of_here. }
  split; [exact Hf|].
  exact (@unusable_progress_file_loads_empty no_floats f Hf).
Defined.

(** The claim C9 as stated fails: a progress file corrupted in the values
    of an entry (the total a text, the count null) is a JSON object whose
    entry has the fields of the class.  The constructor checks no types:
    the dictionary loaded is not empty, it holds the entry as the file
    gives it. *)
Lemma type_corrupted_file_is_loaded :
  let text :=
    Str.dq "{'orders': {'table_name': 'orders', 'total_rows': '3', 'migrated_rows': null}}" in
  let o := {| loaded_table_name := PStr "orders"; loaded_total_rows := PStr "3";
              loaded_migrated_rows := PNone; loaded_last_primary_key := PNone;
              loaded_completed := PBool false |} in
  @load_objects no_floats (FileContent text) = Some {["orders" := o]}
  ∧ @load_objects no_floats (FileContent text) ≠ Some ∅
  ∧ (∃ m, @load_objects no_floats (FileContent text) = Some m
          ∧ m !! "orders" = Some o)
  ∧ typed_progress o = None.
Proof.
  intros text o.
  assert (@load_objects no_floats (FileContent text) = Some {["orders" := o]}) as Hload
    by (vm_compute; reflexivity).
  split; [exact Hload|]. split; [|split; [|reflexivity]].
  - rewrite Hload. intros Hempty.
    assert (({["orders" := o]} : gmap string loaded_progress) !! "orders"
            = (∅ : gmap string loaded_progress) !! "orders") as Hl by congruence.
    by rewrite lookup_singleton_eq, lookup_empty in Hl.
  - exists {["orders" := o]}. split; [exact Hload|]. apply lookup_singleton_eq.
Qed.

(** ** One pass of the transfer loop *)

Section pass_facts.
Context `{Py.FloatOps} `{Database}.
Implicit Types (c : call) (st : state) (p : MigrationProgress).

Lemma convert_cell_present c (r : row) (col : string) (v : pyval) :
  dict_get r col = Some v →
  convert_cell c r col = Ok (sent_value c col v).
Proof.
  intros Hv. unfold convert_cell, sent_value, row_get. rewrite Hv. cbn.
  by destruct (convert_data_for_insert _ _).
Qed.

Lemma convert_cells_complete c (r : row) (cols : list string) :
  Forall (fun col => is_Some (dict_get r col)) cols →
  convert_cells c r cols
  = Ok ((fun col => sent_value c col (default PNone (dict_get r col))) <$> cols).
Proof.
  induction 1 as [|col cols [v Hv] _ IH]; [reflexivity|].
  cbn [convert_cells]. rewrite (convert_cell_present _ _ _ _ Hv). cbn.
  rewrite IH. cbn. by rewrite Hv.
Qed.

Lemma convert_rows_complete c (rows : list row) :
  Forall (fun r => Forall (fun col => is_Some (dict_get r col)) (arg_columns c)) rows →
  convert_rows c rows = Ok (sent_row c <$> rows).
Proof.
  induction 1 as [|r rows Hr _ IH]; [reflexivity|].
  cbn [convert_rows]. rewrite (convert_cells_complete _ _ _ Hr). cbn.
  rewrite IH. reflexivity.
Qed.

(** A pass without a fault on a page that converts: the batch is sent and
    committed, then the checkpoint moves. *)
Lemma try_block_clean c st (rows : list row) (tuples : list tuple) :
  run_query (source_rows c) (next_query c (progress st)) = Ok rows →
  rows ≠ [] →
  convert_rows c rows = Ok tuples →
  try_block c NoFault st = advance c rows (after_commit c rows tuples st).
Proof.
  intros Hq Hne Hconv. unfold try_block. rewrite Hq.
  destruct rows as [|r rows]; [done|]. rewrite Hconv. reflexivity.
Qed.

(** C7: in a page whose rows have the columns asked for, a cell whose
    conversion raises is sent with the value it has in the source
    ([sent_value]), every other cell with its converted value; the
    conversion of the page raises nothing, and the pass goes on to send the
    batch with every row of the page, to commit it and to move the
    checkpoint. *)
Theorem failing_cell_keeps_source_value c st (rows : list row) :
  Forall (fun r => Forall (fun col => is_Some (dict_get r col)) (arg_columns c)) rows →
  rows ≠ [] →
  run_query (source_rows c) (next_query c (progress st)) = Ok rows →
  (∀ r col v e, r ∈ rows → dict_get r col = Some v →
     convert_data_for_insert v (Some (default "text" (column_types c !! col))) = Raise e →
     convert_cell c r col = Ok v)
  ∧ convert_rows c rows = Ok (sent_row c <$> rows)
  ∧ try_block c NoFault st
    = advance c rows (after_commit c rows (sent_row c <$> rows) st).
Proof.
  intros Hcomplete Hne Hq. split; [|split].
  - intros r col v e _ Hv Hraise.
    rewrite (convert_cell_present _ _ _ _ Hv). unfold sent_value. by rewrite Hraise.
  - by apply convert_rows_complete.
  - apply try_block_clean; [done..|]. by apply convert_rows_complete.
Qed.

Lemma events_log (e : event) st : events (log e st) = events st ++ [e].
Proof. reflexivity. Qed.

(** A [try] block that fails before the checkpoint moves: it raises, with
    the checkpoint, the tracker and the committed rows as they were, after
    one query and without a commit or a save. *)
Lemma failing_try c (f : fault) st :
  chunk_fails c f (progress st) →
  ∃ e st1, try_block c f st = Raised e st1
    ∧ progress st1 = progress st ∧ shared st1 = shared st
    ∧ tracker st1 = tracker st
    ∧ committed (target st1) = committed (target st)
    ∧ ∃ evs, events st1 = events st ++ evs
        ∧ queries evs = [next_query c (progress st)]
        ∧ sleeps evs = [] ∧ rollbacks evs = 0%nat ∧ commits evs = 0%nat
        ∧ saves evs = [].
Proof.
  intros Hfail. unfold chunk_fails in Hfail. unfold try_block.
  assert (∀ db ts, committed (execute_batch db ts) = committed db) as Hexec.
  { intros db ts. unfold execute_batch. revert db.
    induction ts as [|t ts IH]; intros db; [done|].
    cbn [foldl]. rewrite IH. unfold insert_tuple. by destruct (existsb _ _). }
  assert (∀ (st1 : state) evs, events st1 = events st ++ evs →
            ∀ e, events (log e st1) = events st ++ (evs ++ [e])) as Hlog.
  { intros st1 evs He e. cbn. by rewrite He, <- app_assoc. }
  pose proof (app_nil_r (events st)) as Hnil. symmetry in Hnil.
  destruct f eqn:Hf;
    [destruct Hfail as [[e ->] | (r & rows & e & -> & ->)]
    | idtac
    | destruct Hfail as [[e ->] | (r & rows & ->)]
    | destruct Hfail as [[e ->] | (r & rows & ->)];
      [|destruct (convert_rows c (r :: rows))]
    | destruct Hfail as [[e ->] | (r & rows & ->)];
      [|destruct (convert_rows c (r :: rows))] ];
    (eexists _, _; split; [reflexivity|];
     repeat (split; [first [reflexivity | apply Hexec]|]);
     eexists; split;
       [first [ apply Hlog, Hlog, Hnil | apply Hlog, Hnil ]
       | by repeat split ]).
Qed.

(** A pass that fails before the checkpoint moves, with a rollback that
    succeeds: the loop goes on from the same checkpoint, the target holds
    its committed rows and nothing else, and the pass has sent one query,
    rolled back once and paused five seconds. *)
Lemma failing_pass c (w : conditions) st :
  chunk_fails c (fault_at w) (progress st) →
  rollback_raises w = false →
  ∃ st', loop_body c w st = Continue st'
    ∧ progress st' = progress st
    ∧ shared st' = shared st
    ∧ tracker st' = tracker st
    ∧ committed (target st') = committed (target st)
    ∧ pending (target st') = []
    ∧ ∃ evs, events st' = events st ++ evs
        ∧ queries evs = [next_query c (progress st)]
        ∧ sleeps evs = [5000]
        ∧ rollbacks evs = 1%nat
        ∧ commits evs = 0%nat
        ∧ saves evs = [].
Proof.
  intros Hfail Hrb. unfold loop_body. rewrite Hrb.
  destruct (failing_try c (fault_at w) st Hfail)
    as (e & st1 & -> & Hp & Hs & Ht & Hc & evs & He & Hq & Hsl & Hr & Hcm & Hsv).
  eexists. split; [reflexivity|]. cbn.
  repeat (split; [done|]).
  exists (evs ++ [Rollback; Sleep 5000]). rewrite He.
  split; [by rewrite <- !app_assoc|].
  unfold queries, sleeps, rollbacks, commits, saves in *.
  rewrite !bind_app, !List.filter_app, !length_app.
  rewrite Hq, Hsl, Hr, Hcm, Hsv. by repeat split.
Qed.

(** The same pass when the rollback raises: its exception leaves the
    function, after the query and the call of the rollback, without a
    pause; the checkpoint, the tracker and the committed rows are as they
    were. *)
Lemma aborting_pass c (w : conditions) st :
  chunk_fails c (fault_at w) (progress st) →
  rollback_raises w = true →
  ∃ st', loop_body c w st = Abort DatabaseError st'
    ∧ progress st' = progress st
    ∧ shared st' = shared st
    ∧ tracker st' = tracker st
    ∧ committed (target st') = committed (target st)
    ∧ ∃ evs, events st' = events st ++ evs
        ∧ queries evs = [next_query c (progress st)]
        ∧ sleeps evs = []
        ∧ rollbacks evs = 1%nat
        ∧ commits evs = 0%nat
        ∧ saves evs = [].
Proof.
  intros Hfail Hrb. unfold loop_body. rewrite Hrb.
  destruct (failing_try c (fault_at w) st Hfail)
    as (e & st1 & -> & Hp & Hs & Ht & Hc & evs & He & Hq & Hsl & Hr & Hcm & Hsv).
  eexists. split; [reflexivity|]. cbn.
  repeat (split; [done|]).
  exists (evs ++ [Rollback]). rewrite He.
  split; [by rewrite <- !app_assoc|].
  unfold queries, sleeps, rollbacks, commits, saves in *.
  rewrite !bind_app, !List.filter_app, !length_app.
  rewrite Hq, Hsl, Hr, Hcm, Hsv. by repeat split.
Qed.

End pass_facts.

(** ** Runs of the transfer loop *)

Section run_facts.
Context `{Py.FloatOps} `{Database}.
Implicit Types (c : call) (st : state) (p : MigrationProgress).

Lemma replicate_snoc {A} (n : nat) (x : A) : replicate n x ++ [x] = replicate (S n) x.
Proof. induction n as [|n IH]; [done|]. cbn. by rewrite IH. Qed.

(** As long as the passes fail before the checkpoint moves, the loop goes
    on: after [n] such passes it is still running, on the same checkpoint. *)
Lemma failing_passes c (env : nat → conditions) (n : nat) :
  ∀ (i : nat) st,
  migrated_rows (progress st) < arg_total_rows c →
  (∀ j, (i ≤ j < i + n)%nat →
        chunk_fails c (fault_at (env j)) (progress st)
        ∧ rollback_raises (env j) = false) →
  ∃ st', while_loop c env n i st = Running st'
    ∧ progress st' = progress st
    ∧ shared st' = shared st
    ∧ tracker st' = tracker st
    ∧ committed (target st') = committed (target st)
    ∧ ((0 < n)%nat → pending (target st') = [])
    ∧ ∃ evs, events st' = events st ++ evs
        ∧ queries evs = replicate n (next_query c (progress st))
        ∧ sleeps evs = replicate n 5000
        ∧ rollbacks evs = n
        ∧ commits evs = 0%nat
        ∧ saves evs = [].
Proof.
  induction n as [|n IH]; intros i st Hlt Henv.
  - exists st. cbn. apply Z.ltb_lt in Hlt as ->.
    repeat (split; [done || lia|]). exists []. by rewrite app_nil_r.
  - destruct (Henv i) as [Hfail Hrb]; [lia|].
    destruct (failing_pass c (env i) st Hfail Hrb)
      as (st1 & Hbody & Hp & Hs & Ht & Hc & Hpend & evs1 & He1 & Hq1 & Hsl1 & Hr1 & Hcm1 & Hsv1).
    destruct (IH (S i) st1) as (st2 & Hloop & Hp2 & Hs2 & Ht2 & Hc2 & Hpend2 & evs2 & He2 & Hq2 & Hsl2 & Hr2 & Hcm2 & Hsv2).
    { by rewrite Hp. }
    { intros j Hj. rewrite Hp. apply Henv. lia. }
    exists st2. cbn [while_loop]. pose proof Hlt as Hlt'. apply Z.ltb_lt in Hlt' as ->.
    rewrite Hbody. split; [exact Hloop|].
    split; [congruence|]. split; [congruence|]. split; [congruence|].
    split; [congruence|]. split.
    { intros _. destruct n as [|n]; [|apply Hpend2; lia].
      cbn in Hloop. rewrite Hp in Hloop. apply Z.ltb_lt in Hlt as Hlt'.
      rewrite Hlt' in Hloop. by injection Hloop as <-. }
    exists (evs1 ++ evs2). rewrite He2, He1, <- app_assoc. split; [done|].
    unfold queries, sleeps, rollbacks, commits, saves in *.
    rewrite !bind_app, !List.filter_app, !length_app.
    rewrite Hq1, Hq2, Hsl1, Hsl2, Hr1, Hr2, Hcm1, Hcm2, Hsv1, Hsv2, Hp.
    by repeat split.
Qed.

(** When, after [k] such passes, a pass fails whose rollback raises, the
    loop is left by that exception: of the [k + 1] passes each has sent the
    query and called the rollback, and all but the last have paused. *)
Lemma failing_passes_abort c (env : nat → conditions) (k : nat) :
  ∀ (n i : nat) st,
  migrated_rows (progress st) < arg_total_rows c →
  (k < n)%nat →
  (∀ j, (i ≤ j < i + k)%nat → rollback_raises (env j) = false) →
  (∀ j, (i ≤ j ≤ i + k)%nat → chunk_fails c (fault_at (env j)) (progress st)) →
  rollback_raises (env (i + k)%nat) = true →
  ∃ st', while_loop c env n i st = Failed DatabaseError st'
    ∧ progress st' = progress st
    ∧ shared st' = shared st
    ∧ tracker st' = tracker st
    ∧ committed (target st') = committed (target st)
    ∧ ∃ evs, events st' = events st ++ evs
        ∧ queries evs = replicate (S k) (next_query c (progress st))
        ∧ sleeps evs = replicate k 5000
        ∧ rollbacks evs = S k
        ∧ commits evs = 0%nat
        ∧ saves evs = [].
Proof.
  induction k as [|k IH]; intros n i st Hlt Hn Hrb Hfail Hraise;
    (destruct n as [|n]; [lia|]); cbn [while_loop];
    pose proof Hlt as Hlt'; apply Z.ltb_lt in Hlt' as ->.
  - rewrite Nat.add_0_r in Hraise.
    destruct (aborting_pass c (env i) st) as (st1 & -> & Hrest);
      [apply Hfail; lia|done|].
    by exists st1.
  - destruct (failing_pass c (env i) st)
      as (st1 & -> & Hp & Hs & Ht & Hc & _ & evs1 & He1 & Hq1 & Hsl1 & Hr1 & Hcm1 & Hsv1);
      [apply Hfail; lia|apply Hrb; lia|].
    destruct (IH n (S i) st1)
      as (st2 & Hloop & Hp2 & Hs2 & Ht2 & Hc2 & evs2 & He2 & Hq2 & Hsl2 & Hr2 & Hcm2 & Hsv2).
    { by rewrite Hp. }
    { lia. }
    { intros j Hj. apply Hrb. lia. }
    { intros j Hj. rewrite Hp. apply Hfail. lia. }
    { by replace (S i + k)%nat with (i + S k)%nat by lia. }
    exists st2. split; [exact Hloop|].
    split; [congruence|]. split; [congruence|]. split; [congruence|].
    split; [congruence|].
    exists (evs1 ++ evs2). rewrite He2, He1, <- app_assoc. split; [done|].
    unfold queries, sleeps, rollbacks, commits, saves in *.
    rewrite !bind_app, !List.filter_app, !length_app.
    rewrite Hq1, Hq2, Hsl1, Hsl2, Hr1, Hr2, Hcm1, Hcm2, Hsv1, Hsv2, Hp.
    by repeat split.
Qed.

(** Among the first [n] passes, either no rollback raises or there is a
    first one that does. *)
Lemma first_raising_rollback (env : nat → conditions) (n : nat) :
  (∀ j, (j < n)%nat → rollback_raises (env j) = false)
  ∨ ∃ k, (k < n)%nat ∧ rollback_raises (env k) = true
         ∧ ∀ j, (j < k)%nat → rollback_raises (env j) = false.
Proof.
  induction n as [|n [Hnone | (k & Hk & Hraise & Hbefore)]].
  - left. intros j Hj. lia.
  - destruct (rollback_raises (env n)) eqn:Hn.
    + right. exists n. split; [lia|]. split; [done|]. intros j Hj. by apply Hnone.
    + left. intros j Hj. destruct (decide (j = n)) as [-> |]; [done|].
      apply Hnone. lia.
  - right. exists k. split; [lia|]. done.
Qed.

(** C8, as amended: a call whose passes fail before the checkpoint moves (a
    query, a conversion, the batch or the commit raises), for [n] passes.
    As long as the rollbacks succeed the call stays in its loop: after the
    [n] passes it has neither returned nor raised, it has sent [n] times the
    same query, rolled back [n] times and paused [n] times five seconds, and
    the target holds no open transaction.  When the rollback of pass [k]
    raises, that exception leaves the call at once: pass [k] has sent the
    query and called the rollback, and is followed by no pause and no
    further query.  In both cases the checkpoint is the one the call started
    from (as object, in the dictionary of the tracker and in the file), not
    marked completed, nothing was committed or saved, and the target holds
    committed what it held before. *)
Theorem failed_chunk_is_retried c (env : nat → conditions) (n : nat)
    (t : ProgressTracker) (db : target_db) :
  let st0 := initial_state c t db in
  completed (progress st0) = false →
  migrated_rows (progress st0) < arg_total_rows c →
  (∀ j, (j < n)%nat → chunk_fails c (fault_at (env j)) (progress st0)) →
  ∃ st (k : nat),
    progress st = progress st0
    ∧ completed (progress st) = false
    ∧ tracker st = t
    ∧ committed (target st) = committed db
    ∧ commits (events st) = 0%nat
    ∧ saves (events st) = []
    ∧ (∀ j, (j < k)%nat → rollback_raises (env j) = false)
    ∧ sleeps (events st) = replicate k 5000
    ∧ ((k = n
        ∧ migrate_table_data c env n t db = Running st
        ∧ queries (events st) = replicate n (next_query c (progress st0))
        ∧ rollbacks (events st) = n
        ∧ ((0 < n)%nat → pending (target st) = []))
       ∨ ((k < n)%nat
          ∧ rollback_raises (env k) = true
          ∧ migrate_table_data c env n t db = Failed DatabaseError st
          ∧ queries (events st) = replicate (S k) (next_query c (progress st0))
          ∧ rollbacks (events st) = S k)).
Proof.
  intros st0 Hnot Hlt Henv.
  assert (tracker st0 = t ∧ target st0 = db ∧ events st0 = []) as (Ht0 & Hd0 & He0).
  { unfold st0, initial_state. by destruct (get_progress _ _). }
  unfold migrate_table_data. fold st0. rewrite Hnot.
  destruct (first_raising_rollback env n) as [Hnone | (k & Hk & Hraise & Hbefore)].
  - destruct (failing_passes c env n 0 st0 Hlt)
      as (st & Hloop & Hp & Hs & Ht & Hc & Hpend & evs & He & Hq & Hsl & Hr & Hcm & Hsv).
    { intros j Hj. split; [apply Henv|apply Hnone]; lia. }
    exists st, n. rewrite Hp, Ht, Hc, Ht0, Hd0, He, He0. cbn [app].
    repeat (split; [done|]). left. by repeat split.
  - destruct (failing_passes_abort c env k n 0 st0 Hlt Hk)
      as (st & Hloop & Hp & Hs & Ht & Hc & evs & He & Hq & Hsl & Hr & Hcm & Hsv).
    { intros j Hj. apply Hbefore. lia. }
    { intros j Hj. apply Henv. lia. }
    { done. }
    exists st, k. rewrite Hp, Ht, Hc, Ht0, Hd0, He, He0. cbn [app].
    repeat (split; [done|]). right. by repeat split.
Qed.

(** C5: a call on a table whose checkpoint is completed, or has a count of
    migrated rows that is not below the total given to the call, returns
    without a query on the source and without a batch on the target, which
    is left as it was.  In the first case it does nothing at all; in the
    second it only marks the checkpoint completed and saves it. *)
Theorem caught_up_run_moves_nothing c (env : nat → conditions) (fuel : nat)
    (t : ProgressTracker) (db : target_db) p :
  get_progress t (arg_table_name c) = Some p →
  completed p = true ∨ arg_total_rows c ≤ migrated_rows p →
  ∃ st, migrate_table_data c env fuel t db = Returned st
    ∧ target st = db
    ∧ queries (events st) = []
    ∧ batches (events st) = []
    ∧ commits (events st) = 0%nat
    ∧ migrated_rows (progress st) = migrated_rows p
    ∧ (if completed p then events st = [] ∧ tracker st = t
       else events st = [Save (with_completed p)]).
Proof.
  intros Hget Hcase. unfold migrate_table_data, initial_state. rewrite Hget. cbn.
  destruct (completed p) eqn:Hdone.
  - eexists. split; [reflexivity|]. by repeat split.
  - destruct Hcase as [|Hge]; [done|].
    assert ((migrated_rows p <? arg_total_rows c) = false) as Hcond by (apply Z.ltb_ge; lia).
    destruct fuel; cbn; rewrite Hcond; (eexists; split; [reflexivity|]; by repeat split).
Qed.

End run_facts.

(** ** Pages of a table in key order *)

Section order_facts.
Context `{Database}.
Implicit Types (pk : string) (r : row) (l : list row).

(** The strict order of two rows by their keys. *)
Abbreviation key_lt pk := (fun r1 r2 => strict key_le (row_key pk r1) (row_key pk r2)).

Global Instance row_le_trans pk : Transitive (row_le pk).
Proof. intros r1 r2 r3. unfold row_le. apply transitivity. Qed.

Global Instance row_le_total pk : Total (row_le pk).
Proof. intros r1 r2. unfold row_le. apply (total key_le). Qed.

Lemma order_by_key_perm pk l : order_by_key pk l ≡ₚ l.
Proof. apply merge_sort_Permutation. Qed.

Lemma strongly_sorted_distinct pk l :
  StronglySorted (row_le pk) l →
  NoDup (row_key pk <$> l) →
  StronglySorted (key_lt pk) l.
Proof.
  induction 1 as [|r l Hl IH Hall]; intros Hnodup; [constructor|].
  rewrite fmap_cons in Hnodup. apply NoDup_cons in Hnodup as [Hnotin Hnodup].
  constructor; [by apply IH|].
  rewrite Forall_forall in Hall |- *. intros r' Hr'.
  apply strict_spec_alt. split; [by apply Hall|].
  intros Heq. apply Hnotin. rewrite Heq. apply list_elem_of_fmap. eauto.
Qed.

Lemma order_by_key_sorted pk l :
  NoDup (row_key pk <$> l) →
  StronglySorted (key_lt pk) (order_by_key pk l).
Proof.
  intros Hnodup. apply strongly_sorted_distinct.
  - apply (StronglySorted_merge_sort (row_le pk)).
  - by rewrite (order_by_key_perm pk l).
Qed.

(** In a list in strict key order, the rows after the key of the row at
    place [i] are the rows after place [i]. *)
Lemma filter_after_sorted pk l (i : nat) r :
  StronglySorted (key_lt pk) l →
  l !! i = Some r →
  List.filter (key_after pk (row_key pk r)) l = drop (S i) l.
Proof.
  intros Hsorted. revert i. induction Hsorted as [|a l Hl IH Hall]; intros i Hi; [done|].
  cbn [List.filter]. destruct i as [|i]; cbn in Hi.
  - injection Hi as ->. unfold key_after at 1.
    rewrite bool_decide_eq_false_2 by (intros [_ Hn]; apply Hn; reflexivity).
    cbn. rewrite Forall_forall in Hall.
    clear -Hall. induction l as [|b l IH]; [done|]. cbn.
    unfold key_after at 1. rewrite bool_decide_eq_true_2 by (apply Hall; left).
    f_equal. apply IH. intros x Hx. apply Hall. by right.
  - assert (key_lt pk a r) as Har.
    { rewrite Forall_forall in Hall. apply Hall. by eapply list_elem_of_lookup_2. }
    unfold key_after at 1.
    rewrite bool_decide_eq_false_2 by (intros [Hle _]; destruct Har as [_ Hn]; by apply Hn).
    cbn. by apply IH.
Qed.

Lemma strongly_sorted_take_drop {A} (R : relation A) (l : list A) (n m : nat) :
  StronglySorted R l → StronglySorted R (take n (drop m l)).
Proof.
  intros Hl. assert (StronglySorted R (drop m l)) as Hd.
  { rewrite <- (take_drop m l) in Hl. by apply StronglySorted_app_1_r in Hl. }
  rewrite <- (take_drop n (drop m l)) in Hd. by apply StronglySorted_app_1_l in Hd.
Qed.

(** In a list of pages whose concatenation is in order, every row of an
    earlier page is before every row of a later page. *)
Lemma strongly_sorted_concat {A} (R : relation A) (ps : list (list A)) :
  StronglySorted R (concat ps) →
  ∀ (i j : nat) P Q x y, (i < j)%nat → ps !! i = Some P → ps !! j = Some Q →
    x ∈ P → y ∈ Q → R x y.
Proof.
  induction ps as [|P0 ps IH]; intros Hs i j P Q x y Hij Hi Hj Hx Hy; [done|].
  cbn in Hs. destruct j as [|j]; [lia|]. cbn in Hj.
  destruct i as [|i]; cbn in Hi.
  - injection Hi as ->.
    eapply StronglySorted_app_1_elem_of; [exact Hs|exact Hx|].
    apply list_elem_of_In, in_concat. exists Q.
    split; apply list_elem_of_In; [by eapply list_elem_of_lookup_2|done].
  - apply (IH (StronglySorted_app_1_r _ _ _ Hs) i j P Q); [lia|done..].
Qed.

End order_facts.

(** ** Pages of a call *)

Section paging_facts.
Context `{Py.FloatOps} `{Database}.
Implicit Types (c : call) (st : state) (p : MigrationProgress) (pk : string).

Lemma listing_perm c : listing c ≡ₚ source_rows c.
Proof. unfold listing. destruct (paging_key c); [apply order_by_key_perm|done]. Qed.

Lemma listing_length c : length (listing c) = length (source_rows c).
Proof. by rewrite (listing_perm c). Qed.

Lemma listing_sorted c pk :
  sound_source c → paging_key c = Some pk →
  StronglySorted (fun r1 r2 => strict key_le (row_key pk r1) (row_key pk r2)) (listing c).
Proof.
  intros Hs Hpk. unfold listing. rewrite Hpk.
  apply order_by_key_sorted. by apply (keys_distinct c Hs).
Qed.

Lemma paging_key_cases c :
  (∃ pk, arg_primary_key c = Some pk ∧ truthy (Some pk) = true ∧ paging_key c = Some pk)
  ∨ (truthy (arg_primary_key c) = false ∧ paging_key c = None).
Proof.
  unfold paging_key. destruct (arg_primary_key c) as [pk|] eqn:Hpk.
  - destruct (truthy (Some pk)) eqn:Ht; [left; eauto|right; eauto].
  - right. eauto.
Qed.

(** The query of a checkpoint in step with the source returns the next
    [chunk_size] rows of the listing. *)
Lemma query_page c p :
  0 ≤ chunk_size c → in_step c p →
  run_query (source_rows c) (next_query c p) = Ok (next_page c p).
Proof.
  intros Hchunk (Hm & _ & Hkey). unfold next_query, next_page.
  assert ((chunk_size c <? 0) = false) as Hc by lia.
  assert ((migrated_rows p <? 0) = false) as Hm' by lia.
  destruct (paging_key_cases c) as [(pk & Hpk & Ht & Hpage) | (Ht & Hpage)].
  - rewrite Hpk. destruct (last_primary_key p) as [last|] eqn:Hlast.
    + rewrite Ht. destruct (truthy (Some last)) eqn:Htl; cbn [andb].
      * destruct (Hkey pk last Hpage eq_refl Htl) as (k & Hcast & Hfilter).
        cbn. rewrite Hc, Hcast. unfold listing in *. rewrite Hpage in *.
        by rewrite Hfilter.
      * cbn. rewrite Hc, Hm'. cbn. unfold listing. by rewrite Hpage.
    + rewrite Ht. cbn. rewrite Hc, Hm'. cbn. unfold listing. by rewrite Hpage.
  - unfold listing. rewrite Hpage.
    destruct (last_primary_key p) as [last|], (arg_primary_key c) as [pk|];
      cbn in Ht |- *; rewrite ?Ht, ?andb_false_r; cbn; by rewrite Hc, Hm'.
Qed.

Lemma next_page_length c p :
  (length (next_page c p)
   = Nat.min (Z.to_nat (chunk_size c))
       (length (source_rows c) - Z.to_nat (migrated_rows p)))%nat.
Proof. unfold next_page. by rewrite length_take, length_drop, listing_length. Qed.

Lemma next_page_elem c p r : r ∈ next_page c p → r ∈ source_rows c.
Proof.
  intros Hr. rewrite <- (listing_perm c).
  unfold next_page in Hr. by apply subseteq_take, subseteq_drop in Hr.
Qed.

Lemma next_page_last c p r :
  last (next_page c p) = Some r →
  listing c !! (Z.to_nat (migrated_rows p) + length (next_page c p) - 1)%nat = Some r.
Proof.
  intros Hlast. rewrite last_lookup in Hlast.
  pose proof (lookup_lt_Some _ _ _ Hlast) as Hlt.
  unfold next_page in *. rewrite lookup_take_lt in Hlast.
  2:{ rewrite length_take in *. lia. }
  rewrite lookup_drop in Hlast. rewrite <- Hlast. f_equal. lia.
Qed.

(** After the transfer of its next page a checkpoint is in step again. *)
Lemma moved_in_step c p :
  sound_source c → in_step c p → next_page c p ≠ [] →
  in_step c (moved c (next_page c p) p).
Proof.
  intros Hs (Hm & Hlen & Hkey) Hne.
  pose proof (next_page_length c p) as Hpl. rewrite <- listing_length in Hpl.
  split; [cbn; lia|]. split; [cbn; lia|].
  intros pk txt Hpage Hlast Htruthy. cbn in Hlast. rewrite Hpage in Hlast.
  destruct (last (next_page c p)) as [r|] eqn:Hr.
  2:{ apply last_None in Hr. done. }
  injection Hlast as <-.
  assert (r ∈ source_rows c) as Hin.
  { apply (next_page_elem c p). rewrite last_lookup in Hr. by eapply list_elem_of_lookup_2. }
  pose proof (keys_present c Hs pk Hpage) as Hpres.
  rewrite Forall_forall in Hpres. destruct (Hpres r Hin) as [v Hv].
  pose proof (keys_read_back c Hs pk Hpage) as Hback.
  rewrite Forall_forall in Hback. specialize (Hback r Hin v Hv).
  rewrite Hv. cbn. exists (sql_key v). split; [exact Hback|].
  apply next_page_last in Hr.
  pose proof (filter_after_sorted pk (listing c) _ r (listing_sorted c pk Hs Hpage) Hr)
    as Hfilter.
  unfold row_key in Hfilter at 1. rewrite Hv in Hfilter. cbn in Hfilter.
  rewrite Hfilter. f_equal. cbn.
  assert (length (next_page c p) ≠ 0%nat) by (by destruct (next_page c p)).
  lia.
Qed.

End paging_facts.

Section clean_pass_facts.
Context `{Py.FloatOps} `{Database}.
Implicit Types (c : call) (st : state) (p : MigrationProgress) (pk : string).

(** The end of a pass after the commit: the checkpoint moves, is saved, and
    the loop ends when the count has reached the total. *)
Lemma advance_moves c (rows : list row) st :
  (∀ pk r, paging_key c = Some pk → last rows = Some r → is_Some (dict_get r pk)) →
  ∃ st', advance c rows st
         = (if arg_total_rows c <=? migrated_rows (moved c rows (progress st))
            then Break st' else Next st')
    ∧ progress st' = moved c rows (progress st)
    ∧ shared st' = true
    ∧ target st' = target st
    ∧ events st' = events st ++ [Save (moved c rows (progress st)); Sleep 100]
    ∧ get_progress (tracker st') (arg_table_name c) = Some (moved c rows (progress st)).
Proof.
  intros Hkey. unfold advance.
  assert (∀ st2, progress st2 = moved c rows (progress st) →
            target st2 = target st → events st2 = events st →
          ∃ st', (let st3 := log (Sleep 100) (do_update_progress c st2) in
                  if arg_total_rows c <=? migrated_rows (progress st3) then Break st3
                  else if (Z.of_nat (length rows) <? chunk_size c)
                          && (arg_total_rows c <=? migrated_rows (progress st3))
                  then Break st3 else Next st3)
                 = (if arg_total_rows c <=? migrated_rows (moved c rows (progress st))
                    then Break st' else Next st')
            ∧ progress st' = moved c rows (progress st)
            ∧ shared st' = true
            ∧ target st' = target st
            ∧ events st' = events st ++ [Save (moved c rows (progress st)); Sleep 100]
            ∧ get_progress (tracker st') (arg_table_name c)
              = Some (moved c rows (progress st))) as Hend.
  { intros st2 Hp Ht He. exists (log (Sleep 100) (do_update_progress c st2)).
    cbn zeta. cbn [log do_update_progress progress shared target events tracker].
    rewrite Hp, Ht, He. split.
    - destruct (arg_total_rows c <=? _); [done|]. by rewrite andb_false_r.
    - repeat (split; [done|]). split; [by rewrite <- app_assoc|].
      apply get_update_progress. }
  destruct (paging_key_cases c) as [(pk & Hpk & Ht & Hpage) | (Ht & Hpage)].
  - rewrite Hpk. destruct (last rows) as [r|] eqn:Hr.
    + rewrite Ht. destruct (Hkey pk r Hpage eq_refl) as [v Hv].
      unfold row_get. rewrite Hv. apply Hend; [|done..].
      cbn. unfold moved. rewrite Hpage, Hr, Hv. by destruct (shared st).
    + apply Hend; [|done..]. cbn. unfold moved. rewrite Hpage, Hr. by destruct (shared st).
  - assert (moved c rows (progress st)
            = {| table_name := table_name (progress st);
                 total_rows := total_rows (progress st);
                 migrated_rows := migrated_rows (progress st) + Z.of_nat (length rows);
                 last_primary_key := last_primary_key (progress st);
                 completed := completed (progress st) |}) as Hmoved.
    { unfold moved. by rewrite Hpage. }
    destruct (arg_primary_key c) as [pk|] eqn:Hpk.
    + destruct (last rows) as [r|] eqn:Hr.
      * rewrite Ht. apply Hend; [|done..]. by rewrite Hmoved.
      * apply Hend; [|done..]. by rewrite Hmoved.
    + apply Hend; [|done..]. by rewrite Hmoved.
Qed.

(** A pass without a fault from a checkpoint in step with a sound source,
    when rows are left: the next page is fetched, sent and committed, the
    checkpoint moves and is saved. *)
Lemma clean_pass c (w : conditions) st :
  sound_source c → 0 ≤ chunk_size c → in_step c (progress st) →
  fault_at w = NoFault →
  next_page c (progress st) ≠ [] →
  let page := next_page c (progress st) in
  let p' := moved c page (progress st) in
  ∃ st', loop_body c w st
         = (if arg_total_rows c <=? migrated_rows p' then Exit st' else Continue st')
    ∧ progress st' = p'
    ∧ in_step c p'
    ∧ shared st' = true
    ∧ target st' = commit (execute_batch (target st) (sent_row c <$> page))
    ∧ events st'
      = events st ++ [Fetch (next_query c (progress st)) page;
                      ExecuteBatch (override_clause c) (sent_row c <$> page);
                      Commit; Save p'; Sleep 100]
    ∧ get_progress (tracker st') (arg_table_name c) = Some p'.
Proof.
  intros Hs Hchunk Hstep Hw Hne page p'.
  assert (Forall (fun r => Forall (fun col => is_Some (dict_get r col)) (arg_columns c)) page)
    as Hcomplete.
  { rewrite Forall_forall. intros r Hr%next_page_elem.
    pose proof (rows_complete c Hs) as Hall. rewrite Forall_forall in Hall. by apply Hall. }
  destruct (advance_moves c page
              (after_commit c page (sent_row c <$> page) st))
    as (st' & Hadv & Hp & Hsh & Htg & Hev & Hget).
  { intros pk r Hpage Hr.
    pose proof (keys_present c Hs pk Hpage) as Hall. rewrite Forall_forall in Hall.
    apply Hall, (next_page_elem c (progress st)).
    rewrite last_lookup in Hr. by eapply list_elem_of_lookup_2. }
  exists st'. unfold loop_body. rewrite Hw.
  rewrite (try_block_clean c st page (sent_row c <$> page));
    [|by apply query_page|done|by apply convert_rows_complete].
  rewrite Hadv. cbn [progress after_commit log with_target] in *.
  split; [by destruct (_ <=? _)|].
  split; [exact Hp|]. split; [by apply moved_in_step|]. split; [exact Hsh|].
  split; [exact Htg|]. split; [|exact Hget].
  rewrite Hev. cbn. by rewrite <- !app_assoc.
Qed.

End clean_pass_facts.

(** ** Runs without faults *)

Section clean_run_facts.
Context `{Py.FloatOps} `{Database}.
Implicit Types (c : call) (st : state) (p : MigrationProgress) (pk : string).

Lemma fresh_in_step c (t : ProgressTracker) (db : target_db) :
  get_progress t (arg_table_name c) = None →
  in_step c (progress (initial_state c t db))
  ∧ progress (initial_state c t db)
    = {| table_name := arg_table_name c; total_rows := arg_total_rows c;
         migrated_rows := 0; last_primary_key := None; completed := false |}
  ∧ events (initial_state c t db) = []
  ∧ target (initial_state c t db) = db.
Proof.
  intros Hnone. unfold initial_state. rewrite Hnone. cbn.
  split; [|done]. split; [done|]. split; [cbn; lia|]. intros pk txt _ Hlast. done.
Qed.

(** One turn of the loop on a pass without a fault. *)
Lemma while_loop_clean c (env : nat → conditions) (fuel i : nat) st :
  sound_source c → 0 ≤ chunk_size c → in_step c (progress st) →
  fault_at (env i) = NoFault →
  migrated_rows (progress st) < arg_total_rows c →
  next_page c (progress st) ≠ [] →
  let page := next_page c (progress st) in
  let p' := moved c page (progress st) in
  ∃ st', while_loop c env (S fuel) i st
         = (if arg_total_rows c <=? migrated_rows p' then Returned (finish c st')
            else while_loop c env fuel (S i) st')
    ∧ progress st' = p'
    ∧ in_step c p'
    ∧ shared st' = true
    ∧ target st' = commit (execute_batch (target st) (sent_row c <$> page))
    ∧ events st'
      = events st ++ [Fetch (next_query c (progress st)) page;
                      ExecuteBatch (override_clause c) (sent_row c <$> page);
                      Commit; Save p'; Sleep 100]
    ∧ get_progress (tracker st') (arg_table_name c) = Some p'.
Proof.
  intros Hs Hchunk Hstep Hw Hlt Hne page p'.
  destruct (clean_pass c (env i) st Hs Hchunk Hstep Hw Hne) as (st' & Hbody & Hrest).
  exists st'. split; [|exact Hrest].
  cbn [while_loop]. apply Z.ltb_lt in Hlt as ->. rewrite Hbody.
  fold page. fold p'. by destruct (_ <=? _).
Qed.

Lemma finish_facts c st :
  progress (finish c st) = with_completed (progress st)
  ∧ target (finish c st) = target st
  ∧ events (finish c st) = events st ++ [Save (with_completed (progress st))]
  ∧ get_progress (tracker (finish c st)) (arg_table_name c)
    = Some (with_completed (progress st)).
Proof.
  unfold finish. cbn. repeat split. apply get_update_progress.
Qed.


End clean_run_facts.

Section drift_facts.
Context `{Py.FloatOps} `{Database}.
Implicit Types (c : call) (st : state) (p : MigrationProgress) (pk : string).

Lemma sound_sourceb_sound c : sound_sourceb c = true → sound_source c.
Proof.
  unfold sound_sourceb. intros [Hcomplete Hkeys]%andb_true_iff.
  assert (Forall (fun r => Forall (fun col => is_Some (dict_get r col)) (arg_columns c))
            (source_rows c)) as Hc.
  { rewrite forallb_forall in Hcomplete. apply Forall_forall. intros r Hr%list_elem_of_In.
    specialize (Hcomplete r Hr). rewrite forallb_forall in Hcomplete.
    apply Forall_forall. intros col Hcol%list_elem_of_In.
    apply Hcomplete in Hcol. by apply bool_decide_eq_true in Hcol. }
  destruct (paging_key c) as [pk|] eqn:Hpage.
  - apply andb_true_iff in Hkeys as [Hback Hnodup].
    rewrite forallb_forall in Hback. apply bool_decide_eq_true in Hnodup.
    split; [exact Hc|..]; intros pk' Hpk'; rewrite Hpage in Hpk'; injection Hpk' as <-.
    + apply Forall_forall. intros r Hr%list_elem_of_In. specialize (Hback r Hr).
      by destruct (dict_get r pk).
    + exact Hnodup.
    + apply Forall_forall. intros r Hr%list_elem_of_In v Hv. specialize (Hback r Hr).
      rewrite Hv in Hback. by apply bool_decide_eq_true in Hback.
  - split; [exact Hc|..]; intros pk' Hpk'; by rewrite Hpage in Hpk'.
Qed.

(** A pass that meets an empty page ends the loop; the call then marks the
    checkpoint completed and saves it, whatever its count. *)
Lemma empty_page_ends_loop c (env : nat → conditions) (fuel i : nat) st :
  migrated_rows (progress st) < arg_total_rows c →
  fault_at (env i) ≠ FetchFault →
  run_query (source_rows c) (next_query c (progress st)) = Ok [] →
  while_loop c env (S fuel) i st
  = Returned (finish c (log (Fetch (next_query c (progress st)) []) st)).
Proof.
  intros Hlt Hfault Hq. cbn [while_loop]. apply Z.ltb_lt in Hlt as ->.
  unfold loop_body, try_block. rewrite Hq. by destruct (fault_at (env i)).
Qed.

Lemma drift_run c (env : nat → conditions) :
  sound_source c → 1 ≤ chunk_size c →
  Z.of_nat (length (source_rows c)) < arg_total_rows c →
  (∀ i, fault_at (env i) = NoFault) →
  ∀ (k fuel i : nat) st,
  in_step c (progress st) →
  (length (source_rows c) - Z.to_nat (migrated_rows (progress st)) = k)%nat →
  (k < fuel)%nat →
  ∃ st' evs q, while_loop c env fuel i st = Returned st'
    ∧ migrated_rows (progress st') = Z.of_nat (length (source_rows c))
    ∧ completed (progress st') = true
    ∧ get_progress (tracker st') (arg_table_name c) = Some (progress st')
    ∧ events st' = events st ++ evs ++ [Fetch q []; Save (progress st')].
Proof.
  intros Hs Hchunk Hshort Henv k.
  induction (lt_wf k) as [k _ IH]. intros fuel i st Hstep Hk Hfuel.
  destruct fuel as [|fuel]; [lia|].
  pose proof Hstep as (Hm0 & Hmlen & _). rewrite listing_length in Hmlen.
  pose proof (next_page_length c (progress st)) as Hpl.
  destruct (decide (k = 0%nat)) as [-> | Hpos].
  - assert (next_page c (progress st) = []) as Hnil.
    { apply length_zero_iff_nil. lia. }
    rewrite empty_page_ends_loop;
      [|lia|by rewrite Henv|by rewrite query_page, ?Hnil by (done || lia)].
    destruct (finish_facts c (log (Fetch (next_query c (progress st)) []) st))
      as (Hpf & _ & Hef & Hgf).
    eexists _, [], _. split; [reflexivity|]. rewrite Hpf, Hgf, Hef. cbn.
    split; [lia|]. split; [done|]. split; [done|]. by rewrite <- app_assoc.
  - destruct (while_loop_clean c env fuel i st Hs ltac:(lia) Hstep (Henv _))
      as (st1 & Hloop & Hp1 & Hstep1 & _ & _ & He1 & _).
    { lia. }
    { intros Hnil. rewrite Hnil in Hpl. cbn in Hpl. lia. }
    rewrite Hloop.
    assert (migrated_rows (moved c (next_page c (progress st)) (progress st))
            = migrated_rows (progress st) + Z.of_nat (length (next_page c (progress st))))
      as Hm1 by done.
    assert ((arg_total_rows c <=?
             migrated_rows (moved c (next_page c (progress st)) (progress st))) = false)
      as -> by (apply Z.leb_gt; lia).
    rewrite <- Hp1 in Hstep1, Hm1, He1.
    destruct (IH (length (source_rows c) - Z.to_nat (migrated_rows (progress st1)))%nat
                ltac:(lia) fuel (S i) st1 Hstep1 eq_refl ltac:(lia))
      as (st' & evs & q & Hloop' & Hm' & Hd' & Hg' & He').
    exists st', ([Fetch (next_query c (progress st)) (next_page c (progress st));
                  ExecuteBatch (override_clause c)
                    (sent_row c <$> next_page c (progress st));
                  Commit; Save (progress st1); Sleep 100] ++ evs), q.
    split; [exact Hloop'|].
    split; [exact Hm'|]. split; [exact Hd'|]. split; [exact Hg'|].
    rewrite He', He1, <- !app_assoc. reflexivity.
Qed.

(** C3.  In any pass of the loop, from any state, under any conditions
    that let the query through: when the page fetched is empty the loop
    ends there, and the checkpoint is saved marked completed with the count
    it had, still below the total.  And for a table the call can page
    through that holds fewer rows than the total given to the call (the
    count taken earlier), a chunk size of one or more, no checkpoint yet and
    no fault: given one pass more than there are rows, the call returns; the
    loop is ended by the fetch of an empty page, after which the checkpoint
    is saved marked completed, with a count of migrated rows equal to the
    number of rows the source holds. *)
Theorem drift_completes c (env : nat → conditions) (fuel : nat)
    (t : ProgressTracker) (db : target_db) :
  (∀ (i : nat) st,
     migrated_rows (progress st) < arg_total_rows c →
     fault_at (env i) ≠ FetchFault →
     run_query (source_rows c) (next_query c (progress st)) = Ok [] →
     ∃ st', while_loop c env (S fuel) i st = Returned st'
       ∧ completed (progress st') = true
       ∧ migrated_rows (progress st') = migrated_rows (progress st)
       ∧ migrated_rows (progress st') < arg_total_rows c
       ∧ last_primary_key (progress st') = last_primary_key (progress st)
       ∧ target st' = target st
       ∧ get_progress (tracker st') (arg_table_name c) = Some (progress st')
       ∧ events st'
         = events st ++ [Fetch (next_query c (progress st)) []; Save (progress st')])
  ∧ (sound_source c → 1 ≤ chunk_size c →
     Z.of_nat (length (source_rows c)) < arg_total_rows c →
     get_progress t (arg_table_name c) = None →
     (∀ i, fault_at (env i) = NoFault) →
     (length (source_rows c) < fuel)%nat →
     ∃ st evs q, migrate_table_data c env fuel t db = Returned st
       ∧ migrated_rows (progress st) = Z.of_nat (length (source_rows c))
       ∧ migrated_rows (progress st) < arg_total_rows c
       ∧ completed (progress st) = true
       ∧ get_progress (tracker st) (arg_table_name c) = Some (progress st)
       ∧ events st = evs ++ [Fetch q []; Save (progress st)]).
Proof.
  split.
  { intros i st Hlt Hfault Hq. eexists. split; [by apply empty_page_ends_loop|].
    destruct (finish_facts c (log (Fetch (next_query c (progress st)) []) st))
      as (-> & -> & -> & ->).
    cbn. repeat (split; [done|]). by rewrite <- app_assoc. }
  intros Hs Hchunk Hshort Hnone Henv Hfuel.
  destruct (fresh_in_step c t db Hnone) as (Hstep0 & Hp0 & He0 & _).
  unfold migrate_table_data. set (st0 := initial_state c t db) in *.
  rewrite Hp0. cbn [completed].
  destruct (drift_run c env Hs Hchunk Hshort Henv _ fuel 0%nat st0 Hstep0 eq_refl)
    as (st & evs & q & Hloop & Hm & Hd & Hg & He).
  { rewrite Hp0. cbn. lia. }
  exists st, evs, q. split; [exact Hloop|]. rewrite Hm.
  repeat (split; [done|]). by rewrite He, He0.
Qed.

End drift_facts.

(** ** Runs under any conditions *)

Section any_run_facts.
Context `{Py.FloatOps} `{Database}.
Implicit Types (c : call) (st : state) (p : MigrationProgress) (pk : string).

Lemma transferred_quiet (evs evs' : list event) :
  commits evs' = 0%nat → transferred (evs ++ evs') = transferred evs.
Proof.
  unfold transferred. rewrite foldl_app.
  generalize (foldl transfer_step ([], None) evs). intros acc Hc. revert acc.
  induction evs' as [|e evs' IH]; intros acc; [done|].
  cbn [foldl]. rewrite IH; by destruct e.
Qed.

Lemma transferred_commit (evs : list event) (q : query) (page : list row)
    (o : bool) (ts : list tuple) (p : MigrationProgress) (ms : Z) :
  transferred (evs ++ [Fetch q page; ExecuteBatch o ts; Commit; Save p; Sleep ms])
  = transferred evs ++ [page].
Proof.
  unfold transferred. rewrite foldl_app.
  by destruct (foldl transfer_step ([], None) evs).
Qed.

Lemma saves_app (evs evs' : list event) : saves (evs ++ evs') = saves evs ++ saves evs'.
Proof. unfold saves. apply bind_app. Qed.

Lemma chunk_saves_app (evs evs' : list event) :
  chunk_saves (evs ++ evs') = chunk_saves evs ++ chunk_saves evs'.
Proof. unfold chunk_saves. by rewrite saves_app, List.filter_app. Qed.

Lemma query_ok_chunk c p (rows : list row) :
  run_query (source_rows c) (next_query c p) = Ok rows →
  0 ≤ chunk_size c ∧ Z.of_nat (length rows) ≤ chunk_size c.
Proof.
  assert (∀ (l : list row), 0 ≤ chunk_size c →
            Z.of_nat (length (take (Z.to_nat (chunk_size c)) l)) ≤ chunk_size c) as Htake.
  { intros l Hc. rewrite length_take. lia. }
  unfold next_query.
  destruct (last_primary_key p) as [txt|], (arg_primary_key c) as [pk|];
    try destruct (truthy (Some txt) && truthy (Some pk)); cbn;
    destruct (chunk_size c <? 0) eqn:Hc; try done; cbn;
    try destruct (sql_cast txt); try destruct (migrated_rows p <? 0); try done;
    intros [= <-]; (split; [lia|apply Htake; lia]).
Qed.

Lemma take_pages {A} (l : list A) (m0 m k : nat) :
  (m0 ≤ m)%nat →
  take (m - m0) (drop m0 l) ++ take k (drop m l)
  = take (m + length (take k (drop m l)) - m0) (drop m0 l).
Proof.
  intros Hle.
  replace (m + length (take k (drop m l)) - m0)%nat
    with ((m - m0) + length (take k (drop m l)))%nat by lia.
  rewrite <- take_take_drop, drop_drop.
  replace (m0 + (m - m0))%nat with m by lia. f_equal.
  generalize (drop m l). intros l'.
  rewrite length_take, <- take_take. by rewrite (take_ge l' (length l')).
Qed.

Lemma pages_app (evs evs' : list event) : pages (evs ++ evs') = pages evs ++ pages evs'.
Proof. unfold pages. apply bind_app. Qed.

Lemma in_fetch_order_prefix (fetched s s' : list (list row)) :
  in_fetch_order fetched s → in_fetch_order fetched (s ++ s').
Proof.
  intros Hinv i j P Q Hij HP HQ.
  destruct (Hinv i j P Q Hij HP HQ) as [-> | [-> | (a & b & Hab & Ha & Hb)]];
    [by left|by right; left|].
  right; right. exists a, b. split; [done|].
  split; by apply lookup_app_l_Some.
Qed.

(** A page fetched once more, or the page that comes next, keeps the order. *)
Lemma in_fetch_order_snoc (fetched s : list (list row)) (page : list row) :
  in_fetch_order fetched (s ++ [page]) →
  in_fetch_order (fetched ++ [page]) (s ++ [page]).
Proof.
  intros Hinv i j P Q Hij HP HQ.
  assert (∀ (k : nat) R, (fetched ++ [page]) !! k = Some R →
            R = [] ∨ ∃ a : nat, (a ≤ length s)%nat ∧ (s ++ [page]) !! a = Some R) as Hone.
  { intros k R Hk. apply lookup_app_Some in Hk as [Hk | [_ Hk]].
    - destruct (Hinv k k R R (le_n k) Hk Hk) as [-> | [-> | (a & _ & _ & Ha & _)]];
        [by left..|].
      right. exists a. split; [|done].
      apply lookup_lt_Some in Ha. rewrite length_app in Ha. cbn in Ha. lia.
    - apply list_lookup_singleton_Some in Hk as [_ <-].
      right. exists (length s). split; [done|]. apply list_lookup_middle. done. }
  apply lookup_app_Some in HQ as [HQ | [Hlen HQ]].
  - apply lookup_lt_Some in HQ as Hj.
    rewrite lookup_app_l in HP by lia. by apply (Hinv i j).
  - apply list_lookup_singleton_Some in HQ as [_ <-].
    destruct (Hone i P HP) as [-> | (a & Ha & HPa)]; [by left|].
    right; right. exists a, (length s). split; [done|]. split; [done|].
    by apply list_lookup_middle.
Qed.

(** What a pass can be: one that leaves the checkpoint where it is and
    neither commits nor saves, or one without a fault on a page that is not
    empty and converts. *)
Lemma pass_cases c (w : conditions) st :
  (∃ st' evs,
      (loop_body c w st = Continue st' ∨ loop_body c w st = Exit st'
       ∨ ∃ e, loop_body c w st = Abort e st')
      ∧ progress st' = progress st
      ∧ shared st' = shared st
      ∧ tracker st' = tracker st
      ∧ events st' = events st ++ evs
      ∧ commits evs = 0%nat
      ∧ saves evs = []
      ∧ (pages evs = []
         ∨ ∃ page, run_query (source_rows c) (next_query c (progress st)) = Ok page
                   ∧ pages evs = [page]))
  ∨ (fault_at w = NoFault
     ∧ ∃ r rows tuples,
         run_query (source_rows c) (next_query c (progress st)) = Ok (r :: rows)
         ∧ convert_rows c (r :: rows) = Ok tuples).
Proof.
  assert (∀ (st1 : state) evs, events st1 = events st ++ evs →
            ∀ e, events (log e st1) = events st ++ (evs ++ [e])) as Hlog.
  { intros st1 evs He e. cbn. by rewrite He, <- app_assoc. }
  pose proof (app_nil_r (events st)) as Hnil. symmetry in Hnil.
  unfold loop_body, try_block.
  destruct (fault_at w) eqn:Hf;
    destruct (run_query (source_rows c) (next_query c (progress st))) as [[|r rows]|e];
    try destruct (convert_rows c (r :: rows)) as [tuples|e'] eqn:Hconv;
    try (right; split; [reflexivity|]; eexists _, _, _; split; [reflexivity|exact Hconv]);
    left; destruct (rollback_raises w);
    (eexists _, _; split; [eauto|]; do 3 (split; [reflexivity|]); split;
      [first [ apply Hlog, Hlog, Hlog, Hlog, Hnil | apply Hlog, Hlog, Hlog, Hnil
             | apply Hlog, Hlog, Hnil | apply Hlog, Hnil ]
      | split; [done|]; split; [done|];
        first [ by left | right; eexists; by split ] ]).
Qed.

(** A pass keeps the call on track. *)
Lemma pass_on_track c (m0 : nat) (w : conditions) st :
  sound_source c → on_track c m0 st →
  ∃ st', on_track c m0 st'
    ∧ (loop_body c w st = Continue st' ∨ loop_body c w st = Exit st'
       ∨ ∃ e, loop_body c w st = Abort e st').
Proof.
  intros Hs [Hstep Hopen Hfrom Hpages Hne Hcs Hsv Hfo].
  destruct (pass_cases c w st)
    as [(st' & evs & Hbody & Hp & _ & _ & He & Hcm & Hsaves & Hfetch)
       | (Hw & r & rows & tuples & Hq & Hconv)].
  - exists st'. split; [|exact Hbody].
    split; rewrite ?Hp, ?He, ?transferred_quiet, ?chunk_saves_app, ?saves_app by done;
      unfold chunk_saves; rewrite ?Hsaves, ?app_nil_r; try done.
    rewrite pages_app. destruct Hfetch as [-> | (page & Hq & ->)].
    + by rewrite app_nil_r.
    + destruct (query_ok_chunk c (progress st) _ Hq) as [Hchunk _].
      rewrite (query_page c (progress st) Hchunk Hstep) in Hq. injection Hq as <-.
      by apply in_fetch_order_snoc.
  - destruct (query_ok_chunk c (progress st) _ Hq) as [Hchunk _].
    pose proof (query_page c (progress st) Hchunk Hstep) as Hq'.
    rewrite Hq in Hq'. injection Hq' as Hpage.
    assert (next_page c (progress st) ≠ []) as Hnonempty by (by rewrite <- Hpage).
    destruct (clean_pass c w st Hs Hchunk Hstep Hw Hnonempty)
      as (st' & Hbody & Hp & Hstep' & _ & _ & He & _).
    exists st'. split.
    2:{ rewrite Hbody. destruct (_ <=? _); eauto. }
    pose proof (next_page_length c (progress st)) as Hlen.
    rewrite <- listing_length in Hlen.
    destruct Hstep as (Hm & Hmlen & _).
    assert (Z.to_nat (migrated_rows (progress st'))
            = (Z.to_nat (migrated_rows (progress st))
               + length (next_page c (progress st)))%nat) as Hm'.
    { rewrite Hp. cbn. lia. }
    assert (completed (progress st') = false) as Hopen' by (by rewrite Hp).
    rewrite <- Hp in He, Hstep'.
    split.
    + exact Hstep'.
    + exact Hopen'.
    + lia.
    + rewrite He, transferred_commit, concat_app, Hpages. cbn. rewrite app_nil_r.
      rewrite Hm'. unfold next_page.
      by apply take_pages.
    + rewrite He, transferred_commit. apply Forall_app. split; [done|].
      by constructor.
    + rewrite He, transferred_commit, chunk_saves_app.
      apply Forall2_app; [done|].
      unfold chunk_saves. cbn. rewrite Hopen'. cbn.
      constructor; [|constructor].
      intros pk r' Hpk Hlast. rewrite Hp. cbn. by rewrite Hpk, Hlast.
    + rewrite He, saves_app. apply Forall_app. split; [done|].
      cbn. by constructor.
    + rewrite He, transferred_commit, pages_app. cbn [pages mbind list_bind app].
      by apply in_fetch_order_prefix, in_fetch_order_snoc.
Qed.

(** Every state the loop stops in, given any number of passes under any
    conditions, is on track; when the loop has ended, it is the state before
    the checkpoint is marked completed and saved. *)
Lemma while_loop_on_track c (m0 : nat) (env : nat → conditions) :
  sound_source c →
  ∀ (fuel i : nat) st, on_track c m0 st →
  ∃ st', on_track c m0 st'
    ∧ (while_loop c env fuel i st = Running st'
       ∨ (∃ e, while_loop c env fuel i st = Failed e st')
       ∨ while_loop c env fuel i st = Returned (finish c st')).
Proof.
  intros Hs fuel. induction fuel as [|fuel IH]; intros i st Htrack.
  - exists st. split; [done|]. cbn. destruct (_ <? _); [by left|by right; right].
  - cbn [while_loop]. destruct (_ <? _).
    2:{ exists st. split; [done|]. by right; right. }
    destruct (pass_on_track c m0 (env i) st Hs Htrack)
      as (st1 & Htrack1 & [-> | [-> | [e ->]]]).
    + by apply IH.
    + exists st1. split; [done|]. by right; right.
    + exists st1. split; [done|]. right; left. by exists e.
Qed.

Lemma initial_on_track c (t : ProgressTracker) (db : target_db) :
  in_step c (progress (initial_state c t db)) →
  completed (progress (initial_state c t db)) = false →
  on_track c (Z.to_nat (migrated_rows (progress (initial_state c t db))))
    (initial_state c t db).
Proof.
  intros Hstep Hopen.
  assert (events (initial_state c t db) = []) as He.
  { unfold initial_state. by destruct (get_progress _ _). }
  split; rewrite ?He; try done; try constructor.
  cbn. by rewrite Nat.sub_diag.
Qed.

(** The events of a call that started in step, on a checkpoint not yet
    completed, are those of a state on track, but for the last save. *)
Lemma run_on_track c (env : nat → conditions) (fuel : nat)
    (t : ProgressTracker) (db : target_db) :
  sound_source c →
  in_step c (progress (initial_state c t db)) →
  completed (progress (initial_state c t db)) = false →
  ∃ st, on_track c (Z.to_nat (migrated_rows (progress (initial_state c t db)))) st
    ∧ transferred (events (final_state (migrate_table_data c env fuel t db)))
      = transferred (events st)
    ∧ chunk_saves (events (final_state (migrate_table_data c env fuel t db)))
      = chunk_saves (events st)
    ∧ pages (events (final_state (migrate_table_data c env fuel t db)))
      = pages (events st)
    ∧ (final_state (migrate_table_data c env fuel t db) = st
       ∨ final_state (migrate_table_data c env fuel t db) = finish c st).
Proof.
  intros Hs Hstep Hopen. unfold migrate_table_data. rewrite Hopen.
  destruct (while_loop_on_track c _ env Hs fuel 0%nat _
              (initial_on_track c t db Hstep Hopen))
    as (st & Htrack & [-> | [[e ->] | ->]]); exists st; (split; [done|]); cbn [final_state].
  - by repeat split; [..|left].
  - by repeat split; [..|left].
  - destruct (finish_facts c st) as (_ & _ & -> & _).
    rewrite transferred_quiet, chunk_saves_app, pages_app by done.
    split; [done|]. split; [unfold chunk_saves; cbn; by rewrite app_nil_r|].
    split; [|by right]. cbn. by rewrite app_nil_r.
Qed.

(** On track, the pages transferred have their keys in strictly increasing
    order, within a page and from one page to the next, and so have the
    keys the checkpoints record. *)
Lemma on_track_keys c pk (m0 : nat) st :
  sound_source c → paging_key c = Some pk → on_track c m0 st →
  (∀ (i j : nat) P Q r r', (i < j)%nat →
     transferred (events st) !! i = Some P → transferred (events st) !! j = Some Q →
     r ∈ P → r' ∈ Q → strict key_le (row_key pk r) (row_key pk r'))
  ∧ Forall2 (fun page p => ∃ r v, last page = Some r ∧ r ∈ drop m0 (listing c)
                ∧ dict_get r pk = Some v
                ∧ last_primary_key p = Some (Py.str v)
                ∧ sql_cast (Py.str v) = Some (row_key pk r))
      (transferred (events st)) (chunk_saves (events st)).
Proof.
  intros Hs Hpk [Hstep Hopen Hfrom Hpages Hne Hcs Hsv _].
  assert (StronglySorted (fun r1 r2 => strict key_le (row_key pk r1) (row_key pk r2))
            (concat (transferred (events st)))) as Hsorted.
  { rewrite Hpages. apply strongly_sorted_take_drop. by apply listing_sorted. }
  split.
  { intros i j P Q r r' Hij HP HQ Hr Hr'.
    by apply (strongly_sorted_concat _ _ Hsorted i j P Q). }
  assert (∀ page r, page ∈ transferred (events st) → r ∈ page →
            r ∈ drop m0 (listing c)) as Hin.
  { intros page r Hpage Hr.
    assert (r ∈ concat (transferred (events st))) as Hc.
    { apply list_elem_of_In, in_concat. exists page. by split; apply list_elem_of_In. }
    rewrite Hpages in Hc. by apply subseteq_take in Hc. }
  clear Hpages Hsorted.
  induction Hcs as [|page p pages' saves' Hsaved _ IH]; [constructor|].
  apply Forall_cons in Hne as [Hnonempty Hne].
  constructor.
  - destruct (last page) as [r|] eqn:Hlast; [|by apply last_None in Hlast].
    assert (r ∈ page) as Hr.
    { rewrite last_lookup in Hlast. by eapply list_elem_of_lookup_2. }
    assert (r ∈ source_rows c) as Hsrc.
    { rewrite <- (listing_perm c). eapply subseteq_drop, Hin; [left|done]. }
    pose proof (keys_present c Hs pk Hpk) as Hpres.
    rewrite Forall_forall in Hpres. destruct (Hpres r Hsrc) as [v Hv].
    pose proof (keys_read_back c Hs pk Hpk) as Hback.
    rewrite Forall_forall in Hback. specialize (Hback r Hsrc v Hv).
    exists r, v. split; [done|]. split; [eapply Hin; [left|done]|]. split; [done|].
    split.
    + rewrite (Hsaved pk r Hpk Hlast), Hv. done.
    + rewrite Hback. unfold row_key. by rewrite Hv.
  - apply IH; [done|]. intros page' r Hpage'. apply Hin. by right.
Qed.

(** On track, of two pages fetched, the later one is the earlier one
    fetched again, or holds greater keys only. *)
Lemma on_track_fetch_order c pk (m0 : nat) st :
  sound_source c → paging_key c = Some pk → on_track c m0 st →
  ∀ (i j : nat) P Q r r', (i < j)%nat →
    pages (events st) !! i = Some P → pages (events st) !! j = Some Q →
    P = Q ∨ (r ∈ P → r' ∈ Q → strict key_le (row_key pk r) (row_key pk r')).
Proof.
  intros Hs Hpk [Hstep Hopen Hfrom Hpages Hne Hcs Hsv Hfo] i j P Q r r' Hij HP HQ.
  assert (StronglySorted (fun r1 r2 => strict key_le (row_key pk r1) (row_key pk r2))
            (concat (transferred (events st) ++ [next_page c (progress st)]))) as Hsorted.
  { rewrite concat_app, Hpages. cbn. rewrite app_nil_r. unfold next_page.
    rewrite take_pages by done.
    apply strongly_sorted_take_drop. by apply listing_sorted. }
  destruct (Hfo i j P Q) as [-> | [-> | (a & b & Hab & Ha & Hb)]]; [lia|done..| | |].
  - right. intros Hr. by apply elem_of_nil in Hr.
  - right. intros _ Hr. by apply elem_of_nil in Hr.
  - destruct (decide (a = b)) as [-> | Hne'].
    + left. congruence.
    + right. intros Hr Hr'.
      apply (strongly_sorted_concat _ _ Hsorted a b P Q); [lia|done..].
Qed.

(** C4: a call that pages on a key over a sound source (no two rows with
    the same key, keys that read back from their text), started on a
    checkpoint in step with the source (a new one is), under any conditions
    and for any number of passes.  Of any two pages transferred, every key
    of the earlier one is strictly below every key of the later one, in
    particular the greatest key of a page is below the least key of the
    next; no page transferred is empty; of any two pages fetched, the later
    one is the earlier one fetched again after a chunk that failed, or holds
    greater keys only; each checkpoint saved after a chunk records a key,
    these keys are strictly increasing from one save to the next, and the
    first is above the key the call started from. *)
Theorem keyset_pages_increase c pk (env : nat → conditions) (fuel : nat)
    (t : ProgressTracker) (db : target_db) :
  sound_source c → paging_key c = Some pk →
  in_step c (progress (initial_state c t db)) →
  let p0 := progress (initial_state c t db) in
  let evs := events (final_state (migrate_table_data c env fuel t db)) in
  (∀ (i j : nat) P Q r r', (i < j)%nat →
     transferred evs !! i = Some P → transferred evs !! j = Some Q →
     r ∈ P → r' ∈ Q → strict key_le (row_key pk r) (row_key pk r'))
  ∧ Forall (fun page => page ≠ []) (transferred evs)
  ∧ (∀ (i j : nat) P Q r r', (i < j)%nat →
       pages evs !! i = Some P → pages evs !! j = Some Q →
       P = Q ∨ (r ∈ P → r' ∈ Q → strict key_le (row_key pk r) (row_key pk r')))
  ∧ length (chunk_saves evs) = length (transferred evs)
  ∧ (∀ (i : nat) p p', chunk_saves evs !! i = Some p → chunk_saves evs !! S i = Some p' →
       ∃ s s' k k', last_primary_key p = Some s ∧ last_primary_key p' = Some s'
         ∧ sql_cast s = Some k ∧ sql_cast s' = Some k' ∧ strict key_le k k')
  ∧ (∀ s k p', last_primary_key p0 = Some s → truthy (Some s) = true →
       sql_cast s = Some k → chunk_saves evs !! 0%nat = Some p' →
       ∃ s' k', last_primary_key p' = Some s' ∧ sql_cast s' = Some k'
         ∧ strict key_le k k').
Proof.
  intros Hs Hpk Hstep p0 evs.
  destruct (completed p0) eqn:Hopen.
  { assert (evs = []) as ->.
    { unfold evs, migrate_table_data. fold p0. rewrite Hopen. cbn.
      unfold initial_state. by destruct (get_progress _ _). }
    cbn. split; [done|]. split; [constructor|]. by repeat split. }
  destruct (run_on_track c env fuel t db Hs Hstep Hopen)
    as (st & Htrack & Ht & Hc & Hf & _).
  fold evs in Ht, Hc, Hf. fold p0 in Htrack. rewrite Ht, Hc, Hf. clear Ht Hc Hf evs.
  destruct (on_track_keys c pk _ st Hs Hpk Htrack) as [Hpages Hkeys].
  split; [exact Hpages|]. split; [apply (track_pages_nonempty _ _ _ Htrack)|].
  split; [exact (on_track_fetch_order c pk _ st Hs Hpk Htrack)|].
  split; [symmetry; by eapply Forall2_length|].
  split.
  - intros i p p' Hi Hi'.
    destruct (Forall2_lookup_r _ _ _ _ _ Hkeys Hi)
      as (P & HP & r & v & Hlast & _ & _ & Hkey & Hcast).
    destruct (Forall2_lookup_r _ _ _ _ _ Hkeys Hi')
      as (Q & HQ & r' & v' & Hlast' & _ & _ & Hkey' & Hcast').
    exists (Py.str v), (Py.str v'), (row_key pk r), (row_key pk r').
    repeat (split; [done|]).
    apply (Hpages i (S i) P Q); [lia|done..| |].
    + rewrite last_lookup in Hlast. by eapply list_elem_of_lookup_2.
    + rewrite last_lookup in Hlast'. by eapply list_elem_of_lookup_2.
  - intros s k p' Hs0 Htruthy Hcast0 Hp'.
    destruct (Forall2_lookup_r _ _ _ _ _ Hkeys Hp')
      as (P & HP & r & v & Hlast & Hin & _ & Hkey & Hcast).
    exists (Py.str v), (row_key pk r). split; [done|]. split; [done|].
    destruct Hstep as (_ & _ & Hfilter).
    destruct (Hfilter pk s Hpk Hs0 Htruthy) as (k0 & Hcast0' & Hf).
    fold p0 in Hf. rewrite Hcast0 in Hcast0'. injection Hcast0' as <-.
    rewrite <- Hf in Hin. apply list_elem_of_In, filter_In in Hin as [_ Hafter].
    unfold key_after in Hafter. by apply bool_decide_eq_true in Hafter.
Qed.

(** The end of a pass after the commit, whatever the rows hold: the count
    grows by the size of the page, the total stays, and the checkpoint is
    saved unless the key of the last row cannot be read. *)
Lemma advance_bounds c (rows : list row) st :
  ∃ st', (advance c rows st = Next st' ∨ advance c rows st = Break st'
          ∨ ∃ e, advance c rows st = Raised e st')
    ∧ total_rows (progress st') = total_rows (progress st)
    ∧ migrated_rows (progress st')
      = migrated_rows (progress st) + Z.of_nat (length rows)
    ∧ (saves (events st') = saves (events st)
       ∨ saves (events st') = saves (events st) ++ [progress st'])
    ∧ (entry_kept c st → entry_kept c st').
Proof.
  assert (∀ st2, ∃ st',
            ((let st3 := log (Sleep 100) (do_update_progress c st2) in
              if arg_total_rows c <=? migrated_rows (progress st3) then Break st3
              else if (Z.of_nat (length rows) <? chunk_size c)
                      && (arg_total_rows c <=? migrated_rows (progress st3))
              then Break st3 else Next st3) = Next st'
             ∨ (let st3 := log (Sleep 100) (do_update_progress c st2) in
                if arg_total_rows c <=? migrated_rows (progress st3) then Break st3
                else if (Z.of_nat (length rows) <? chunk_size c)
                        && (arg_total_rows c <=? migrated_rows (progress st3))
                then Break st3 else Next st3) = Break st')
            ∧ progress st' = progress st2
            ∧ saves (events st') = saves (events st2) ++ [progress st']
            ∧ entry_kept c st') as Hend.
  { intros st2. exists (log (Sleep 100) (do_update_progress c st2)). cbn zeta.
    split; [|split; [done|split]].
    - destruct (arg_total_rows c <=? _); [by right|]. rewrite andb_false_r. by left.
    - cbn. rewrite !saves_app. cbn. by rewrite app_nil_r.
    - unfold entry_kept. cbn. apply get_update_progress. }
  assert (∀ p', entry_kept c st → entry_kept c (mutate c p' st)) as Hmut.
  { intros p'. unfold entry_kept, mutate, get_progress. cbn.
    destruct (shared st); [|done]. intros _. cbn. apply lookup_insert_eq. }
  assert (∀ p' p'', entry_kept c st → entry_kept c (mutate c p'' (mutate c p' st))) as Hmut2.
  { intros p' p''. unfold entry_kept, mutate, get_progress. cbn.
    destruct (shared st); [|done]. intros _. cbn. apply lookup_insert_eq. }
  unfold advance.
  destruct (arg_primary_key c) as [pk|]; [destruct (last rows) as [r|]|];
    [destruct (truthy (Some pk)); [destruct (row_get r pk) as [v|e]|]|..].
  all: try (match goal with
            | |- context [log (Sleep 100) (do_update_progress _ ?st2)] =>
                destruct (Hend st2) as (st' & Hflow & Hp & Hsv & Hentry)
            end;
            exists st';
            split; [destruct Hflow as [Hf|Hf]; [left; exact Hf|right; left; exact Hf]|];
            split; [by rewrite Hp|]; split; [by rewrite Hp|];
            split; [right; by rewrite Hsv|]; intros _; exact Hentry).
  eexists. split; [right; right; eexists; reflexivity|]. cbn.
  repeat split; by eauto.
Qed.

(** A pass, whatever the conditions and whatever the source holds: the
    total stays, the count stays or grows by the size of a page, which is
    at most the chunk size, and at most the checkpoint reached is saved. *)
Lemma pass_bounds c (w : conditions) st :
  ∃ st' (n : Z),
    (loop_body c w st = Continue st' ∨ loop_body c w st = Exit st'
     ∨ ∃ e, loop_body c w st = Abort e st')
    ∧ total_rows (progress st') = total_rows (progress st)
    ∧ migrated_rows (progress st') = migrated_rows (progress st) + n
    ∧ (n = 0 ∨ 0 ≤ n ≤ chunk_size c)
    ∧ (saves (events st') = saves (events st)
       ∨ saves (events st') = saves (events st) ++ [progress st'])
    ∧ (entry_kept c st → entry_kept c st').
Proof.
  destruct (pass_cases c w st)
    as [(st' & evs & Hbody & Hp & Hsh & Htr & He & _ & Hsaves & _)
       | (Hw & r & rows & tuples & Hq & Hconv)].
  - exists st', 0. split; [exact Hbody|]. rewrite Hp, He, saves_app, Hsaves, app_nil_r.
    split; [done|]. split; [lia|]. split; [by left|]. split; [by left|].
    unfold entry_kept. by rewrite Hp, Hsh, Htr.
  - destruct (query_ok_chunk c (progress st) _ Hq) as [Hchunk Hlen].
    destruct (advance_bounds c (r :: rows) (after_commit c (r :: rows) tuples st))
      as (st' & Hflow & Htotal & Hm & Hsv & Hentry).
    assert (saves (events (after_commit c (r :: rows) tuples st)) = saves (events st))
      as Hsame.
    { cbn. rewrite !saves_app. cbn. by rewrite !app_nil_r. }
    rewrite Hsame in Hsv. cbn [after_commit log with_target progress] in Htotal, Hm.
    unfold loop_body. rewrite Hw.
    rewrite (try_block_clean c st (r :: rows) tuples Hq ltac:(done) Hconv).
    destruct Hflow as [-> | [-> | [e ->]]].
    + exists st', (Z.of_nat (length (r :: rows))).
      split; [by left|]. repeat (split; [done || (right; lia)|]). exact Hentry.
    + exists st', (Z.of_nat (length (r :: rows))).
      split; [by right; left|]. repeat (split; [done || (right; lia)|]). exact Hentry.
    + assert (∀ e0 (st1 : state), saves [e0] = [] →
                saves (events (log e0 st1)) = saves (events st1)) as Hquiet.
      { intros e0 st1 He0. cbn. by rewrite saves_app, He0, app_nil_r. }
      destruct (rollback_raises w).
      * exists (log Rollback st'), (Z.of_nat (length (r :: rows))).
        split; [right; right; by exists DatabaseError|].
        rewrite Hquiet by done. cbn [log progress].
        repeat (split; [done || (right; lia)|]). exact Hentry.
      * exists (log (Sleep 5000)
                  (with_target (rollback (target (log Rollback st'))) (log Rollback st'))),
               (Z.of_nat (length (r :: rows))).
        split; [by left|].
        rewrite Hquiet by done. cbn [log progress with_target events].
        change (events st' ++ [Rollback]) with (events (log Rollback st')).
        rewrite Hquiet by done.
        repeat (split; [done || (right; lia)|]). exact Hentry.
Qed.

Lemma checkpoints_forall c st (Q : MigrationProgress → Prop) :
  entry_kept c st →
  Forall Q (progress st :: saves (events st)) →
  Forall Q (checkpoints c st).
Proof.
  intros Hentry Hall. unfold checkpoints. rewrite app_comm_cons.
  apply Forall_app. split; [exact Hall|].
  rewrite Hentry. destruct (shared st); cbn; [|constructor].
  constructor; [|constructor]. by apply Forall_cons in Hall as [? _].
Qed.

Lemma finish_entry_kept c st : entry_kept c (finish c st).
Proof. unfold entry_kept. cbn. apply get_update_progress. Qed.

Lemma initial_entry_kept c (t : ProgressTracker) (db : target_db) :
  entry_kept c (initial_state c t db) ∧ events (initial_state c t db) = [].
Proof.
  unfold entry_kept, initial_state.
  by destruct (get_progress t (arg_table_name c)) eqn:Hget.
Qed.

(** Whatever the conditions and the source, the checkpoint of a loop keeps
    its total, and its count stays below a bound that leaves room for one
    chunk above the total of the call. *)
Lemma while_loop_bounds c (env : nat → conditions) (T B : Z) :
  arg_total_rows c + chunk_size c - 1 ≤ B →
  ∀ (fuel i : nat) st,
  entry_kept c st →
  Forall (fun p => total_rows p = T ∧ migrated_rows p ≤ B)
    (progress st :: saves (events st)) →
  entry_kept c (final_state (while_loop c env fuel i st))
  ∧ Forall (fun p => total_rows p = T ∧ migrated_rows p ≤ B)
      (progress (final_state (while_loop c env fuel i st))
       :: saves (events (final_state (while_loop c env fuel i st)))).
Proof.
  intros HB.
  assert (∀ st, Forall (fun p => total_rows p = T ∧ migrated_rows p ≤ B)
                  (progress st :: saves (events st)) →
          Forall (fun p => total_rows p = T ∧ migrated_rows p ≤ B)
            (progress (finish c st) :: saves (events (finish c st)))) as Hfinish.
  { intros st Hall. destruct (finish_facts c st) as (-> & _ & -> & _).
    apply Forall_cons in Hall as [Hp Hsaves]. rewrite saves_app. cbn.
    constructor; [done|]. apply Forall_app. split; [done|]. by constructor. }
  induction fuel as [|fuel IH]; intros i st Hentry Hall.
  - cbn. destruct (_ <? _); cbn; [done|]. split; [apply finish_entry_kept|by apply Hfinish].
  - cbn [while_loop]. destruct (migrated_rows (progress st) <? arg_total_rows c) eqn:Hlt.
    2:{ cbn. split; [apply finish_entry_kept|by apply Hfinish]. }
    apply Z.ltb_lt in Hlt.
    destruct (pass_bounds c (env i) st)
      as (st1 & n & Hbody & Htotal & Hm & Hn & Hsv & Hentry1).
    assert (Forall (fun p => total_rows p = T ∧ migrated_rows p ≤ B)
              (progress st1 :: saves (events st1))) as Hall1.
    { apply Forall_cons in Hall as [[HT Hle] Hsaves].
      assert (total_rows (progress st1) = T ∧ migrated_rows (progress st1) ≤ B) as Hp1
        by (split; [congruence|lia]).
      constructor; [exact Hp1|].
      destruct Hsv as [-> | ->]; [done|]. apply Forall_app. split; [done|].
      by constructor. }
    destruct Hbody as [-> | [-> | [e ->]]].
    + apply IH; [by apply Hentry1|done].
    + cbn. split; [apply finish_entry_kept|by apply Hfinish].
    + cbn. split; [by apply Hentry1|done].
Qed.

(** C1, amended.  In every checkpoint of a call, at whatever pass it is
    stopped and under any conditions (the object [progress], every
    checkpoint saved, the one in the dictionary of the tracker), the total
    is the one of the checkpoint the call started from, and the count of
    migrated rows is at most the larger of its value at the start and the
    total of the call plus the chunk size minus one: a page is not cut to
    the rows that remain below the total.  The count is within the total of
    the checkpoint when the call pages over a sound source that holds no
    more rows than that total, from a checkpoint in step with it (a new
    checkpoint is). *)
Theorem checkpoint_count_bounds c (env : nat → conditions) (fuel : nat)
    (t : ProgressTracker) (db : target_db) :
  let p0 := progress (initial_state c t db) in
  let st := final_state (migrate_table_data c env fuel t db) in
  Forall (fun p => total_rows p = total_rows p0
                   ∧ migrated_rows p
                     ≤ Z.max (migrated_rows p0) (arg_total_rows c + chunk_size c - 1))
    (checkpoints c st)
  ∧ (sound_source c → in_step c p0 →
     Z.of_nat (length (source_rows c)) ≤ total_rows p0 →
     Forall (fun p => migrated_rows p ≤ total_rows p) (checkpoints c st)).
Proof.
  intros p0 st.
  destruct (initial_entry_kept c t db) as [Hentry0 He0].
  assert (entry_kept c st
          ∧ Forall (fun p => total_rows p = total_rows p0
                             ∧ migrated_rows p
                               ≤ Z.max (migrated_rows p0)
                                   (arg_total_rows c + chunk_size c - 1))
              (progress st :: saves (events st))) as [Hentry Hall].
  { assert (Forall (fun p => total_rows p = total_rows p0
                             ∧ migrated_rows p
                               ≤ Z.max (migrated_rows p0)
                                   (arg_total_rows c + chunk_size c - 1))
              (progress (initial_state c t db) :: saves (events (initial_state c t db))))
      as Hall0.
    { rewrite He0. cbn. constructor; [|constructor]. fold p0. split; [done|lia]. }
    unfold st, migrate_table_data. destruct (completed _); [done|].
    apply while_loop_bounds; [lia|done..]. }
  split; [by apply checkpoints_forall|].
  intros Hs Hstep Hlen.
  apply checkpoints_forall; [done|].
  assert (∀ p, in_step c p → migrated_rows p ≤ Z.of_nat (length (source_rows c))) as Hin.
  { intros p (Hm & Hle & _). rewrite listing_length in Hle. lia. }
  assert (Forall (fun p => migrated_rows p ≤ Z.of_nat (length (source_rows c)))
            (progress st :: saves (events st))) as Hcount.
  { destruct (completed p0) eqn:Hopen.
    - unfold st, migrate_table_data. fold p0. rewrite Hopen. cbn. rewrite He0. cbn.
      constructor; [by apply Hin|constructor].
    - destruct (run_on_track c env fuel t db Hs Hstep Hopen)
        as (st1 & Htrack & _ & _ & _ & Hfinal).
      fold st in Hfinal.
      pose proof (track_in_step _ _ _ Htrack) as Hstep1.
      pose proof (track_saves _ _ _ Htrack) as Hsaves1.
      assert (Forall (fun p => migrated_rows p ≤ Z.of_nat (length (source_rows c)))
                (saves (events st1))) as Hs1.
      { eapply Forall_impl; [exact Hsaves1|]. intros p. apply Hin. }
      destruct Hfinal as [-> | ->].
      + constructor; [by apply Hin|done].
      + destruct (finish_facts c st1) as (-> & _ & -> & _). rewrite saves_app. cbn.
        constructor; [by apply Hin|]. apply Forall_app. split; [done|].
        constructor; [by apply Hin|constructor]. }
  rewrite Forall_forall in Hall, Hcount |- *. intros p Hp.
  destruct (Hall p Hp) as [-> _]. specialize (Hcount p Hp). lia.
Qed.

End any_run_facts.

(** ** What a run transfers, and what it leaves behind *)

Section transfer_facts.
Context `{Py.FloatOps} `{Database}.
Implicit Types (c : call) (st : state) (p : MigrationProgress) (pk : string).

Lemma execute_batch_committed (db : target_db) (ts : list tuple) :
  committed (execute_batch db ts) = committed db.
Proof.
  unfold execute_batch. revert db.
  induction ts as [|t ts IH]; intros db; [done|].
  cbn [foldl]. rewrite IH. unfold insert_tuple. by destruct (existsb _ _).
Qed.

(** A [try] block that fails before the checkpoint moves leaves the
    checkpoint, the tracker and the committed rows as they were, and has
    neither committed nor saved. *)
Lemma failing_try_block c (f : fault) st :
  chunk_fails c f (progress st) →
  ∃ e st1, try_block c f st = Raised e st1
    ∧ progress st1 = progress st ∧ shared st1 = shared st
    ∧ tracker st1 = tracker st
    ∧ committed (target st1) = committed (target st)
    ∧ ∃ evs, events st1 = events st ++ evs
        ∧ commits evs = 0%nat ∧ saves evs = [].
Proof.
  intros Hfail. unfold chunk_fails in Hfail. unfold try_block.
  assert (∀ (st1 : state) evs, events st1 = events st ++ evs →
            ∀ e, events (log e st1) = events st ++ (evs ++ [e])) as Hlog.
  { intros st1 evs He e. cbn. by rewrite He, <- app_assoc. }
  pose proof (app_nil_r (events st)) as Hnil. symmetry in Hnil.
  destruct f eqn:Hf;
    [destruct Hfail as [[e ->] | (r & rows & e & -> & ->)]
    | idtac
    | destruct Hfail as [[e ->] | (r & rows & ->)]
    | destruct Hfail as [[e ->] | (r & rows & ->)];
      [|destruct (convert_rows c (r :: rows))]
    | destruct Hfail as [[e ->] | (r & rows & ->)];
      [|destruct (convert_rows c (r :: rows))] ];
    (eexists _, _; split; [reflexivity|];
     repeat (split; [first [reflexivity | apply execute_batch_committed]|]);
     eexists; split;
       [first [ apply Hlog, Hlog, Hnil | apply Hlog, Hnil ]
       | by repeat split ]).
Qed.

(** The three kinds of pass: one whose [try] block fails, one that fetches
    an empty page and leaves the loop, one without a fault on a page that
    is not empty and converts. *)
Lemma pass_kinds c (w : conditions) st :
  chunk_fails c (fault_at w) (progress st)
  ∨ (run_query (source_rows c) (next_query c (progress st)) = Ok []
     ∧ loop_body c w st = Exit (log (Fetch (next_query c (progress st)) []) st))
  ∨ (fault_at w = NoFault
     ∧ ∃ r rows tuples,
         run_query (source_rows c) (next_query c (progress st)) = Ok (r :: rows)
         ∧ convert_rows c (r :: rows) = Ok tuples).
Proof.
  unfold chunk_fails, loop_body, try_block.
  destruct (fault_at w);
    destruct (run_query (source_rows c) (next_query c (progress st))) as [[|r rows]|e];
    try destruct (convert_rows c (r :: rows)) as [tuples|e'] eqn:Hconv;
    first [ by left
          | by right; left
          | left; left; by eexists
          | left; right; by eexists _, _
          | left; right; by eexists _, _, _
          | right; right; split; [done|]; by eexists _, _, _ ].
Qed.

Lemma pass_keeps_track c (m0 : nat) (w : conditions) st st' :
  sound_source c → on_track c m0 st →
  (loop_body c w st = Continue st' ∨ loop_body c w st = Exit st'
   ∨ ∃ e, loop_body c w st = Abort e st') →
  on_track c m0 st'.
Proof.
  intros Hs Htrack Hbody.
  destruct (pass_on_track c m0 w st Hs Htrack) as (st1 & Htrack1 & Hbody1).
  destruct Hbody as [Hb | [Hb | [e Hb]]], Hbody1 as [Hb1 | [Hb1 | [e1 Hb1]]];
    rewrite Hb in Hb1; by simplify_eq.
Qed.

Lemma no_fault_no_failure c p :
  sound_source c → in_step c p → 0 ≤ chunk_size c → ¬ chunk_fails c NoFault p.
Proof.
  intros Hs Hstep Hchunk. unfold chunk_fails. rewrite (query_page c p Hchunk Hstep).
  intros [[e [=]] | (r & rows & e & [= Hpage] & Hconv)].
  rewrite convert_rows_complete in Hconv; [done|].
  rewrite <- Hpage. rewrite Forall_forall. intros r' Hr'%next_page_elem.
  pose proof (rows_complete c Hs) as Hall. rewrite Forall_forall in Hall. by apply Hall.
Qed.

(** What one pass does from a state on track. *)
Lemma pass_effect c (m0 : nat) (w : conditions) st :
  sound_source c → on_track c m0 st →
  ∃ st', on_track c m0 st'
    ∧ ((fault_at w = NoFault ∧ next_page c (progress st) ≠ []
        ∧ loop_body c w st
          = (if arg_total_rows c <=? migrated_rows (progress st')
             then Exit st' else Continue st')
        ∧ progress st' = moved c (next_page c (progress st)) (progress st)
        ∧ target st'
          = commit (execute_batch (target st)
                      (sent_row c <$> next_page c (progress st)))
        ∧ transferred (events st')
          = transferred (events st) ++ [next_page c (progress st)]
        ∧ shared st' = true
        ∧ get_progress (tracker st') (arg_table_name c) = Some (progress st'))
       ∨ (loop_body c w st = Exit st'
          ∧ 0 ≤ chunk_size c ∧ next_page c (progress st) = []
          ∧ progress st' = progress st ∧ target st' = target st
          ∧ transferred (events st') = transferred (events st)
          ∧ shared st' = shared st ∧ tracker st' = tracker st)
       ∨ (chunk_fails c (fault_at w) (progress st)
          ∧ progress st' = progress st
          ∧ committed (target st') = committed (target st)
          ∧ transferred (events st') = transferred (events st)
          ∧ shared st' = shared st ∧ tracker st' = tracker st
          ∧ ((rollback_raises w = false ∧ loop_body c w st = Continue st'
              ∧ pending (target st') = [])
             ∨ (rollback_raises w = true ∧ ∃ e, loop_body c w st = Abort e st')))).
Proof.
  intros Hs Htrack. pose proof (track_in_step _ _ _ Htrack) as Hstep.
  destruct (pass_kinds c w st) as [Hfail | [[Hq Hbody] | (Hw & r & rows & tuples & Hq & _)]].
  - destruct (failing_try_block c (fault_at w) st Hfail)
      as (e & st1 & Htry & Hp & Hsh & Htr & Hc & evs & He & Hcm & Hsv).
    destruct (rollback_raises w) eqn:Hrb.
    + exists (log Rollback st1).
      assert (loop_body c w st = Abort DatabaseError (log Rollback st1)) as Hbody.
      { unfold loop_body. by rewrite Htry, Hrb. }
      split; [eapply pass_keeps_track; eauto|].
      right; right. split; [done|]. split; [done|]. split; [done|].
      split; [|split; [done|]; split; [done|]; right; eauto].
      cbn. rewrite He, <- app_assoc. apply transferred_quiet.
      unfold commits in *. rewrite List.filter_app, length_app, Hcm. done.
    + exists (log (Sleep 5000) (with_target (rollback (target (log Rollback st1)))
                                  (log Rollback st1))).
      assert (loop_body c w st
              = Continue (log (Sleep 5000)
                            (with_target (rollback (target (log Rollback st1)))
                               (log Rollback st1)))) as Hbody.
      { unfold loop_body. by rewrite Htry, Hrb. }
      split; [eapply pass_keeps_track; eauto|].
      right; right. split; [done|]. split; [done|]. split; [done|].
      split; [|split; [done|]; split; [done|]; left; done].
      cbn. rewrite He, <- !app_assoc. apply transferred_quiet.
      unfold commits in *. rewrite List.filter_app, length_app, Hcm. done.
  - exists (log (Fetch (next_query c (progress st)) []) st).
    split; [eapply pass_keeps_track; eauto|].
    right; left. split; [done|].
    destruct (query_ok_chunk c (progress st) _ Hq) as [Hchunk _].
    rewrite (query_page c (progress st) Hchunk Hstep) in Hq. injection Hq as Hq.
    repeat (split; [done|]). split; [|done]. cbn. by apply transferred_quiet.
  - destruct (query_ok_chunk c (progress st) _ Hq) as [Hchunk _].
    pose proof (query_page c (progress st) Hchunk Hstep) as Hq'.
    rewrite Hq in Hq'. injection Hq' as Hpage.
    assert (next_page c (progress st) ≠ []) as Hne by (by rewrite <- Hpage).
    destruct (clean_pass c w st Hs Hchunk Hstep Hw Hne)
      as (st' & Hbody & Hp & _ & Hsh & Ht & He & Hget).
    exists st'. rewrite <- Hp in Hbody, Hget.
    split; [eapply pass_keeps_track; eauto; destruct (_ <=? _); eauto|].
    left. repeat (split; [done|]). split; [|done]. rewrite He. apply transferred_commit.
Qed.

Lemma served_snoc c (db : target_db) (pages : list (list row)) (page : list row) :
  served c db (pages ++ [page])
  = commit (execute_batch (served c db pages) (sent_row c <$> page)).
Proof. unfold served. by rewrite foldl_app. Qed.

Lemma served_pending c (db : target_db) (pages : list (list row)) :
  pending db = [] → pending (served c db pages) = [].
Proof.
  intros Hdb. destruct pages as [|page pages _] using rev_ind; [done|].
  by rewrite served_snoc.
Qed.

(** The loop from a state on track whose target holds the pages transferred
    so far: wherever it stops, the target holds the pages transferred, and
    when it has ended, the count had reached the total or an empty page was
    fetched. *)
Lemma while_loop_served c (m0 : nat) (env : nat → conditions) (db : target_db) :
  sound_source c → pending db = [] →
  ∀ (fuel i : nat) st,
  on_track c m0 st →
  target st = served c db (transferred (events st)) →
  ∃ st', on_track c m0 st'
    ∧ committed (target st') = committed (served c db (transferred (events st')))
    ∧ ((while_loop c env fuel i st = Running st'
        ∧ migrated_rows (progress st') < arg_total_rows c
        ∧ pending (target st') = [])
       ∨ (∃ e, while_loop c env fuel i st = Failed e st')
       ∨ (while_loop c env fuel i st = Returned (finish c st')
          ∧ pending (target st') = []
          ∧ (arg_total_rows c ≤ migrated_rows (progress st')
             ∨ (0 ≤ chunk_size c ∧ next_page c (progress st') = [])))).
Proof.
  intros Hs Hdb fuel. induction fuel as [|fuel IH]; intros i st Htrack Htarget.
  - exists st. split; [done|]. split; [by rewrite Htarget|].
    cbn. destruct (_ <? _) eqn:Hlt.
    + left. split; [done|]. split; [lia|]. rewrite Htarget. by apply served_pending.
    + right; right. split; [done|]. split; [|left; lia].
      rewrite Htarget. by apply served_pending.
  - cbn [while_loop]. destruct (_ <? _) eqn:Hlt.
    2:{ exists st. split; [done|]. split; [by rewrite Htarget|].
        right; right. split; [done|]. split; [|left; lia].
        rewrite Htarget. by apply served_pending. }
    destruct (pass_effect c m0 (env i) st Hs Htrack)
      as (st1 & Htrack1
          & [(_ & _ & Hbody & _ & Ht & Hpages & _)
            | [(Hbody & Hchunk & Hnil & Hp & Ht & Hpages & _)
              | (_ & Hp & Hc & Hpages & _ & _
                 & [(_ & Hbody & Hpend) | (_ & e & Hbody)])]]).
    + assert (target st1 = served c db (transferred (events st1))) as Htarget1.
      { by rewrite Ht, Hpages, served_snoc, Htarget. }
      rewrite Hbody. destruct (_ <=? _) eqn:Hle.
      * exists st1. split; [done|]. split; [by rewrite Htarget1|].
        right; right. split; [done|]. split; [|left; lia].
        rewrite Htarget1. by apply served_pending.
      * by apply IH.
    + rewrite Hbody. exists st1. split; [done|].
      split; [by rewrite Ht, Hpages, Htarget|].
      right; right. split; [done|].
      split; [rewrite Ht, Htarget; by apply served_pending|].
      right. by rewrite Hp.
    + rewrite Hbody. apply IH; [done|].
      rewrite Hpages, <- Htarget.
      destruct (target st1) as [cm pd], (target st) as [cm' pd'] eqn:Hst.
      cbn in *. subst.
      assert (pending (served c db (transferred (events st))) = []) as Hpd
        by (by apply served_pending).
      rewrite <- Htarget in Hpd. by cbn in Hpd; subst.
    + rewrite Hbody. exists st1. split; [done|].
      split; [by rewrite Hc, Hpages, Htarget|]. right; left. by exists e.
Qed.

Lemma initial_events c (t : ProgressTracker) (db : target_db) :
  events (initial_state c t db) = [] ∧ target (initial_state c t db) = db
  ∧ tracker (initial_state c t db) = t.
Proof. unfold initial_state. by destruct (get_progress _ _). Qed.

(** How a call that starts in step with a sound source can stand. *)
Lemma run_served c (env : nat → conditions) (fuel : nat)
    (t : ProgressTracker) (db : target_db) :
  sound_source c →
  in_step c (progress (initial_state c t db)) →
  completed (progress (initial_state c t db)) = false →
  pending db = [] →
  ∃ st, on_track c (Z.to_nat (migrated_rows (progress (initial_state c t db)))) st
    ∧ committed (target st) = committed (served c db (transferred (events st)))
    ∧ ((migrate_table_data c env fuel t db = Running st
        ∧ migrated_rows (progress st) < arg_total_rows c
        ∧ pending (target st) = [])
       ∨ (∃ e, migrate_table_data c env fuel t db = Failed e st)
       ∨ (migrate_table_data c env fuel t db = Returned (finish c st)
          ∧ pending (target st) = []
          ∧ (arg_total_rows c ≤ migrated_rows (progress st)
             ∨ (0 ≤ chunk_size c ∧ next_page c (progress st) = [])))).
Proof.
  intros Hs Hstep Hopen Hdb. unfold migrate_table_data. rewrite Hopen.
  destruct (initial_events c t db) as (He & Ht & _).
  apply (while_loop_served c _ env db Hs Hdb fuel 0%nat).
  - by apply initial_on_track.
  - by rewrite He, Ht.
Qed.

(** A loop that has ended from a state on track: the count had reached the
    total, or an empty page was fetched. *)
Lemma while_loop_exit c (m0 : nat) (env : nat → conditions) :
  sound_source c →
  ∀ (fuel i : nat) st, on_track c m0 st →
  ∀ st_f, while_loop c env fuel i st = Returned st_f →
  ∃ st', on_track c m0 st' ∧ st_f = finish c st'
    ∧ (arg_total_rows c ≤ migrated_rows (progress st')
       ∨ (0 ≤ chunk_size c ∧ next_page c (progress st') = [])).
Proof.
  intros Hs fuel. induction fuel as [|fuel IH]; intros i st Htrack st_f Hrun.
  - cbn in Hrun. destruct (_ <? _) eqn:Hlt; [done|]. injection Hrun as <-.
    exists st. split; [done|]. split; [done|]. left. lia.
  - cbn [while_loop] in Hrun. destruct (_ <? _) eqn:Hlt.
    2:{ injection Hrun as <-. exists st. split; [done|]. split; [done|]. left. lia. }
    destruct (pass_effect c m0 (env i) st Hs Htrack)
      as (st1 & Htrack1
          & [(_ & _ & Hbody & _)
            | [(Hbody & Hchunk & Hnil & Hp & _)
              | (_ & _ & _ & _ & _ & _ & [(_ & Hbody & _) | (_ & e & Hbody)])]]);
      rewrite Hbody in Hrun.
    + destruct (_ <=? _) eqn:Hle.
      * injection Hrun as <-. exists st1. split; [done|]. split; [done|]. left. lia.
      * by eapply IH.
    + injection Hrun as <-. exists st1. split; [done|]. split; [done|].
      right. by rewrite Hp.
    + by eapply IH.
    + done.
Qed.

(** On track, the pages transferred are the rows of the listing between
    the place the call started at and the count reached. *)
Lemma on_track_span c (m0 : nat) st :
  on_track c m0 st →
  (m0 ≤ Z.to_nat (migrated_rows (progress st)) ≤ length (source_rows c))%nat
  ∧ 0 ≤ migrated_rows (progress st)
  ∧ concat (transferred (events st))
    = take (Z.to_nat (migrated_rows (progress st)) - m0) (drop m0 (listing c))
  ∧ length (concat (transferred (events st)))
    = (Z.to_nat (migrated_rows (progress st)) - m0)%nat.
Proof.
  intros [(Hm & Hlen & _) _ Hfrom Hpages _ _ _ _].
  rewrite listing_length in Hlen. split; [lia|]. split; [done|]. split; [done|].
  rewrite Hpages, length_take, length_drop, listing_length. lia.
Qed.

(** X1.  A call over a sound source, started on a checkpoint in step with
    it, under any conditions and stopped after any number of passes.  The
    rows of the pages transferred are, in the order of the key and without a
    gap or a repetition, the rows of the ordered source from the count the
    checkpoint started with up to the count it has reached; the count has
    grown by the number of rows transferred and does not pass the number of
    rows of the source. *)
Theorem transferred_rows_are_consecutive c (env : nat → conditions) (fuel : nat)
    (t : ProgressTracker) (db : target_db) :
  sound_source c → in_step c (progress (initial_state c t db)) →
  let p0 := progress (initial_state c t db) in
  let st := final_state (migrate_table_data c env fuel t db) in
  let m0 := Z.to_nat (migrated_rows p0) in
  let m := Z.to_nat (migrated_rows (progress st)) in
  (m0 ≤ m ≤ length (source_rows c))%nat
  ∧ concat (transferred (events st)) = take (m - m0) (drop m0 (listing c))
  ∧ migrated_rows (progress st)
    = migrated_rows p0 + Z.of_nat (length (concat (transferred (events st)))).
Proof.
  intros Hs Hstep p0 st m0 m.
  pose proof Hstep as (Hm0 & Hlen0 & _). rewrite listing_length in Hlen0.
  fold p0 in Hm0, Hlen0.
  destruct (completed p0) eqn:Hopen.
  { assert (st = initial_state c t db) as Hst.
    { unfold st, migrate_table_data. fold p0. by rewrite Hopen. }
    unfold m. rewrite Hst. destruct (initial_events c t db) as (-> & _).
    fold p0. fold m0. rewrite Nat.sub_diag. cbn.
    unfold m0. split; [lia|]. split; [done|]. lia. }
  destruct (run_on_track c env fuel t db Hs Hstep Hopen)
    as (st1 & Htrack & Ht & _ & _ & Hfinal).
  fold st in Ht, Hfinal. fold p0 in Htrack. fold m0 in Htrack.
  destruct (on_track_span c m0 st1 Htrack) as (Hm & Hpos & Hpages & Hcount).
  assert (migrated_rows (progress st) = migrated_rows (progress st1)) as Heq.
  { destruct Hfinal as [-> | ->]; [done|].
    by destruct (finish_facts c st1) as (-> & _). }
  unfold m. rewrite Heq, Ht, Hcount. split; [done|]. split; [done|].
  unfold m0 in *. lia.
Qed.

(** X2.  Such a call on a target without an open transaction: wherever it
    stops, the rows committed in the target are those it had, then the rows
    of the pages transferred, inserted page by page with ON CONFLICT DO
    NOTHING.  Nothing of a chunk that failed is committed, and unless the
    call is left by an exception no transaction stays open. *)
Theorem target_holds_transferred_pages c (env : nat → conditions) (fuel : nat)
    (t : ProgressTracker) (db : target_db) :
  sound_source c → in_step c (progress (initial_state c t db)) →
  pending db = [] →
  let st := final_state (migrate_table_data c env fuel t db) in
  committed (target st) = committed (served c db (transferred (events st)))
  ∧ ((∀ e, migrate_table_data c env fuel t db ≠ Failed e st) → pending (target st) = []).
Proof.
  intros Hs Hstep Hdb st.
  destruct (completed (progress (initial_state c t db))) eqn:Hopen.
  { assert (st = initial_state c t db) as ->.
    { unfold st, migrate_table_data. by rewrite Hopen. }
    destruct (initial_events c t db) as (-> & -> & _). done. }
  destruct (run_served c env fuel t db Hs Hstep Hopen Hdb)
    as (st1 & _ & Hc & [(Hrun & _ & Hpd) | [(e & Hrun) | (Hrun & Hpd & _)]]);
    unfold st; rewrite Hrun; cbn [final_state].
  - done.
  - split; [done|]. intros Hne. by destruct (Hne e).
  - destruct (finish_facts c st1) as (_ & -> & -> & _).
    by rewrite transferred_quiet.
Qed.

(** A loop that returns, from a state on track: with a chunk size of one
    or more and a total not below the number of rows of the source, every
    row from the place the call started at was transferred. *)
Lemma while_loop_complete c (m0 : nat) (env : nat → conditions) (fuel i : nat) st st' :
  sound_source c → on_track c m0 st →
  1 ≤ chunk_size c →
  Z.of_nat (length (source_rows c)) ≤ arg_total_rows c →
  while_loop c env fuel i st = Returned st' →
  concat (transferred (events st')) = drop m0 (listing c)
  ∧ migrated_rows (progress st') = Z.of_nat (length (source_rows c))
  ∧ completed (progress st') = true
  ∧ get_progress (tracker st') (arg_table_name c) = Some (progress st').
Proof.
  intros Hs Htrack0 Hchunk Htotal Hrun.
  destruct (while_loop_exit c _ env Hs fuel i _ Htrack0 st' Hrun)
    as (st1 & Htrack & -> & Hend).
  destruct Htrack as [(Hm & Hlen & _) _ Hfrom Hpages _ _ _ _].
  rewrite listing_length in Hlen.
  assert (Z.to_nat (migrated_rows (progress st1)) = length (source_rows c)) as Hall.
  { destruct Hend as [Hend | [_ Hnil]]; [lia|].
    pose proof (next_page_length c (progress st1)) as Hpl. rewrite Hnil in Hpl.
    cbn in Hpl. lia. }
  destruct (finish_facts c st1) as (-> & _ & -> & ->).
  rewrite transferred_quiet by done. rewrite Hpages, Hall.
  split; [|split; [cbn; lia|done]].
  apply take_ge. rewrite length_drop, listing_length. lia.
Qed.

(** A call on a checkpoint that is completed returns at once. *)
Lemma completed_call_returns c (env : nat → conditions) (fuel : nat)
    (t : ProgressTracker) (db : target_db) :
  completed (progress (initial_state c t db)) = true →
  migrate_table_data c env fuel t db = Returned (initial_state c t db)
  ∧ events (initial_state c t db) = []
  ∧ target (initial_state c t db) = db
  ∧ tracker (initial_state c t db) = t
  ∧ get_progress t (arg_table_name c) = Some (progress (initial_state c t db)).
Proof.
  intros Hdone. unfold migrate_table_data. rewrite Hdone.
  destruct (initial_events c t db) as (He & Ht & Htr).
  repeat (split; [done|]).
  unfold initial_state in *. by destruct (get_progress t (arg_table_name c)).
Qed.

(** X3.  When such a call returns, whatever faults it met, with a chunk
    size of one or more and a total not below the number of rows of the
    source: the checkpoint is saved as completed; if it was completed when
    the call began, the call has done nothing (no event, the target and the
    tracker as they were); if it was not, every row from the place of the
    checkpoint on was transferred and the count equals the number of rows
    of the source. *)
Theorem returned_call_left_no_row c (env : nat → conditions) (fuel : nat)
    (t : ProgressTracker) (db : target_db) st :
  sound_source c → in_step c (progress (initial_state c t db)) →
  1 ≤ chunk_size c →
  Z.of_nat (length (source_rows c)) ≤ arg_total_rows c →
  migrate_table_data c env fuel t db = Returned st →
  completed (progress st) = true
  ∧ get_progress (tracker st) (arg_table_name c) = Some (progress st)
  ∧ if completed (progress (initial_state c t db))
    then st = initial_state c t db ∧ events st = [] ∧ target st = db ∧ tracker st = t
    else concat (transferred (events st))
         = drop (Z.to_nat (migrated_rows (progress (initial_state c t db)))) (listing c)
         ∧ migrated_rows (progress st) = Z.of_nat (length (source_rows c)).
Proof.
  intros Hs Hstep Hchunk Htotal Hrun.
  destruct (completed (progress (initial_state c t db))) eqn:Hopen.
  - destruct (completed_call_returns c env fuel t db Hopen)
      as (Hret & He & Htg & Htr & Hget).
    rewrite Hret in Hrun. injection Hrun as <-.
    rewrite Htr. by repeat split.
  - unfold migrate_table_data in Hrun. rewrite Hopen in Hrun.
    pose proof (initial_on_track c t db Hstep Hopen) as Htrack.
    destruct (while_loop_complete c _ env fuel 0%nat _ st Hs Htrack Hchunk Htotal Hrun)
      as (Hpages & Hm & Hdone & Hget).
    by repeat split.
Qed.

(** The loop ends once the faults do: a pass without a fault moves the
    checkpoint or leaves the loop, and a pass that fails is one of the [k]
    that may. *)
Lemma while_loop_ends c (m0 : nat) (env : nat → conditions) :
  sound_source c → 1 ≤ chunk_size c →
  (∀ i, rollback_raises (env i) = false) →
  ∀ (fuel k i : nat) st,
  on_track c m0 st →
  (∀ j, (i + k ≤ j)%nat → fault_at (env j) = NoFault) →
  (k + (length (source_rows c) - Z.to_nat (migrated_rows (progress st))) < fuel)%nat →
  ∃ st', while_loop c env fuel i st = Returned st'.
Proof.
  intros Hs Hchunk Hrb fuel.
  induction fuel as [|fuel IH]; intros k i st Htrack Henv Hfuel; [lia|].
  cbn [while_loop]. destruct (_ <? _) eqn:Hlt; [|by eexists].
  pose proof (track_in_step _ _ _ Htrack) as Hstep.
  destruct (pass_effect c m0 (env i) st Hs Htrack)
    as (st1 & Htrack1
        & [(_ & Hne & Hbody & Hp & _)
          | [(Hbody & _)
            | (Hfail & Hp & _ & _ & _ & _ & [(_ & Hbody & _) | (Hraises & _)])]]).
  - rewrite Hbody. destruct (_ <=? _); [by eexists|].
    apply (IH (pred k)); [done| |].
    + intros j Hj. apply Henv. lia.
    + pose proof (next_page_length c (progress st)) as Hpl.
      pose proof (track_in_step _ _ _ Htrack1) as (Hm1 & Hlen1 & _).
      rewrite listing_length in Hlen1.
      destruct Hstep as (Hm & _).
      assert (length (next_page c (progress st)) ≠ 0%nat) as Hpos
        by (by intros ?%length_zero_iff_nil).
      rewrite Hp in Hlen1 |- *. cbn in Hlen1 |- *. lia.
  - rewrite Hbody. by eexists.
  - destruct k as [|k].
    + exfalso. rewrite (Henv i) in Hfail by lia.
      apply (no_fault_no_failure c (progress st)); [done..|lia|done].
    + rewrite Hbody. apply (IH k); [done| |].
      * intros j Hj. apply Henv. lia.
      * rewrite Hp. lia.
  - by rewrite Hrb in Hraises.
Qed.

(** X4.  Faults that end, with a chunk size of one or more: when no
    rollback raises and no pass from number [k] on meets a fault, the call
    returns within [k] passes more than the source has rows, with the
    checkpoint saved as completed.  If the checkpoint was completed when
    the call began, the call has done nothing; if it was not and the total
    is not below the number of rows of the source, every row from the
    checkpoint on was transferred. *)
Theorem transient_faults_end_in_return c (env : nat → conditions) (fuel k : nat)
    (t : ProgressTracker) (db : target_db) :
  sound_source c → in_step c (progress (initial_state c t db)) →
  1 ≤ chunk_size c →
  (∀ i, rollback_raises (env i) = false) →
  (∀ i, (k ≤ i)%nat → fault_at (env i) = NoFault) →
  (k + length (source_rows c) < fuel)%nat →
  ∃ st, migrate_table_data c env fuel t db = Returned st
    ∧ completed (progress st) = true
    ∧ get_progress (tracker st) (arg_table_name c) = Some (progress st)
    ∧ if completed (progress (initial_state c t db))
      then st = initial_state c t db ∧ events st = [] ∧ target st = db ∧ tracker st = t
      else Z.of_nat (length (source_rows c)) ≤ arg_total_rows c →
           migrated_rows (progress st) = Z.of_nat (length (source_rows c))
           ∧ concat (transferred (events st))
             = drop (Z.to_nat (migrated_rows (progress (initial_state c t db))))
                 (listing c).
Proof.
  intros Hs Hstep Hchunk Hrb Henv Hfuel.
  destruct (completed (progress (initial_state c t db))) eqn:Hopen.
  { destruct (completed_call_returns c env fuel t db Hopen)
      as (Hret & He & Htg & Htr & Hget).
    exists (initial_state c t db). rewrite Htr. by repeat split. }
  destruct (while_loop_ends c _ env Hs Hchunk Hrb fuel k 0%nat _
              (initial_on_track c t db Hstep Hopen)) as [st Hrun]; [done|lia|].
  assert (migrate_table_data c env fuel t db = Returned st) as Hcall.
  { unfold migrate_table_data. by rewrite Hopen. }
  exists st. split; [done|].
  destruct (while_loop_exit c _ env Hs fuel 0%nat _
              (initial_on_track c t db Hstep Hopen) st Hrun) as (st1 & _ & Hst & _).
  assert (completed (progress st) = true
          ∧ get_progress (tracker st) (arg_table_name c) = Some (progress st))
    as [Hdone Hget].
  { rewrite Hst. by destruct (finish_facts c st1) as (-> & _ & _ & ->). }
  split; [done|]. split; [done|]. intros Htotal.
  destruct (while_loop_complete c _ env fuel 0%nat _ st Hs
              (initial_on_track c t db Hstep Hopen) Hchunk Htotal Hrun)
    as (Hpages & Hm & _).
  done.
Qed.

Lemma conflict_freeb_app_l (l l' : list tuple) :
  conflict_freeb (l ++ l') = true → conflict_freeb l = true.
Proof.
  induction l as [|u l IH]; [done|]. cbn. intros [Hu Hl]%andb_true_iff.
  rewrite forallb_app in Hu. apply andb_true_iff in Hu as [Hu _].
  rewrite Hu. by apply IH.
Qed.

Lemma conflict_freeb_middle (l r : list tuple) (t : tuple) :
  conflict_freeb (l ++ t :: r) = true → existsb (conflict t) l = false.
Proof.
  induction l as [|u l IH]; [done|]. cbn. intros [Hu Hl]%andb_true_iff.
  rewrite forallb_app in Hu. apply andb_true_iff in Hu as [_ Hu]. cbn in Hu.
  apply andb_true_iff in Hu as [Hu _]. apply negb_true_iff in Hu. rewrite Hu.
  by apply IH.
Qed.

Lemma execute_batch_free (db : target_db) (ts : list tuple) :
  conflict_freeb ((committed db ++ pending db) ++ ts) = true →
  execute_batch db ts = {| committed := committed db; pending := pending db ++ ts |}.
Proof.
  unfold execute_batch. revert db.
  induction ts as [|t ts IH]; intros db Hfree.
  - cbn. rewrite app_nil_r. by destruct db.
  - cbn [foldl]. unfold insert_tuple at 2.
    rewrite (conflict_freeb_middle _ ts t Hfree). rewrite IH; cbn.
    + by rewrite <- app_assoc.
    + by rewrite <- !app_assoc in *.
Qed.

Lemma served_free c (db : target_db) (pages : list (list row)) :
  pending db = [] →
  conflict_freeb (committed db ++ (sent_row c <$> concat pages)) = true →
  served c db pages
  = {| committed := committed db ++ (sent_row c <$> concat pages); pending := [] |}.
Proof.
  intros Hdb. induction pages as [|page pages IH] using rev_ind; intros Hfree.
  - cbn. rewrite app_nil_r. destruct db. by cbn in *; subst.
  - rewrite concat_app, fmap_app in Hfree |- *. cbn in Hfree |- *.
    rewrite app_nil_r in Hfree |- *. rewrite app_assoc in Hfree.
    rewrite served_snoc, IH by (by apply conflict_freeb_app_l in Hfree).
    rewrite execute_batch_free; cbn; rewrite ?app_nil_r; [|done].
    unfold commit. cbn. by rewrite <- app_assoc.
Qed.

(** X5.  End to end: a table without a checkpoint, a target without an open
    transaction in which no row of the source collides with a row before
    it, faults that end.  The call returns, the target then holds the rows
    it had followed by every row of the source as it is sent, in key order,
    and the checkpoint is saved as completed with the count of the
    source. *)
Theorem migrated_table_equals_source c (env : nat → conditions) (fuel k : nat)
    (t : ProgressTracker) (db : target_db) :
  sound_source c →
  get_progress t (arg_table_name c) = None →
  1 ≤ chunk_size c →
  Z.of_nat (length (source_rows c)) ≤ arg_total_rows c →
  pending db = [] →
  conflict_freeb (committed db ++ (sent_row c <$> listing c)) = true →
  (∀ i, rollback_raises (env i) = false) →
  (∀ i, (k ≤ i)%nat → fault_at (env i) = NoFault) →
  (k + length (source_rows c) < fuel)%nat →
  ∃ st, migrate_table_data c env fuel t db = Returned st
    ∧ target st
      = {| committed := committed db ++ (sent_row c <$> listing c); pending := [] |}
    ∧ get_progress (tracker st) (arg_table_name c) = Some (progress st)
    ∧ migrated_rows (progress st) = Z.of_nat (length (source_rows c))
    ∧ completed (progress st) = true.
Proof.
  intros Hs Hnone Hchunk Htotal Hdb Hfree Hrb Henv Hfuel.
  destruct (fresh_in_step c t db Hnone) as (Hstep & Hp0 & _).
  assert (completed (progress (initial_state c t db)) = false) as Hopen
    by (by rewrite Hp0).
  pose proof (initial_on_track c t db Hstep Hopen) as Htrack.
  destruct (while_loop_ends c _ env Hs Hchunk Hrb fuel k 0%nat _ Htrack)
    as [st Hloop]; [done|lia|].
  assert (migrate_table_data c env fuel t db = Returned st) as Hrun.
  { unfold migrate_table_data. by rewrite Hopen. }
  destruct (while_loop_complete c _ env fuel 0%nat _ st Hs Htrack Hchunk Htotal Hloop)
    as (Hpages & Hm & Hdone & Hget).
  rewrite Hp0 in Hpages. cbn in Hpages.
  exists st. split; [done|]. split; [|done].
  destruct (run_served c env fuel t db Hs Hstep Hopen Hdb)
      as (st1 & _ & Hc & [(Hrun' & _) | [(e & Hrun') | (Hrun' & Hpd & _)]]);
    rewrite Hrun' in Hrun; [done..|]. injection Hrun as <-.
  destruct (finish_facts c st1) as (_ & Ht & He & _).
  rewrite He, transferred_quiet in Hpages by done.
  rewrite Ht. rewrite served_free in Hc by (by rewrite ?Hpages).
  cbn in Hc. rewrite Hpages in Hc.
  destruct (target st1). by cbn in *; subst.
Qed.

Lemma mutate_frame c p' st (table : string) :
  table ≠ arg_table_name c →
  get_progress (tracker (mutate c p' st)) table = get_progress (tracker st) table.
Proof.
  intros Hne. unfold mutate, get_progress. cbn. destruct (shared st); [|done].
  cbn. by apply lookup_insert_ne.
Qed.

Lemma update_frame c st (table : string) :
  table ≠ arg_table_name c →
  get_progress (tracker (do_update_progress c st)) table = get_progress (tracker st) table.
Proof.
  intros Hne. unfold do_update_progress, get_progress. cbn.
  rewrite update_progress_data. by apply lookup_insert_ne.
Qed.

Lemma advance_frame c (rows : list row) st (table : string) :
  table ≠ arg_table_name c →
  ∀ st', (advance c rows st = Next st' ∨ advance c rows st = Break st'
          ∨ ∃ e, advance c rows st = Raised e st') →
  get_progress (tracker st') table = get_progress (tracker st) table.
Proof.
  intros Hne st'. unfold advance.
  assert (∀ st2 st3,
            get_progress (tracker st2) table = get_progress (tracker st) table →
            ((let st3 := log (Sleep 100) (do_update_progress c st2) in
              if arg_total_rows c <=? migrated_rows (progress st3) then Break st3
              else if (Z.of_nat (length rows) <? chunk_size c)
                      && (arg_total_rows c <=? migrated_rows (progress st3))
              then Break st3 else Next st3) = Next st3
             ∨ (let st3 := log (Sleep 100) (do_update_progress c st2) in
                if arg_total_rows c <=? migrated_rows (progress st3) then Break st3
                else if (Z.of_nat (length rows) <? chunk_size c)
                        && (arg_total_rows c <=? migrated_rows (progress st3))
                then Break st3 else Next st3) = Break st3
             ∨ ∃ e, (let st3 := log (Sleep 100) (do_update_progress c st2) in
                if arg_total_rows c <=? migrated_rows (progress st3) then Break st3
                else if (Z.of_nat (length rows) <? chunk_size c)
                        && (arg_total_rows c <=? migrated_rows (progress st3))
                then Break st3 else Next st3) = Raised e st3) →
            get_progress (tracker st3) table = get_progress (tracker st) table) as Hend.
  { intros st2 st3 H2 Hflow. cbn zeta in Hflow.
    assert (st3 = log (Sleep 100) (do_update_progress c st2)) as ->.
    { destruct (arg_total_rows c <=? _); [|rewrite andb_false_r in Hflow];
        destruct Hflow as [Hf | [Hf | [e Hf]]]; by simplify_eq. }
    change (tracker (log (Sleep 100) (do_update_progress c st2)))
      with (tracker (do_update_progress c st2)).
    by rewrite update_frame. }
  destruct (arg_primary_key c) as [pk|]; [destruct (last rows) as [r|]|];
    [destruct (truthy (Some pk)); [destruct (row_get r pk) as [v|e]|]|..];
    intros Hflow.
  all: try (apply Hend in Hflow; [done|]; by rewrite ?mutate_frame).
  destruct Hflow as [Hf | [Hf | [e' Hf]]]; simplify_eq. by rewrite mutate_frame.
Qed.

Lemma pass_frame c (w : conditions) st (table : string) :
  table ≠ arg_table_name c →
  ∀ st', (loop_body c w st = Continue st' ∨ loop_body c w st = Exit st'
          ∨ ∃ e, loop_body c w st = Abort e st') →
  get_progress (tracker st') table = get_progress (tracker st) table.
Proof.
  intros Hne st' Hbody.
  destruct (pass_cases c w st)
    as [(st1 & evs & Hbody1 & _ & _ & Htr & _)
       | (Hw & r & rows & tuples & Hq & Hconv)].
  - assert (st' = st1) as ->; [|by rewrite Htr].
    destruct Hbody as [Hb | [Hb | [e Hb]]], Hbody1 as [Hb1 | [Hb1 | [e1 Hb1]]];
      rewrite Hb in Hb1; by simplify_eq.
  - unfold loop_body in Hbody. rewrite Hw in Hbody.
    rewrite (try_block_clean c st (r :: rows) tuples Hq ltac:(done) Hconv) in Hbody.
    pose proof (advance_frame c (r :: rows) (after_commit c (r :: rows) tuples st)
                  table Hne) as Hadv.
    destruct (advance c (r :: rows) (after_commit c (r :: rows) tuples st))
      as [s | s | e s].
    + specialize (Hadv s (or_introl eq_refl)).
      destruct Hbody as [Hb | [Hb | [e Hb]]]; by simplify_eq.
    + specialize (Hadv s (or_intror (or_introl eq_refl))).
      destruct Hbody as [Hb | [Hb | [e Hb]]]; by simplify_eq.
    + specialize (Hadv s (or_intror (or_intror (ex_intro _ e eq_refl)))).
      destruct (rollback_raises w);
        destruct Hbody as [Hb | [Hb | [e' Hb]]]; by simplify_eq.
Qed.

Lemma finish_frame c st (table : string) :
  table ≠ arg_table_name c →
  get_progress (tracker (finish c st)) table = get_progress (tracker st) table.
Proof. intros Hne. unfold finish. by rewrite update_frame, mutate_frame. Qed.

Lemma while_loop_frame c (env : nat → conditions) (table : string) :
  table ≠ arg_table_name c →
  ∀ (fuel i : nat) st,
  get_progress (tracker (final_state (while_loop c env fuel i st))) table
  = get_progress (tracker st) table.
Proof.
  intros Hne fuel. induction fuel as [|fuel IH]; intros i st.
  - cbn [while_loop]. destruct (_ <? _); cbn [final_state]; [done|by apply finish_frame].
  - cbn [while_loop]. destruct (_ <? _); cbn [final_state]; [|by apply finish_frame].
    pose proof (pass_frame c (env i) st table Hne) as Hpass.
    destruct (loop_body c (env i) st) as [s | s | e s]; cbn [final_state].
    + rewrite IH. apply Hpass. by left.
    + rewrite finish_frame by done. apply Hpass. by right; left.
    + apply Hpass. right; right. by exists e.
Qed.

(** X6.  A call touches the checkpoint of its own table only: for every
    other table the tracker answers after the call, however it ends, what
    it answered before. *)
Theorem other_checkpoints_untouched c (env : nat → conditions) (fuel : nat)
    (t : ProgressTracker) (db : target_db) (table : string) :
  table ≠ arg_table_name c →
  get_progress (tracker (final_state (migrate_table_data c env fuel t db))) table
  = get_progress t table.
Proof.
  intros Hne. destruct (initial_events c t db) as (_ & _ & Ht).
  unfold migrate_table_data. destruct (completed _); cbn [final_state].
  - by rewrite Ht.
  - by rewrite while_loop_frame, Ht.
Qed.

(** What a call leaves for the next one: the dictionary of the tracker
    holds the checkpoint reached, or nothing when the call started without
    a checkpoint and has transferred nothing. *)
Lemma while_loop_handover c (m0 : nat) (env : nat → conditions) (p0 : MigrationProgress)
    (R : Prop) :
  sound_source c →
  ∀ (fuel i : nat) st,
  on_track c m0 st → entry_kept c st →
  (shared st = false → progress st = p0 ∧ transferred (events st) = [] ∧ R) →
  let st' := final_state (while_loop c env fuel i st) in
  entry_kept c st' ∧ in_step c (progress st')
  ∧ (shared st' = false → progress st' = p0 ∧ transferred (events st') = [] ∧ R).
Proof.
  intros Hs.
  assert (∀ st, on_track c m0 st →
            entry_kept c (finish c st) ∧ in_step c (progress (finish c st))
            ∧ (shared (finish c st) = false →
               progress (finish c st) = p0 ∧ transferred (events (finish c st)) = [] ∧ R))
    as Hfinish.
  { intros st Htrack. split; [apply finish_entry_kept|]. split; [|done].
    destruct (finish_facts c st) as (-> & _). apply (track_in_step _ _ _ Htrack). }
  intros fuel. induction fuel as [|fuel IH]; intros i st Htrack Hentry Hfresh.
  - cbn [while_loop]. destruct (_ <? _); cbn [final_state]; [|by apply Hfinish].
    split; [done|]. split; [apply (track_in_step _ _ _ Htrack)|done].
  - cbn [while_loop]. destruct (_ <? _); cbn [final_state]; [|by apply Hfinish].
    destruct (pass_effect c m0 (env i) st Hs Htrack)
      as (st1 & Htrack1
          & [(_ & _ & Hbody & _ & _ & _ & Hsh & Hget)
            | [(Hbody & _ & _ & Hp & _ & Hpages & Hsh & Htr)
              | (_ & Hp & _ & Hpages & Hsh & Htr
                 & [(_ & Hbody & _) | (_ & e & Hbody)])]]).
    + assert (entry_kept c st1) as Hentry1 by (unfold entry_kept; by rewrite Hsh).
      rewrite Hbody. destruct (_ <=? _); cbn [final_state].
      * by apply Hfinish.
      * apply IH; [done..|]. by rewrite Hsh.
    + rewrite Hbody. cbn [final_state]. by apply Hfinish.
    + rewrite Hbody. apply IH; [done| |].
      * unfold entry_kept. by rewrite Htr, Hsh, Hp.
      * rewrite Hsh, Hp, Hpages. done.
    + rewrite Hbody. cbn [final_state].
      split; [unfold entry_kept; by rewrite Htr, Hsh, Hp|].
      split; [apply (track_in_step _ _ _ Htrack1)|]. by rewrite Hsh, Hp, Hpages.
Qed.

Lemma run_handover c (env : nat → conditions) (fuel : nat)
    (t : ProgressTracker) (db : target_db) :
  sound_source c → in_step c (progress (initial_state c t db)) →
  let st := final_state (migrate_table_data c env fuel t db) in
  let m0 := Z.to_nat (migrated_rows (progress (initial_state c t db))) in
  let m := Z.to_nat (migrated_rows (progress st)) in
  (entry_kept c st ∧ in_step c (progress st)
   ∧ (shared st = false →
      progress st = progress (initial_state c t db) ∧ transferred (events st) = []
      ∧ migrated_rows (progress (initial_state c t db)) = 0))
  ∧ (m0 ≤ m ≤ length (source_rows c))%nat
  ∧ concat (transferred (events st)) = take (m - m0) (drop m0 (listing c))
  ∧ (pending db = [] →
     committed (target st) = committed (served c db (transferred (events st)))).
Proof.
  intros Hs Hstep st m0 m.
  assert ((m0 ≤ m ≤ length (source_rows c))%nat
          ∧ concat (transferred (events st)) = take (m - m0) (drop m0 (listing c))
          ∧ (pending db = [] →
             committed (target st) = committed (served c db (transferred (events st)))))
    as Hspan.
  { pose proof Hstep as (Hm0 & Hlen0 & _). rewrite listing_length in Hlen0.
    destruct (initial_events c t db) as (He & Ht & _).
    destruct (completed (progress (initial_state c t db))) eqn:Hopen.
    - assert (st = initial_state c t db) as Hst.
      { unfold st, migrate_table_data. by rewrite Hopen. }
      unfold m. rewrite Hst, He, Ht. fold m0. rewrite Nat.sub_diag. cbn.
      unfold m0. split; [lia|]. done.
    - destruct (run_on_track c env fuel t db Hs Hstep Hopen)
        as (st1 & Htrack & Hpages & _ & _ & Hfinal).
      fold st in Hpages, Hfinal. fold m0 in Htrack.
      destruct (on_track_span c m0 st1 Htrack) as (Hm & _ & Hspan & _).
      assert (migrated_rows (progress st) = migrated_rows (progress st1)) as Heq.
      { destruct Hfinal as [-> | ->]; [done|].
        by destruct (finish_facts c st1) as (-> & _). }
      unfold m. rewrite Heq, Hpages. split; [done|]. split; [done|].
      intros Hdb. rewrite <- Hpages. clear Hfinal Heq Hspan Hm Htrack Hpages st1.
      destruct (run_served c env fuel t db Hs Hstep Hopen Hdb)
        as (st1 & _ & Hc & [(Hrun & _) | [(e & Hrun) | (Hrun & _)]]);
        unfold st; rewrite Hrun; cbn [final_state]; [done..|].
      destruct (finish_facts c st1) as (_ & -> & -> & _).
      by rewrite transferred_quiet. }
  split; [|exact Hspan]. clear Hspan m m0.
  destruct (initial_entry_kept c t db) as [Hentry He].
  assert (shared (initial_state c t db) = false →
          migrated_rows (progress (initial_state c t db)) = 0) as Hzero.
  { unfold initial_state. by destruct (get_progress _ _). }
  unfold st, migrate_table_data.
  destruct (completed (progress (initial_state c t db))) eqn:Hopen; cbn [final_state].
  - split; [done|]. split; [done|]. intros Hsh. rewrite He. auto.
  - apply (while_loop_handover c _ env (progress (initial_state c t db))
             (migrated_rows (progress (initial_state c t db)) = 0) Hs fuel 0%nat
             (initial_state c t db) (initial_on_track c t db Hstep Hopen) Hentry).
    intros Hsh. rewrite He. auto.
Qed.

(** X7.  Resuming.  A call is stopped at any point (out of passes, left by
    an exception, or returned); a second call for the same table starts from
    a tracker that answers for the table what the tracker of the first call
    answers at the end.  The pages of the two calls together are the rows
    of the ordered source from the first checkpoint to the last count,
    without a gap or a repetition; and when the second call works on what
    the first one committed, the target holds the pages of both. *)
Theorem resumed_call_continues c (env1 env2 : nat → conditions) (fuel1 fuel2 : nat)
    (t t2 : ProgressTracker) (db db2 : target_db) :
  sound_source c → in_step c (progress (initial_state c t db)) →
  let st1 := final_state (migrate_table_data c env1 fuel1 t db) in
  get_progress t2 (arg_table_name c) = get_progress (tracker st1) (arg_table_name c) →
  let st2 := final_state (migrate_table_data c env2 fuel2 t2 db2) in
  let m0 := Z.to_nat (migrated_rows (progress (initial_state c t db))) in
  let m2 := Z.to_nat (migrated_rows (progress st2)) in
  (m0 ≤ m2 ≤ length (source_rows c))%nat
  ∧ concat (transferred (events st1) ++ transferred (events st2))
    = take (m2 - m0) (drop m0 (listing c))
  ∧ (pending db = [] → db2 = rollback (target st1) →
     committed (target st2)
     = committed (served c db (transferred (events st1) ++ transferred (events st2)))).
Proof.
  intros Hs Hstep st1 Hget st2 m0 m2.
  destruct (run_handover c env1 fuel1 t db Hs Hstep)
    as ((Hentry & Hstep1 & Hfresh) & Hm1 & Hpages1 & Hc1).
  fold st1 in Hentry, Hstep1, Hfresh, Hm1, Hpages1, Hc1. fold m0 in Hm1, Hpages1.
  assert (in_step c (progress (initial_state c t2 db2))
          ∧ migrated_rows (progress (initial_state c t2 db2))
            = migrated_rows (progress st1)) as [Hstep2 Hm].
  { unfold initial_state. rewrite Hget, Hentry. destruct (shared st1); [done|].
    destruct (Hfresh eq_refl) as (Hp & _ & Hzero). rewrite Hp, Hzero.
    split; [|done]. split; [done|]. split; [cbn; lia|]. intros pk txt _ Hlast. done. }
  destruct (run_handover c env2 fuel2 t2 db2 Hs Hstep2) as (_ & Hm2 & Hpages2 & Hc2).
  fold st2 in Hm2, Hpages2, Hc2. fold m2 in Hm2, Hpages2. rewrite Hm in Hm2, Hpages2.
  split; [lia|]. split.
  - rewrite concat_app, Hpages1, Hpages2.
    rewrite take_pages by lia. f_equal.
    rewrite length_take, length_drop, listing_length. lia.
  - intros Hdb ->. specialize (Hc1 Hdb). specialize (Hc2 eq_refl).
    rewrite Hc2. unfold served at 2. rewrite foldl_app.
    fold (served c db (transferred (events st1))).
    f_equal. f_equal. unfold rollback. rewrite Hc1.
    pose proof (served_pending c db (transferred (events st1)) Hdb) as Hpd.
    destruct (served c db (transferred (events st1))). by cbn in *; subst.
Qed.

End transfer_facts.

(** ** Strings and decimal numerals *)

Section string_facts.

Lemma string_app_cons (x : ascii) (a b : string) :
  String x a +:+ b = String x (a +:+ b).
Proof. reflexivity. Qed.

Lemma string_app_nil_l (b : string) : EmptyString +:+ b = b.
Proof. reflexivity. Qed.

Lemma string_app_assoc (a b c : string) : (a +:+ b) +:+ c = a +:+ (b +:+ c).
Proof. induction a as [|x a IH]; [done|]. by rewrite !string_app_cons, IH. Qed.

Lemma string_app_nil_r (a : string) : a +:+ EmptyString = a.
Proof. induction a as [|x a IH]; [done|]. by rewrite string_app_cons, IH. Qed.

Lemma rev_app_spec (s acc : string) : Str.rev_app s acc = Str.rev s +:+ acc.
Proof.
  unfold Str.rev. revert acc. induction s as [|c s IH]; intros acc; [done|].
  cbn. rewrite IH, (IH (String c EmptyString)). by rewrite string_app_assoc.
Qed.

Lemma rev_cons (c : ascii) (s : string) :
  Str.rev (String c s) = Str.rev s +:+ String c EmptyString.
Proof. unfold Str.rev at 1. cbn. apply rev_app_spec. Qed.

Lemma rev_string_app (a b : string) : Str.rev (a +:+ b) = Str.rev b +:+ Str.rev a.
Proof.
  induction a as [|x a IH].
  - by rewrite string_app_nil_l, string_app_nil_r.
  - by rewrite string_app_cons, !rev_cons, IH, string_app_assoc.
Qed.

Lemma rev_rev (s : string) : Str.rev (Str.rev s) = s.
Proof.
  induction s as [|c s IH]; [done|]. rewrite rev_cons, rev_string_app, IH. done.
Qed.

Lemma all_chars_app (p : ascii → bool) (a b : string) :
  all_chars p (a +:+ b) = all_chars p a && all_chars p b.
Proof.
  induction a as [|c a IH]; [done|]. rewrite string_app_cons. cbn.
  by rewrite IH, andb_assoc.
Qed.

Lemma all_chars_rev (p : ascii → bool) (s : string) :
  all_chars p (Str.rev s) = all_chars p s.
Proof.
  induction s as [|c s IH]; [done|]. rewrite rev_cons, all_chars_app, IH. cbn.
  by rewrite andb_true_r, andb_comm.
Qed.

Lemma all_chars_impl (p q : ascii → bool) (s : string) :
  (∀ c, p c = true → q c = true) → all_chars p s = true → all_chars q s = true.
Proof.
  intros Hpq. induction s as [|c s IH]; [done|]. cbn.
  intros [Hc Hs]%andb_true_iff. by rewrite (Hpq c Hc), IH.
Qed.

(** Stripping takes nothing from a string without a character to strip. *)
Lemma lstrip_by_all (p : ascii → bool) (s : string) :
  all_chars (fun c => negb (p c)) s = true → Str.lstrip_by p s = s.
Proof.
  destruct s as [|c s]; [done|]. cbn. intros [Hc _]%andb_true_iff.
  apply negb_true_iff in Hc. by rewrite Hc.
Qed.

Lemma strip_by_all (p : ascii → bool) (s : string) :
  all_chars (fun c => negb (p c)) s = true → Str.strip_by p s = s.
Proof.
  intros Hs. unfold Str.strip_by. rewrite (lstrip_by_all p s Hs).
  rewrite lstrip_by_all by (by rewrite all_chars_rev). apply rev_rev.
Qed.

Lemma split_go_app (sep : ascii) (a s cur : string) :
  all_chars (fun c => negb (Ascii.eqb c sep)) a = true →
  Str.split_go sep cur (a +:+ s) = Str.split_go sep (Str.rev_app a cur) s.
Proof.
  revert cur. induction a as [|c a IH]; intros cur; [done|]. rewrite string_app_cons. cbn.
  intros [Hc Ha]%andb_true_iff. apply negb_true_iff in Hc. rewrite Hc. by apply IH.
Qed.

(** Splitting at a separator what was joined with it gives the pieces back,
    when no piece holds the separator. *)
Lemma split_join (sep : ascii) (items : list string) :
  items ≠ [] →
  Forall (fun item => all_chars (fun c => negb (Ascii.eqb c sep)) item = true) items →
  Str.split sep (Str.join (String sep EmptyString) items) = items.
Proof.
  intros Hne Hall. unfold Str.split.
  induction Hall as [|item items Hitem Hall IH]; [done|].
  destruct items as [|item' items].
  - cbn [Str.join]. rewrite <- (string_app_nil_r item) at 1.
    rewrite split_go_app by done. cbn. by rewrite rev_app_spec, string_app_nil_r, rev_rev.
  - change (Str.join (String sep EmptyString) (item :: item' :: items))
      with (item +:+ String sep EmptyString
            +:+ Str.join (String sep EmptyString) (item' :: items)).
    rewrite split_go_app by done. rewrite string_app_cons, string_app_nil_l.
    cbn [Str.split_go]. rewrite Ascii.eqb_refl. rewrite IH by done.
    by rewrite rev_app_spec, string_app_nil_r, rev_rev.
Qed.

Lemma digit_char_spec (n : N) :
  Str.isdigit (Str.digit_char n) = true
  ∧ Str.digit_value (Str.digit_char n) = Z.of_N (n mod 10)
  ∧ numeral_char (Str.digit_char n) = true.
Proof.
  unfold Str.digit_char.
  assert (n mod 10 < 10)%N as Hlt by (apply N.mod_lt; lia).
  destruct (n mod 10)%N as [|p]; [by vm_compute|].
  do 4 (try destruct p as [p|p|]); try lia; by vm_compute.
Qed.

Lemma of_N_go_app (fuel : nat) (n : N) (acc : string) :
  Str.of_N_go fuel n acc = Str.of_N_go fuel n EmptyString +:+ acc.
Proof.
  revert n acc. induction fuel as [|fuel IH]; intros n acc; [done|].
  cbn [Str.of_N_go]. destruct (n / 10 =? 0)%N; [done|].
  rewrite IH, (IH _ (String _ EmptyString)). by rewrite string_app_assoc.
Qed.

Lemma of_N_go_chars (fuel : nat) (n : N) (acc : string) :
  all_chars numeral_char acc = true →
  all_chars Str.isdigit acc = true →
  all_chars numeral_char (Str.of_N_go fuel n acc) = true
  ∧ all_chars Str.isdigit (Str.of_N_go fuel n acc) = true.
Proof.
  revert n acc. induction fuel as [|fuel IH]; intros n acc Hacc Hacc'; [done|].
  cbn [Str.of_N_go]. destruct (digit_char_spec n) as (Hd & _ & Hn).
  destruct (n / 10 =? 0)%N.
  - cbn. by rewrite Hd, Hn.
  - apply IH; cbn; by rewrite ?Hd, ?Hn.
Qed.

(** Reading back the digits written for a number gives the number. *)
Lemma of_N_go_digits (fuel : nat) :
  ∀ (n : N) (acc : string) (b : bool),
  fuel ≠ O → Z.of_N n < 2 ^ Z.of_nat fuel →
  Py.digits_go (Str.of_N_go fuel n acc) 0 b = Py.digits_go acc (Z.of_N n) true.
Proof.
  induction fuel as [|fuel IH]; intros n acc b Hfuel Hlt; [done|].
  cbn [Str.of_N_go]. destruct (digit_char_spec n) as (Hd & Hv & _).
  assert (Z.of_N n = 10 * Z.of_N (n / 10) + Z.of_N (n mod 10)) as Hdiv.
  { rewrite N2Z.inj_div, N2Z.inj_mod. apply Z.div_mod. lia. }
  destruct (n / 10 =? 0)%N eqn:Hq.
  - apply N.eqb_eq in Hq. cbn [Py.digits_go]. rewrite Hd, Hv, Hdiv, Hq. done.
  - apply N.eqb_neq in Hq.
    rewrite Nat2Z.inj_succ, Z.pow_succ_r in Hlt by lia.
    assert (Z.of_N (n / 10) < 2 ^ Z.of_nat fuel) as Hlt'.
    { rewrite N2Z.inj_div. apply Z.div_lt_upper_bound; lia. }
    rewrite IH; [|intros ->; change (2 ^ Z.of_nat 0) with 1 in Hlt'|done].
    2:{ clear -Hq Hlt'. destruct (n `div` 10)%N; [done|]. cbn in Hlt'. lia. }
    cbn [Py.digits_go]. rewrite Hd, Hv, Hdiv at 1. done.
Qed.

Lemma pos_size_bound (p : positive) : Z.pos p < 2 ^ Z.of_nat (Pos.size_nat p).
Proof.
  induction p as [p IH|p IH|]; cbn [Pos.size_nat]; [| |done];
    rewrite Nat2Z.inj_succ, Z.pow_succ_r by lia; lia.
Qed.

Lemma of_N_fuel (n : N) : Z.of_N n < 2 ^ Z.of_nat (S (N.size_nat n)).
Proof.
  destruct n as [|p]; [done|]. cbn [N.size_nat].
  rewrite Nat2Z.inj_succ, Z.pow_succ_r by lia.
  pose proof (pos_size_bound p). cbn [Z.of_N]. lia.
Qed.

Lemma of_N_digits (n : N) (b : bool) :
  Py.digits_go (Str.of_N n) 0 b = Some (Z.of_N n).
Proof. unfold Str.of_N. rewrite of_N_go_digits; [done|done|apply of_N_fuel]. Qed.

Lemma of_N_chars (n : N) :
  all_chars Str.isdigit (Str.of_N n) = true
  ∧ ∃ d r, Str.of_N n = String d r ∧ Str.isdigit d = true.
Proof.
  assert (all_chars Str.isdigit (Str.of_N n) = true) as Hall
    by (by apply of_N_go_chars).
  split; [done|]. unfold Str.of_N in *.
  destruct (Str.of_N_go (S (N.size_nat n)) n EmptyString) as [|d r] eqn:Hs.
  - exfalso. cbn [Str.of_N_go] in Hs. destruct (n / 10 =? 0)%N; [done|].
    rewrite of_N_go_app in Hs. by destruct (Str.of_N_go _ _ _).
  - exists d, r. split; [done|]. cbn in Hall. by apply andb_true_iff in Hall as [? _].
Qed.

Lemma of_Z_chars (z : Z) :
  all_chars numeral_char (Str.of_Z z) = true ∧ Str.of_Z z ≠ EmptyString.
Proof.
  destruct z as [|p|p]; [done| |].
  - destruct (of_N_chars (N.pos p)) as (Hall & d & r & Hs & _). cbn [Str.of_Z].
    split; [|by rewrite Hs].
    eapply all_chars_impl; [|exact Hall]. intros c Hc. unfold numeral_char. by rewrite Hc.
  - destruct (of_N_chars (N.pos p)) as (Hall & _). cbn [Str.of_Z].
    split; [|done]. rewrite string_app_cons, string_app_nil_l. cbn.
    eapply all_chars_impl; [|exact Hall].
    intros c Hc. unfold numeral_char. by rewrite Hc.
Qed.

Lemma numeral_char_plain (c : ascii) :
  numeral_char c = true →
  Str.isspace c = false ∧ Py.int_space c = false ∧ Ascii.eqb c ","%char = false.
Proof. destruct c as [[] [] [] [] [] [] [] []]; by vm_compute. Qed.

Lemma digit_no_sign (d : ascii) (r : string) :
  Str.isdigit d = true →
  (match String d r with
   | String "-" ds => Z.opp <$> Py.digits_go ds 0 false
   | String "+" ds => Py.digits_go ds 0 false
   | ds => Py.digits_go ds 0 false
   end) = Py.digits_go (String d r) 0 false.
Proof. destruct d as [[] [] [] [] [] [] [] []]; by vm_compute. Qed.

(** [int(str(z))] is [z]. *)
Lemma int_of_str_of_Z (z : Z) : Py.int_of_str (Str.of_Z z) = Some z.
Proof.
  unfold Py.int_of_str. destruct (of_Z_chars z) as [Hall _].
  rewrite strip_by_all.
  2:{ eapply all_chars_impl; [|exact Hall]. intros c Hc.
      by destruct (numeral_char_plain c Hc) as (_ & -> & _). }
  destruct z as [|p|p]; [done| |].
  - cbn [Str.of_Z]. destruct (of_N_chars (N.pos p)) as (_ & d & r & Hs & Hd).
    rewrite Hs, digit_no_sign by done. rewrite <- Hs.
    exact (of_N_digits (N.pos p) false).
  - cbn [Str.of_Z]. rewrite string_app_cons, string_app_nil_l.
    by rewrite (of_N_digits (N.pos p) false).
Qed.

End string_facts.

(** ** The converter on array literals and on text for JSON columns *)

Section converter_more_facts.
Context `{Py.FloatOps}.

(** No declared type reads both as an array type and as json or jsonb. *)
Lemma array_type_not_json (column_type : string) :
  is_array_type column_type = true →
  str_in (Str.lower column_type) ["json"; "jsonb"] = false.
Proof.
  intros Harr. destruct (str_in _ _) eqn:Hj; [exfalso|done].
  apply str_in_true in Hj.
  assert (Str.lower column_type = "json" ∨ Str.lower column_type = "jsonb") as Hcases.
  { apply elem_of_cons in Hj as [-> | Hj]; [by left|].
    apply elem_of_cons in Hj as [-> | Hj]; [by right|]. by apply elem_of_nil in Hj. }
  destruct Hcases as [Hl | Hl].
  - destruct column_type as [|c1 [|c2 [|c3 [|c4 [|c5 rest]]]]]; try discriminate Hl.
    cbn in Hl. injection Hl as H1 H2 H3 H4.
    apply lower_char_inv in H1, H2, H3, H4.
    destruct H1 as [-> | ->], H2 as [-> | ->], H3 as [-> | ->], H4 as [-> | ->];
      vm_compute in Harr; discriminate.
  - destruct column_type as [|c1 [|c2 [|c3 [|c4 [|c5 [|c6 rest]]]]]]; try discriminate Hl.
    cbn in Hl. injection Hl as H1 H2 H3 H4 H5.
    apply lower_char_inv in H1, H2, H3, H4, H5.
    destruct H1 as [-> | ->], H2 as [-> | ->], H3 as [-> | ->], H4 as [-> | ->],
             H5 as [-> | ->]; vm_compute in Harr; discriminate.
Qed.

(** The [try] around one element never lets an exception out: an element
    that does not read as a number of the base type is kept as text. *)
Lemma convert_brace_item_total (base_type item : string) :
  convert_brace_item base_type item
  = Ok (if str_in base_type integer_types then
          match Py.int_of_str item with
          | Some z => PInt z
          | None => PStr (strip_quotes item)
          end
        else if str_in base_type float_types then
          match Py.float_of_str item with
          | Some r => PFloat r
          | None => PStr (strip_quotes item)
          end
        else if str_in base_type boolean_types then
          PBool (str_in (Str.lower item) true_words)
        else PStr (strip_quotes item)).
Proof.
  unfold convert_brace_item, coerce_brace_item.
  destruct (str_in base_type integer_types).
  { cbn. by destruct (Py.int_of_str item). }
  destruct (str_in base_type float_types).
  { cbn. by destruct (Py.float_of_str item). }
  by destruct (str_in base_type boolean_types).
Qed.

Lemma convert_brace_items_total (column_type : string) (items : list string) :
  convert_brace_items column_type items
  = Ok ((fun item =>
           if str_in (base_type_of column_type) integer_types then
             match Py.int_of_str item with
             | Some z => PInt z
             | None => PStr (strip_quotes item)
             end
           else if str_in (base_type_of column_type) float_types then
             match Py.float_of_str item with
             | Some r => PFloat r
             | None => PStr (strip_quotes item)
             end
           else if str_in (base_type_of column_type) boolean_types then
             PBool (str_in (Str.lower item) true_words)
           else PStr (strip_quotes item))
        <$> List.filter (fun item => negb (Str.is_empty item)) (Str.strip <$> items)).
Proof.
  induction items as [|item rest IH]; [done|].
  cbn [convert_brace_items fmap list_fmap List.filter].
  destruct (Str.is_empty (Str.strip item)); cbn [negb]; [exact IH|].
  rewrite convert_brace_item_total, IH. reflexivity.
Qed.

(** X8.  A text between curly braces given for an array column never makes
    the converter raise, whatever the base type: the result is the list
    with one value for each piece between commas that is not blank, in
    order.  For an integer base type the value is the integer the trimmed
    piece reads as, for a float base type the float it reads as, and in both
    cases the piece with surrounding quotes removed when it does not read
    as such a number; for a boolean base type it is the boolean that tells
    whether the piece, in lower case, is one of the five words for true;
    for every other base type it is the piece with surrounding quotes
    removed. *)
Theorem brace_literal_always_converts (column_type text : string) :
  is_array_type column_type = true →
  Str.startswith "{" text = true →
  Str.endswith "}" text = true →
  convert_data_for_insert (PStr text) (Some column_type)
  = Ok (PList
          ((fun item =>
              if str_in (base_type_of column_type) integer_types then
                match Py.int_of_str item with
                | Some z => PInt z
                | None => PStr (strip_quotes item)
                end
              else if str_in (base_type_of column_type) float_types then
                match Py.float_of_str item with
                | Some r => PFloat r
                | None => PStr (strip_quotes item)
                end
              else if str_in (base_type_of column_type) boolean_types then
                PBool (str_in (Str.lower item) true_words)
              else PStr (strip_quotes item))
           <$> List.filter (fun item => negb (Str.is_empty item))
                 (Str.strip <$> Str.split "," (Str.strip (Str.slice_1_m1 text))))).
Proof.
  intros Harr Hopen Hclose.
  unfold convert_data_for_insert. cbn [default from_option id].
  rewrite (array_type_not_json _ Harr), Harr.
  unfold convert_array. rewrite Hopen, Hclose. cbn [andb].
  destruct (Str.strip (Str.slice_1_m1 text)) as [|c inner] eqn:Hinner.
  - reflexivity.
  - cbn [Str.is_empty]. by rewrite convert_brace_items_total.
Qed.

Lemma join_chars (p : ascii → bool) (sep : string) (items : list string) :
  all_chars p sep = true →
  Forall (fun item => all_chars p item = true) items →
  all_chars p (Str.join sep items) = true.
Proof.
  intros Hsep. induction 1 as [|item items Hitem Hall IH]; [done|].
  destruct items as [|item' items]; [done|].
  change (Str.join sep (item :: item' :: items))
    with (item +:+ sep +:+ Str.join sep (item' :: items)).
  by rewrite !all_chars_app, Hitem, Hsep, IH.
Qed.

Lemma brace_text_shape (x : string) :
  Str.startswith "{" ("{" +:+ x +:+ "}") = true
  ∧ Str.endswith "}" ("{" +:+ x +:+ "}") = true
  ∧ Str.slice_1_m1 ("{" +:+ x +:+ "}") = x.
Proof.
  assert (Str.rev (x +:+ "}") = String "}" (Str.rev x)) as Hrev
    by (by rewrite rev_string_app).
  split; [done|]. split.
  - unfold Str.endswith.
    rewrite string_app_cons, string_app_nil_l, (rev_cons "{"%char), Hrev. reflexivity.
  - unfold Str.slice_1_m1. rewrite string_app_cons, string_app_nil_l. cbn [Str.tail].
    rewrite Hrev. cbn [Str.tail]. apply rev_rev.
Qed.

(** X9.  An integer array written as PostgreSQL prints it reads back: for
    an array column whose base type is an integer type, the text of the
    integers [zs] between braces, separated by commas, converts to the list
    of these integers. *)
Theorem integer_array_literal_reads_back (column_type : string) (zs : list Z) :
  is_array_type column_type = true →
  str_in (base_type_of column_type) integer_types = true →
  convert_data_for_insert
    (PStr ("{" +:+ Str.join "," (Str.of_Z <$> zs) +:+ "}")) (Some column_type)
  = Ok (PList (PInt <$> zs)).
Proof.
  intros Harr Hint.
  unfold convert_data_for_insert. cbn [default from_option id].
  rewrite (array_type_not_json _ Harr), Harr. unfold convert_array.
  destruct (brace_text_shape (Str.join "," (Str.of_Z <$> zs))) as (-> & -> & ->).
  cbn [andb].
  assert (Forall (fun item => all_chars numeral_char item = true) (Str.of_Z <$> zs))
    as Hitems.
  { apply Forall_fmap, Forall_forall. intros z _. apply of_Z_chars. }
  assert (∀ item, all_chars numeral_char item = true → Str.strip item = item) as Hstrip.
  { intros item Hitem. apply strip_by_all.
    eapply all_chars_impl; [|exact Hitem]. intros c Hc.
    by destruct (numeral_char_plain c Hc) as (-> & _). }
  assert (Str.strip (Str.join "," (Str.of_Z <$> zs)) = Str.join "," (Str.of_Z <$> zs))
    as ->.
  { apply strip_by_all, join_chars; [done|]. eapply Forall_impl; [exact Hitems|].
    intros item Hitem. eapply all_chars_impl; [|exact Hitem]. intros c Hc.
    by destruct (numeral_char_plain c Hc) as (-> & _). }
  destruct zs as [|z zs]; [done|].
  assert (Str.is_empty (Str.join "," (Str.of_Z <$> z :: zs)) = false) as ->.
  { rewrite fmap_cons. destruct (of_Z_chars z) as [_ Hne].
    destruct (Str.of_Z z) as [|c s]; [done|]. by destruct (Str.of_Z <$> zs). }
  rewrite split_join; [|done|].
  2:{ eapply Forall_impl; [exact Hitems|]. intros item Hitem.
      eapply all_chars_impl; [|exact Hitem]. intros c Hc.
      by destruct (numeral_char_plain c Hc) as (_ & _ & ->). }
  assert (convert_brace_items column_type (Str.of_Z <$> z :: zs)
          = Ok (PInt <$> z :: zs)) as ->; [|done].
  clear Hitems. induction (z :: zs) as [|y ys IH]; [done|].
  rewrite !fmap_cons. cbn [convert_brace_items].
  rewrite Hstrip by apply of_Z_chars.
  destruct (of_Z_chars y) as [_ Hne].
  destruct (Str.of_Z y) as [|c s] eqn:Hy; [done|]. cbn [Str.is_empty]. rewrite <- Hy.
  unfold convert_brace_item, coerce_brace_item. rewrite Hint. cbn [Py.int].
  rewrite int_of_str_of_Z, IH. reflexivity.
Qed.

(** One character written by the JSON encoder reads back as itself. *)
Lemma scanstring_escape_char (c : ascii) (rest acc : string) :
  Json.scanstring (Json.escape_char c +:+ rest) acc
  = Json.scanstring rest (String c acc).
Proof. destruct c as [[] [] [] [] [] [] [] []]; reflexivity. Qed.

Lemma scanstring_escape_chars (s rest acc : string) :
  Json.scanstring (Json.escape_chars s +:+ String Str.dquote rest) acc
  = Ok (Str.rev acc +:+ s, rest).
Proof.
  revert acc. induction s as [|c s IH]; intros acc.
  - rewrite string_app_nil_r. reflexivity.
  - cbn [Json.escape_chars]. rewrite string_app_assoc, scanstring_escape_char, IH.
    by rewrite rev_cons, string_app_assoc.
Qed.

(** Decoding the JSON text of a string gives the string. *)
Lemma loads_encode_str (s : string) : Json.loads (Json.encode_str s) = Ok (PStr s).
Proof.
  unfold Json.loads, Json.encode_str.
  replace (2 * String.length (String Str.dquote
                                (Json.escape_chars s +:+ String Str.dquote EmptyString))
           + 2)%nat
    with (S (S (2 * String.length (String Str.dquote
                                     (Json.escape_chars s +:+ String Str.dquote EmptyString)))))
    by lia.
  change (Json.skip_ws (String Str.dquote ?r)) with (String Str.dquote r).
  cbn [Json.parse_value]. rewrite Ascii.eqb_refl, scanstring_escape_chars. reflexivity.
Qed.

(** X10.  What the converter returns for a text given for a json or jsonb
    column is always a text that decodes as JSON: the text itself when it
    is valid JSON, and else its encoding as a JSON string, which decodes
    back to the text. *)
Theorem json_column_text_is_json (column_type s : string) (r : pyval) :
  str_in (Str.lower column_type) ["json"; "jsonb"] = true →
  convert_data_for_insert (PStr s) (Some column_type) = Ok r →
  ∃ s' v, r = PStr s' ∧ Json.loads s' = Ok v
    ∧ ((s' = s ∧ Json.loads s = Ok v)
       ∨ (s' = Json.encode_str s ∧ v = PStr s ∧ Json.loads s = Raise JSONDecodeError)).
Proof.
  intros Hty. unfold convert_data_for_insert. cbn [default from_option id].
  rewrite Hty. unfold convert_json.
  destruct (Json.loads s) as [v|e] eqn:Hloads.
  - intros [= <-]. exists s, v. eauto.
  - destruct e; cbn; try done. intros [= <-].
    exists (Json.encode_str s), (PStr s). split; [done|].
    split; [apply loads_encode_str|]. right. eauto.
Qed.

End converter_more_facts.

(** ** Reading back what the JSON encoder writes *)

Section json_facts.
Context `{Py.FloatOps}.

Lemma string_length_app (a b : string) :
  String.length (a +:+ b) = (String.length a + String.length b)%nat.
Proof. induction a as [|c a IH]; [done|]. rewrite string_app_cons. cbn. by rewrite IH. Qed.

Lemma span_digits (ds r : string) :
  all_chars Str.isdigit ds = true →
  (match r with String c _ => Str.isdigit c = false | EmptyString => True end) →
  Json.span Str.isdigit (ds +:+ r) = (ds, r).
Proof.
  intros Hds Hr. induction ds as [|d ds IH].
  - rewrite string_app_nil_l. destruct r as [|c r]; [done|]. cbn. by rewrite Hr.
  - rewrite string_app_cons. cbn in Hds |- *. apply andb_true_iff in Hds as [-> Hds].
    by rewrite IH.
Qed.

Lemma follows_not_digit (r : string) :
  follows r → match r with String c _ => Str.isdigit c = false | EmptyString => True end.
Proof. by intros [r' [-> | ->]]. Qed.

Lemma of_N_go_head (fuel : nat) :
  ∀ (n : N) (acc : string),
  fuel ≠ O → Z.of_N n < 2 ^ Z.of_nat fuel → n ≠ 0%N →
  ∃ d r, Str.of_N_go fuel n acc = String d r ∧ Str.in_range 49 57 d = true.
Proof.
  induction fuel as [|fuel IH]; intros n acc Hfuel Hlt Hn; [done|].
  cbn [Str.of_N_go]. destruct (n / 10 =? 0)%N eqn:Hq.
  - apply N.eqb_eq in Hq. eexists _, _. split; [done|].
    assert (n < 10)%N as Hsmall.
    { destruct (N.lt_ge_cases n 10) as [|Hge]; [done|].
      apply (N.Div0.div_le_mono _ _ 10) in Hge. rewrite Hq in Hge.
      change (10 / 10)%N with 1%N in Hge. lia. }
    clear -Hn Hsmall. unfold Str.digit_char.
    destruct n as [|p]; [done|].
    do 4 (try destruct p as [p|p|]); try lia; by vm_compute.
  - apply N.eqb_neq in Hq.
    rewrite Nat2Z.inj_succ, Z.pow_succ_r in Hlt by lia.
    assert (Z.of_N (n / 10) < 2 ^ Z.of_nat fuel) as Hlt'.
    { rewrite N2Z.inj_div. apply Z.div_lt_upper_bound; lia. }
    apply IH; [|done..]. intros ->. change (2 ^ Z.of_nat 0) with 1 in Hlt'.
    clear -Hq Hlt'. destruct (n `div` 10)%N; [done|]. cbn in Hlt'. lia.
Qed.

(** The decimal text of a positive number: a digit that is not zero, then
    digits. *)
Lemma of_N_shape (p : positive) :
  ∃ d ds, Str.of_N (N.pos p) = String d ds
    ∧ Str.in_range 49 57 d = true ∧ all_chars Str.isdigit ds = true.
Proof.
  destruct (of_N_go_head (S (N.size_nat (N.pos p))) (N.pos p) EmptyString)
    as (d & ds & Hs & Hd); [done|apply of_N_fuel|done|].
  exists d, ds. split; [done|]. split; [done|].
  destruct (of_N_chars (N.pos p)) as [Hall _]. unfold Str.of_N in Hall.
  rewrite Hs in Hall. cbn in Hall. by apply andb_true_iff in Hall as [_ ?].
Qed.

Lemma match_number_digits (d : ascii) (ds r : string) :
  Str.in_range 49 57 d = true → all_chars Str.isdigit ds = true → follows r →
  Json.match_number (String d (ds +:+ r)) = Some (String d ds, EmptyString, r)
  ∧ Json.match_number (String "-" (String d (ds +:+ r)))
    = Some (String "-" (String d ds), EmptyString, r).
Proof.
  intros Hd Hds Hr. pose proof (follows_not_digit r Hr) as Hnd.
  pose proof (span_digits ds r Hds Hnd) as Hspan.
  destruct Hr as [r' [-> | ->]];
    destruct d as [[] [] [] [] [] [] [] []]; try discriminate Hd;
    unfold Json.match_number; cbn -[Json.span]; rewrite Hspan; done.
Qed.

Lemma match_number_zero (r : string) :
  follows r → Json.match_number (String "0" r) = Some ("0", EmptyString, r).
Proof. by intros [r' [-> | ->]]. Qed.

Lemma match_number_of_Z (z : Z) (r : string) :
  follows r → Json.match_number (Str.of_Z z +:+ r) = Some (Str.of_Z z, EmptyString, r).
Proof.
  intros Hr. destruct z as [|p|p]; cbn [Str.of_Z].
  - by apply match_number_zero.
  - destruct (of_N_shape p) as (d & ds & -> & Hd & Hds). rewrite string_app_cons.
    by apply match_number_digits.
  - destruct (of_N_shape p) as (d & ds & -> & Hd & Hds).
    rewrite !string_app_cons, string_app_nil_l.
    by apply match_number_digits.
Qed.

(** A text that begins with a number is read as that number. *)
Lemma parse_value_numeral (fuel : nat) (c : ascii) (s ip rp r : string) :
  numeral_char c = true →
  Json.match_number (String c s) = Some (ip, rp, r) →
  Json.parse_value (S fuel) (String c s) = (v ← Json.number_value ip rp; Ok (v, r)).
Proof.
  intros Hc Hm. destruct c as [[] [] [] [] [] [] [] []]; try discriminate Hc;
    cbn [Json.parse_value]; cbn -[Json.match_number Json.number_value];
    by rewrite Hm.
Qed.

Lemma of_Z_head (z : Z) :
  ∃ c s, Str.of_Z z = String c s ∧ numeral_char c = true.
Proof.
  destruct (of_Z_chars z) as [Hall Hne].
  destruct (Str.of_Z z) as [|c s]; [done|]. exists c, s. split; [done|].
  cbn in Hall. by apply andb_true_iff in Hall as [? _].
Qed.

(** The scalars of a checkpoint read back, whatever follows them in an
    object. *)
Lemma parse_value_int (fuel : nat) (z : Z) (r : string) :
  follows r →
  Json.parse_value (S fuel) (Str.of_Z z +:+ r) = Ok (PInt z, r).
Proof.
  intros Hr. pose proof (match_number_of_Z z r Hr) as Hm.
  destruct (of_Z_head z) as (c & s & Hz & Hc). rewrite Hz in Hm |- *.
  rewrite string_app_cons in Hm |- *. rewrite (parse_value_numeral _ _ _ _ _ _ Hc Hm).
  unfold Json.number_value. cbn [Str.is_empty]. rewrite <- Hz, int_of_str_of_Z. done.
Qed.

Lemma parse_value_str (fuel : nat) (s r : string) :
  Json.parse_value (S fuel) (Json.encode_str s +:+ r) = Ok (PStr s, r).
Proof.
  unfold Json.encode_str. rewrite string_app_cons, string_app_assoc.
  cbn [Json.parse_value]. rewrite Ascii.eqb_refl.
  rewrite string_app_cons, string_app_nil_l, scanstring_escape_chars. done.
Qed.

Lemma parse_value_word (fuel : nat) (r : string) :
  Json.parse_value (S fuel) ("null" +:+ r) = Ok (PNone, r)
  ∧ Json.parse_value (S fuel) ("true" +:+ r) = Ok (PBool true, r)
  ∧ Json.parse_value (S fuel) ("false" +:+ r) = Ok (PBool false, r).
Proof. done. Qed.

Lemma skip_ws_start (s : string) : starts_value s = true → Json.skip_ws s = s.
Proof.
  destruct s as [|c s]; [done|]. cbn. intros Hc%negb_true_iff.
  unfold Json.skip_ws. cbn. by rewrite Hc.
Qed.

Lemma skip_ws_spaces (n : nat) (s : string) :
  Json.skip_ws (Json.spaces n +:+ s) = Json.skip_ws s.
Proof. induction n as [|n IH]; [done|]. cbn [Json.spaces]. by rewrite string_app_cons. Qed.

Lemma skip_ws_indent (n : nat) (s : string) :
  Json.skip_ws (Json.newline_indent n +:+ s) = Json.skip_ws s.
Proof.
  unfold Json.newline_indent. rewrite string_app_cons.
  change (Json.skip_ws (String (ascii_of_N 10) ?x)) with (Json.skip_ws x).
  apply skip_ws_spaces.
Qed.

Lemma follows_indent (n : nat) (s : string) : follows (Json.newline_indent n +:+ s).
Proof. eexists. right. unfold Json.newline_indent. by rewrite string_app_cons. Qed.

Lemma starts_value_app (t r : string) :
  starts_value t = true → starts_value (t +:+ r) = true.
Proof. destruct t as [|c t]; [done|]. by rewrite string_app_cons. Qed.

Lemma starts_value_member (k t : string) : starts_value (member_text k t) = true.
Proof. done. Qed.

(** One member of an object, and what comes after it. *)
Lemma parse_member (f G : nat) (k t x : string) (v : pyval)
    (acc : list (string * pyval)) :
  reads_as G t v → (G ≤ f)%nat → follows x →
  Json.parse_members (S f) (member_text k t +:+ x) acc
  = match Json.skip_ws x with
    | String "}" r3 => Ok (PDict (Json.dict_set acc k v), r3)
    | String "," r3 => Json.parse_members f (Json.skip_ws r3) (Json.dict_set acc k v)
    | _ => Raise JSONDecodeError
    end.
Proof.
  intros [Hstart Hreads] Hf Hx.
  unfold member_text, Json.encode_str.
  rewrite !string_app_cons, !string_app_assoc.
  cbn [Json.parse_members].
  rewrite !string_app_cons, string_app_nil_l, scanstring_escape_chars.
  rewrite string_app_nil_l. change (Str.rev EmptyString +:+ k) with k.
  cbn -[Json.skip_ws Json.parse_value Json.parse_members].
  change (Json.skip_ws (String ":" (String " " ?r))) with (String ":" (String " " r)).
  cbn -[Json.skip_ws Json.parse_value Json.parse_members].
  change (Json.skip_ws (String " " ?r)) with (Json.skip_ws r).
  rewrite skip_ws_start by (by apply starts_value_app).
  rewrite Hreads by done. done.
Qed.

Lemma join_cons (sep a : string) (l : list string) :
  l ≠ [] → Str.join sep (a :: l) = a +:+ sep +:+ Str.join sep l.
Proof. by destruct l. Qed.

Lemma join_starts (sep a r : string) (l : list string) :
  starts_value a = true → starts_value (Str.join sep (a :: l) +:+ r) = true.
Proof.
  intros Ha. destruct l as [|b l]; [by apply starts_value_app|].
  rewrite join_cons by done. by do 2 apply starts_value_app.
Qed.

(** The members of an object, joined as the encoder joins them. *)
Lemma parse_members_join (G n_in n_out : nat) (rest : string)
    (members : list (string * string * pyval)) :
  members ≠ [] →
  Forall (fun m => reads_as G m.1.2 m.2) members →
  ∀ (f : nat) (acc : list (string * pyval)),
  (G + length members ≤ f)%nat →
  Json.parse_members f
    (Str.join ("," +:+ Json.newline_indent n_in)
       ((fun m => member_text m.1.1 m.1.2) <$> members)
     +:+ Json.newline_indent n_out +:+ "}" +:+ rest) acc
  = Ok (PDict (foldl (fun a m => Json.dict_set a m.1.1 m.2) acc members), rest).
Proof.
  intros Hne Hall. induction Hall as [|[[k t] v] members Hm Hall IH]; [done|].
  intros f acc Hf. cbn [length] in Hf. destruct f as [|f]; [lia|].
  rewrite (fmap_cons _ (k, t, v)). cbn [fst snd foldl] in Hm |- *.
  destruct members as [|m' members].
  - cbn [fmap list_fmap Str.join foldl].
    rewrite (parse_member f G k t _ v acc Hm); [|lia|apply follows_indent].
    rewrite skip_ws_indent. done.
  - rewrite join_cons by done. rewrite !string_app_assoc.
    rewrite (parse_member f G k t _ v acc Hm);
      [|lia|eexists; left; by rewrite string_app_cons].
    rewrite string_app_cons, string_app_nil_l.
    change (Json.skip_ws (String "," ?r)) with (String "," r).
    cbn match. rewrite skip_ws_indent, skip_ws_start.
    2:{ rewrite (fmap_cons _ m'). by apply join_starts. }
    apply IH; [done|]. cbn [length] in Hf |- *. lia.
Qed.

(** An object as the encoder writes it with an indentation reads back as
    the dictionary of its members. *)
Lemma parse_object (G n_in n_out : nat) (rest : string)
    (members : list (string * string * pyval)) (f : nat) :
  members ≠ [] →
  Forall (fun m => reads_as G m.1.2 m.2) members →
  (G + length members ≤ f)%nat →
  Json.parse_value (S f)
    ("{" +:+ Json.newline_indent n_in
     +:+ Str.join ("," +:+ Json.newline_indent n_in)
           ((fun m => member_text m.1.1 m.1.2) <$> members)
     +:+ Json.newline_indent n_out +:+ "}" +:+ rest)
  = Ok (PDict (foldl (fun a m => Json.dict_set a m.1.1 m.2) [] members), rest).
Proof.
  intros Hne Hall Hf. rewrite string_app_cons, string_app_nil_l.
  cbn [Json.parse_value]. change (Ascii.eqb "{" Str.dquote) with false.
  change (Ascii.eqb "{" "{") with true. cbn match.
  rewrite skip_ws_indent.
  destruct members as [|[[k t] v] members]; [done|].
  rewrite skip_ws_start by (rewrite (fmap_cons _ (k, t, v)); by apply join_starts).
  assert (∃ s, Str.join ("," +:+ Json.newline_indent n_in)
                 ((fun m => member_text m.1.1 m.1.2) <$> (k, t, v) :: members)
               +:+ Json.newline_indent n_out +:+ "}" +:+ rest
               = String Str.dquote s) as [s Hs].
  { rewrite (fmap_cons _ (k, t, v)). destruct (_ <$> members) as [|b l].
    - cbn [Str.join fst snd]. unfold member_text, Json.encode_str.
      rewrite !string_app_cons. by eexists.
    - rewrite join_cons by done. cbn [fst snd]. unfold member_text, Json.encode_str.
      rewrite !string_app_cons. by eexists. }
  rewrite Hs. cbn match. rewrite <- Hs.
  by apply (parse_members_join G).
Qed.

Lemma parse_object_text (G n_in n_out : nat) (rest : string)
    (members : list (string * string * pyval)) (f : nat) :
  members ≠ [] →
  Forall (fun m => reads_as G m.1.2 m.2) members →
  (G + length members ≤ f)%nat →
  Json.parse_value (S f) (object_text n_in n_out members +:+ rest)
  = Ok (PDict (foldl (fun a m => Json.dict_set a m.1.1 m.2) [] members), rest).
Proof.
  intros Hne Hall Hf. unfold object_text. rewrite !string_app_assoc.
  by apply (parse_object G).
Qed.

(** The encoder on a dictionary whose values it writes as the texts of the
    members. *)
Lemma dumps_indent_members (step level : nat) (members : list (string * string * pyval)) :
  members ≠ [] →
  Forall (fun m => Json.dumps_indent step (S level) m.2 = Ok m.1.2) members →
  Json.dumps_indent step level (PDict ((fun m => (m.1.1, m.2)) <$> members))
  = Ok (object_text (step * S level) (step * level) members).
Proof.
  intros Hne Hall.
  assert ((fix go (d : list (string * pyval)) : result (list string) :=
             match d with
             | [] => Ok []
             | kv :: d' =>
                 t ← Json.dumps_indent step (S level) (snd kv); ts ← go d';
                 Ok ((Json.encode_str (fst kv) +:+ ": " +:+ t) :: ts)
             end) ((fun m => (m.1.1, m.2)) <$> members)
          = Ok ((fun m => member_text m.1.1 m.1.2) <$> members)) as Hgo.
  { clear Hne. induction Hall as [|[[k t] v] members Hm Hall IH]; [done|].
    rewrite !fmap_cons. cbn [fst snd] in Hm |- *. rewrite Hm. cbn. rewrite IH. done. }
  destruct members as [|m members]; [done|].
  rewrite fmap_cons in Hgo |- *. cbn [Json.dumps_indent]. rewrite Hgo. done.
Qed.

Lemma progress_text_dumps (p : MigrationProgress) :
  Json.dumps_indent 2 1 (progress_document p) = Ok (progress_text p).
Proof.
  change (progress_document p) with (PDict ((fun m => (m.1.1, m.2)) <$> progress_members p)).
  apply dumps_indent_members; [done|].
  repeat constructor; cbn; by destruct (last_primary_key p), (completed p).
Qed.

(** The text of a checkpoint reads back as the document of the
    checkpoint. *)
Lemma progress_text_reads (p : MigrationProgress) :
  reads_as 7 (progress_text p) (progress_document p).
Proof.
  split; [done|]. intros g r Hg _. destruct g as [|f]; [lia|].
  unfold progress_text. rewrite (parse_object_text 1); [done|done| |cbn; lia].
  assert (∀ g r, (1 ≤ g)%nat → follows r →
            Json.parse_value g ("null" +:+ r) = Ok (PNone, r)
            ∧ Json.parse_value g ("true" +:+ r) = Ok (PBool true, r)
            ∧ Json.parse_value g ("false" +:+ r) = Ok (PBool false, r)) as Hword.
  { intros [|g'] r' Hg' _; [lia|]. apply parse_value_word. }
  repeat constructor; cbn [fst snd]; try done.
  - intros [|g'] r' Hg' _; [lia|]. apply parse_value_str.
  - destruct (of_Z_head (total_rows p)) as (c & s & -> & Hc).
    by destruct c as [[] [] [] [] [] [] [] []].
  - intros [|g'] r' Hg' Hr'; [lia|]. by apply parse_value_int.
  - destruct (of_Z_head (migrated_rows p)) as (c & s & -> & Hc).
    by destruct c as [[] [] [] [] [] [] [] []].
  - intros [|g'] r' Hg' Hr'; [lia|]. by apply parse_value_int.
  - by destruct (last_primary_key p).
  - intros g' r' Hg' Hr'. destruct (last_primary_key p).
    + destruct g'; [lia|]. apply parse_value_str.
    + by apply Hword.
  - by destruct (completed p).
  - intros g' r' Hg' Hr'. destruct (completed p); by apply Hword.
Qed.

Lemma dict_set_fresh (d : list (string * pyval)) (k : string) (v : pyval) :
  k ∉ d.*1 → Json.dict_set d k v = d ++ [(k, v)].
Proof.
  induction d as [|[k' v'] d IH]; [done|]. cbn.
  intros [Hne Hk]%not_elem_of_cons. apply String.eqb_neq in Hne. rewrite Hne.
  by rewrite IH.
Qed.

(** Members with distinct keys are collected in their order. *)
Lemma foldl_dict_set (members : list (string * string * pyval))
    (acc : list (string * pyval)) :
  NoDup (acc.*1 ++ ((fun m => m.1.1) <$> members)) →
  foldl (fun a m => Json.dict_set a m.1.1 m.2) acc members
  = acc ++ ((fun m => (m.1.1, m.2)) <$> members).
Proof.
  revert acc. induction members as [|[[k t] v] members IH]; intros acc Hnd.
  - by rewrite app_nil_r.
  - rewrite fmap_cons in Hnd. cbn [foldl fst snd] in Hnd |- *.
    rewrite dict_set_fresh.
    2:{ apply NoDup_app in Hnd as (_ & Hdisj & _). intros Hk.
        apply (Hdisj k Hk). by left. }
    rewrite IH.
    + by rewrite fmap_cons, <- app_assoc.
    + rewrite fmap_app. cbn. by rewrite <- app_assoc.
Qed.

Lemma join_length (sep : string) (items : list string) (n : nat) :
  Forall (fun item => (n ≤ String.length item)%nat) items →
  (n * length items ≤ String.length (Str.join sep items))%nat.
Proof.
  induction 1 as [|item items Hitem Hall IH]; [cbn; lia|].
  destruct items as [|item' items]; [cbn in *; lia|].
  rewrite join_cons by done. rewrite !string_length_app. cbn [length] in *. lia.
Qed.

Lemma object_text_length (n_in n_out : nat) (members : list (string * string * pyval)) :
  (4 * length members ≤ String.length (object_text n_in n_out members))%nat.
Proof.
  unfold object_text. rewrite !string_length_app.
  pose proof (join_length ("," +:+ Json.newline_indent n_in)
                ((fun m => member_text m.1.1 m.1.2) <$> members) 4) as Hjoin.
  rewrite length_fmap in Hjoin.
  assert (Forall (fun item => (4 ≤ String.length item)%nat)
            ((fun m => member_text m.1.1 m.1.2) <$> members)) as Hall.
  { apply Forall_fmap, Forall_forall. intros [[k t] v] _. cbn.
    unfold member_text, Json.encode_str. rewrite !string_length_app. cbn.
    rewrite string_length_app. cbn. lia. }
  specialize (Hjoin Hall). lia.
Qed.

Lemma data_document_members (m : gmap string MigrationProgress) :
  data_document m = PDict ((fun x => (x.1.1, x.2)) <$> file_members m).
Proof.
  unfold data_document, file_members. by rewrite <- list_fmap_compose.
Qed.

Lemma file_members_keys (m : gmap string MigrationProgress) :
  NoDup ((fun x => x.1.1) <$> file_members m).
Proof.
  unfold file_members. rewrite <- list_fmap_compose.
  apply (NoDup_fst_map_to_list m).
Qed.

(** What [save_progress] writes. *)
Lemma dumps_data_document (m : gmap string MigrationProgress) :
  Json.dumps_indent 2 0 (data_document m)
  = Ok (if decide (m = ∅) then "{}" else object_text 2 0 (file_members m)).
Proof.
  destruct (decide (m = ∅)) as [-> | Hne].
  - unfold data_document. by rewrite map_to_list_empty.
  - rewrite data_document_members. apply (dumps_indent_members 2 0).
    + unfold file_members. intros Hnil%fmap_nil_inv. by apply map_to_list_empty_iff in Hnil.
    + unfold file_members. apply Forall_fmap, Forall_forall. intros [k p] _.
      apply progress_text_dumps.
Qed.

(** The text written for a dictionary of checkpoints decodes as the
    document it was written from. *)
Lemma loads_data_document (m : gmap string MigrationProgress) (text : string) :
  Json.dumps_indent 2 0 (data_document m) = Ok text →
  Json.loads text = Ok (data_document m).
Proof.
  rewrite dumps_data_document. intros [= <-].
  destruct (decide (m = ∅)) as [-> | Hne].
  { unfold data_document. by rewrite map_to_list_empty. }
  assert (file_members m ≠ []) as Hmem.
  { unfold file_members. intros Hnil%fmap_nil_inv. by apply map_to_list_empty_iff in Hnil. }
  unfold Json.loads.
  rewrite skip_ws_start by done.
  pose proof (object_text_length 2 0 (file_members m)) as Hlen.
  assert (0 < length (file_members m))%nat as Hpos.
  { destruct (file_members m); [done|cbn; lia]. }
  replace (2 * String.length (object_text 2 0 (file_members m)) + 2)%nat
    with (S (2 * String.length (object_text 2 0 (file_members m)) + 1)) by lia.
  rewrite <- (string_app_nil_r (object_text 2 0 (file_members m))) at 2.
  rewrite (parse_object_text 7); [|done| |lia].
  2:{ unfold file_members. apply Forall_fmap, Forall_forall. intros [k p] _.
      apply progress_text_reads. }
  cbn. rewrite foldl_dict_set by apply file_members_keys.
  by rewrite data_document_members.
Qed.

Lemma make_progress_document (p : MigrationProgress) :
  make_progress (progress_document p) = Ok (Some p).
Proof. destruct p as [n t m [k|] c]; reflexivity. Qed.

Lemma make_entries_documents (l : list (string * MigrationProgress)) :
  make_entries ((fun tp => (tp.1, progress_document tp.2)) <$> l)
  = Ok ((fun tp => (tp.1, Some tp.2)) <$> l).
Proof.
  induction l as [|[k p] l IH]; [done|].
  rewrite !fmap_cons. cbn [make_entries fst snd].
  rewrite make_progress_document. cbn. by rewrite IH.
Qed.

Lemma entries_map_some (l : list (string * MigrationProgress))
    (acc : gmap string MigrationProgress) :
  foldl (fun acc tp => m ← acc; p ← snd tp; Some (<[fst tp := p]> m)) (Some acc)
    ((fun tp => (tp.1, Some tp.2)) <$> l)
  = Some (foldr (fun tp m => <[tp.1 := tp.2]> m) acc (reverse l)).
Proof.
  revert acc. induction l as [|[k p] l IH]; intros acc; [done|].
  rewrite fmap_cons. cbn [foldl fst snd mbind option_bind].
  rewrite IH, reverse_cons, foldr_app. done.
Qed.

Lemma entries_map_to_list (m : gmap string MigrationProgress) :
  entries_map ((fun tp => (tp.1, Some tp.2)) <$> map_to_list m) = Some m.
Proof.
  unfold entries_map. rewrite entries_map_some. f_equal.
  change (foldr (fun tp m => <[tp.1 := tp.2]> m) ∅ (reverse (map_to_list m)))
    with (list_to_map (M := gmap string MigrationProgress) (reverse (map_to_list m))).
  rewrite <- (list_to_map_to_list m) at 2.
  apply list_to_map_proper; [|apply reverse_Permutation].
  rewrite fmap_reverse. apply (NoDup_Permutation_proper _ _ (reverse_Permutation _)), NoDup_fst_map_to_list.
Qed.

(** The progress file read back: what was written for a dictionary of
    checkpoints loads as that dictionary. *)
Lemma read_written_progress (m : gmap string MigrationProgress) (text : string) :
  Json.dumps_indent 2 0 (data_document m) = Ok text →
  read_progress text = Ok (Some m).
Proof.
  intros Htext. unfold read_progress. rewrite (loads_data_document m text Htext).
  unfold data_document. rewrite make_entries_documents. cbn.
  by rewrite entries_map_to_list.
Qed.

Lemma save_progress_on_file (t : ProgressTracker) : on_file (save_progress t).
Proof.
  unfold on_file, save_progress. rewrite dumps_data_document.
  unfold ProgressTracker_init. cbn [progress_file progress_data _load_progress].
  rewrite (read_written_progress (progress_data t)) by apply dumps_data_document.
  done.
Qed.

Lemma update_progress_on_file (t : ProgressTracker) (table : string)
    (p : MigrationProgress) :
  on_file (update_progress t table p).
Proof. apply save_progress_on_file. Qed.

(** X11.  What [save_progress] writes, [_load_progress] reads: the file
    that a save has written loads as the dictionary of the tracker that
    wrote it, whatever the table names, keys and counts are; so a tracker
    built on the file after [update_progress] answers [get_progress] with
    the checkpoint just given for that table and, for every other table,
    as the tracker did before. *)
Theorem saved_checkpoints_load_back (t : ProgressTracker) (table : string)
    (p : MigrationProgress) :
  _load_progress (progress_file (save_progress t)) = Some (progress_data t)
  ∧ ProgressTracker_init (progress_file (update_progress t table p))
    = Some (update_progress t table p)
  ∧ ∀ name,
      (t' ← ProgressTracker_init (progress_file (update_progress t table p));
       get_progress t' name)
      = if decide (name = table) then Some p else get_progress t name.
Proof.
  split; [|split].
  - unfold save_progress. rewrite dumps_data_document. cbn [progress_file _load_progress].
    by rewrite (read_written_progress (progress_data t)) by apply dumps_data_document.
  - apply update_progress_on_file.
  - intros name. rewrite update_progress_on_file. cbn.
    unfold get_progress. rewrite update_progress_data.
    destruct (decide (name = table)) as [-> | Hne].
    + apply lookup_insert_eq.
    + by apply lookup_insert_ne.
Qed.

End json_facts.

Section tracker_file_facts.
Context `{Py.FloatOps} `{Database}.
Implicit Types (c : call) (st : state) (p : MigrationProgress).

(** Where [advance] ends without an exception it has saved the
    checkpoint. *)
Lemma advance_on_file c (rows : list row) st st' :
  advance c rows st = Next st' ∨ advance c rows st = Break st' →
  on_file (tracker st').
Proof.
  unfold advance.
  match goal with
  | |- context [match ?m with Ok _ => _ | Raise _ => _ end] => destruct m as [st2|e]
  end; [|by intros [|]].
  cbn zeta. intros Hadv.
  assert (st' = log (Sleep 100) (do_update_progress c st2)) as ->.
  { destruct (_ <=? _); [destruct Hadv; congruence|].
    destruct (_ && _); destruct Hadv; congruence. }
  cbn. apply update_progress_on_file.
Qed.

Lemma clean_pass_on_file c (w : conditions) st st' :
  sound_source c → in_step c (progress st) →
  fault_at w = NoFault → next_page c (progress st) ≠ [] →
  loop_body c w st = Continue st' ∨ loop_body c w st = Exit st' →
  on_file (tracker st').
Proof.
  intros Hs Hstep Hw Hne Hbody.
  assert (0 ≤ chunk_size c) as Hchunk.
  { destruct (decide (0 ≤ chunk_size c)); [done|]. exfalso. apply Hne.
    unfold next_page. by replace (Z.to_nat (chunk_size c)) with 0%nat by lia. }
  set (page := next_page c (progress st)) in *.
  assert (Forall (fun r => Forall (fun col => is_Some (dict_get r col)) (arg_columns c)) page)
    as Hcomplete.
  { rewrite Forall_forall. intros r Hr%next_page_elem.
    pose proof (rows_complete c Hs) as Hall. rewrite Forall_forall in Hall. by apply Hall. }
  destruct (advance_moves c page (after_commit c page (sent_row c <$> page) st))
    as (st1 & Hadv & _).
  { intros pk r Hpage Hr.
    pose proof (keys_present c Hs pk Hpage) as Hall. rewrite Forall_forall in Hall.
    apply Hall, (next_page_elem c (progress st)).
    rewrite last_lookup in Hr. by eapply list_elem_of_lookup_2. }
  unfold loop_body in Hbody. rewrite Hw in Hbody.
  rewrite (try_block_clean c st page (sent_row c <$> page)) in Hbody;
    [|by apply query_page|done|by apply convert_rows_complete].
  apply (advance_on_file c page (after_commit c page (sent_row c <$> page) st)).
  destruct (advance c page _) as [s | s | e s]; destruct Hbody as [Hb | Hb];
    try (destruct (rollback_raises w)); simplify_eq; eauto.
  all: by destruct (_ <=? _).
Qed.

(** One pass over a sound source: it leaves the tracker as it was, or with
    its file written from its dictionary. *)
Lemma pass_on_file c (m0 : nat) (w : conditions) st :
  sound_source c → on_track c m0 st →
  ∃ st', on_track c m0 st'
    ∧ (loop_body c w st = Continue st' ∨ loop_body c w st = Exit st'
       ∨ ∃ e, loop_body c w st = Abort e st')
    ∧ (tracker st' = tracker st ∨ on_file (tracker st')).
Proof.
  intros Hs Htrack.
  destruct (pass_effect c m0 w st Hs Htrack)
    as (st' & Htrack' & [(Hw & Hne & Hbody & _)
                        | [(Hbody & _ & _ & _ & _ & _ & _ & Htr)
                          | (_ & _ & _ & _ & _ & Htr & Hbody)]]).
  - exists st'. split; [done|].
    assert (loop_body c w st = Continue st' ∨ loop_body c w st = Exit st') as Hb.
    { rewrite Hbody. destruct (_ <=? _); eauto. }
    split; [destruct Hb; eauto|]. right.
    apply (clean_pass_on_file c w st st' Hs (track_in_step _ _ _ Htrack) Hw Hne Hb).
  - exists st'. eauto 6.
  - exists st'. split; [done|]. split; [|by left].
    destruct Hbody as [(_ & Hb & _) | (_ & e & Hb)]; eauto.
Qed.

Lemma finish_on_file c st : on_file (tracker (finish c st)).
Proof. unfold finish. cbn. apply update_progress_on_file. Qed.

Lemma while_loop_on_file c (m0 : nat) (env : nat → conditions) :
  sound_source c →
  ∀ (fuel i : nat) st,
  on_track c m0 st →
  let st' := final_state (while_loop c env fuel i st) in
  tracker st' = tracker st ∨ on_file (tracker st').
Proof.
  intros Hs fuel. induction fuel as [|fuel IH]; intros i st Htrack.
  - cbn [while_loop]. destruct (_ <? _); cbn [final_state]; [by left|].
    right. apply finish_on_file.
  - cbn [while_loop]. destruct (_ <? _); cbn [final_state];
      [|right; apply finish_on_file].
    destruct (pass_on_file c m0 (env i) st Hs Htrack)
      as (st1 & Htrack1 & [Hb | [Hb | [e Hb]]] & Htr); rewrite Hb; cbn [final_state].
    + destruct (IH (S i) st1 Htrack1) as [Heq | Hfile]; [|by right].
      rewrite Heq. exact Htr.
    + right. apply finish_on_file.
    + exact Htr.
Qed.

(** A call that returns has returned at once, on a completed checkpoint,
    or has ended with [finish]. *)
Lemma while_loop_returned c (env : nat → conditions) (fuel i : nat) st st' :
  while_loop c env fuel i st = Returned st' → ∃ st1, st' = finish c st1.
Proof.
  revert i st. induction fuel as [|fuel IH]; intros i st; cbn [while_loop].
  - destruct (_ <? _); [done|]. intros [= <-]. eauto.
  - destruct (_ <? _); [|intros [= <-]; eauto].
    destruct (loop_body c (env i) st) as [s | s | e s]; [apply IH| |done].
    intros [= <-]. eauto.
Qed.

(** X12.  A call over a sound source, from a checkpoint in step with it and
    a tracker that holds what its file holds, under any conditions and
    stopped after any number of passes: the progress file then holds
    exactly the checkpoints of the tracker, so a new [ProgressTracker] on
    it (a restart) takes up every table where this one stands. *)
Theorem progress_file_follows_tracker c (env : nat → conditions) (fuel : nat)
    (t : ProgressTracker) (db : target_db) :
  sound_source c → in_step c (progress (initial_state c t db)) →
  on_file t →
  let st := final_state (migrate_table_data c env fuel t db) in
  ProgressTracker_init (progress_file (tracker st)) = Some (tracker st)
  ∧ ∀ name, (t' ← ProgressTracker_init (progress_file (tracker st));
             get_progress t' name) = get_progress (tracker st) name.
Proof.
  intros Hs Hstep Hfile st.
  assert (on_file (tracker st)) as Hst; [|split; [done|intros name; by rewrite Hst]].
  unfold st, migrate_table_data.
  destruct (initial_events c t db) as (_ & _ & Ht).
  destruct (completed (progress (initial_state c t db))) eqn:Hopen.
  { cbn [final_state]. by rewrite Ht. }
  pose proof (initial_on_track c t db Hstep Hopen) as Htrack.
  destruct (while_loop_on_file c _ env Hs fuel 0%nat _ Htrack) as [Heq | Hf];
    [|done].
  rewrite Heq, Ht. done.
Qed.

(** X13.  A table whose call has returned is not migrated again after a
    restart: a call for it on a new tracker built on the progress file
    returns at once, with the checkpoint as the first call left it; it
    runs no query and leaves the target as it finds it. *)
Theorem returned_table_is_skipped c (env env2 : nat → conditions) (fuel fuel2 : nat)
    (t t2 : ProgressTracker) (db db2 : target_db) st :
  on_file t →
  migrate_table_data c env fuel t db = Returned st →
  ProgressTracker_init (progress_file (tracker st)) = Some t2 →
  completed (progress st) = true
  ∧ migrate_table_data c env2 fuel2 t2 db2
    = Returned {| progress := progress st; shared := true; tracker := tracker st;
                  target := db2; events := [] |}.
Proof.
  intros Hfile Hret Hinit.
  assert (on_file (tracker st) ∧ completed (progress st) = true
          ∧ get_progress (tracker st) (arg_table_name c) = Some (progress st))
    as (Hst & Hdone & Hget).
  { unfold migrate_table_data in Hret.
    destruct (completed (progress (initial_state c t db))) eqn:Hopen.
    - injection Hret as <-. destruct (initial_events c t db) as (_ & _ & Ht).
      rewrite Ht. split; [done|]. split; [done|].
      unfold initial_state in *. destruct (get_progress t (arg_table_name c)); done.
    - apply while_loop_returned in Hret as (st1 & ->).
      split; [apply finish_on_file|].
      destruct (finish_facts c st1) as (Hp & _ & _ & Hg). rewrite Hp, Hg.
      by destruct (progress st1). }
  unfold on_file in Hst. rewrite Hst in Hinit. injection Hinit as <-.
  split; [done|].
  unfold migrate_table_data, initial_state. rewrite Hget. cbn. by rewrite Hdone.
Qed.

End tracker_file_facts.

Section keyset_facts.
Context `{Py.FloatOps} `{Database}.
Implicit Types (c : call) (st : state) (p : MigrationProgress) (pk : string).

(** The rows a query returns are rows of the table. *)
Lemma run_query_rows (rows : list row) (q : query) (page : list row) (r : row) :
  run_query rows q = Ok page → r ∈ page → r ∈ rows.
Proof.
  destruct q as [pk last limit | ord limit offset]; cbn.
  - destruct (limit <? 0); [done|]. destruct (sql_cast last) as [k|]; [|done].
    intros [= <-] Hr%subseteq_take. apply list_elem_of_In, filter_In in Hr as [Hr _].
    apply list_elem_of_In in Hr. by rewrite order_by_key_perm in Hr.
  - destruct ((limit <? 0) || (offset <? 0)); [done|].
    intros [= <-] Hr%subseteq_take%subseteq_drop.
    destruct ord; [by rewrite order_by_key_perm in Hr|done].
Qed.

(** From a checkpoint that records a key, the query asks for the rows
    after that key. *)
Lemma run_query_after c pk p (k : key) (page : list row) (r : row) :
  paging_key c = Some pk → records_key p k →
  run_query (source_rows c) (next_query c p) = Ok page →
  r ∈ page → strict key_le k (row_key pk r).
Proof.
  intros Hpk (txt & Hlast & Htxt & Hcast). unfold next_query. rewrite Hlast.
  destruct (paging_key_cases c) as [(pk' & Harg & Ht & Hpage) | (_ & Hnone)];
    [|congruence].
  assert (pk' = pk) as -> by congruence.
  rewrite Harg, Htxt, Ht. cbn. destruct (chunk_size c <? 0); [done|].
  rewrite Hcast. intros [= <-] Hr%subseteq_take.
  apply list_elem_of_In, filter_In in Hr as [_ Hr].
  unfold key_after in Hr. by apply bool_decide_eq_true in Hr.
Qed.

(** How [advance] ends: by an exception before the key moves and before a
    save, or with the checkpoint saved, its key the one it had or the one
    of the last row of the page. *)
Lemma advance_trace c (rows : list row) st :
  ∃ st1,
    ((∃ e, advance c rows st = Raised e st1)
     ∧ events st1 = events st
     ∧ last_primary_key (progress st1) = last_primary_key (progress st))
    ∨ ((advance c rows st = Next st1 ∨ advance c rows st = Break st1)
       ∧ events st1 = events st ++ [Save (progress st1); Sleep 100]
       ∧ (last_primary_key (progress st1) = last_primary_key (progress st)
          ∨ ∃ pk r v, paging_key c = Some pk ∧ last rows = Some r
                      ∧ dict_get r pk = Some v
                      ∧ last_primary_key (progress st1) = Some (Py.str v))).
Proof.
  unfold advance.
  assert (∀ st2, events st2 = events st →
            (last_primary_key (progress st2) = last_primary_key (progress st)
             ∨ ∃ pk r v, paging_key c = Some pk ∧ last rows = Some r
                         ∧ dict_get r pk = Some v
                         ∧ last_primary_key (progress st2) = Some (Py.str v)) →
          ∃ st1,
            ((∃ e, (let st3 := log (Sleep 100) (do_update_progress c st2) in
                    if arg_total_rows c <=? migrated_rows (progress st3) then Break st3
                    else if (Z.of_nat (length rows) <? chunk_size c)
                            && (arg_total_rows c <=? migrated_rows (progress st3))
                    then Break st3 else Next st3) = Raised e st1)
             ∧ events st1 = events st
             ∧ last_primary_key (progress st1) = last_primary_key (progress st))
            ∨ (((let st3 := log (Sleep 100) (do_update_progress c st2) in
                 if arg_total_rows c <=? migrated_rows (progress st3) then Break st3
                 else if (Z.of_nat (length rows) <? chunk_size c)
                         && (arg_total_rows c <=? migrated_rows (progress st3))
                 then Break st3 else Next st3) = Next st1
                ∨ (let st3 := log (Sleep 100) (do_update_progress c st2) in
                   if arg_total_rows c <=? migrated_rows (progress st3) then Break st3
                   else if (Z.of_nat (length rows) <? chunk_size c)
                           && (arg_total_rows c <=? migrated_rows (progress st3))
                   then Break st3 else Next st3) = Break st1)
               ∧ events st1 = events st ++ [Save (progress st1); Sleep 100]
               ∧ (last_primary_key (progress st1) = last_primary_key (progress st)
                  ∨ ∃ pk r v, paging_key c = Some pk ∧ last rows = Some r
                              ∧ dict_get r pk = Some v
                              ∧ last_primary_key (progress st1) = Some (Py.str v)))) as Hend.
  { intros st2 He Hkey. exists (log (Sleep 100) (do_update_progress c st2)). right.
    cbn zeta. split.
    - destruct (_ <=? _); [by right|]. destruct (_ && _); [by right|by left].
    - cbn [log do_update_progress progress events]. rewrite He, <- app_assoc.
      split; [done|exact Hkey]. }
  destruct (paging_key_cases c) as [(pk & Hpk & Ht & Hpage) | (Ht & Hpage)].
  - rewrite Hpk. destruct (last rows) as [r|] eqn:Hr.
    + rewrite Ht. unfold row_get. destruct (dict_get r pk) as [v|] eqn:Hv.
      * apply Hend; [done|]. right. exists pk, r, v. by destruct (shared st).
      * eexists. left. split; [by eexists|]. by destruct (shared st).
    + apply Hend; [done|]. left. by destruct (shared st).
  - destruct (arg_primary_key c) as [pk|] eqn:Hpk.
    + destruct (last rows) as [r|] eqn:Hr.
      * rewrite Ht. apply Hend; [done|]. left. by destruct (shared st).
      * apply Hend; [done|]. left. by destruct (shared st).
    + apply Hend; [done|]. left. by destruct (shared st).
Qed.

(** The trace of one pass: the pages it fetches are answers to the query of
    the checkpoint it starts from; it saves nothing and leaves the key, or
    it ends with one save of the checkpoint it leaves. *)
Lemma pass_trace c (w : conditions) st :
  ∃ st' evs,
    (loop_body c w st = Continue st' ∨ loop_body c w st = Exit st'
     ∨ ∃ e, loop_body c w st = Abort e st')
    ∧ events st' = events st ++ evs
    ∧ (∀ page, page ∈ pages evs →
         run_query (source_rows c) (next_query c (progress st)) = Ok page)
    ∧ ((saves evs = []
        ∧ last_primary_key (progress st') = last_primary_key (progress st))
       ∨ (∃ evsA page, evs = evsA ++ [Save (progress st'); Sleep 100]
            ∧ saves evsA = []
            ∧ run_query (source_rows c) (next_query c (progress st)) = Ok page
            ∧ (last_primary_key (progress st') = last_primary_key (progress st)
               ∨ ∃ pk r v, paging_key c = Some pk ∧ last page = Some r
                           ∧ dict_get r pk = Some v
                           ∧ last_primary_key (progress st') = Some (Py.str v)))).
Proof.
  destruct (pass_cases c w st)
    as [(st' & evs & Hbody & Hp & _ & _ & He & _ & Hsaves & Hfetch)
       | (Hw & r & rows & tuples & Hq & Hconv)].
  - exists st', evs. split; [done|]. split; [done|]. split.
    + destruct Hfetch as [-> | (page & Hq & ->)]; [by intros page Hin%elem_of_nil|].
      by intros page' ->%list_elem_of_singleton.
    + left. by rewrite Hp.
  - unfold loop_body. rewrite Hw.
    rewrite (try_block_clean c st (r :: rows) tuples Hq ltac:(done) Hconv).
    set (st0 := after_commit c (r :: rows) tuples st).
    assert (events st0
            = events st ++ [Fetch (next_query c (progress st)) (r :: rows);
                            ExecuteBatch (override_clause c) tuples; Commit]) as He0.
    { unfold st0, after_commit. cbn. by rewrite <- !app_assoc. }
    assert (progress st0 = progress st) as Hp0 by done.
    destruct (advance_trace c (r :: rows) st0)
      as (st1 & [([e Hadv] & He & Hk) | (Hadv & He & Hk)]).
    + rewrite Hadv. rewrite He0 in He. rewrite Hp0 in Hk.
      destruct (rollback_raises w).
      * eexists _, _. split; [right; right; by eexists|].
        split; [cbn; by rewrite He, <- app_assoc|]. split.
        -- intros page. cbn. by intros ->%list_elem_of_singleton.
        -- left. done.
      * eexists _, _. split; [by left|].
        split; [cbn; by rewrite He, <- !app_assoc|]. split.
        -- intros page. cbn. by intros ->%list_elem_of_singleton.
        -- left. done.
    + rewrite He0, <- app_assoc in He. rewrite Hp0 in Hk.
      exists st1, ([Fetch (next_query c (progress st)) (r :: rows);
                    ExecuteBatch (override_clause c) tuples; Commit]
                   ++ [Save (progress st1); Sleep 100]).
      split; [destruct Hadv as [-> | ->]; eauto|]. split; [done|]. split.
      * intros page. cbn. by intros ->%list_elem_of_singleton.
      * right. eexists _, (r :: rows). split; [done|]. done.
Qed.

Lemma records_key_same p p' (k : key) :
  last_primary_key p' = last_primary_key p → records_key p k → records_key p' k.
Proof. intros Heq (txt & Hlast & Hrest). exists txt. by rewrite Heq. Qed.

Section never_back_facts.
Variables (c : call) (pk : string) (pre : list event).
Hypothesis Hpk : paging_key c = Some pk.
Hypothesis Hkeys : keys_print c pk.

Lemma never_back_app (evs evs' : list event) (bound : key → Prop) :
  never_back pk evs →
  (∀ p k, p ∈ saves evs → records_key p k → bound k) →
  (∀ k page r, bound k → page ∈ pages evs' → r ∈ page →
     strict key_le k (row_key pk r)) →
  never_back pk evs' →
  never_back pk (evs ++ evs').
Proof.
  intros Hold Hsaved Hnew Hown evs1 evs2 p k Hsplit Hrec page r Hpage Hr.
  apply app_eq_app in Hsplit as [l [[-> Hl] | [-> Hl]]].
  - destruct l as [|e l].
    + rewrite app_nil_l in Hl. by eapply (Hown [] evs2 p k).
    + injection Hl as <- ->. rewrite pages_app in Hpage.
      apply elem_of_app in Hpage as [Hpage | Hpage].
      * by eapply (Hold evs1 l p k).
      * eapply Hnew; [|done..]. eapply Hsaved; [|done].
        rewrite saves_app. apply elem_of_app. right. cbn. by left.
  - by eapply (Hown l evs2 p k).
Qed.

Lemma pass_keeps_ahead (w : conditions) st st' :
  keeps_ahead pk pre st →
  (loop_body c w st = Continue st' ∨ loop_body c w st = Exit st'
   ∨ ∃ e, loop_body c w st = Abort e st') →
  keeps_ahead pk pre st'.
Proof.
  intros [Hback Hsaved] Hbody.
  destruct (pass_trace c w st) as (st1 & evs & Hbody1 & He & Hpages & Hkind).
  assert (st' = st1) as ->.
  { destruct Hbody as [Hb | [Hb | [e Hb]]], Hbody1 as [Hb1 | [Hb1 | [e1 Hb1]]];
      rewrite Hb in Hb1; by simplify_eq. }
  assert (∀ k page r, (∃ k', records_key (progress st) k' ∧ key_le k k') →
            page ∈ pages evs → r ∈ page → strict key_le k (row_key pk r)) as Hnew.
  { intros k page r (k' & Hrec & Hle) Hpage Hr.
    eapply strict_trans_r; [exact Hle|].
    eapply run_query_after; [exact Hpk|exact Hrec|by apply Hpages|done]. }
  assert (∀ k, (∃ k', records_key (progress st) k' ∧ key_le k k') →
            ∃ k', records_key (progress st1) k' ∧ key_le k k') as Hgrow.
  { intros k (k' & Hrec & Hle).
    destruct Hkind as [[_ Hk] | (evsA & page & _ & _ & Hq & [Hk | Hk])].
    - exists k'. split; [by eapply records_key_same|done].
    - exists k'. split; [by eapply records_key_same|done].
    - destruct Hk as (pk' & r & v & Hpk' & Hr & Hv & Hlast).
      assert (pk' = pk) as -> by congruence.
      assert (r ∈ page) as Hin.
      { rewrite last_lookup in Hr. by eapply list_elem_of_lookup_2. }
      pose proof (run_query_rows _ _ _ _ Hq Hin) as Hsrc.
      unfold keys_print in Hkeys. rewrite Forall_forall in Hkeys.
      destruct (Hkeys r Hsrc v Hv) as [Htruthy Hcast].
      exists (sql_key v). split; [by exists (Py.str v)|].
      trans k'; [done|].
      pose proof (run_query_after c pk (progress st) k' page r Hpk Hrec Hq Hin) as Hlt.
      unfold row_key in Hlt. rewrite Hv in Hlt. by apply strict_include. }
  split.
  - rewrite He, app_assoc.
    apply (never_back_app _ _
             (fun k => ∃ k', records_key (progress st) k' ∧ key_le k k'));
      [done|done|done|].
    destruct Hkind as [[Hsv _] | (evsA & page & -> & Hsv & _)].
    + intros evs1 evs2 p k ->. exfalso.
      rewrite saves_app in Hsv. cbn in Hsv. by destruct (saves evs1).
    + intros evs1 evs2 p k Hsplit _ page' r Hpage'.
      assert (evs2 = [Sleep 100]) as ->; [|by apply elem_of_nil in Hpage'].
      apply app_eq_app in Hsplit as [l [[-> Hl] | [-> Hl]]].
      * destruct l as [|e l]; [by injection Hl as _ ->|].
        injection Hl as <- ->. rewrite saves_app in Hsv. cbn in Hsv.
        by destruct (saves evs1).
      * destruct l as [|e [|e' l]]; simplify_eq/=; try done.
        by destruct l.
  - intros p k Hp Hrec. rewrite He, app_assoc, saves_app in Hp.
    apply elem_of_app in Hp as [Hp | Hp]; [by eapply Hgrow, Hsaved|].
    destruct Hkind as [[Hsv _] | (evsA & page & -> & Hsv & _)].
    + rewrite Hsv in Hp. by apply elem_of_nil in Hp.
    + rewrite saves_app, Hsv in Hp. cbn in Hp.
      apply list_elem_of_singleton in Hp as ->. by exists k.
Qed.

Lemma finish_keeps_ahead st : keeps_ahead pk pre st → never_back pk (pre ++ events (finish c st)).
Proof.
  intros [Hback Hsaved].
  destruct (finish_facts c st) as (_ & _ & -> & _). rewrite app_assoc.
  apply (never_back_app _ _ (fun _ => True)); [done|done| |].
  - intros k page r _ Hpage. by apply elem_of_nil in Hpage.
  - intros evs1 evs2 p k Hsplit _ page r Hpage.
    destruct evs1 as [|e [|e' evs1]]; simplify_eq/=.
    by apply elem_of_nil in Hpage.
Qed.

Lemma while_loop_keeps_ahead (env : nat → conditions) (fuel i : nat) st :
  keeps_ahead pk pre st →
  never_back pk (pre ++ events (final_state (while_loop c env fuel i st))).
Proof.
  revert i st. induction fuel as [|fuel IH]; intros i st Hinv.
  - cbn [while_loop]. destruct (_ <? _); cbn [final_state];
      [apply Hinv|by apply finish_keeps_ahead].
  - cbn [while_loop]. destruct (_ <? _); cbn [final_state];
      [|by apply finish_keeps_ahead].
    pose proof (pass_keeps_ahead (env i) st) as Hpass.
    destruct (loop_body c (env i) st) as [s | s | e s]; cbn [final_state].
    + apply IH, Hpass; eauto.
    + apply finish_keeps_ahead, Hpass; eauto.
    + apply Hpass; [done|]. right; right. by exists e.
Qed.

End never_back_facts.

(** X14.  Paging on a key never goes back, whatever the faults and also
    when the key is not unique: once a checkpoint that records the key [k]
    was saved, and likewise from the checkpoint the call starts with, no
    page fetched later in the call holds a row whose key is [k] or before
    it.  So the rows that share the key of the last row of a page that was
    transferred, and were not in that page, are not fetched again. *)
Theorem pages_never_go_back c (pk : string) (env : nat → conditions) (fuel : nat)
    (t : ProgressTracker) (db : target_db) :
  paging_key c = Some pk → keys_print c pk →
  let st := final_state (migrate_table_data c env fuel t db) in
  (∀ k page r, records_key (progress (initial_state c t db)) k →
     page ∈ pages (events st) → r ∈ page → strict key_le k (row_key pk r))
  ∧ ∀ evs1 evs2 p k page r,
      events st = evs1 ++ Save p :: evs2 → records_key p k →
      page ∈ pages evs2 → r ∈ page → strict key_le k (row_key pk r).
Proof.
  intros Hpk Hkeys st.
  set (p0 := progress (initial_state c t db)).
  assert (never_back pk ([Save p0] ++ events st)) as Hback.
  { unfold st, migrate_table_data. fold p0.
    destruct (initial_events c t db) as (He & _).
    assert (keeps_ahead pk [Save p0] (initial_state c t db)) as Hinit.
    { split; rewrite He.
      - intros evs1 evs2 p k Hsplit _ page r Hpage.
        destruct evs1 as [|e [|e' evs1]]; simplify_eq/=.
        by apply elem_of_nil in Hpage.
      - intros p k Hp Hrec. cbn in Hp. apply list_elem_of_singleton in Hp as ->.
        by exists k. }
    destruct (completed p0); cbn [final_state]; [apply Hinit|].
    by apply while_loop_keeps_ahead. }
  split.
  - intros k page r Hrec. by apply (Hback [] (events st) p0 k).
  - intros evs1 evs2 p k page r Hsplit Hrec.
    apply (Hback (Save p0 :: evs1) evs2 p k); [by rewrite Hsplit|done].
Qed.

End keyset_facts.

Section strip_facts.
Implicit Types (p : ascii → bool) (s a b : string).

Lemma string_length_rev s : String.length (Str.rev s) = String.length s.
Proof.
  induction s as [|c s IH]; [done|].
  rewrite rev_cons, string_length_app. cbn. lia.
Qed.

Lemma lstrip_by_length p s : (String.length (Str.lstrip_by p s) ≤ String.length s)%nat.
Proof. induction s as [|c s IH]; cbn; [lia|]. destruct (p c); cbn; lia. Qed.

Lemma lstrip_by_app_all p a s :
  all_chars p a = true → Str.lstrip_by p (a +:+ s) = Str.lstrip_by p s.
Proof.
  induction a as [|c a IH]; [by rewrite string_app_nil_l|].
  cbn. intros [Hc Ha]%andb_prop. rewrite string_app_cons. cbn. rewrite Hc. auto.
Qed.

Lemma lstrip_by_all_empty p a :
  all_chars p a = true → Str.lstrip_by p a = EmptyString.
Proof.
  intros Ha. rewrite <- (string_app_nil_r a). by rewrite lstrip_by_app_all.
Qed.

Lemma lstrip_by_app p a b :
  Str.lstrip_by p (a +:+ b)
  = if Str.is_empty (Str.lstrip_by p a) then Str.lstrip_by p b
    else Str.lstrip_by p a +:+ b.
Proof.
  induction a as [|c a IH]; [by rewrite string_app_nil_l|].
  rewrite string_app_cons. cbn. destruct (p c); [done|]. cbn.
  by rewrite string_app_cons.
Qed.

Lemma rstrip_by_app_all p s a :
  all_chars p a = true → rstrip_by p (s +:+ a) = rstrip_by p s.
Proof.
  intros Ha. unfold rstrip_by.
  by rewrite rev_string_app, lstrip_by_app_all by (by rewrite all_chars_rev).
Qed.

Lemma rstrip_by_all_empty p a : all_chars p a = true → rstrip_by p a = EmptyString.
Proof.
  intros Ha. unfold rstrip_by. by rewrite lstrip_by_all_empty by (by rewrite all_chars_rev).
Qed.

Lemma rstrip_by_app_solid p a b : ends_solid p b → rstrip_by p (a +:+ b) = a +:+ b.
Proof.
  intros (c & s' & Hrev & Hc). unfold rstrip_by.
  rewrite rev_string_app, Hrev, string_app_cons. cbn [Str.lstrip_by]. rewrite Hc.
  by rewrite <- string_app_cons, <- Hrev, <- rev_string_app, rev_rev.
Qed.

Lemma rstrip_by_solid p b : ends_solid p b → rstrip_by p b = b.
Proof.
  intros Hb. rewrite <- (string_app_nil_l b) at 1.
  rewrite (rstrip_by_app_solid p EmptyString b Hb). apply string_app_nil_l.
Qed.

Lemma rstrip_by_app_after p a b : ends_solid p a → rstrip_by p (a +:+ b) = a +:+ rstrip_by p b.
Proof.
  intros (c & s' & Hrev & Hc). unfold rstrip_by.
  rewrite rev_string_app, lstrip_by_app.
  destruct (Str.is_empty (Str.lstrip_by p (Str.rev b))) eqn:He.
  - destruct (Str.lstrip_by p (Str.rev b)); [|done].
    rewrite Hrev. cbn [Str.lstrip_by]. rewrite Hc.
    by rewrite <- Hrev, rev_rev, string_app_nil_r.
  - by rewrite rev_string_app, rev_rev.
Qed.

Lemma strip_by_unfold p s : Str.strip_by p s = rstrip_by p (Str.lstrip_by p s).
Proof. reflexivity. Qed.

(** Stripping takes away what stands around a text and can be stripped. *)
Lemma strip_by_pad p a s b :
  all_chars p a = true → all_chars p b = true →
  Str.strip_by p (a +:+ s +:+ b) = Str.strip_by p s.
Proof.
  intros Ha Hb. rewrite !strip_by_unfold, lstrip_by_app_all by done.
  rewrite lstrip_by_app.
  destruct (Str.lstrip_by p s) as [|c s']; cbn [Str.is_empty].
  - rewrite lstrip_by_all_empty by done. done.
  - by rewrite rstrip_by_app_all.
Qed.

(** A text that stripping leaves as it is, and that is not empty, begins
    and ends with characters that are not stripped. *)
Lemma strip_fixed_ends p s :
  Str.strip_by p s = s → s ≠ EmptyString →
  (∃ c s', s = String c s' ∧ p c = false) ∧ ends_solid p s.
Proof.
  intros Hfix Hne.
  assert (String.length (Str.lstrip_by p s) = String.length s) as Hl.
  { pose proof (lstrip_by_length p s).
    pose proof (lstrip_by_length p (Str.rev (Str.lstrip_by p s))) as Hr.
    rewrite string_length_rev in Hr.
    assert (String.length (Str.strip_by p s) = String.length s) as Hs by (by rewrite Hfix).
    unfold Str.strip_by in Hs. rewrite string_length_rev in Hs. lia. }
  assert (∀ x, x ≠ EmptyString → String.length (Str.lstrip_by p x) = String.length x →
            ∃ c x', x = String c x' ∧ p c = false) as Hhead.
  { intros [|c x'] Hx Hlen; [done|]. exists c, x'. split; [done|].
    cbn in Hlen. destruct (p c); [|done].
    pose proof (lstrip_by_length p x'). lia. }
  destruct (Hhead s Hne Hl) as (c & s' & Hs & Hc). split; [eauto|].
  assert (Str.lstrip_by p s = s) as Hls by (rewrite Hs; cbn; by rewrite Hc).
  unfold Str.strip_by in Hfix. rewrite Hls in Hfix.
  apply (Hhead (Str.rev s)).
  - intros Hrev. apply Hne. by rewrite <- (rev_rev s), Hrev.
  - rewrite <- (string_length_rev (Str.lstrip_by p (Str.rev s))), Hfix.
    by rewrite string_length_rev.
Qed.

Lemma ends_solid_app p a b : ends_solid p b → ends_solid p (a +:+ b).
Proof.
  intros (c & s' & Hrev & Hc). exists c, (s' +:+ Str.rev a).
  by rewrite rev_string_app, Hrev, string_app_cons.
Qed.

End strip_facts.

Section config_facts.
Implicit Types (s a b : string) (d : gmap string string).

Lemma blank_space (ch : ascii) :
  blank ch = true →
  Str.isspace ch = true ∧ no_break ch = true ∧ Ascii.eqb ch "="%char = false.
Proof.
  unfold blank, no_break. intros [[Hs Hn]%andb_prop Hr]%andb_prop.
  split; [done|]. split; [by rewrite Hn, Hr|].
  destruct (Ascii.eqb_spec ch "="%char) as [-> |]; done.
Qed.

Lemma blanks_space a :
  all_chars blank a = true →
  all_chars Str.isspace a = true ∧ all_chars no_break a = true
  ∧ all_chars (fun ch => negb (Ascii.eqb ch "="%char)) a = true.
Proof.
  intros Ha. repeat split; (eapply all_chars_impl; [|exact Ha]);
    intros ch Hch; destruct (blank_space ch Hch) as (? & ? & Heq); [done|done|].
  by rewrite Heq.
Qed.

Lemma contains_sign a b : Str.contains "=" (a +:+ String "="%char b) = true.
Proof.
  induction a as [|ch a IH].
  - by rewrite string_app_nil_l.
  - rewrite string_app_cons. cbn [Str.contains]. rewrite IH. apply orb_true_r.
Qed.

Lemma split_once_go_app (sep : ascii) a b (cur : string) :
  all_chars (fun ch => negb (Ascii.eqb ch sep)) a = true →
  split_once_go sep cur (a +:+ String sep b) = [Str.rev cur +:+ a; b].
Proof.
  revert cur. induction a as [|ch a IH]; intros cur.
  - intros _. rewrite string_app_nil_l, string_app_nil_r. cbn.
    by rewrite Ascii.eqb_refl.
  - cbn [all_chars]. intros [Hch Ha]%andb_prop. apply negb_true_iff in Hch.
    rewrite string_app_cons. cbn [split_once_go]. rewrite Hch, IH by done.
    by rewrite rev_cons, string_app_assoc, string_app_cons, string_app_nil_l.
Qed.

(** A text that holds the separator splits in two. *)
Lemma split_once_go_two (sep : ascii) s (cur : string) :
  Str.contains (String sep EmptyString) s = true →
  ∃ k v, split_once_go sep cur s = [k; v].
Proof.
  revert cur. induction s as [|ch s IH]; intros cur; [done|].
  cbn [Str.contains Str.startswith split_once_go]. rewrite andb_true_r.
  rewrite (Ascii.eqb_sym sep ch). destruct (Ascii.eqb ch sep); [eauto|].
  cbn [orb]. apply IH.
Qed.

(** No line of a text makes the loop over the lines raise. *)
Lemma parse_config_line_total d (line : string) :
  ∃ d', parse_config_line d line = Ok d'.
Proof.
  unfold parse_config_line.
  destruct (_ || _); [eauto|].
  destruct (Str.contains "=" (Str.strip line)) eqn:Hc; [|eauto].
  destruct (split_once_go_two "="%char (Str.strip line) EmptyString Hc) as (k & v & Hkv).
  unfold split_once. rewrite Hkv. eauto.
Qed.

Lemma parse_config_lines_total d (lines : list string) :
  ∃ d', parse_config_lines d lines = Ok d'.
Proof.
  revert d. induction lines as [|line lines IH]; intros d; [by eexists|].
  cbn [parse_config_lines].
  destruct (parse_config_line_total d line) as (d1 & ->). cbn. apply IH.
Qed.

Lemma lines_go_app (l rest cur : string) :
  all_chars no_break l = true →
  lines_go cur (l +:+ rest) = lines_go (Str.rev_app l cur) rest.
Proof.
  revert cur. induction l as [|ch l IH]; intros cur; [by rewrite string_app_nil_l|].
  cbn [all_chars]. intros [Hch Hl]%andb_prop.
  unfold no_break in Hch. apply andb_prop in Hch as [Hn Hr].
  apply negb_true_iff in Hn, Hr.
  rewrite string_app_cons. cbn [lines_go Str.rev_app]. rewrite Hn, Hr. by apply IH.
Qed.

Lemma lines_go_ending (ending rest cur : string) :
  line_ending ending = true →
  (ending = String carriage_return EmptyString → no_feed_first rest) →
  lines_go cur (ending +:+ rest)
  = Str.rev (String newline cur) :: lines_go EmptyString rest.
Proof.
  unfold line_ending. intros [[He | He]%orb_prop | He]%orb_prop Hrest;
    apply String.eqb_eq in He as ->.
  - by rewrite string_app_cons, string_app_nil_l.
  - specialize (Hrest eq_refl). rewrite string_app_cons, string_app_nil_l.
    cbn [lines_go]. destruct rest as [|ch rest]; [done|].
    cbn in Hrest. cbn. by rewrite Hrest.
  - by rewrite !string_app_cons, string_app_nil_l.
Qed.

Lemma file_text_first (ending : string) (doc : list config_line) :
  Forall (fun l => all_chars no_break (line_text l) = true) doc →
  ending = String carriage_return EmptyString →
  no_feed_first (file_text ending doc).
Proof.
  intros Hdoc ->. destruct Hdoc as [|l doc Hl _]; [done|].
  cbn [file_text foldr]. destruct (line_text l) as [|ch s].
  - by rewrite string_app_nil_l, string_app_cons.
  - rewrite string_app_cons. cbn in *. apply andb_prop in Hl as [Hch _].
    unfold no_break in Hch. apply andb_prop in Hch as [Hn _].
    by apply negb_true_iff in Hn.
Qed.

(** The lines of a file written line by line. *)
Lemma file_lines_text (ending : string) (doc : list config_line) :
  line_ending ending = true →
  Forall (fun l => all_chars no_break (line_text l) = true) doc →
  file_lines (file_text ending doc)
  = (fun l => line_text l +:+ String newline EmptyString) <$> doc.
Proof.
  intros He Hdoc. unfold file_lines.
  induction Hdoc as [|l doc Hl Hdoc IH]; [done|].
  cbn [file_text foldr]. rewrite fmap_cons.
  rewrite lines_go_app by done.
  rewrite lines_go_ending; [|done|by apply file_text_first].
  fold (file_text ending doc). rewrite IH. f_equal.
  change (Str.rev_app (line_text l) EmptyString) with (Str.rev (line_text l)).
  by rewrite rev_cons, rev_rev.
Qed.

Lemma strip_line_end (text : string) :
  Str.strip (text +:+ String newline EmptyString) = Str.strip text.
Proof.
  rewrite <- (string_app_nil_l (text +:+ _)). by apply strip_by_pad.
Qed.

(** A line that assigns nothing leaves the dictionary as it is. *)
Lemma parse_config_line_remark d (text : string) :
  well_formed (Remark text) = true →
  parse_config_line d (text +:+ String newline EmptyString) = Ok d.
Proof.
  cbn [well_formed]. intros [_ Hkind]%andb_prop.
  unfold parse_config_line. rewrite strip_line_end.
  destruct (Str.is_empty (Str.strip text) || Str.startswith ";" (Str.strip text)
            || Str.startswith "#" (Str.strip text)); [done|].
  cbn [orb] in Hkind. apply negb_true_iff in Hkind. by rewrite Hkind.
Qed.

Lemma quote_mark_chars (quoted : bool) :
  all_chars is_dquote (quote_mark quoted) = true
  ∧ all_chars no_break (quote_mark quoted) = true.
Proof. by destruct quoted. Qed.

(** The part of an assignment right of the sign, as the loop reads it. *)
Lemma value_read (after_sign value trailing : string) (quoted : bool) :
  all_chars blank after_sign = true → value_text quoted value = true →
  all_chars blank trailing = true →
  Str.strip_chars (String Str.dquote EmptyString)
    (Str.strip
       (rstrip_by Str.isspace
          (after_sign +:+ quote_mark quoted +:+ value +:+ quote_mark quoted
           +:+ trailing +:+ String newline EmptyString)))
  = value.
Proof.
  intros [Ha _]%blanks_space Hv [Ht _]%blanks_space.
  unfold value_text in Hv.
  apply andb_prop in Hv as [[_ Hq%String.eqb_eq]%andb_prop Hs].
  set (Z := quote_mark quoted +:+ value +:+ quote_mark quoted).
  assert (after_sign +:+ quote_mark quoted +:+ value +:+ quote_mark quoted
          +:+ trailing +:+ String newline EmptyString
          = (after_sign +:+ Z) +:+ (trailing +:+ String newline EmptyString)) as ->.
  { unfold Z. by rewrite !string_app_assoc. }
  rewrite rstrip_by_app_all
    by (rewrite all_chars_app, Ht; done).
  assert (Str.strip_chars (String Str.dquote EmptyString) (Str.strip Z) = value
          ∧ (Z = EmptyString ∨ ends_solid Str.isspace Z)) as [Hread Hend].
  { unfold Z. destruct quoted; cbn [quote_mark orb] in *.
    - assert (ends_solid Str.isspace
                (String Str.dquote EmptyString +:+ value +:+ String Str.dquote EmptyString))
        as Hsolid.
      { rewrite <- string_app_assoc. apply ends_solid_app. by exists Str.dquote, EmptyString. }
      split; [|by right].
      unfold Str.strip. rewrite strip_by_unfold. rewrite string_app_cons at 1.
      cbn [Str.lstrip_by]. change (Str.isspace Str.dquote) with false. cbn match.
      rewrite <- string_app_cons, rstrip_by_solid by done.
      unfold Str.strip_chars.
      rewrite (strip_by_pad (fun ch => Str.mem ch (String Str.dquote EmptyString))) by done.
      exact Hq.
    - rewrite string_app_nil_l, string_app_nil_r.
      apply String.eqb_eq in Hs. rewrite Hs. split; [done|].
      destruct (decide (value = EmptyString)) as [-> | Hne]; [by left|].
      right. by apply (strip_fixed_ends Str.isspace). }
  destruct Hend as [Hz | Hsolid].
  - rewrite Hz in *. rewrite string_app_nil_r, rstrip_by_all_empty by done.
    exact Hread.
  - rewrite rstrip_by_app_solid by done. unfold Str.strip in *.
    rewrite <- (string_app_nil_r Z), (strip_by_pad Str.isspace) by done.
    exact Hread.
Qed.

(** A line that assigns: the dictionary gets the value for the name. *)
Lemma parse_config_line_assign d (indent key before_sign after_sign : string)
    (quoted : bool) (value trailing : string) :
  well_formed (Assign indent key before_sign after_sign quoted value trailing) = true →
  parse_config_line d
    (line_text (Assign indent key before_sign after_sign quoted value trailing)
     +:+ String newline EmptyString)
  = Ok (<[key := value]> d).
Proof.
  cbn [well_formed line_text].
  intros [[[[[Hi Hk]%andb_prop Hb]%andb_prop Ha]%andb_prop Hv]%andb_prop Ht]%andb_prop.
  unfold key_name in Hk.
  apply andb_prop in Hk as [[[[Hne Hfix%String.eqb_eq]%andb_prop Hchars]%andb_prop
                               Hsemi]%andb_prop Hhash].
  assert (key ≠ EmptyString) as Hkey by (by destruct key).
  destruct (strip_fixed_ends Str.isspace key Hfix Hkey) as [(ch & key' & Hhead & Hch) Hsolid].
  set (Y := after_sign +:+ quote_mark quoted +:+ value +:+ quote_mark quoted
            +:+ trailing +:+ String newline EmptyString).
  assert (Str.strip
            ((indent +:+ key +:+ before_sign +:+ "=" +:+ after_sign +:+ quote_mark quoted
              +:+ value +:+ quote_mark quoted +:+ trailing) +:+ String newline EmptyString)
          = (key +:+ before_sign) +:+ String "="%char (rstrip_by Str.isspace Y)) as Hline.
  { rewrite !string_app_assoc. fold Y. unfold Str.strip.
    rewrite strip_by_unfold, lstrip_by_app_all by (by apply blanks_space).
    assert (Str.lstrip_by Str.isspace (key +:+ before_sign +:+ "=" +:+ Y)
            = key +:+ before_sign +:+ "=" +:+ Y) as ->.
    { rewrite Hhead, string_app_cons. cbn [Str.lstrip_by]. by rewrite Hch. }
    rewrite rstrip_by_app_after by done.
    rewrite <- (string_app_assoc before_sign), rstrip_by_app_after.
    - by rewrite !string_app_assoc, string_app_cons, string_app_nil_l.
    - apply ends_solid_app. by exists "="%char, EmptyString. }
  unfold parse_config_line. rewrite Hline.
  assert (all_chars (fun c => negb (Ascii.eqb c "="%char)) (key +:+ before_sign) = true)
    as Hnosign.
  { rewrite all_chars_app. apply andb_true_intro. split; [|by apply blanks_space].
    eapply all_chars_impl; [|exact Hchars]. by intros c [? _]%andb_prop. }
  assert (Str.is_empty ((key +:+ before_sign) +:+ String "="%char (rstrip_by Str.isspace Y))
          || Str.startswith ";" ((key +:+ before_sign) +:+ String "="%char
                                   (rstrip_by Str.isspace Y))
          || Str.startswith "#" ((key +:+ before_sign) +:+ String "="%char
                                   (rstrip_by Str.isspace Y)) = false) as ->.
  { rewrite Hhead in Hsemi, Hhash |- *. rewrite !string_app_cons.
    cbn [Str.is_empty Str.startswith orb] in *. rewrite !andb_true_r in *.
    apply negb_true_iff in Hsemi, Hhash. by rewrite Hsemi, Hhash. }
  assert (Str.contains "="
            ((key +:+ before_sign) +:+ String "="%char (rstrip_by Str.isspace Y)) = true)
    as ->.
  { apply contains_sign. }
  unfold split_once. rewrite split_once_go_app by done.
  change (Str.rev EmptyString) with EmptyString. rewrite string_app_nil_l.
  f_equal. f_equal.
  - rewrite <- (string_app_nil_l (key +:+ before_sign)). unfold Str.strip in *.
    rewrite (strip_by_pad Str.isspace) by (by apply blanks_space). exact Hfix.
  - by apply value_read.
Qed.

Lemma well_formed_no_break (l : config_line) :
  well_formed l = true → all_chars no_break (line_text l) = true.
Proof.
  destruct l as [text | indent key before_sign after_sign quoted value trailing];
    cbn [well_formed line_text].
  - by intros [? _]%andb_prop.
  - intros [[[[[Hi Hk]%andb_prop Hb]%andb_prop Ha]%andb_prop Hv]%andb_prop Ht]%andb_prop.
    unfold key_name, value_text in *.
    apply andb_prop in Hk as [[[[_ _]%andb_prop Hchars]%andb_prop _]%andb_prop _].
    apply andb_prop in Hv as [[Hv _]%andb_prop _].
    rewrite !all_chars_app, Hv.
    destruct (blanks_space _ Hi) as (_ & -> & _).
    destruct (blanks_space _ Hb) as (_ & -> & _).
    destruct (blanks_space _ Ha) as (_ & -> & _).
    destruct (blanks_space _ Ht) as (_ & -> & _).
    destruct (quote_mark_chars quoted) as [_ ->].
    assert (all_chars no_break key = true) as ->; [|done].
    eapply all_chars_impl; [|exact Hchars]. by intros c [_ ?]%andb_prop.
Qed.

(** The dictionary after the lines of a written file: the assignments, in
    their order. *)
Lemma parse_config_lines_doc d (doc : list config_line) :
  Forall (fun l => well_formed l = true) doc →
  parse_config_lines d ((fun l => line_text l +:+ String newline EmptyString) <$> doc)
  = Ok (foldl (fun acc kv => <[kv.1 := kv.2]> acc) d (assignments doc)).
Proof.
  intros Hdoc. revert d. induction Hdoc as [|l doc Hl _ IH]; intros d; [done|].
  rewrite fmap_cons. cbn [parse_config_lines].
  destruct l as [text | indent key before_sign after_sign quoted value trailing].
  - rewrite parse_config_line_remark by done. cbn. by rewrite IH.
  - rewrite parse_config_line_assign by done. cbn. by rewrite IH.
Qed.

Lemma foldl_insert_lookup (l : list (string * string)) d (k : string) :
  foldl (fun acc kv => <[kv.1 := kv.2]> acc) d l !! k
  = match last (List.filter (fun kv => String.eqb kv.1 k) l) with
    | Some kv => Some kv.2
    | None => d !! k
    end.
Proof.
  revert d. induction l as [|[k' v] l IH]; intros d; [done|].
  cbn [foldl List.filter fst snd]. rewrite IH.
  destruct (String.eqb_spec k' k) as [-> | Hne].
  - destruct (List.filter _ l) as [|kv l'] eqn:Hf.
    + cbn. apply lookup_insert_eq.
    + rewrite last_cons_cons. destruct (last (kv :: l')) eqn:Hl; [done|].
      by apply last_None in Hl.
  - destruct (last _); [done|]. by apply lookup_insert_ne.
Qed.

Lemma dict_assigned (doc : list config_line) (k : string) :
  foldl (fun acc kv => <[kv.1 := kv.2]> acc) (∅ : gmap string string) (assignments doc) !! k
  = assigned doc k.
Proof.
  rewrite foldl_insert_lookup. unfold assigned.
  by destruct (last _).
Qed.

(** X15.  A configuration file written line by line, with any of the three
    line endings: blank lines, comments and lines without the sign assign
    nothing; in a line that assigns, the white space around the name, the
    sign and the value and the double quotes around the value do not count,
    and the value goes up to the end of the line, further signs included.
    The configuration holds for each field the value of the last line that
    assigns it, 5432 for a port and public for a schema that no line
    assigns, [None] for another field that no line assigns; the call
    raises when the text assigned to the port is not an integer. *)
Theorem written_config_is_read (ending : string) (doc : list config_line) :
  line_ending ending = true →
  Forall (fun l => well_formed l = true) doc →
  load_config_from_file (FileContent (file_text ending doc))
  = match (match assigned doc "DatabaseConfig_port" with
           | Some text => Py.int_of_str text
           | None => Some 5432
           end) with
    | Some n =>
        Loaded {| host := assigned doc "DatabaseConfig_host";
                  port := n;
                  user := assigned doc "DatabaseConfig_user";
                  password := assigned doc "DatabaseConfig_password";
                  database := assigned doc "DatabaseConfig_database";
                  schema := default "public" (assigned doc "DatabaseConfig_schema") |}
    | None => LoadError PlainException
    end.
Proof.
  intros He Hdoc. unfold load_config_from_file.
  rewrite file_lines_text; [|done|].
  2:{ eapply Forall_impl; [exact Hdoc|]. apply well_formed_no_break. }
  rewrite parse_config_lines_doc by done.
  unfold make_config. by rewrite !dict_assigned.
Qed.

(** X16.  A file that can be read never makes the loop over its lines
    raise, whatever its text, and a field that is not assigned never makes
    the call raise: the call raises only the plain exception of its last
    handler, and only when the text assigned to the port is not an
    integer. *)
Theorem readable_config_fails_on_port_only (text : string) (e : config_error) :
  load_config_from_file (FileContent text) = LoadError e →
  e = PlainException
  ∧ ∃ d t, parse_config_lines ∅ (file_lines text) = Ok d
           ∧ d !! "DatabaseConfig_port" = Some t ∧ Py.int_of_str t = None.
Proof.
  unfold load_config_from_file.
  destruct (parse_config_lines_total ∅ (file_lines text)) as (d & ->).
  unfold make_config.
  destruct (d !! "DatabaseConfig_port") as [t|] eqn:Hport; [|done].
  destruct (Py.int_of_str t) eqn:Hint; [done|].
  intros [= <-]. split; [done|]. by exists d, t.
Qed.

End config_facts.

Section connection_facts.

(** X17.  [get_connection] makes at most three attempts and returns the
    connection of the first one that connects, with the [autocommit] asked
    for; it sleeps five seconds after each attempt refused by a
    [psycopg2.Error], except after the third, whose error it raises; an
    exception of another kind leaves it at once; it never returns
    [None]. *)
Theorem connection_is_first_success (env : nat → attempt) (autocommit : bool) :
  ∃ k, (k < 3)%nat
    ∧ (∀ j, (j < k)%nat → env j = Refuses)
    ∧ connects (get_connection env autocommit).2 = seq 0 (S k)
    ∧ slept (get_connection env autocommit).2 = replicate k 5
    ∧ (get_connection env autocommit).1
      = match env k with
        | Connects handle => Connection handle autocommit
        | Breaks e => ConnectionRaises e
        | Refuses => ConnectionRaises DatabaseError
        end
    ∧ (env k = Refuses → k = 2%nat).
Proof.
  unfold get_connection. cbn [seq max_retries connection_loop].
  destruct (env 0%nat) as [h0| |e0] eqn:H0.
  1,3: exists 0%nat; rewrite H0; cbn; repeat split; try done; try lia; intros j Hj; lia.
  destruct (env 1%nat) as [h1| |e1] eqn:H1.
  1,3: exists 1%nat; rewrite H1; cbn; repeat split; try done; try lia;
       intros j Hj; by replace j with 0%nat by lia.
  exists 2%nat. split; [lia|]. split.
  { intros j Hj. destruct j as [|[|j]]; [done|done|lia]. }
  destruct (env 2%nat) as [h2| |e2] eqn:H2; cbn; done.
Qed.

End connection_facts.

Section column_type_facts.
Context `{Py.FloatOps} `{Database}.

Lemma column_types_lookup (rows : list (string * option string))
    (d : gmap string string) (col : string) :
  foldl (fun result row => <[row.1 := default "text" row.2]> result) d rows !! col
  = match last (List.filter (fun row => String.eqb row.1 col) rows) with
    | Some row => Some (default "text" row.2)
    | None => d !! col
    end.
Proof.
  revert d. induction rows as [|[col' ty] rows IH]; intros d; [done|].
  cbn [foldl List.filter fst snd]. rewrite IH.
  destruct (String.eqb_spec col' col) as [-> | Hne].
  - destruct (List.filter _ rows) as [|row rows'] eqn:Hf.
    + cbn. apply lookup_insert_eq.
    + rewrite last_cons_cons. destruct (last (row :: rows')) eqn:Hl; [done|].
      by apply last_None in Hl.
  - destruct (last _); [done|]. by apply lookup_insert_ne.
Qed.

(** X18.  The type a cell is converted with, from the query of
    [get_column_types] to the loop of [migrate_table_data]: the type the
    query lists for the column (the last one, if it lists the column more
    than once), and text in every other case: when the query raises, lists
    no column at all, does not list this column, or lists it with no
    type. *)
Theorem cell_type_falls_back_to_text (c : call)
    (answer : result (list (string * option string))) (col : string) :
  source_column_types c = get_column_types answer →
  default "text" (column_types c !! col)
  = match answer with
    | Ok rows =>
        match listed_type rows col with
        | Some (Some ty) => ty
        | _ => "text"
        end
    | Raise _ => "text"
    end.
Proof.
  intros Hsrc.
  assert (default "text"
            ((list_to_map ((fun col => (col, "text")) <$> arg_columns c)
              : gmap string string) !! col) = "text") as Hempty.
  { destruct (list_to_map _ !! col) as [ty|] eqn:Hl; [|done].
    apply elem_of_list_to_map_2, list_elem_of_fmap in Hl as (col' & [= _ ->] & _).
    done. }
  unfold column_types. rewrite Hsrc.
  destruct answer as [rows|e]; [|by rewrite decide_True].
  destruct (decide (get_column_types (Ok rows) = ∅)) as [Hnil | Hsome]; cbv iota.
  - rewrite Hempty.
    assert (get_column_types (Ok rows) !! col = None) as Hcol by (by rewrite Hnil).
    unfold get_column_types in Hcol. rewrite column_types_lookup in Hcol.
    unfold listed_type. by destruct (last _).
  - unfold get_column_types.
    rewrite column_types_lookup. unfold listed_type.
    destruct (last _) as [[col' [ty|]]|]; done.
Qed.

End column_type_facts.

Section ownership_facts.
Implicit Types (found : list (string * option (string * string))) (db : statements).

Lemma split_go_length (sep : ascii) (s cur : string) :
  length (Str.split_go sep cur s) = S (count_char sep s).
Proof.
  revert cur. induction s as [|ch s IH]; intros cur; [done|].
  cbn. destruct (Ascii.eqb ch sep); cbn; by rewrite IH.
Qed.

Lemma count_char_app (sep : ascii) (a b : string) :
  count_char sep (a +:+ b) = (count_char sep a + count_char sep b)%nat.
Proof.
  induction a as [|ch a IH]; [by rewrite string_app_nil_l|].
  rewrite string_app_cons. cbn. rewrite IH. lia.
Qed.

Lemma count_char_some (sep : ascii) (s : string) :
  all_chars (fun ch => negb (Ascii.eqb ch sep)) s = false → (1 ≤ count_char sep s)%nat.
Proof.
  induction s as [|ch s IH]; [done|]. cbn.
  destruct (Ascii.eqb ch sep); cbn; [lia|]. intros Hs. specialize (IH Hs). lia.
Qed.

(** The owner written as table, dot, column splits back into the two when
    neither holds a dot, and into more than two parts otherwise. *)
Lemma owner_split (t c : string) :
  if plain_owner (t, c)
  then Str.split "."%char (t +:+ "." +:+ c) = [t; c]
  else (3 ≤ length (Str.split "."%char (t +:+ "." +:+ c)))%nat.
Proof.
  unfold plain_owner. cbn [fst snd].
  destruct (all_chars _ t) eqn:Ht; [destruct (all_chars _ c) eqn:Hc|]; cbn [andb].
  - apply (split_join "."%char [t; c]); [done|]. by repeat constructor.
  - unfold Str.split. rewrite split_go_length, !count_char_app.
    apply count_char_some in Hc. cbn. lia.
  - unfold Str.split. rewrite split_go_length, !count_char_app.
    apply count_char_some in Ht. cbn. lia.
Qed.

Lemma owner_truthy (t c : string) : truthy (Some (t +:+ "." +:+ c)) = true.
Proof.
  destruct t as [|ch t]; [by rewrite string_app_nil_l|]. by rewrite string_app_cons.
Qed.

(** One turn of the loop, on a sequence as it was found. *)
Lemma ownership_loop_cons (target_schema : string) (fault : nat → bool) (i : nat)
    (item : string * option (string * string)) found db :
  ownership_loop target_schema fault i (sequences_found (item :: found)) db
  = ownership_loop target_schema fault (S i) (sequences_found found)
      (match item.2 with
       | None => db
       | Some (t, c) =>
           if plain_owner (t, c) && negb (fault i)
           then {| applied := applied db;
                   open_transaction :=
                     open_transaction db ++ [alter_cmd target_schema item.1 t c] |}
           else {| applied := applied db; open_transaction := [] |}
       end).
Proof.
  destruct item as [name [[t c]|]]; unfold sequences_found; rewrite fmap_cons;
    cbn [ownership_loop sequence_of owner_text fmap option_fmap option_map fst snd
         owner_table_column seq_name default from_option id truthy];
    [|done].
  fold (truthy (Some (t +:+ "." +:+ c))). rewrite owner_truthy.
  pose proof (owner_split t c) as Hsplit.
  destruct (plain_owner (t, c)); cbn [andb].
  - rewrite Hsplit. by destruct (fault i).
  - destruct (Str.split "."%char (t +:+ "." +:+ c)) as [|a [|b [|b' l]]]; try done.
    cbn in Hsplit. lia.
Qed.

Lemma ownership_loop_through (target_schema : string) (fault : nat → bool) found :
  ∀ (i : nat) db,
  (∀ j item, found !! j = Some item → goes_through fault (i + j) item = true) →
  ownership_loop target_schema fault i (sequences_found found) db
  = {| applied := applied db;
       open_transaction :=
         open_transaction db ++ ownership_statements target_schema found |}.
Proof.
  induction found as [|item found IH]; intros i db Hall.
  - cbn. rewrite app_nil_r. by destruct db.
  - rewrite ownership_loop_cons.
    pose proof (Hall 0%nat item eq_refl) as Hitem. rewrite Nat.add_0_r in Hitem.
    rewrite IH.
    2:{ intros j item' Hj. replace (S i + j)%nat with (i + S j)%nat by lia.
        by apply Hall. }
    destruct item as [name [[t c]|]]; unfold goes_through in Hitem; cbn [fst snd] in *.
    + rewrite Hitem. cbn. by rewrite <- app_assoc.
    + done.
Qed.

Lemma ownership_loop_app (target_schema : string) (fault : nat → bool)
    (l1 l2 : list sequence) :
  ∀ (i : nat) db,
  ownership_loop target_schema fault i (l1 ++ l2) db
  = ownership_loop target_schema fault (i + length l1) l2
      (ownership_loop target_schema fault i l1 db).
Proof.
  induction l1 as [|seq l1 IH]; intros i db.
  - cbn. by rewrite Nat.add_0_r.
  - cbn [app ownership_loop length]. rewrite IH. f_equal. lia.
Qed.

Lemma ownership_loop_applied (target_schema : string) (fault : nat → bool)
    (l : list sequence) :
  ∀ (i : nat) db, applied (ownership_loop target_schema fault i l db) = applied db.
Proof.
  induction l as [|seq l IH]; intros i db; [done|].
  cbn [ownership_loop]. rewrite IH.
  destruct (truthy _); [|done].
  destruct (Str.split _ _) as [|a [|b [|b' l']]]; try done. by destruct (fault i).
Qed.

(** X19.  When every sequence found has no owner, or an owner whose table
    and column hold no dot and whose statement the target accepts, the
    call commits, in the order of the sequences, one statement for each
    sequence with an owner, which names the table and the column that were
    found. *)
Theorem owners_found_are_set (target_schema : string) (fault : nat → bool) found db :
  (∀ j item, found !! j = Some item → goes_through fault j item = true) →
  open_transaction db = [] →
  set_sequence_ownership target_schema fault (sequences_found found) db
  = {| applied := applied db ++ ownership_statements target_schema found;
       open_transaction := [] |}.
Proof.
  intros Hall Hopen. unfold set_sequence_ownership.
  rewrite ownership_loop_through by done. cbn. by rewrite Hopen.
Qed.

(** X20.  A sequence that fails, because the table or the column of its
    owner holds a dot or because the target refuses its statement, takes
    with it the statements of all the sequences before it: the rollback of
    the handler discards them, and when the sequences after it go through,
    the call commits the statements of these alone. *)
Theorem failed_owner_discards_earlier (target_schema : string) (fault : nat → bool)
    (pre post : list (string * option (string * string)))
    (bad : string * option (string * string)) db :
  fails fault (length pre) bad = true →
  (∀ j item, post !! j = Some item → goes_through fault (S (length pre) + j) item = true) →
  set_sequence_ownership target_schema fault (sequences_found (pre ++ bad :: post)) db
  = {| applied := applied db ++ ownership_statements target_schema post;
       open_transaction := [] |}.
Proof.
  intros Hbad Hpost. unfold set_sequence_ownership, sequences_found.
  rewrite fmap_app, ownership_loop_app, length_fmap. cbn [plus].
  fold (sequences_found (bad :: post)). rewrite ownership_loop_cons.
  rewrite ownership_loop_through by done.
  set (db1 := ownership_loop _ _ _ _ db).
  assert (applied db1 = applied db) as Happ by apply ownership_loop_applied.
  destruct bad as [name [[t c]|]]; unfold fails in Hbad; cbn [fst snd] in *; [|done].
  assert (plain_owner (t, c) && negb (fault (length pre)) = false) as ->.
  { destruct (plain_owner (t, c)), (fault (length pre)); done. }
  cbn. by rewrite Happ.
Qed.

End ownership_facts.

Section table_facts.
Implicit Types (s a b old new : string).

Lemma all_but_last_app s (ch : ascii) :
  all_but_last (s +:+ String ch EmptyString) = s.
Proof.
  unfold all_but_last. rewrite rev_string_app.
  change (Str.rev (String ch EmptyString)) with (String ch EmptyString).
  rewrite string_app_cons, string_app_nil_l. cbn [Str.tail]. apply rev_rev.
Qed.

Lemma startswith_app old s : Str.startswith old (old +:+ s) = true.
Proof.
  induction old as [|ch old IH]; [done|].
  rewrite string_app_cons. cbn. by rewrite Ascii.eqb_refl, IH.
Qed.

Lemma replace_go_skip old new (x s : string) :
  Str.replace_go old new (String.length x) (x +:+ s) = Str.replace_go old new 0 s.
Proof.
  induction x as [|ch x IH]; [by rewrite string_app_nil_l|].
  rewrite string_app_cons. cbn [String.length Str.replace_go]. exact IH.
Qed.

(** The text begins with the pattern: it is replaced. *)
Lemma replace_go_match old new s :
  old ≠ EmptyString →
  Str.replace_go old new 0 (old +:+ s) = new +:+ Str.replace_go old new 0 s.
Proof.
  intros Hold. pose proof (startswith_app old s) as Hstart.
  destruct old as [|ch old]; [done|].
  rewrite string_app_cons in *. cbn [Str.replace_go]. rewrite Hstart.
  replace (String.length (String ch old) - 1)%nat with (String.length old)
    by (cbn [String.length]; lia).
  by rewrite replace_go_skip.
Qed.

(** No character of the text before begins the pattern: that text is
    kept. *)
Lemma replace_go_before old new (ch : ascii) (old' p s : string) :
  old = String ch old' →
  all_chars (fun c => negb (Ascii.eqb ch c)) p = true →
  Str.replace_go old new 0 (p +:+ s) = p +:+ Str.replace_go old new 0 s.
Proof.
  intros ->. induction p as [|c p IH]; [by rewrite !string_app_nil_l|].
  cbn [all_chars]. intros [Hc Hp]%andb_prop. apply negb_true_iff in Hc.
  rewrite !string_app_cons. cbn [Str.replace_go Str.startswith]. rewrite Hc.
  cbn [andb]. by rewrite IH.
Qed.

(** The pattern does not occur: the text is kept. *)
Lemma replace_go_none old new s :
  Str.contains old s = false → Str.replace_go old new 0 s = s.
Proof.
  induction s as [|c s IH]; [done|].
  cbn [Str.contains]. intros [Hstart Hrest]%orb_false_elim.
  cbn [Str.replace_go]. rewrite Hstart. by rewrite IH.
Qed.

(** X21.  The default of a column fed by a sequence of the source schema
    is moved to the target schema: in a default that names the schema
    once, after a text without a quote, the name of the source schema is
    replaced by that of the target and the rest is kept; a default that
    does not name the source schema is kept as it is. *)
Theorem sequence_default_moves_schema (source_schema target_schema before rest : string) :
  all_chars (fun c => negb (Ascii.eqb "'"%char c)) before = true →
  Str.contains ("'" +:+ source_schema +:+ ".") rest = false →
  adjusted_default source_schema target_schema
    (before +:+ "'" +:+ source_schema +:+ "." +:+ rest)
  = before +:+ "'" +:+ target_schema +:+ "." +:+ rest
  ∧ adjusted_default source_schema target_schema rest = rest.
Proof.
  intros Hbefore Hrest. unfold adjusted_default, Str.replace. split.
  - rewrite (replace_go_before _ _ "'"%char (source_schema +:+ ".") before)
      by (done || by rewrite string_app_cons, string_app_nil_l).
    rewrite <- !string_app_assoc.
    rewrite (string_app_assoc "'" source_schema "."), replace_go_match.
    + by rewrite replace_go_none, !string_app_assoc.
    + by rewrite string_app_cons.
  - by apply replace_go_none.
Qed.

(** X22.  The statement that creates a table with a primary key: the
    constraint stands inside the parentheses, after the definitions of the
    columns, with the columns of the key in their order; it is the one
    statement the call commits when the target does not have the table and
    accepts it.  A table without columns, or one the target has, leaves the
    target as it is. *)
Theorem created_table_has_its_key (source_schema target_schema table_name : string)
    (ci : column_info) (cis : list column_info) (pk : string) (pks : list string)
    (db : statements) :
  open_transaction db = [] →
  create_table_if_not_exists source_schema target_schema table_name
    (Ok (ci :: cis)) (Ok (pk :: pks)) false false db
  = Created
      {| applied :=
           applied db
           ++ ["CREATE TABLE " +:+ quoted_name target_schema +:+ "."
               +:+ quoted_name table_name +:+ " ("
               +:+ Str.join ", " (column_def source_schema target_schema <$> ci :: cis)
               +:+ ", PRIMARY KEY (" +:+ Str.join ", " (quoted_name <$> pk :: pks)
               +:+ "))"];
         open_transaction := [] |}
  ∧ create_table_if_not_exists source_schema target_schema table_name
      (Ok []) (Ok (pk :: pks)) false false db = CreationRaises
  ∧ create_table_if_not_exists source_schema target_schema table_name
      (Ok (ci :: cis)) (Ok (pk :: pks)) true false db = AlreadyThere db.
Proof.
  intros Hopen. split; [|done].
  unfold create_table_if_not_exists, table_definition. rewrite Hopen.
  cbn [app]. do 3 f_equal.
  rewrite <- !string_app_assoc.
  rewrite (all_but_last_app _ ")"%char).
  by rewrite !string_app_assoc.
Qed.

End table_facts.

Section rerun_facts.
Context `{Py.FloatOps} `{Database}.
Implicit Types (c : call) (st : state) (db : target_db).

(** A batch whose rows all collide with rows committed adds nothing. *)
Lemma execute_batch_known db (ts : list tuple) :
  Forall (fun t => existsb (conflict t) (committed db) = true) ts →
  execute_batch db ts = db.
Proof.
  unfold execute_batch. induction 1 as [|t ts Ht _ IH]; [done|].
  cbn [foldl]. unfold insert_tuple at 2.
  rewrite existsb_app, Ht. cbn. exact IH.
Qed.

Lemma served_known c db (pages : list (list row)) :
  pending db = [] →
  Forall (fun page =>
            Forall (fun r => existsb (conflict (sent_row c r)) (committed db) = true) page)
    pages →
  served c db pages = db.
Proof.
  intros Hdb. induction pages as [|page pages IH] using rev_ind; intros Hpages; [done|].
  apply Forall_app in Hpages as [Hpages Hpage]. rewrite Forall_singleton in Hpage.
  rewrite served_snoc, IH by done.
  rewrite execute_batch_known by (by apply Forall_fmap).
  unfold commit. rewrite Hdb, app_nil_r. destruct db. by cbn in *; subst.
Qed.

(** X23.  The transfer onto a target that already holds the rows is
    idempotent: when every row of the source, as it is sent, collides with
    a row committed in the target (as after an earlier transfer into a
    table with a primary key, the checkpoint lost or not), the call, under
    any faults and wherever it stops, leaves the rows committed in the
    target as they were: [ON CONFLICT DO NOTHING] drops every row of every
    page. *)
Theorem rerun_inserts_nothing c (env : nat → conditions) (fuel : nat)
    (t : ProgressTracker) (db : target_db) :
  sound_source c → in_step c (progress (initial_state c t db)) →
  pending db = [] →
  Forall (fun r => existsb (conflict (sent_row c r)) (committed db) = true)
    (source_rows c) →
  committed (target (final_state (migrate_table_data c env fuel t db))) = committed db.
Proof.
  intros Hs Hstep Hdb Hknown.
  destruct (completed (progress (initial_state c t db))) eqn:Hopen.
  { unfold migrate_table_data. rewrite Hopen. cbn [final_state].
    by destruct (initial_events c t db) as (_ & -> & _). }
  destruct (run_served c env fuel t db Hs Hstep Hopen Hdb)
    as (st & Htrack & Hc & Hrun).
  assert (committed (target st) = committed db) as Hsame.
  { rewrite Hc, served_known; [done|done|].
    apply Forall_forall. intros page Hpage. apply Forall_forall. intros r Hr.
    rewrite Forall_forall in Hknown. apply Hknown.
    assert (r ∈ concat (transferred (events st))) as Hin.
    { apply list_elem_of_In, in_concat. exists page. by split; apply list_elem_of_In. }
    rewrite (track_pages _ _ _ Htrack) in Hin.
    apply subseteq_take, subseteq_drop in Hin. by rewrite listing_perm in Hin. }
  destruct Hrun as [(-> & _) | [(e & ->) | (-> & _)]]; cbn [final_state]; [done..|].
  by destruct (finish_facts c st) as (_ & -> & _).
Qed.

End rerun_facts.

(** ** The theorems at concrete calls *)

#[local] Existing Instances no_floats integer_keys.


(** C3 on a table of 7 rows counted as 10, in chunks of 3. *)
Lemma drift_completes_witness :
  let c := orders_call 3 10 7 in
  sound_source c ∧ 1 ≤ chunk_size c
  ∧ Z.of_nat (length (source_rows c)) < arg_total_rows c
  ∧ get_progress no_progress (arg_table_name c) = None
  ∧ (∀ i, fault_at (fair_weather i) = NoFault)
  ∧ (length (source_rows c) < 8)%nat
  ∧ ∃ st evs q, migrate_table_data c fair_weather 8 no_progress empty_target = Returned st
    ∧ migrated_rows (progress st) = Z.of_nat (length (source_rows c))
    ∧ migrated_rows (progress st) < arg_total_rows c
    ∧ completed (progress st) = true
    ∧ get_progress (tracker st) (arg_table_name c) = Some (progress st)
    ∧ events st = evs ++ [Fetch q []; Save (progress st)].
Proof.
  intros c.
  assert (sound_source c) as Hs by (apply sound_sourceb_sound; vm_compute; reflexivity).
  assert (1 ≤ chunk_size c) as Hchunk by (vm_compute; discriminate).
  assert (Z.of_nat (length (source_rows c)) < arg_total_rows c) as Hshort
    by (vm_compute; reflexivity).
  assert (length (source_rows c) < 8)%nat as Hfuel by (vm_compute; lia).
  refine (conj Hs (conj Hchunk (conj Hshort (conj eq_refl
            (conj (fun _ => eq_refl) (conj Hfuel _)))))).
  exact (proj2 (drift_completes c fair_weather 8 no_progress empty_target)
           Hs Hchunk Hshort eq_refl (fun _ => eq_refl) Hfuel).
Defined.

(** C5 on a checkpoint of 7 migrated rows for a total of 7, not marked
    completed. *)
Lemma caught_up_run_moves_nothing_witness :
  let c := orders_call 3 7 7 in
  get_progress caught_up (arg_table_name c) = Some caught_up_checkpoint
  ∧ (completed caught_up_checkpoint = true
     ∨ arg_total_rows c ≤ migrated_rows caught_up_checkpoint)
  ∧ ∃ st, migrate_table_data c fair_weather 5 caught_up empty_target = Returned st
    ∧ target st = empty_target
    ∧ queries (events st) = []
    ∧ batches (events st) = []
    ∧ commits (events st) = 0%nat
    ∧ migrated_rows (progress st) = migrated_rows caught_up_checkpoint
    ∧ (if completed caught_up_checkpoint then events st = [] ∧ tracker st = caught_up
       else events st = [Save (with_completed caught_up_checkpoint)]).
Proof.
  intros c.
  assert (get_progress caught_up (arg_table_name c) = Some caught_up_checkpoint) as Hget
    by (vm_compute; reflexivity).
  assert (completed caught_up_checkpoint = true
          ∨ arg_total_rows c ≤ migrated_rows caught_up_checkpoint) as Hcase
    by (right; vm_compute; discriminate).
  refine (conj Hget (conj Hcase _)).
  exact (caught_up_run_moves_nothing c fair_weather 5 caught_up empty_target
           caught_up_checkpoint Hget Hcase).
Defined.

(** C7 on the table ledger, whose second row holds in its JSON column an
    object the encoder refuses. *)
Lemma failing_cell_keeps_source_value_witness :
  let c := ledger_call in
  let st := initial_state c no_progress empty_target in
  convert_data_for_insert (POther "1.5" "Decimal('1.5')") (Some "json") = Raise TypeError
  ∧ Forall (fun r => Forall (fun col => is_Some (dict_get r col)) (arg_columns c)) ledger_rows
  ∧ ledger_rows ≠ []
  ∧ run_query (source_rows c) (next_query c (progress st)) = Ok ledger_rows
  ∧ (∀ r col v e, r ∈ ledger_rows → dict_get r col = Some v →
       convert_data_for_insert v (Some (default "text" (column_types c !! col))) = Raise e →
       convert_cell c r col = Ok v)
  ∧ convert_rows c ledger_rows = Ok (sent_row c <$> ledger_rows)
  ∧ try_block c NoFault st
    = advance c ledger_rows (after_commit c ledger_rows (sent_row c <$> ledger_rows) st).
Proof.
  intros c st.
  assert (Forall (fun r => Forall (fun col => is_Some (dict_get r col)) (arg_columns c))
            ledger_rows) as Hcomplete
    by (repeat constructor; eexists; reflexivity).
  assert (ledger_rows ≠ []) as Hne by discriminate.
  assert (run_query (source_rows c) (next_query c (progress st)) = Ok ledger_rows) as Hq
    by (vm_compute; reflexivity).
  refine (conj eq_refl (conj Hcomplete (conj Hne (conj Hq _)))).
  exact (failing_cell_keeps_source_value c st ledger_rows Hcomplete Hne Hq).
Defined.

(** The batch sent for the table ledger: the second row goes with the
    object of the source in its JSON column. *)
Example ledger_batch :
  sent_row ledger_call <$> ledger_rows
  = [[PInt 1; PStr (Str.dq "{'a':1}")]; [PInt 2; POther "1.5" "Decimal('1.5')"]].
Proof. vm_compute. reflexivity. Qed.

(** C8 on the table orders with a target that refuses every batch: four
    passes, four retries of the first page. *)
Lemma failed_chunk_is_retried_witness :
  let c := orders_call 3 10 7 in
  let st0 := initial_state c no_progress empty_target in
  completed (progress st0) = false
  ∧ migrated_rows (progress st0) < arg_total_rows c
  ∧ (∀ j, (j < 4)%nat → chunk_fails c (fault_at (stuck_target j)) (progress st0))
  ∧ ∃ st (k : nat),
      progress st = progress st0
      ∧ completed (progress st) = false
      ∧ tracker st = no_progress
      ∧ committed (target st) = committed empty_target
      ∧ commits (events st) = 0%nat
      ∧ saves (events st) = []
      ∧ (∀ j, (j < k)%nat → rollback_raises (stuck_target j) = false)
      ∧ sleeps (events st) = replicate k 5000
      ∧ ((k = 4%nat
          ∧ migrate_table_data c stuck_target 4 no_progress empty_target = Running st
          ∧ queries (events st) = replicate 4 (next_query c (progress st0))
          ∧ rollbacks (events st) = 4%nat
          ∧ ((0 < 4)%nat → pending (target st) = []))
         ∨ ((k < 4)%nat
            ∧ rollback_raises (stuck_target k) = true
            ∧ migrate_table_data c stuck_target 4 no_progress empty_target
              = Failed DatabaseError st
            ∧ queries (events st) = replicate (S k) (next_query c (progress st0))
            ∧ rollbacks (events st) = S k)).
Proof.
  intros c st0.
  assert (migrated_rows (progress st0) < arg_total_rows c) as Hlt
    by (vm_compute; reflexivity).
  assert (∀ j, (j < 4)%nat → chunk_fails c (fault_at (stuck_target j)) (progress st0))
    as Henv.
  { intros j _. right. eexists _, _. vm_compute. reflexivity. }
  refine (conj eq_refl (conj Hlt (conj Henv _))).
  exact (failed_chunk_is_retried c stuck_target 4 no_progress empty_target
           eq_refl Hlt Henv).
Defined.

(** The claim C8 as stated fails: the commit of the table orders fails on
    every pass, and on the third the rollback raises too.  The call, allowed
    ten passes, is left by the exception of that rollback after three
    queries and two pauses: the third failure is followed by no pause and no
    query, and the call is no longer in its loop. *)
Lemma raising_rollback_ends_retries :
  let c := orders_call 3 10 7 in
  ∃ st, migrate_table_data c failing_target 10 no_progress empty_target
        = Failed DatabaseError st
    ∧ chunk_fails c (fault_at (failing_target 2))
        (progress (initial_state c no_progress empty_target))
    ∧ rollbacks (events st) = 3%nat
    ∧ sleeps (events st) = [5000; 5000]
    ∧ length (queries (events st)) = 3%nat
    ∧ last (events st) = Some Rollback
    ∧ ¬ ∃ st', migrate_table_data c failing_target 10 no_progress empty_target
               = Running st'.
Proof.
  intros c. eexists. split; [vm_compute; reflexivity|].
  split; [right; eexists _, _; vm_compute; reflexivity|].
  repeat (split; [vm_compute; reflexivity|]).
  intros [st' Hrun]. vm_compute in Hrun. discriminate Hrun.
Qed.

(** The claim C1 as stated fails: the table orders was counted at three
    rows and holds four when it is read, in chunks of two.  The second page
    brings the count to four, above the total of the checkpoint, in the
    checkpoint saved after that page, in the final one and in the
    dictionary of the tracker. *)
Lemma last_page_passes_total :
  let c := orders_call 2 3 4 in
  ∃ st, migrate_table_data c fair_weather 3 no_progress empty_target = Returned st
    ∧ progress st
      = {| table_name := "orders"; total_rows := 3; migrated_rows := 4;
           last_primary_key := Some "4"; completed := true |}
    ∧ (migrated_rows <$> saves (events st)) = [2; 4; 4]
    ∧ (total_rows <$> saves (events st)) = [3; 3; 3]
    ∧ get_progress (tracker st) (arg_table_name c) = Some (progress st)
    ∧ length (committed (target st)) = 4%nat
    ∧ ¬ Forall (fun p => migrated_rows p ≤ total_rows p) (checkpoints c st).
Proof.
  intros c. eexists. split; [vm_compute; reflexivity|].
  repeat (split; [vm_compute; reflexivity|]).
  intros Hall. apply Forall_cons in Hall as [Hle _]. vm_compute in Hle. by apply Hle.
Qed.

(** C1 on the table orders of seven rows, counted at ten, with a target
    that fails at the commit of every other pass. *)
Lemma checkpoint_count_bounds_witness :
  let c := orders_call 3 10 7 in
  let p0 := progress (initial_state c no_progress empty_target) in
  let st := final_state (migrate_table_data c unsteady_target 12 no_progress empty_target) in
  sound_source c ∧ in_step c p0
  ∧ Z.of_nat (length (source_rows c)) ≤ total_rows p0
  ∧ Forall (fun p => migrated_rows p ≤ total_rows p) (checkpoints c st).
Proof.
  intros c p0 st.
  assert (sound_source c) as Hs by (apply sound_sourceb_sound; vm_compute; reflexivity).
  assert (in_step c p0) as Hstep
    by exact (proj1 (fresh_in_step c no_progress empty_target eq_refl)).
  assert (Z.of_nat (length (source_rows c)) ≤ total_rows p0) as Hlen
    by (vm_compute; discriminate).
  refine (conj Hs (conj Hstep (conj Hlen _))).
  exact (proj2 (checkpoint_count_bounds c unsteady_target 12 no_progress empty_target)
           Hs Hstep Hlen).
Defined.

(** The pages that reach the target in that run, and the keys saved after
    each: the pages refetched after a failed commit count once. *)
Example unsteady_pages :
  let c := orders_call 3 10 7 in
  let evs := events (final_state
                       (migrate_table_data c unsteady_target 12 no_progress empty_target)) in
  (fmap (M := list) (fun r => default PNone (dict_get r "id")) <$> transferred evs)
  = [[PInt 1; PInt 2; PInt 3]; [PInt 4; PInt 5; PInt 6]; [PInt 7]]
  ∧ (fmap (M := list) (fun r => default PNone (dict_get r "id")) <$> pages evs)
    = [[PInt 1; PInt 2; PInt 3]; [PInt 1; PInt 2; PInt 3];
       [PInt 4; PInt 5; PInt 6]; [PInt 4; PInt 5; PInt 6];
       [PInt 7]; [PInt 7]; []]
  ∧ (last_primary_key <$> chunk_saves evs) = [Some "3"; Some "6"; Some "7"]
  ∧ rollbacks evs = 3%nat.
Proof. vm_compute. done. Qed.

(** C4 on that run. *)
Lemma keyset_pages_increase_witness :
  let c := orders_call 3 10 7 in
  let p0 := progress (initial_state c no_progress empty_target) in
  let evs := events (final_state
                       (migrate_table_data c unsteady_target 12 no_progress empty_target)) in
  sound_source c ∧ paging_key c = Some "id" ∧ in_step c p0
  ∧ (∀ (i j : nat) P Q r r', (i < j)%nat →
       transferred evs !! i = Some P → transferred evs !! j = Some Q →
       r ∈ P → r' ∈ Q → strict key_le (row_key "id" r) (row_key "id" r'))
  ∧ Forall (fun page => page ≠ []) (transferred evs)
  ∧ (∀ (i j : nat) P Q r r', (i < j)%nat →
       pages evs !! i = Some P → pages evs !! j = Some Q →
       P = Q ∨ (r ∈ P → r' ∈ Q → strict key_le (row_key "id" r) (row_key "id" r')))
  ∧ length (chunk_saves evs) = length (transferred evs)
  ∧ (∀ (i : nat) p p', chunk_saves evs !! i = Some p → chunk_saves evs !! S i = Some p' →
       ∃ s s' k k', last_primary_key p = Some s ∧ last_primary_key p' = Some s'
         ∧ sql_cast s = Some k ∧ sql_cast s' = Some k' ∧ strict key_le k k')
  ∧ (∀ s k p', last_primary_key p0 = Some s → truthy (Some s) = true →
       sql_cast s = Some k → chunk_saves evs !! 0%nat = Some p' →
       ∃ s' k', last_primary_key p' = Some s' ∧ sql_cast s' = Some k' ∧ strict key_le k k').
Proof.
  intros c p0 evs.
  assert (sound_source c) as Hs by (apply sound_sourceb_sound; vm_compute; reflexivity).
  assert (in_step c p0) as Hstep
    by exact (proj1 (fresh_in_step c no_progress empty_target eq_refl)).
  assert (paging_key c = Some "id") as Hpk by (vm_compute; reflexivity).
  refine (conj Hs (conj Hpk (conj Hstep _))).
  pose proof (keyset_pages_increase c "id" unsteady_target 12 no_progress empty_target
                Hs Hpk Hstep) as Hrun.
  exact Hrun.
Defined.

(** X1 on the table orders of seven rows, read in chunks of three while the
    commit fails on every second pass. *)
Lemma transferred_rows_are_consecutive_witness :
  let c := orders_call 3 10 7 in
  let st := final_state (migrate_table_data c unsteady_target 12 no_progress empty_target) in
  sound_source c ∧ in_step c (progress (initial_state c no_progress empty_target))
  ∧ concat (transferred (events st))
    = take (Z.to_nat (migrated_rows (progress st)) - 0) (drop 0 (listing c)).
Proof.
  intros c st.
  assert (sound_source c) as Hs by (apply sound_sourceb_sound; vm_compute; reflexivity).
  assert (in_step c (progress (initial_state c no_progress empty_target))) as Hstep
    by exact (proj1 (fresh_in_step c no_progress empty_target eq_refl)).
  refine (conj Hs (conj Hstep _)).
  pose proof (transferred_rows_are_consecutive c unsteady_target 12 no_progress
                empty_target Hs Hstep) as (_ & Hpages & _).
  exact Hpages.
Defined.

(** X2 on the same run. *)
Lemma target_holds_transferred_pages_witness :
  let c := orders_call 3 10 7 in
  let st := final_state (migrate_table_data c unsteady_target 12 no_progress empty_target) in
  sound_source c ∧ in_step c (progress (initial_state c no_progress empty_target))
  ∧ pending empty_target = []
  ∧ committed (target st) = committed (served c empty_target (transferred (events st))).
Proof.
  intros c st.
  assert (sound_source c) as Hs by (apply sound_sourceb_sound; vm_compute; reflexivity).
  assert (in_step c (progress (initial_state c no_progress empty_target))) as Hstep
    by exact (proj1 (fresh_in_step c no_progress empty_target eq_refl)).
  refine (conj Hs (conj Hstep (conj eq_refl _))).
  pose proof (target_holds_transferred_pages c unsteady_target 12 no_progress
                empty_target Hs Hstep eq_refl) as [Hc _].
  exact Hc.
Defined.

(** X3 on the same run, which returns. *)
Lemma returned_call_left_no_row_witness :
  let c := orders_call 3 10 7 in
  let st := final_state (migrate_table_data c unsteady_target 12 no_progress empty_target) in
  sound_source c ∧ in_step c (progress (initial_state c no_progress empty_target))
  ∧ 1 ≤ chunk_size c
  ∧ Z.of_nat (length (source_rows c)) ≤ arg_total_rows c
  ∧ migrate_table_data c unsteady_target 12 no_progress empty_target = Returned st
  ∧ completed (progress st) = true
  ∧ concat (transferred (events st)) = drop 0 (listing c)
  ∧ migrated_rows (progress st) = 7.
Proof.
  intros c st.
  assert (sound_source c) as Hs by (apply sound_sourceb_sound; vm_compute; reflexivity).
  assert (in_step c (progress (initial_state c no_progress empty_target))) as Hstep
    by exact (proj1 (fresh_in_step c no_progress empty_target eq_refl)).
  assert (1 ≤ chunk_size c) as Hchunk by (vm_compute; discriminate).
  assert (Z.of_nat (length (source_rows c)) ≤ arg_total_rows c) as Htotal
    by (vm_compute; discriminate).
  assert (migrate_table_data c unsteady_target 12 no_progress empty_target = Returned st)
    as Hrun by (vm_compute; reflexivity).
  refine (conj Hs (conj Hstep (conj Hchunk (conj Htotal (conj Hrun _))))).
  pose proof (returned_call_left_no_row c unsteady_target 12 no_progress empty_target st
                Hs Hstep Hchunk Htotal Hrun) as (Hdone & _ & Hrest).
  assert (completed (progress (initial_state c no_progress empty_target)) = false)
    as Hopen by reflexivity.
  rewrite Hopen in Hrest. destruct Hrest as [Hpages Hm].
  exact (conj Hdone (conj Hpages Hm)).
Defined.

(** X4 on the table orders when the commit fails in the first two passes. *)
Lemma transient_faults_end_in_return_witness :
  let c := orders_call 3 10 7 in
  sound_source c ∧ in_step c (progress (initial_state c no_progress empty_target))
  ∧ 1 ≤ chunk_size c
  ∧ (∀ i, rollback_raises (faults_then_fair 2 i) = false)
  ∧ (∀ i, (2 ≤ i)%nat → fault_at (faults_then_fair 2 i) = NoFault)
  ∧ (2 + length (source_rows c) < 10)%nat
  ∧ ∃ st, migrate_table_data c (faults_then_fair 2) 10 no_progress empty_target
          = Returned st
      ∧ completed (progress st) = true.
Proof.
  intros c.
  assert (sound_source c) as Hs by (apply sound_sourceb_sound; vm_compute; reflexivity).
  assert (in_step c (progress (initial_state c no_progress empty_target))) as Hstep
    by exact (proj1 (fresh_in_step c no_progress empty_target eq_refl)).
  assert (1 ≤ chunk_size c) as Hchunk by (vm_compute; discriminate).
  assert (∀ i, (2 ≤ i)%nat → fault_at (faults_then_fair 2 i) = NoFault) as Henv.
  { intros i Hi. unfold faults_then_fair. cbn [fault_at].
    destruct (i <? 2)%nat eqn:Hlt; [apply Nat.ltb_lt in Hlt; lia|reflexivity]. }
  assert (2 + length (source_rows c) < 10)%nat as Hfuel by (vm_compute; lia).
  refine (conj Hs (conj Hstep (conj Hchunk (conj (fun _ => eq_refl)
            (conj Henv (conj Hfuel _)))))).
  destruct (transient_faults_end_in_return c (faults_then_fair 2) 10 2 no_progress
              empty_target Hs Hstep Hchunk (fun _ => eq_refl) Henv Hfuel)
    as (st & Hrun & Hdone & _).
  exact (ex_intro _ st (conj Hrun Hdone)).
Defined.

(** X5 on the same run: the target ends with the seven rows, in key
    order. *)
Lemma migrated_table_equals_source_witness :
  let c := orders_call 3 10 7 in
  sound_source c
  ∧ get_progress no_progress (arg_table_name c) = None
  ∧ 1 ≤ chunk_size c
  ∧ Z.of_nat (length (source_rows c)) ≤ arg_total_rows c
  ∧ pending empty_target = []
  ∧ conflict_freeb (committed empty_target ++ (sent_row c <$> listing c)) = true
  ∧ (∀ i, rollback_raises (faults_then_fair 2 i) = false)
  ∧ (∀ i, (2 ≤ i)%nat → fault_at (faults_then_fair 2 i) = NoFault)
  ∧ (2 + length (source_rows c) < 10)%nat
  ∧ ∃ st, migrate_table_data c (faults_then_fair 2) 10 no_progress empty_target
          = Returned st
      ∧ target st
        = {| committed := committed empty_target ++ (sent_row c <$> listing c);
             pending := [] |}.
Proof.
  intros c.
  assert (sound_source c) as Hs by (apply sound_sourceb_sound; vm_compute; reflexivity).
  assert (1 ≤ chunk_size c) as Hchunk by (vm_compute; discriminate).
  assert (Z.of_nat (length (source_rows c)) ≤ arg_total_rows c) as Htotal
    by (vm_compute; discriminate).
  assert (conflict_freeb (committed empty_target ++ (sent_row c <$> listing c)) = true)
    as Hfree by (vm_compute; reflexivity).
  assert (∀ i, (2 ≤ i)%nat → fault_at (faults_then_fair 2 i) = NoFault) as Henv.
  { intros i Hi. unfold faults_then_fair. cbn [fault_at].
    destruct (i <? 2)%nat eqn:Hlt; [apply Nat.ltb_lt in Hlt; lia|reflexivity]. }
  assert (2 + length (source_rows c) < 10)%nat as Hfuel by (vm_compute; lia).
  refine (conj Hs (conj eq_refl (conj Hchunk (conj Htotal (conj eq_refl (conj Hfree
            (conj (fun _ => eq_refl) (conj Henv (conj Hfuel _))))))))).
  destruct (migrated_table_equals_source c (faults_then_fair 2) 10 2 no_progress
              empty_target Hs eq_refl Hchunk Htotal eq_refl Hfree (fun _ => eq_refl)
              Henv Hfuel)
    as (st & Hrun & Htarget & _).
  exact (ex_intro _ st (conj Hrun Htarget)).
Defined.

(** X6: the checkpoint of the table orders stays when the table ledger is
    migrated. *)
Lemma other_checkpoints_untouched_witness :
  "orders" ≠ arg_table_name ledger_call
  ∧ get_progress
      (tracker (final_state (migrate_table_data ledger_call fair_weather 3 caught_up
                               empty_target))) "orders"
    = Some caught_up_checkpoint.
Proof.
  assert ("orders" ≠ arg_table_name ledger_call) as Hne by (vm_compute; discriminate).
  refine (conj Hne _).
  exact (other_checkpoints_untouched ledger_call fair_weather 3 caught_up empty_target
           "orders" Hne).
Defined.

(** X7: the table orders, a first call stopped after three passes and a
    second one that starts from its tracker and from what it committed. *)
Lemma resumed_call_continues_witness :
  let c := orders_call 3 10 7 in
  let st1 := final_state (migrate_table_data c unsteady_target 3 no_progress empty_target) in
  let st2 := final_state (migrate_table_data c fair_weather 5 (tracker st1)
                            (rollback (target st1))) in
  sound_source c ∧ in_step c (progress (initial_state c no_progress empty_target))
  ∧ get_progress (tracker st1) (arg_table_name c)
    = get_progress (tracker st1) (arg_table_name c)
  ∧ concat (transferred (events st1) ++ transferred (events st2))
    = take (Z.to_nat (migrated_rows (progress st2)) - 0) (drop 0 (listing c)).
Proof.
  intros c st1 st2.
  assert (sound_source c) as Hs by (apply sound_sourceb_sound; vm_compute; reflexivity).
  assert (in_step c (progress (initial_state c no_progress empty_target))) as Hstep
    by exact (proj1 (fresh_in_step c no_progress empty_target eq_refl)).
  refine (conj Hs (conj Hstep (conj eq_refl _))).
  pose proof (resumed_call_continues c unsteady_target fair_weather 3 5 no_progress
                (tracker st1) empty_target (rollback (target st1)) Hs Hstep eq_refl)
    as (_ & Hpages & _).
  exact Hpages.
Defined.

(** What the two calls of that example transfer. *)
Example resumed_pages :
  let c := orders_call 3 10 7 in
  let st1 := final_state (migrate_table_data c unsteady_target 3 no_progress empty_target) in
  let st2 := final_state (migrate_table_data c fair_weather 5 (tracker st1)
                            (rollback (target st1))) in
  (fmap (M := list) (fun r => default PNone (dict_get r "id")) <$> transferred (events st1))
  = [[PInt 1; PInt 2; PInt 3]]
  ∧ (fmap (M := list) (fun r => default PNone (dict_get r "id")) <$> transferred (events st2))
    = [[PInt 4; PInt 5; PInt 6]; [PInt 7]]
  ∧ length (committed (target st2)) = 7%nat.
Proof. vm_compute. done. Qed.

(** X8 on the text {7, x ,,'-3', 1_0} for a column of type integer[]. *)
Lemma brace_literal_always_converts_witness :
  is_array_type "integer[]" = true
  ∧ Str.startswith "{" "{7, x ,,'-3', 1_0}" = true
  ∧ Str.endswith "}" "{7, x ,,'-3', 1_0}" = true
  ∧ convert_data_for_insert (PStr "{7, x ,,'-3', 1_0}") (Some "integer[]")
    = Ok (PList [PInt 7; PStr "x"; PStr "-3"; PInt 10]).
Proof.
  refine (conj eq_refl (conj eq_refl (conj eq_refl _))).
  pose proof (brace_literal_always_converts "integer[]" "{7, x ,,'-3', 1_0}"
                eq_refl eq_refl eq_refl) as Hconv.
  rewrite Hconv. vm_compute. reflexivity.
Defined.

(** X9 on the integers 1, -20 and 0 for a column of type BIGINT[]. *)
Lemma integer_array_literal_reads_back_witness :
  is_array_type "BIGINT[]" = true
  ∧ str_in (base_type_of "BIGINT[]") integer_types = true
  ∧ convert_data_for_insert (PStr "{1,-20,0}") (Some "BIGINT[]")
    = Ok (PList [PInt 1; PInt (-20); PInt 0]).
Proof.
  refine (conj eq_refl (conj eq_refl _)).
  exact (integer_array_literal_reads_back "BIGINT[]" [1; -20; 0] eq_refl eq_refl).
Defined.

(** X10 on a text that is no JSON, for a column of type jsonb. *)
Lemma json_column_text_is_json_witness :
  str_in (Str.lower "jsonb") ["json"; "jsonb"] = true
  ∧ convert_data_for_insert (PStr "not json") (Some "jsonb")
    = Ok (PStr (Json.encode_str "not json"))
  ∧ ∃ s' v, PStr (Json.encode_str "not json") = PStr s' ∧ Json.loads s' = Ok v
      ∧ ((s' = "not json" ∧ Json.loads "not json" = Ok v)
         ∨ (s' = Json.encode_str "not json" ∧ v = PStr "not json"
            ∧ Json.loads "not json" = Raise JSONDecodeError)).
Proof.
  assert (convert_data_for_insert (PStr "not json") (Some "jsonb")
          = Ok (PStr (Json.encode_str "not json"))) as Hconv by (vm_compute; reflexivity).
  refine (conj eq_refl (conj Hconv _)).
  exact (json_column_text_is_json "jsonb" "not json" _ eq_refl Hconv).
Defined.

(** X12 on the table orders of seven rows, read in chunks of three while
    the commit fails on every second pass, from a tracker without a file. *)
Lemma progress_file_follows_tracker_witness :
  let c := orders_call 3 10 7 in
  let st := final_state (migrate_table_data c unsteady_target 12 no_progress empty_target) in
  sound_source c ∧ in_step c (progress (initial_state c no_progress empty_target))
  ∧ on_file no_progress
  ∧ ProgressTracker_init (progress_file (tracker st)) = Some (tracker st).
Proof.
  intros c st.
  assert (sound_source c) as Hs by (apply sound_sourceb_sound; vm_compute; reflexivity).
  assert (in_step c (progress (initial_state c no_progress empty_target))) as Hstep
    by exact (proj1 (fresh_in_step c no_progress empty_target eq_refl)).
  assert (on_file no_progress) as Hfile by reflexivity.
  refine (conj Hs (conj Hstep (conj Hfile _))).
  pose proof (progress_file_follows_tracker c unsteady_target 12 no_progress
                empty_target Hs Hstep Hfile) as [Hinit _].
  exact Hinit.
Defined.

(** X13 on the same run, which returns, and a second call on a target that
    fails at every commit. *)
Lemma returned_table_is_skipped_witness :
  let c := orders_call 3 10 7 in
  let st := final_state (migrate_table_data c unsteady_target 12 no_progress empty_target) in
  on_file no_progress
  ∧ migrate_table_data c unsteady_target 12 no_progress empty_target = Returned st
  ∧ ProgressTracker_init (progress_file (tracker st)) = Some (tracker st)
  ∧ migrate_table_data c (faults_then_fair 5) 5 (tracker st) empty_target
    = Returned {| progress := progress st; shared := true; tracker := tracker st;
                  target := empty_target; events := [] |}.
Proof.
  intros c st.
  assert (on_file no_progress) as Hfile by reflexivity.
  assert (migrate_table_data c unsteady_target 12 no_progress empty_target = Returned st)
    as Hrun by (vm_compute; reflexivity).
  assert (ProgressTracker_init (progress_file (tracker st)) = Some (tracker st)) as Hinit
    by (vm_compute; reflexivity).
  refine (conj Hfile (conj Hrun (conj Hinit _))).
  pose proof (returned_table_is_skipped c unsteady_target (faults_then_fair 5) 12 5
                no_progress (tracker st) empty_target empty_target st Hfile Hrun Hinit)
    as [_ Hskip].
  exact Hskip.
Defined.

(** X14 on the lines of orders, paged in chunks of three on the column of
    the order, which two lines share. *)
Lemma pages_never_go_back_witness :
  let c := lines_call in
  let st := final_state (migrate_table_data c fair_weather 5 no_progress empty_target) in
  paging_key c = Some "order_id" ∧ keys_print c "order_id"
  ∧ ∀ evs1 evs2 p k page r,
      events st = evs1 ++ Save p :: evs2 → records_key p k →
      page ∈ pages evs2 → r ∈ page → strict key_le k (row_key "order_id" r).
Proof.
  intros c st.
  assert (paging_key c = Some "order_id") as Hpk by reflexivity.
  assert (keys_print c "order_id") as Hkeys.
  { unfold keys_print. cbn [source_rows c lines_call].
    repeat (constructor; [by intros v [= <-]|]). constructor. }
  refine (conj Hpk (conj Hkeys _)).
  pose proof (pages_never_go_back c "order_id" fair_weather 5 no_progress empty_target
                Hpk Hkeys) as [_ Hback].
  exact Hback.
Defined.

(** The run of that call: the fourth line, which shares its order with the
    last line of the first page, is in no page, and the call returns with
    the checkpoint completed on four of the five rows. *)
Example skipped_line :
  let st := final_state
              (migrate_table_data lines_call fair_weather 5 no_progress empty_target) in
  pages (events st)
  = [[order_line 1 1; order_line 2 1; order_line 3 2]; [order_line 5 3]; []]
  ∧ migrate_table_data lines_call fair_weather 5 no_progress empty_target = Returned st
  ∧ migrated_rows (progress st) = 4 ∧ completed (progress st) = true.
Proof. vm_compute. done. Qed.

(** X15 on a file with comments, a blank line, a section header, padded and
    quoted values, a value that holds the sign, and two ports. *)
Lemma written_config_is_read_witness :
  let ending := String carriage_return (String newline EmptyString) in
  line_ending ending = true
  ∧ Forall (fun l => well_formed l = true) staging_file
  ∧ load_config_from_file (FileContent (file_text ending staging_file))
    = Loaded {| host := Some "db.example.org"; port := 5433; user := None;
                password := Some " a=b c"; database := None; schema := "public" |}.
Proof.
  intros ending.
  assert (line_ending ending = true) as He by reflexivity.
  assert (Forall (fun l => well_formed l = true) staging_file) as Hdoc
    by (repeat constructor).
  refine (conj He (conj Hdoc _)).
  pose proof (written_config_is_read ending staging_file He Hdoc) as Hload.
  rewrite Hload. reflexivity.
Defined.

(** X16 on a file whose port is a name. *)
Lemma readable_config_fails_on_port_only_witness :
  let text := "DatabaseConfig_host=localhost" +:+ String newline "DatabaseConfig_port=default" in
  load_config_from_file (FileContent text) = LoadError PlainException
  ∧ ∃ d t, parse_config_lines ∅ (file_lines text) = Ok d
           ∧ d !! "DatabaseConfig_port" = Some t ∧ Py.int_of_str t = None.
Proof.
  intros text.
  assert (load_config_from_file (FileContent text) = LoadError PlainException) as Hload
    by (vm_compute; reflexivity).
  refine (conj Hload _).
  pose proof (readable_config_fails_on_port_only text PlainException Hload) as [_ Hport].
  exact Hport.
Defined.

(** X18 on the table orders, when the query lists the note without a
    type. *)
Lemma cell_type_falls_back_to_text_witness :
  let c := orders_call 3 10 7 in
  let answer := Ok [("id", Some "integer"); ("note", None)] in
  source_column_types c = get_column_types answer
  ∧ default "text" (column_types c !! "note") = "text"
  ∧ default "text" (column_types c !! "id") = "integer".
Proof.
  intros c answer.
  assert (source_column_types c = get_column_types answer) as Hsrc
    by (vm_compute; reflexivity).
  refine (conj Hsrc (conj _ _)).
  - exact (cell_type_falls_back_to_text c answer "note" Hsrc).
  - pose proof (cell_type_falls_back_to_text c answer "id" Hsrc) as Hid. exact Hid.
Defined.

(** X19 on two sequences, one of them owned by a column. *)
Lemma owners_found_are_set_witness :
  let found := [("orders_id_seq", Some ("orders", "id")); ("scratch_seq", None)] in
  let db := {| applied := []; open_transaction := [] |} in
  (∀ j item, found !! j = Some item → goes_through (fun _ => false) j item = true)
  ∧ open_transaction db = []
  ∧ set_sequence_ownership "public" (fun _ => false) (sequences_found found) db
    = {| applied := [alter_cmd "public" "orders_id_seq" "orders" "id"];
         open_transaction := [] |}.
Proof.
  intros found db.
  assert (∀ j item, found !! j = Some item → goes_through (fun _ => false) j item = true)
    as Hall.
  { intros [|[|j]] item; cbn; intros [= <-]; reflexivity. }
  refine (conj Hall (conj eq_refl _)).
  exact (owners_found_are_set "public" (fun _ => false) found db Hall eq_refl).
Defined.

(** X20 on three sequences, the second owned by a column of a table whose
    name holds a dot. *)
Lemma failed_owner_discards_earlier_witness :
  let pre := [("orders_id_seq", Some ("orders", "id"))] in
  let bad := ("log_id_seq", Some ("audit.log", "id")) in
  let post := [("users_id_seq", Some ("users", "id"))] in
  let db := {| applied := []; open_transaction := [] |} in
  fails (fun _ => false) (length pre) bad = true
  ∧ (∀ j item, post !! j = Some item →
       goes_through (fun _ => false) (S (length pre) + j) item = true)
  ∧ set_sequence_ownership "public" (fun _ => false)
      (sequences_found (pre ++ bad :: post)) db
    = {| applied := [alter_cmd "public" "users_id_seq" "users" "id"];
         open_transaction := [] |}.
Proof.
  intros pre bad post db.
  assert (∀ j item, post !! j = Some item →
            goes_through (fun _ => false) (S (length pre) + j) item = true) as Hpost.
  { intros [|j] item; cbn; intros [= <-]; reflexivity. }
  refine (conj eq_refl (conj Hpost _)).
  exact (failed_owner_discards_earlier "public" (fun _ => false) pre post bad db
           eq_refl Hpost).
Defined.

(** X21 on the default of a serial column. *)
Lemma sequence_default_moves_schema_witness :
  all_chars (fun c => negb (Ascii.eqb "'"%char c)) "nextval(" = true
  ∧ Str.contains ("'" +:+ "prod" +:+ ".") "orders_id_seq'::regclass)" = false
  ∧ adjusted_default "prod" "stage" "nextval('prod.orders_id_seq'::regclass)"
    = "nextval('stage.orders_id_seq'::regclass)".
Proof.
  refine (conj eq_refl (conj eq_refl _)).
  exact (proj1 (sequence_default_moves_schema "prod" "stage" "nextval("
                  "orders_id_seq'::regclass)" eq_refl eq_refl)).
Defined.

(** X22 on a table of two columns with a key of both. *)
Lemma created_table_has_its_key_witness :
  let id := {| col_name := "id"; data_type_val := "integer"; max_length := None;
               nullable := "NO";
               col_default := Some "nextval('prod.lines_id_seq'::regclass)";
               num_precision := Some 32; num_scale := Some 0;
               udt_name_val := Some "int4"; array_type_val := None |} in
  let code := {| col_name := "code"; data_type_val := "character varying";
                 max_length := Some 12; nullable := "YES"; col_default := None;
                 num_precision := None; num_scale := None;
                 udt_name_val := Some "varchar"; array_type_val := None |} in
  let db := {| applied := []; open_transaction := [] |} in
  open_transaction db = []
  ∧ create_table_if_not_exists "prod" "stage" "lines" (Ok [id; code])
      (Ok ["id"; "code"]) false false db
    = Created
        {| applied :=
             [Str.dq ("CREATE TABLE 'stage'.'lines' ('id' integer NOT NULL DEFAULT ")
              +:+ "nextval('stage.lines_id_seq'::regclass), "
              +:+ Str.dq "'code' character varying(12), PRIMARY KEY ('id', 'code'))"];
           open_transaction := [] |}.
Proof.
  intros id code db. refine (conj eq_refl _).
  pose proof (created_table_has_its_key "prod" "stage" "lines" id [code] "id" ["code"]
                db eq_refl) as [Hcreated _].
  rewrite Hcreated. vm_compute. reflexivity.
Defined.

(** X23 on the table orders, transferred a second time, without its
    checkpoint and with a commit that fails on every second pass, onto the
    target that a first transfer has filled. *)
Lemma rerun_inserts_nothing_witness :
  let c := orders_call 3 10 7 in
  let db := target (final_state
                      (migrate_table_data c fair_weather 12 no_progress empty_target)) in
  sound_source c ∧ in_step c (progress (initial_state c no_progress db))
  ∧ pending db = []
  ∧ Forall (fun r => existsb (conflict (sent_row c r)) (committed db) = true)
      (source_rows c)
  ∧ length (committed db) = 7%nat
  ∧ committed (target (final_state
                         (migrate_table_data c unsteady_target 12 no_progress db)))
    = committed db.
Proof.
  intros c db.
  assert (sound_source c) as Hs by (apply sound_sourceb_sound; vm_compute; reflexivity).
  assert (in_step c (progress (initial_state c no_progress db))) as Hstep
    by exact (proj1 (fresh_in_step c no_progress db eq_refl)).
  assert (pending db = []) as Hdb by (vm_compute; reflexivity).
  assert (Forall (fun r => existsb (conflict (sent_row c r)) (committed db) = true)
            (source_rows c)) as Hknown.
  { apply Forall_forall. intros r Hr.
    assert (forallb (fun r => existsb (conflict (sent_row c r)) (committed db))
              (source_rows c) = true) as Hall by (vm_compute; reflexivity).
    rewrite forallb_forall in Hall. by apply Hall, list_elem_of_In. }
  assert (length (committed db) = 7%nat) as Hlen by (vm_compute; reflexivity).
  refine (conj Hs (conj Hstep (conj Hdb (conj Hknown (conj Hlen _))))).
  pose proof (rerun_inserts_nothing c unsteady_target 12 no_progress db
                Hs Hstep Hdb Hknown) as Hrerun.
  exact Hrerun.
Defined.
